(** * TopoNetX: path complexes and simplicial complexes

    A shallow embedding of [toponetx/classes/path_complex.py] and of the
    operator part of [toponetx/classes/simplicial_complex.py], together with
    the properties of the face lattice and of the boundary operators that the
    specification states about them. *)

From Stdlib Require Import ZArith List String Ascii Lia Permutation Sorted.
From Stdlib Require Import DecimalString.
From stdpp Require Import gmap strings list sorting.

Local Open Scope Z_scope.

(** ** Python values *)

(** Exceptions that the embedded code can raise. *)
Inductive PyError : Type :=
| ValueError
| KeyError
| IndexError
| TypeError
| AssertionError
| UnboundLocalError.

Inductive Result (A : Type) : Type :=
| Ok (a : A)
| Raise (e : PyError).
Arguments Ok {A} a.
Arguments Raise {A} e.

#[global] Instance PyError_eq_dec : EqDecision PyError.
Proof. solve_decision. Defined.

#[global] Instance Result_eq_dec {A : Type} `{EqDecision A} :
  EqDecision (Result A).
Proof. solve_decision. Defined.

(** Node identifiers are hashable Python values; the code distinguishes
    integers and strings ([isinstance(path, int) or isinstance(path, str)]). *)
Inductive Node : Type :=
| NInt (z : Z)
| NStr (s : string).

#[global] Instance Node_eq_dec : EqDecision Node.
Proof. solve_decision. Defined.

Definition Node_to_sum (n : Node) : Z + string :=
  match n with NInt z => inl z | NStr s => inr s end.

Definition Node_of_sum (x : Z + string) : Node :=
  match x with inl z => NInt z | inr s => NStr s end.

#[global] Instance Node_countable : Countable Node.
Proof.
  apply (inj_countable' Node_to_sum Node_of_sum).
  intros []; reflexivity.
Defined.

(** [str(x)]: decimal notation for an integer, the string itself otherwise. *)
Definition str (n : Node) : string :=
  match n with
  | NInt z => NilZero.string_of_int (Z.to_int z)
  | NStr s => s
  end.

(** [a > b] on Python strings: lexicographic on code points. *)
Definition str_gt (a b : string) : bool :=
  match String.compare a b with Gt => true | _ => false end.

(** A p-path is a tuple of nodes. *)
Abbreviation Path := (list Node).

(** Attribute stores are string-keyed dictionaries; they are only looked up
    and updated, never iterated, so their order is not modelled. *)
Abbreviation Attrs := (gmap string Z).

(** [d.update(attr)]: the keys of [attr] overwrite those of [d]. *)
Definition attrs_update (d attr : Attrs) : Attrs := attr ∪ d.

(** Comparison of tuples: lexicographic, a proper prefix is smaller. *)
Fixpoint tuple_compare {A : Type} (cmp : A -> A -> comparison)
  (x y : list A) : comparison :=
  match x, y with
  | [], [] => Eq
  | [], _ :: _ => Lt
  | _ :: _, [] => Gt
  | a :: x', b :: y' =>
      match cmp a b with
      | Eq => tuple_compare cmp x' y'
      | c => c
      end
  end.

Definition tuple_le {A : Type} (cmp : A -> A -> comparison)
  (x y : list A) : bool :=
  match tuple_compare cmp x y with Gt => false | _ => true end.

(** [sorted(l, key=key)] with keys compared by [le]: a stable sort; an
    element is placed before the first element that is not smaller. *)
Fixpoint sorted_insert {A : Type} (le : A -> A -> bool) (x : A)
  (l : list A) : list A :=
  match l with
  | [] => [x]
  | y :: l' => if le x y then x :: l else y :: sorted_insert le x l'
  end.

Fixpoint sorted {A : Type} (le : A -> A -> bool) (l : list A) : list A :=
  match l with
  | [] => []
  | x :: l' => sorted_insert le x (sorted le l')
  end.

(** Python indexing [l[i]]: a negative index counts from the end. *)
Definition py_norm_index (len : nat) (i : Z) : option nat :=
  if (0 <=? i) && (i <? Z.of_nat len) then Some (Z.to_nat i)
  else if (i <? 0) && (- Z.of_nat len <=? i) then Some (Z.to_nat (Z.of_nat len + i))
  else None.

Definition py_index {A : Type} (l : list A) (i : Z) : option A :=
  match py_norm_index (length l) i with
  | Some n => l !! n
  | None => None
  end.

(** [enumerate(l)], with the positions as integers and as naturals. *)
Definition enumerate {A : Type} (l : list A) : list (Z * A) :=
  zip (map Z.of_nat (seq 0 (length l))) l.

Definition enumerate_nat {A : Type} (l : list A) : list (nat * A) :=
  zip (seq 0 (length l)) l.

(** [l[0:i] + l[(i + 1):]] *)
Definition delete_at {A : Type} (i : nat) (l : list A) : list A :=
  take i l ++ drop (S i) l.

(** [(-1) ** i] *)
Definition sign (i : nat) : Z := if Nat.even i then 1 else -1.

(** The order in which a hash set is iterated is not fixed by the language,
    and in CPython it depends on how the set was built, not only on its
    elements: two equal frozensets can iterate differently. The development
    is parametric in it.
    - [set_order] enumerates a set given by the list of its elements, in
      some order.
    - [frozenset_order] is the order in which a frozenset of integers that
      is a key of a face lattice iterates, whatever way it was built.
    - [face_order simplex left_out] is the order in which the frozenset
      [frozenset(simplex).difference({left_out})], built from the tuple
      [simplex], iterates. Nothing ties it to [frozenset_order]. *)
Class SetIteration : Type := {
  set_order : forall A : Type, list A -> list A;
  set_order_perm : forall (A : Type) (l : list A), Permutation (set_order A l) l;
  frozenset_order : list Z -> list Z;
  frozenset_order_perm : forall l : list Z, Permutation (frozenset_order l) l;
  face_order : list Z -> Z -> list Z;
  face_order_perm : forall (simplex : list Z) (left_out : Z),
    NoDup simplex ->
    Permutation (face_order simplex left_out)
      (filter (fun x => x <> left_out) simplex)
}.
Arguments set_order {_ _} l.

(** One possible order: the order in which the elements are listed. *)
Definition list_order : SetIteration :=
  {| set_order := fun A l => l;
     set_order_perm := fun A l => Permutation_refl l;
     frozenset_order := fun l => l;
     frozenset_order_perm := fun l => Permutation_refl l;
     face_order := fun simplex left_out =>
       filter (fun x => x <> left_out) simplex;
     face_order_perm := fun simplex left_out _ => Permutation_refl _ |}.

(** *** The order of CPython for small sets of small integers

    A set of at most four elements is a table of 8 slots. The hash of an
    integer [0 <= x < 2 ** 61 - 1] is [x]. [set_add_entry] puts a key in the
    first free slot of the probe sequence [i = hash & 7],
    [perturb >>= 5; i = (i * 5 + 1 + perturb) & 7] (with a mask of 7 no
    linear probe is made), and iteration goes through the slots in order. *)
Fixpoint cpython_probes (fuel : nat) (i perturb : Z) : list Z :=
  match fuel with
  | O => []
  | S fuel' =>
      i :: cpython_probes fuel'
             (Z.land (i * 5 + 1 + Z.shiftr perturb 5) 7) (Z.shiftr perturb 5)
  end.

(** The slot that a key with hash [hash] gets when the slots [used] are
    taken; 8 stands for a table that has no room, which does not arise for
    four keys. *)
Definition cpython_slot (used : list Z) (hash : Z) : Z :=
  default 8 (head (filter (fun i => i ∉ used)
                     (cpython_probes 64 (Z.land hash 7) hash))).

Definition cpython_add (table : list (Z * Z)) (key : Z) : list (Z * Z) :=
  table ++ [(cpython_slot (map fst table) key, key)].

(** [tuple(frozenset(keys))]: the keys are added in the order of [keys] and
    read back in the order of their slots. *)
Definition cpython_iter (keys : list Z) : list Z :=
  map snd (merge_sort (fun a b : Z * Z => fst a <= fst b)
             (H := fun a b => decide (fst a <= fst b))
             (fold_left cpython_add keys [])).

(** [s.difference({left_out})]: for a set [s] of fewer than 8 elements
    [set_difference] goes through the table of [s] and adds the keys that
    are not [left_out] to a new set. The keys of a face lattice are taken to
    be built from the sorted tuple of their nodes. *)
Definition cpython_order : SetIteration.
Proof.
  assert (Hfold : forall (l : list Z) (acc : list (Z * Z)),
            map snd (fold_left cpython_add l acc) = map snd acc ++ l).
  { induction l as [|x l IH]; intros acc; simpl; [now rewrite app_nil_r|].
    rewrite IH. unfold cpython_add. rewrite map_app. simpl.
    now rewrite <- app_assoc. }
  assert (Hiter : forall l : list Z, Permutation (cpython_iter l) l).
  { intros l. unfold cpython_iter.
    rewrite (merge_sort_Permutation _ _). now rewrite Hfold. }
  refine
    {| set_order := fun A l => l;
       set_order_perm := fun A l => Permutation_refl l;
       frozenset_order := fun l => cpython_iter (sorted Z.leb l);
       frozenset_order_perm := _;
       face_order := fun simplex left_out =>
         cpython_iter (filter (fun x => x <> left_out) (cpython_iter simplex));
       face_order_perm := _ |}.
  - intros l. rewrite Hiter.
    induction l as [|x l IH]; simpl; [reflexivity|].
    transitivity (x :: sorted Z.leb l); [|now constructor].
    generalize (sorted Z.leb l). intros l'.
    induction l' as [|y l' IH']; simpl; [reflexivity|].
    destruct (x <=? y); [reflexivity|].
    rewrite IH'. apply perm_swap.
  - intros simplex left_out _. rewrite Hiter.
    apply filter_Permutation, Hiter.
Defined.

(** ** Insertion-ordered dictionaries *)

Module PyDict.

Abbreviation dict K V := (list (K * V)).

Section Ops.
Context {K V : Type} `{EqDecision K}.

Fixpoint get (d : dict K V) (k : K) : option V :=
  match d with
  | [] => None
  | (k', v) :: d' => if decide (k = k') then Some v else get d' k
  end.

Definition mem (d : dict K V) (k : K) : bool :=
  match get d k with Some _ => true | None => false end.

(** [d[k] = v]: an existing key keeps its position, a new key goes last. *)
Fixpoint set (d : dict K V) (k : K) (v : V) : dict K V :=
  match d with
  | [] => [(k, v)]
  | (k', v') :: d' =>
      if decide (k = k') then (k', v) :: d' else (k', v') :: set d' k v
  end.

(** [del d[k]] on a key that is present. *)
Fixpoint del (d : dict K V) (k : K) : dict K V :=
  match d with
  | [] => []
  | (k', v') :: d' => if decide (k = k') then d' else (k', v') :: del d' k
  end.

Definition keys (d : dict K V) : list K := map fst d.

End Ops.

(** [{x: i for i, x in enumerate(l)}] *)
Definition index_dict {K : Type} `{EqDecision K} (l : list K) : dict K Z :=
  fold_left (fun d '(i, x) => set d x i) (enumerate l) [].

End PyDict.

(** ** Sparse matrices

    A matrix is kept in coordinate form, as [scipy.sparse.coo_matrix] takes
    it: a shape and a list of (row, column, value) triples whose duplicates
    add up. The values that occur are small integers, which [float32]
    represents exactly, so entries are integers. *)

Record Matrix : Type := {
  nrows : Z;
  ncols : Z;
  entries : list (Z * Z * Z)
}.

Definition sum_Z (l : list Z) : Z := fold_right Z.add 0 l.

(** The value of entry (i, j). *)
Definition mat_get (m : Matrix) (i j : Z) : Z :=
  sum_Z (map (fun '(r, c, v) => if (r =? i) && (c =? j) then v else 0)
           (entries m)).

Definition mat_transpose (m : Matrix) : Matrix :=
  {| nrows := ncols m; ncols := nrows m;
     entries := map (fun '(r, c, v) => (c, r, v)) (entries m) |}.

(** [a @ b]; the inner dimensions have to agree. *)
Definition mat_mul (a b : Matrix) : Result Matrix :=
  if ncols a =? nrows b
  then Ok {| nrows := nrows a; ncols := ncols b;
             entries :=
               flat_map (fun '(i, k, x) =>
                 flat_map (fun '(k', j, y) =>
                   if k =? k' then [(i, j, x * y)] else []) (entries b))
                 (entries a) |}
  else Raise ValueError.

(** [a + b]; the shapes have to agree. *)
Definition mat_add (a b : Matrix) : Result Matrix :=
  if (nrows a =? nrows b) && (ncols a =? ncols b)
  then Ok {| nrows := nrows a; ncols := ncols a;
             entries := entries a ++ entries b |}
  else Raise ValueError.

Definition range (n : Z) : list Z := map Z.of_nat (seq 0 (Z.to_nat n)).

(** [abs(m)]: duplicates are summed first. *)
Definition mat_abs (m : Matrix) : Matrix :=
  {| nrows := nrows m; ncols := ncols m;
     entries :=
       flat_map (fun i => map (fun j => (i, j, Z.abs (mat_get m i j)))
                            (range (ncols m)))
                (range (nrows m)) |}.

(** [m.setdiag(0)] *)
Definition mat_setdiag0 (m : Matrix) : Matrix :=
  {| nrows := nrows m; ncols := ncols m;
     entries := filter (fun '(r, c, _) => negb (r =? c)) (entries m) |}.

Definition mat_eye (n : Z) : Matrix :=
  {| nrows := n; ncols := n; entries := map (fun i => (i, i, 1)) (range n) |}.

(** Two matrices are the same when they have the same shape and entries. *)
Definition mat_equiv (a b : Matrix) : Prop :=
  nrows a = nrows b /\ ncols a = ncols b /\
  forall i j, mat_get a i j = mat_get b i j.

Definition mat_is_zero (m : Matrix) : Prop :=
  forall i j, mat_get m i j = 0.

(** ** Path complexes *)

Module PathComplex.
Import PyDict.

(** The face lattice: one dictionary per rank, from p-paths to attributes. *)
Record PathView : Type := {
  faces_dict : list (dict Path Attrs);
  max_dim : Z
}.

(** Modelled from the spec: the class [PathView] of
    [toponetx/classes/reportviews.py] is not part of the sources at hand; a
    complex is created empty, with no rank bucket and dimension -1. *)
Definition PathView_new : PathView := {| faces_dict := []; max_dim := -1 |}.

Record state : Type := {
  _path_set : PathView;
  _reserve_sequence_order : bool;
  _allowed_paths : gset Path
}.

Definition with_faces_dict (fd : list (dict Path Attrs)) (c : state) : state :=
  {| _path_set := {| faces_dict := fd; max_dim := max_dim (_path_set c) |};
     _reserve_sequence_order := _reserve_sequence_order c;
     _allowed_paths := _allowed_paths c |}.

Definition with_max_dim (d : Z) (c : state) : state :=
  {| _path_set := {| faces_dict := faces_dict (_path_set c); max_dim := d |};
     _reserve_sequence_order := _reserve_sequence_order c;
     _allowed_paths := _allowed_paths c |}.

Definition with_allowed_paths (a : gset Path) (c : state) : state :=
  {| _path_set := _path_set c;
     _reserve_sequence_order := _reserve_sequence_order c;
     _allowed_paths := a |}.

(** *** Methods that mutate the complex

    A method is a function from the complex to an outcome and the complex it
    leaves behind; an exception keeps whatever was mutated before it. *)
Definition M (A : Type) : Type := state -> Result A * state.

Definition ret {A : Type} (a : A) : M A := fun c => (Ok a, c).

Definition raise {A : Type} (e : PyError) : M A := fun c => (Raise e, c).

Definition bind {A B : Type} (m : M A) (k : A -> M B) : M B :=
  fun c =>
    match m c with
    | (Ok a, c') => k a c'
    | (Raise e, c') => (Raise e, c')
    end.

Definition get_state : M state := fun c => (Ok c, c).

Definition modify (f : state -> state) : M unit := fun c => (Ok tt, f c).

Definition or_raise {A : Type} (e : PyError) (o : option A) : M A :=
  match o with Some a => ret a | None => raise e end.

Declare Scope py_scope.
Delimit Scope py_scope with py.
Notation "x <- m ;; k" := (bind m (fun x => k))
  (at level 100, m at next level, right associativity) : py_scope.
Notation "m ;;; k" := (bind m (fun _ => k))
  (at level 100, right associativity) : py_scope.
Local Open Scope py_scope.

Fixpoint for_each {A : Type} (l : list A) (body : A -> M unit) : M unit :=
  match l with
  | [] => ret tt
  | x :: l' => body x ;;; for_each l' body
  end.

(** A loop that builds up a local value. *)
Fixpoint fold_m {A B : Type} (l : list A) (acc : B) (body : B -> A -> M B)
  : M B :=
  match l with
  | [] => ret acc
  | x :: l' => acc' <- body acc x ;; fold_m l' acc' body
  end.

(** [str(p[0]) > str(p[-1])]; indexing an empty tuple fails. *)
Definition str_first_gt_last (p : Path) : option bool :=
  match head p, last p with
  | Some a, Some b => Some (str_gt (str a) (str b))
  | _, _ => None
  end.

(** The canonical direction of a sub-path: reversed when its first node
    string-compares greater than its last, unless the order is reserved. *)
Definition canonical (reserve : bool) (p : Path) : option Path :=
  if reserve then Some p
  else match str_first_gt_last p with
       | Some true => Some (rev p)
       | Some false => Some p
       | None => None
       end.

(** [faces_dict[r]] *)
Definition bucket (r : Z) : M (dict Path Attrs) :=
  c <- get_state ;;
  or_raise IndexError (py_index (faces_dict (_path_set c)) r).

(** [faces_dict[r] = b], for an index that is in range. *)
Definition set_bucket (r : Z) (b : dict Path Attrs) : M unit :=
  c <- get_state ;;
  n <- or_raise IndexError
         (py_norm_index (length (faces_dict (_path_set c))) r) ;;
  modify (with_faces_dict (<[n := b]> (faces_dict (_path_set c)))).

Definition _update_faces_dict_length (path : Path) : M unit :=
  c <- get_state ;;
  let fd := faces_dict (_path_set c) in
  if (length fd <? length path)%nat
  then modify (with_faces_dict (fd ++ replicate (length path - length fd) []))
  else ret tt.

Definition _update_faces_dict_entry (path : Path) : M (option Path) :=
  let dim := Z.of_nat (length path) - 1 in
  b <- bucket dim ;;
  if mem b path then ret None
  else set_bucket dim (set b path ∅) ;;; ret (Some path).

(** [faces_dict[r][path].update(attr)] *)
Definition update_attrs (r : Z) (path : Path) (attr : Attrs) : M unit :=
  b <- bucket r ;;
  d <- or_raise KeyError (get b path) ;;
  set_bucket r (set b path (attrs_update d attr)).

(** The slices [path_[i : i + length]], longest first. *)
Definition sub_paths (path_ : Path) : list Path :=
  flat_map (fun k =>
    let len := (length path_ - k)%nat in
    map (fun i => take len (drop i path_)) (seq 0 (length path_ - len + 1)))
    (seq 0 (length path_)).

(** The body of the double loop of [add_path], for one slice. *)
Definition add_sub_path (new_paths : gset Path) (sub_path : Path)
  : M (gset Path) :=
  c <- get_state ;;
  sub_path <- or_raise IndexError
                (canonical (_reserve_sequence_order c) sub_path) ;;
  new_path <- _update_faces_dict_entry sub_path ;;
  match new_path with
  | Some p => ret ({[p]} ∪ new_paths)
  | None => ret new_paths
  end.

(** The argument of [add_path]: a single node, or a list or tuple of nodes. *)
Inductive PathArg : Type :=
| ANode (n : Node)
| ASeq (p : Path).

Definition add_path (path : PathArg) (attr : Attrs) : M unit :=
  let path := match path with ANode n => [n] | ASeq p => p end in
  let path_ := path in
  if negb (length path =? length (remove_dups path))%nat
  then raise ValueError
  else
    c <- get_state ;;
    ambiguous <-
      (if (1 <? length path_)%nat
       then gt <- or_raise IndexError (str_first_gt_last path_) ;;
            ret (gt && negb (_reserve_sequence_order c))
       else ret false) ;;
    if ambiguous : bool then raise ValueError
    else
      let rank := Z.of_nat (length path_) - 1 in
      _update_faces_dict_length path_ ;;;
      c <- get_state ;;
      (if max_dim (_path_set c) <? rank then modify (with_max_dim rank)
       else ret tt) ;;;
      b <- bucket rank ;;
      if mem b path_ then update_attrs rank path_ attr
      else
        new_paths <- fold_m (sub_paths path_) ∅ add_sub_path ;;
        (if (0 <? size (new_paths : gset Path))%nat
         then modify (fun c =>
                with_allowed_paths (_allowed_paths c ∪ new_paths) c)
         else ret tt) ;;;
        update_attrs rank path_ attr.

(** [self.add_path(path, **data)] for a dictionary [data]: its items are
    passed as keyword arguments, so a key that names a parameter of
    [add_path], [path] or [self], gets that parameter a second value and the
    call raises [TypeError] before the body runs. *)
Definition kw_clash (data : Attrs) : bool :=
  bool_decide (is_Some (data !! "path"%string)) ||
  bool_decide (is_Some (data !! "self"%string)).

Definition add_path_kw (path : PathArg) (data : Attrs) : M unit :=
  if kw_clash data then raise TypeError else add_path path data.

(** [add_paths_from] on a set of paths: the set is iterated in hash order. *)
Definition add_paths_from `{SetIteration} (paths : list Path) : M unit :=
  for_each (set_order paths) (fun p => add_path (ASeq p) ∅).

Definition dim (c : state) : Z := max_dim (_path_set c).

(** [for path in self]: the keys of all buckets, lowest rank first. *)
Definition all_paths (c : state) : list Path :=
  concat (map keys (faces_dict (_path_set c))).

Definition _remove_path (path : Path) : M unit :=
  let rank := Z.of_nat (length path) - 1 in
  b <- bucket rank ;;
  (if mem b path then set_bucket rank (del b path) else raise KeyError) ;;;
  c <- get_state ;;
  (if bool_decide (path ∈ _allowed_paths c)
   then modify (with_allowed_paths (_allowed_paths c ∖ {[path]}))
   else raise KeyError) ;;;
  b <- bucket rank ;;
  c <- get_state ;;
  if (length b =? 0)%nat && (max_dim (_path_set c) =? rank)
  then modify (with_max_dim (max_dim (_path_set c) - 1))
  else ret tt.

Definition removed_paths (node_set : list Node) (c : state) : list Path :=
  remove_dups
    (filter (fun path => Exists (fun node => node ∈ path) node_set)
       (all_paths c)).

Definition remove_nodes `{SetIteration} (node_set : list Node) : M unit :=
  c <- get_state ;;
  for_each (set_order (removed_paths node_set c)) _remove_path.

(** *** Queries *)

(** The sort key of [skeleton]: [tuple(map(str, x))], compared as tuples of
    strings. *)
Definition key_le (x y : Path) : bool :=
  tuple_le String.compare (map str x) (map str y).

Definition skeleton (c : state) (rank : Z) : Result (list Path) :=
  let fd := faces_dict (_path_set c) in
  if (rank <? Z.of_nat (length fd)) && (0 <=? rank)
  then match py_index fd rank with
       | Some b => Ok (sorted key_le (keys b))
       | None => Raise IndexError
       end
  else if rank <? 0 then Raise ValueError
  else Raise ValueError.

(** Modelled from the spec: the class [NodeView] of
    [toponetx/classes/reportviews.py] is not part of the sources at hand;
    [len(self.nodes)] is the number of cells of rank 0. *)
Definition len_nodes (c : state) : Z :=
  match faces_dict (_path_set c) with
  | [] => 0
  | b :: _ => Z.of_nat (length b)
  end.

(** The triples appended for one path of [path_dict], where
    [delete_at i path] is [path[0:i] + path[(i + 1):]]; a boundary path that
    is not allowed contributes nothing. *)
Fixpoint boundary_entries (c : state) (path_minus_1_dict : dict Path Z)
  (path : Path) (idx_path : Z) (positions : list nat)
  : Result (list (Z * Z * Z)) :=
  match positions with
  | [] => Ok []
  | i :: rest =>
      match canonical (_reserve_sequence_order c) (delete_at i path) with
      | None => Raise IndexError
      | Some boundary_path =>
          if bool_decide (boundary_path ∈ _allowed_paths c)
          then match get path_minus_1_dict boundary_path with
               | None => Raise KeyError
               | Some r =>
                   match boundary_entries c path_minus_1_dict path idx_path rest with
                   | Ok es => Ok ((r, idx_path, sign i) :: es)
                   | Raise e => Raise e
                   end
               end
          else boundary_entries c path_minus_1_dict path idx_path rest
      end
  end.

Fixpoint incidence_entries (c : state) (path_minus_1_dict : dict Path Z)
  (items : list (Path * Z)) : Result (list (Z * Z * Z)) :=
  match items with
  | [] => Ok []
  | (path, idx_path) :: rest =>
      match boundary_entries c path_minus_1_dict path idx_path
              (seq 0 (length path)) with
      | Raise e => Raise e
      | Ok es =>
          match incidence_entries c path_minus_1_dict rest with
          | Ok es' => Ok (es ++ es')
          | Raise e => Raise e
          end
      end
  end.

(** [incidence_matrix(rank, signed, index=True)] for a positive rank: the
    two index dictionaries and the matrix. *)
Definition incidence_matrix_index (c : state) (rank : Z) (signed : bool)
  : Result (dict Path Z * dict Path Z * Matrix) :=
  match skeleton c (rank - 1) with
  | Raise e => Raise e
  | Ok sk_minus_1 =>
      let path_minus_1_dict := index_dict sk_minus_1 in
      match skeleton c rank with
      | Raise e => Raise e
      | Ok sk =>
          let path_dict := index_dict sk in
          match incidence_entries c path_minus_1_dict path_dict with
          | Raise e => Raise e
          | Ok es =>
              let boundary :=
                {| nrows := Z.of_nat (length path_minus_1_dict);
                   ncols := Z.of_nat (length path_dict);
                   entries := es |} in
              Ok (path_minus_1_dict, path_dict,
                  if signed then boundary else mat_abs boundary)
          end
      end
  end.

(** [incidence_matrix(rank, signed, index=False)] *)
Definition incidence_matrix (c : state) (rank : Z) (signed : bool)
  : Result Matrix :=
  if rank <? 0 then Raise ValueError
  else if dim c <? rank then Raise ValueError
  else if rank =? 0
  then Ok (mat_abs {| nrows := 0; ncols := len_nodes c; entries := [] |})
  else match incidence_matrix_index c rank signed with
       | Ok (_, _, boundary) => Ok boundary
       | Raise e => Raise e
       end.

(** *** Construction from a graph *)

(** What the constructor reads from a [networkx] graph: its nodes and its
    edges, each with attributes, in iteration order. *)
Record Graph : Type := {
  nodes : list (Node * Attrs);
  edges : list (Node * Node * Attrs)
}.

Definition neighbors (g : Graph) (u : Node) : list Node :=
  flat_map (fun '(a, b, _) =>
    if decide (a = u) then [b] else if decide (b = u) then [a] else [])
    (edges g).

(** [nx.all_simple_paths(graph, source, target, cutoff)]: the paths without
    repeated node from [source] to [target] that have at most [cutoff]
    edges. [visited] is the current path, last node first. *)
Fixpoint simple_paths_from (g : Graph) (cutoff : nat) (visited : list Node)
  (cur target : Node) : list Path :=
  match cutoff with
  | O => []
  | S cutoff' =>
      flat_map (fun n =>
        if bool_decide (n ∈ visited) then []
        else if decide (n = target) then [rev (n :: visited)]
        else simple_paths_from g cutoff' (n :: visited) n target)
        (neighbors g cur)
  end.

Definition all_simple_paths (g : Graph) (source target : Node) (cutoff : Z)
  : list Path :=
  if decide (source = target) then []
  else simple_paths_from g (Z.to_nat cutoff) [source] source target.

(** The pairs [(node_ls[src_idx], node_ls[tgt_idx])] with
    [src_idx < tgt_idx]. *)
Fixpoint node_pairs (node_ls : list Node) : list (Node * Node) :=
  match node_ls with
  | [] => []
  | u :: rest => map (fun v => (u, v)) rest ++ node_pairs rest
  end.

Definition orient (reserve_sequence_order : bool) (p : Path) : Path :=
  if negb reserve_sequence_order
  then match str_first_gt_last p with
       | Some true => rev p
       | _ => p
       end
  else p.

Definition compute_allowed_paths (graph : Graph)
  (reserve_sequence_order : bool) (max_rank : Z) : gset Path :=
  let all_nodes_list :=
    map (fun node => [node])
      (sorted (fun x y => negb (str_gt (str x) (str y)))
         (map fst (nodes graph))) in
  let all_edges_list :=
    map (fun '(u, v, _) =>
      if negb reserve_sequence_order && str_gt (str u) (str v)
      then [v; u] else [u; v]) (edges graph) in
  let node_ls := map fst (nodes graph) in
  let all_simple :=
    flat_map (fun '(s, t) =>
      map (orient reserve_sequence_order)
        (all_simple_paths graph s t max_rank))
      (node_pairs node_ls) in
  list_to_set (all_nodes_list ++ all_edges_list ++ all_simple).

(** The [paths] argument of the constructor. *)
Inductive PathsArg : Type :=
| FromGraph (g : Graph)
| FromList (l : list Path)
| NoPaths.

Definition empty_complex (reserve_sequence_order : bool)
  (allowed_paths : gset Path) : state :=
  {| _path_set := PathView_new;
     _reserve_sequence_order := reserve_sequence_order;
     _allowed_paths := allowed_paths |}.

(** [PathComplex(paths, reserve_sequence_order=..., allowed_paths=...,
    max_rank=...)]: the outcome of the constructor and the complex built. *)
Definition init `{SetIteration} (paths : PathsArg)
  (reserve_sequence_order : bool) (allowed_paths : option (list Path))
  (max_rank : Z) : Result unit * state :=
  let c0 :=
    empty_complex reserve_sequence_order
      (match allowed_paths with
       | Some l => list_to_set l
       | None => ∅
       end) in
  match paths with
  | FromGraph g =>
      (modify (with_allowed_paths
                 (compute_allowed_paths g reserve_sequence_order max_rank)) ;;;
       for_each (nodes g) (fun '(n, data) => add_path_kw (ANode n) data) ;;;
       for_each (edges g) (fun '(u, v, data) =>
         if str_gt (str u) (str v) && negb reserve_sequence_order
         then add_path_kw (ASeq [v; u]) data
         else add_path_kw (ASeq [u; v]) data) ;;;
       c <- get_state ;;
       add_paths_from (elements (_allowed_paths c))) c0
  | FromList l =>
      if (0 <? length l)%nat
      then add_paths_from (remove_dups l) c0
      else (Ok tt, c0)
  | NoPaths => (Ok tt, c0)
  end.

(** *** Nodes and operators *)

(** [add_node(node, **attr)] for a node that is not a [Path] object: the
    node is hashable, and the call is [self.add_path([node], **attr)], which
    raises [TypeError] when [attr] has an attribute named [path]. *)
Definition add_node (node : Node) (attr : Attrs) : M unit :=
  add_path_kw (ASeq [node]) attr.

(** [incidence_matrix(rank, signed, index=True)] as the Laplacians use it:
    the index of the rows and the matrix. The index of the columns, which
    they discard, is left out; at rank 0 the index of the rows is the empty
    dictionary and the source builds the one of the columns from
    [NodeView]. *)
Definition incidence_matrix_rows (c : state) (rank : Z) (signed : bool)
  : Result (dict Path Z * Matrix) :=
  if rank <? 0 then Raise ValueError
  else if dim c <? rank then Raise ValueError
  else if rank =? 0
  then Ok ([], mat_abs {| nrows := 0; ncols := len_nodes c; entries := [] |})
  else match incidence_matrix_index c rank signed with
       | Ok (path_minus_1_dict, _, boundary) => Ok (path_minus_1_dict, boundary)
       | Raise e => Raise e
       end.

(** [coincidence_matrix(rank, signed, index=False)] *)
Definition coincidence_matrix (c : state) (rank : Z) (signed : bool)
  : Result Matrix :=
  match incidence_matrix c rank signed with
  | Ok boundary => Ok (mat_transpose boundary)
  | Raise e => Raise e
  end.

(** [up_laplacian_matrix(rank, signed, index=True)] *)
Definition up_laplacian_matrix (c : state) (rank : Z) (signed : bool)
  : Result (dict Path Z * Matrix) :=
  if (rank =? 0) || (rank <? dim c)
  then match incidence_matrix_rows c (rank + 1) true with
       | Raise e => Raise e
       | Ok (row, B_next) =>
           match mat_mul B_next (mat_transpose B_next) with
           | Raise e => Raise e
           | Ok L_up => Ok (row, if signed then L_up else mat_abs L_up)
           end
       end
  else Raise ValueError.

(** [down_laplacian_matrix(rank, signed, index=True)]; the index returned
    is the one of the rows of the incidence matrix. *)
Definition down_laplacian_matrix (c : state) (rank : Z) (signed : bool)
  : Result (dict Path Z * Matrix) :=
  if (rank <=? dim c) && (0 <? rank)
  then match incidence_matrix_rows c rank true with
       | Raise e => Raise e
       | Ok (row, B) =>
           match mat_mul (mat_transpose B) B with
           | Raise e => Raise e
           | Ok L_down => Ok (row, if signed then L_down else mat_abs L_down)
           end
       end
  else Raise ValueError.

(** [adjacency_matrix(rank, signed, index=False)] *)
Definition adjacency_matrix (c : state) (rank : Z) (signed : bool)
  : Result Matrix :=
  match up_laplacian_matrix c rank signed with
  | Raise e => Raise e
  | Ok (ind, L_up) =>
      let L_up := mat_setdiag0 L_up in
      Ok (if signed then L_up else mat_abs L_up)
  end.

(** [coadjacency_matrix(rank, signed, index=False)] *)
Definition coadjacency_matrix (c : state) (rank : Z) (signed : bool)
  : Result Matrix :=
  match down_laplacian_matrix c rank signed with
  | Raise e => Raise e
  | Ok (ind, L_down) =>
      let L_down := mat_setdiag0 L_down in
      Ok (if signed then L_down else mat_abs L_down)
  end.

End PathComplex.

(** ** Simplicial complexes *)

(** [np.power(m, k)] on a sparse matrix is a call into [numpy]; the embedding
    does not fix what it computes. Nor does it fix the array that [np.sort]
    returns for a list with an integer outside the range of [int64]: the
    element type is then [uint64], [float64] or [object], by the version of
    [numpy] and the other elements, and a [float64] need not equal the
    integer it stands for. [np_sort_wide] is that array, as the list of the
    values of its elements. *)
Class NumPy : Type := {
  np_power : Matrix -> Z -> Result Matrix;
  np_sort_wide : list Z -> list Z
}.

(** The integers that [int64] holds. *)
Definition int64 (z : Z) : bool := (- 2 ^ 63 <=? z) && (z <? 2 ^ 63).

(** [np.sort(l)] for a list of Python integers: an exact sort when every
    element is in the range of [int64]. *)
Definition np_sort `{NumPy} (l : list Z) : list Z :=
  if forallb int64 l then sorted Z.leb l else np_sort_wide l.

(** A [numpy] whose arrays hold wide integers exactly; [np.power] is left
    unsupported. *)
Definition numpy_exact : NumPy :=
  {| np_power := fun _ _ => Raise TypeError;
     np_sort_wide := sorted Z.leb |}.

Module SimplicialComplex.
Import PyDict.

(** A simplex is a frozenset of nodes. The operators sort nodes
    ([np.sort], [sorted]), which needs mutually comparable labels: nodes are
    integers here. *)
Abbreviation Simplex := (gset Z).

(** Modelled from the spec: the class [SimplexView] of
    [toponetx/classes/simplex.py] is not part of the sources at hand; as for
    paths, the face lattice is one dictionary per rank, here from simplices
    to attributes, and the highest rank in use. *)
Record SimplexView : Type := {
  faces_dict : list (dict Simplex Attrs);
  max_dim : Z
}.

Record state : Type := {
  _simplex_set : SimplexView
}.

Definition dim (sc : state) : Z := max_dim (_simplex_set sc).

Definition maxdim (sc : state) : Z := max_dim (_simplex_set sc).

(** [tuple(s)] for a frozenset [s] that is a key of the face lattice: its
    elements in the order in which the stored set iterates. [SimplexView]
    builds these sets and is not part of the sources, so the order is the
    parameter [frozenset_order]. A frozenset built elsewhere from the same
    elements has an order of its own, see [boundary_entries]. *)
Definition tuple_of `{SetIteration} (s : Simplex) : list Z :=
  frozenset_order (elements s).

Definition skeleton `{SetIteration} (sc : state) (rank : Z)
  : Result (list (list Z)) :=
  let fd := faces_dict (_simplex_set sc) in
  if rank <? Z.of_nat (length fd)
  then match py_index fd rank with
       | Some b => Ok (sorted (tuple_le Z.compare) (map tuple_of (keys b)))
       | None => Raise IndexError
       end
  else if rank <? 0 then Raise ValueError
  else Raise ValueError.

(** The entries appended for one simplex, as (row, column, value) with the
    row taken from [idx_faces] and the column from [idx_simplices]. The key
    that is looked up is [tuple(face)] for the frozenset [face] built by
    [frozenset(simplex).difference({left_out})]: its elements in the order
    [face_order], which need not be the order of the stored key with the
    same elements. *)
Fixpoint boundary_entries `{SetIteration}
  (simplex_dict_d_minus_1 : dict (list Z) Z) (simplex : list Z)
  (idx_simplex : Z) (left_outs : list (nat * Z))
  : Result (list (Z * Z * Z)) :=
  match left_outs with
  | [] => Ok []
  | (i, left_out) :: rest =>
      let face := face_order simplex left_out in
      match get simplex_dict_d_minus_1 face with
      | None => Raise KeyError
      | Some r =>
          match boundary_entries simplex_dict_d_minus_1 simplex idx_simplex rest with
          | Ok es => Ok ((r, idx_simplex, sign i) :: es)
          | Raise e => Raise e
          end
      end
  end.

Fixpoint incidence_entries `{SetIteration} `{NumPy}
  (simplex_dict_d_minus_1 : dict (list Z) Z) (items : list (list Z * Z))
  : Result (list (Z * Z * Z)) :=
  match items with
  | [] => Ok []
  | (simplex, idx_simplex) :: rest =>
      match boundary_entries simplex_dict_d_minus_1 simplex idx_simplex
              (enumerate_nat (np_sort simplex)) with
      | Raise e => Raise e
      | Ok es =>
          match incidence_entries simplex_dict_d_minus_1 rest with
          | Ok es' => Ok (es ++ es')
          | Raise e => Raise e
          end
      end
  end.

(** [incidence_matrix(rank, signed, index=True)]: the keys of the two index
    dictionaries and the matrix. The branch for rank 0 of the source comes
    after the guard [rank <= 0] and is never taken. *)
Definition incidence_matrix_index `{SetIteration} `{NumPy} (sc : state) (rank : Z)
  (signed : bool) : Result (list (list Z) * list (list Z) * Matrix) :=
  if rank <=? 0 then Raise ValueError
  else if dim sc <? rank then Raise ValueError
  else
    match skeleton sc rank with
    | Raise e => Raise e
    | Ok sk =>
        let simplex_dict_d := index_dict sk in
        match skeleton sc (rank - 1) with
        | Raise e => Raise e
        | Ok sk_minus_1 =>
            let simplex_dict_d_minus_1 := index_dict sk_minus_1 in
            match incidence_entries simplex_dict_d_minus_1 simplex_dict_d with
            | Raise e => Raise e
            | Ok es =>
                if negb (Z.of_nat (length es)
                         =? (rank + 1) * Z.of_nat (length simplex_dict_d))
                then Raise AssertionError
                else
                  let boundary :=
                    {| nrows := Z.of_nat (length simplex_dict_d_minus_1);
                       ncols := Z.of_nat (length simplex_dict_d);
                       entries := es |} in
                  Ok (keys simplex_dict_d_minus_1, keys simplex_dict_d,
                      if signed then boundary else mat_abs boundary)
            end
        end
    end.

(** [incidence_matrix(rank, signed, index=False)] *)
Definition incidence_matrix `{SetIteration} `{NumPy} (sc : state) (rank : Z)
  (signed : bool) : Result Matrix :=
  match incidence_matrix_index sc rank signed with
  | Ok (_, _, boundary) => Ok boundary
  | Raise e => Raise e
  end.

(** [coincidence_matrix(rank, signed, index=False)] *)
Definition coincidence_matrix `{SetIteration} `{NumPy} (sc : state) (rank : Z)
  (signed : bool) : Result Matrix :=
  match incidence_matrix sc rank signed with
  | Ok boundary => Ok (mat_transpose boundary)
  | Raise e => Raise e
  end.

(** [up_laplacian_matrix(rank, signed, index=True)] *)
Definition up_laplacian_matrix `{SetIteration} `{NumPy} (sc : state) (rank : Z)
  (signed : bool) : Result (list (list Z) * Matrix) :=
  if (rank =? 0) || (rank <? maxdim sc)
  then match incidence_matrix_index sc (rank + 1) true with
       | Raise e => Raise e
       | Ok (row, col, inc_next) =>
           match mat_mul inc_next (mat_transpose inc_next) with
           | Raise e => Raise e
           | Ok lap_up => Ok (row, if signed then lap_up else mat_abs lap_up)
           end
       end
  else Raise ValueError.

(** [down_laplacian_matrix(rank, signed, index=True)] *)
Definition down_laplacian_matrix `{SetIteration} `{NumPy} (sc : state) (rank : Z)
  (signed : bool) : Result (list (list Z) * Matrix) :=
  if (rank <=? maxdim sc) && (0 <? rank)
  then match incidence_matrix_index sc rank true with
       | Raise e => Raise e
       | Ok (row, column, inc) =>
           match mat_mul (mat_transpose inc) inc with
           | Raise e => Raise e
           | Ok lap_down =>
               Ok (column, if signed then lap_down else mat_abs lap_down)
           end
       end
  else Raise ValueError.

(** [adjacency_matrix(rank, signed, index=False)] *)
Definition adjacency_matrix `{SetIteration} `{NumPy} (sc : state) (rank : Z)
  (signed : bool) : Result Matrix :=
  match up_laplacian_matrix sc rank signed with
  | Raise e => Raise e
  | Ok (ind, lap_up) =>
      let lap_up := mat_setdiag0 lap_up in
      Ok (if signed then lap_up else mat_abs lap_up)
  end.

(** [coadjacency_matrix(rank, signed, index=False)] *)
Definition coadjacency_matrix `{SetIteration} `{NumPy} (sc : state) (rank : Z)
  (signed : bool) : Result Matrix :=
  match down_laplacian_matrix sc rank signed with
  | Raise e => Raise e
  | Ok (ind, lap_down) =>
      let lap_down := mat_setdiag0 lap_down in
      Ok (if signed then lap_down else mat_abs lap_down)
  end.

(** Results are threaded through the straight-line code of the k-hop
    operators; a local that was never assigned is [None]. *)
Definition rbind {A B : Type} (r : Result A) (k : A -> Result B) : Result B :=
  match r with Ok a => k a | Raise e => Raise e end.

Definition local {A : Type} (o : option A) : Result A :=
  match o with Some a => Ok a | None => Raise UnboundLocalError end.

Definition assign_if {A : Type} (cond : bool) (r : Result A)
  : Result (option A) :=
  if cond then rbind r (fun a => Ok (Some a)) else Ok None.

Definition k_hop_incidence_matrix `{SetIteration} `{NumPy} (sc : state)
  (rank k : Z) : Result Matrix :=
  rbind (incidence_matrix sc rank true) (fun inc =>
  rbind (assign_if ((rank <? dim sc) && (0 <=? rank))
           (adjacency_matrix sc rank true)) (fun adj =>
  rbind (assign_if ((rank <=? dim sc) && (0 <? rank))
           (coadjacency_matrix sc rank true)) (fun coadj =>
  if rank =? dim sc
  then rbind (local coadj) (fun coadj =>
       rbind (np_power coadj k) (fun p => mat_mul inc p))
  else if rank =? 0
  then rbind (local adj) (fun adj =>
       rbind (np_power adj k) (fun p => mat_mul inc p))
  else rbind (local adj) (fun adj =>
       rbind (np_power adj k) (fun pa =>
       rbind (mat_mul inc pa) (fun x =>
       rbind (local coadj) (fun coadj =>
       rbind (np_power coadj k) (fun pc =>
       rbind (mat_mul inc pc) (fun y => mat_add x y))))))))).

Definition k_hop_coincidence_matrix `{SetIteration} `{NumPy} (sc : state)
  (rank k : Z) : Result Matrix :=
  rbind (coincidence_matrix sc rank true) (fun coinc =>
  rbind (assign_if ((rank <? dim sc) && (0 <=? rank))
           (adjacency_matrix sc rank true)) (fun adj =>
  rbind (assign_if ((rank <=? dim sc) && (0 <? rank))
           (coadjacency_matrix sc rank true)) (fun coadj =>
  if rank =? dim sc
  then rbind (local coadj) (fun coadj =>
       rbind (np_power coadj k) (fun p => mat_mul p coinc))
  else if rank =? 0
  then rbind (local adj) (fun adj =>
       rbind (np_power adj k) (fun p => mat_mul p coinc))
  else rbind (local adj) (fun adj =>
       rbind (np_power adj k) (fun pa =>
       rbind (mat_mul pa coinc) (fun x =>
       rbind (local coadj) (fun coadj =>
       rbind (np_power coadj k) (fun pc =>
       rbind (mat_mul pc coinc) (fun y => mat_add x y))))))))).

(** *** Insertion *)

(** [itertools.combinations(l, r)] *)
Fixpoint combinations {A : Type} (l : list A) (r : nat) : list (list A) :=
  match r, l with
  | O, _ => [[]]
  | S _, [] => []
  | S r', x :: l' => map (cons x) (combinations l' r') ++ combinations l' r
  end.

Definition grow (n : nat) (fd : list (dict Simplex Attrs))
  : list (dict Simplex Attrs) :=
  fd ++ replicate (n - length fd) [].

(** Register a face in the bucket of its rank unless it is there already. *)
Definition add_face (fd : list (dict Simplex Attrs)) (face : list Z)
  : list (dict Simplex Attrs) :=
  let r := (length face - 1)%nat in
  match fd !! r with
  | Some b =>
      if mem b (list_to_set face) then fd
      else <[r := set b (list_to_set face) ∅]> fd
  | None => fd
  end.

Definition merge_attrs (fd : list (dict Simplex Attrs)) (r : nat)
  (s : Simplex) (attr : Attrs) : list (dict Simplex Attrs) :=
  match fd !! r with
  | Some b =>
      match get b s with
      | Some d => <[r := set b s (attrs_update d attr)]> fd
      | None => fd
      end
  | None => fd
  end.

Definition present (fd : list (dict Simplex Attrs)) (s : Simplex) : bool :=
  match fd !! (size s - 1)%nat with
  | Some b => mem b s
  | None => false
  end.

(** Modelled from the spec: [SimplexView.insert_simplex] of
    [toponetx/classes/simplex.py], which [add_simplex] delegates to, is not
    part of the sources at hand. A cell has at least one node and no
    duplicate node; a cell that is present has its attributes merged and
    nothing else changes; otherwise the bucket list grows to the rank of the
    cell, every subset of its nodes, from the largest to the single nodes, is
    registered at its rank unless present, and [max_dim] is brought up to the
    rank of the cell. *)
Definition insert_simplex (simplex : list Z) (attr : Attrs) (sc : state)
  : Result unit * state :=
  let n := length simplex in
  if negb (n =? length (remove_dups simplex))%nat || (n =? 0)%nat
  then (Raise ValueError, sc)
  else
    let s : Simplex := list_to_set simplex in
    let fd := grow n (faces_dict (_simplex_set sc)) in
    let md := Z.max (max_dim (_simplex_set sc)) (Z.of_nat n - 1) in
    let fd' :=
      if present fd s then fd
      else fold_left add_face
             (flat_map (fun k => combinations simplex (n - k)) (seq 0 n)) fd in
    (Ok tt,
     {| _simplex_set :=
          {| faces_dict := merge_attrs fd' (n - 1) s attr; max_dim := md |} |}).

(** [add_simplex(simplex, **attr)] *)
Definition add_simplex (simplex : list Z) (attr : Attrs) (sc : state)
  : Result unit * state :=
  insert_simplex simplex attr sc.

(** *** Queries and further operators *)

(** [shape]: a message is printed and nothing is returned when there is no
    bucket; otherwise the number of simplices of each rank. *)
Definition shape (sc : state) : option (list Z) :=
  match faces_dict (_simplex_set sc) with
  | [] => None
  | fd => Some (map (fun b => Z.of_nat (length b)) fd)
  end.

(** [iter(self)]: the keys of all buckets, lowest rank first. *)
Definition all_simplices (sc : state) : list Simplex :=
  concat (map keys (faces_dict (_simplex_set sc))).

(** The test that [get_boundaries] applies to a face, by the bounds that
    are given. *)
Definition in_bounds (min_dim max_dim : option Z) (face : list Z) : bool :=
  let n := Z.of_nat (length face) in
  match max_dim, min_dim with
  | None, None => true
  | Some hi, Some lo => (n <=? hi + 1) && (lo + 1 <=? n)
  | Some hi, None => n <=? hi + 1
  | None, Some lo => lo + 1 <=? n
  end.

(** [get_boundaries(simplices, min_dim, max_dim)]: the set of the faces
    [frozenset(sorted(face))] of the simplices that pass the bounds. *)
Definition get_boundaries (simplices : list (list Z))
  (min_dim max_dim : option Z) : gset Simplex :=
  list_to_set
    (flat_map (fun simplex =>
       let numnodes := length simplex in
       flat_map (fun k =>
         flat_map (fun face =>
           if in_bounds min_dim max_dim face
           then [list_to_set (sorted Z.leb face) : Simplex] else [])
           (combinations simplex (numnodes - k)))
         (seq 0 numnodes))
       simplices).

(** [hodge_laplacian_matrix(rank, signed, index=True)] *)
Definition hodge_laplacian_matrix `{SetIteration} `{NumPy} (sc : state) (rank : Z)
  (signed : bool) : Result (list (list Z) * Matrix) :=
  if rank =? 0
  then rbind (incidence_matrix_index sc (rank + 1) true) (fun '(row, column, inc_next) =>
       rbind (mat_mul inc_next (mat_transpose inc_next)) (fun lap =>
       Ok (row, if signed then lap else mat_abs lap)))
  else if rank <? dim sc
  then rbind (incidence_matrix_index sc (rank + 1) true) (fun '(_, _, inc_next) =>
       rbind (incidence_matrix_index sc rank true) (fun '(row, column, inc) =>
       rbind (mat_mul inc_next (mat_transpose inc_next)) (fun up =>
       rbind (mat_mul (mat_transpose inc) inc) (fun down =>
       rbind (mat_add up down) (fun lap =>
       Ok (column, if signed then lap else mat_abs lap))))))
  else if rank =? dim sc
  then rbind (incidence_matrix_index sc rank true) (fun '(row, column, inc) =>
       rbind (mat_mul (mat_transpose inc) inc) (fun lap =>
       Ok (column, if signed then lap else mat_abs lap)))
  else Raise ValueError.

End SimplicialComplex.

(** ** Notions used to state the properties *)

(** The boundary of an ordered cell as a formal sum: the faces obtained by
    deleting the node at position [i], with coefficient [(-1) ** i]. *)
Definition faces {A : Type} (s : list A) : list (Z * list A) :=
  map (fun i => (sign i, delete_at i s)) (seq 0 (length s)).

(** The value of a formal sum under a weight on cells. *)
Definition wsum {A : Type} (l : list (Z * A)) (h : A -> Z) : Z :=
  sum_Z (map (fun '(c, f) => c * h f) l).

(** A square matrix that equals its transpose. *)
Definition mat_symmetric (m : Matrix) : Prop :=
  nrows m = ncols m /\ forall i j, mat_get m i j = mat_get m j i.

Module PathSpec.
Import PyDict PathComplex.

(** The rank of a cell: its number of nodes minus one. *)
Definition rank (p : Path) : Z := Z.of_nat (length p) - 1.

(** The tuple that [add_path] works on. *)
Definition path_of (a : PathArg) : Path :=
  match a with ANode n => [n] | ASeq p => p end.

(** The two checks that [add_path] makes before it touches the complex. *)
Definition has_duplicates (p : Path) : bool :=
  negb (length p =? length (remove_dups p))%nat.

Definition ambiguous_direction (reserve : bool) (p : Path) : bool :=
  (1 <? length p)%nat && default false (str_first_gt_last p) && negb reserve.

Definition passes_validation (reserve : bool) (p : Path) : bool :=
  negb (has_duplicates p) && negb (ambiguous_direction reserve p).

(** A cell is stored at rank [r] when it is a key of bucket [r]. *)
Definition stored (c : state) (r : nat) (p : Path) : Prop :=
  exists b, faces_dict (_path_set c) !! r = Some b /\ p ∈ keys b.

Definition stored_b (c : state) (r : nat) (p : Path) : bool :=
  match faces_dict (_path_set c) !! r with
  | Some b => mem b p
  | None => false
  end.

(** The canonical form of a non-empty sub-path. *)
Definition canon (reserve : bool) (q : Path) : Path :=
  default q (canonical reserve q).

(** The contiguous sub-sequences of a cell, in canonical direction. *)
Definition sub_faces (reserve : bool) (p : Path) : list Path :=
  map (canon reserve) (sub_paths p).

(** The loop of [add_path] as a function of the bucket list and of the set
    of new paths. *)
Definition insert_step (acc : list (dict Path Attrs) * gset Path) (k : Path)
  : list (dict Path Attrs) * gset Path :=
  let r := (length k - 1)%nat in
  match fst acc !! r with
  | Some b =>
      if mem b k then acc
      else (<[r := set b k ∅]> (fst acc), {[k]} ∪ snd acc)
  | None => acc
  end.

Definition merge_attrs (fd : list (dict Path Attrs)) (r : nat) (p : Path)
  (attr : Attrs) : list (dict Path Attrs) :=
  match fd !! r with
  | Some b =>
      match get b p with
      | Some d => <[r := set b p (attrs_update d attr)]> fd
      | None => fd
      end
  | None => fd
  end.

Definition grow (fd : list (dict Path Attrs)) (n : nat)
  : list (dict Path Attrs) :=
  if (length fd <? n)%nat then fd ++ replicate (n - length fd) [] else fd.

(** The complex that a call of [add_path] that passes validation leaves. *)
Definition add_path_state (p : Path) (attr : Attrs) (c : state) : state :=
  let fd1 := grow (faces_dict (_path_set c)) (length p) in
  let md1 :=
    if max_dim (_path_set c) <? rank p then rank p
    else max_dim (_path_set c) in
  let r := (length p - 1)%nat in
  let res :=
    if mem (default [] (fd1 !! r)) p then (fd1, ∅)
    else fold_left insert_step
           (sub_faces (_reserve_sequence_order c) p) (fd1, ∅) in
  {| _path_set := {| faces_dict := merge_attrs (fst res) r p attr;
                     max_dim := md1 |};
     _reserve_sequence_order := _reserve_sequence_order c;
     _allowed_paths :=
       if (0 <? size (snd res))%nat then _allowed_paths c ∪ snd res
       else _allowed_paths c |}.

(** The complexes that the constructor and the mutating methods produce,
    whatever their outcome. *)
Inductive reachable `{SetIteration} : state -> Prop :=
| reachable_empty (reserve : bool) (allowed : gset Path) :
    reachable (empty_complex reserve allowed)
| reachable_add_path (c : state) (path : PathArg) (attr : Attrs) :
    reachable c -> reachable (snd (add_path path attr c))
| reachable_remove_nodes (c : state) (node_set : list Node) :
    reachable c -> reachable (snd (remove_nodes node_set c)).

(** The invariant of the face lattice. *)
Record wf (c : state) : Prop := {
  wf_length : forall r b p,
    faces_dict (_path_set c) !! r = Some b -> p ∈ keys b -> length p = S r;
  wf_nodup : forall r b,
    faces_dict (_path_set c) !! r = Some b -> NoDup (keys b);
  wf_allowed : forall r b p,
    faces_dict (_path_set c) !! r = Some b -> p ∈ keys b ->
    p ∈ _allowed_paths c;
  wf_max_dim : max_dim (_path_set c) < Z.of_nat (length (faces_dict (_path_set c)));
  wf_top : forall r b p,
    faces_dict (_path_set c) !! r = Some b -> p ∈ keys b ->
    Z.of_nat r <= max_dim (_path_set c);
  wf_bottom : -1 <= max_dim (_path_set c);
  wf_valid : forall r b p,
    faces_dict (_path_set c) !! r = Some b -> p ∈ keys b ->
    passes_validation (_reserve_sequence_order c) p = true
}.

(** The undirected graph with the edges (0, 1) and (1, 2). *)
Definition path_graph_3 : Graph :=
  {| nodes := [(NInt 0, ∅); (NInt 1, ∅); (NInt 2, ∅)];
     edges := [(NInt 0, NInt 1, ∅); (NInt 1, NInt 2, ∅)] |}.

(** The constructor succeeded and [skeleton(2)] is [[(0, 1, 2)]]. *)
Definition scenario_ok (r : Result unit * state) : bool :=
  bool_decide (fst r = Ok tt /\
               skeleton (snd r) 2 = Ok [[NInt 0; NInt 1; NInt 2]]).

(** A bucket is boundary-closed when its keys are distinct paths of the
    right length and every path obtained from one of them by deleting a node
    is in canonical direction as it stands, is allowed, and is stored one
    rank below. *)
Definition boundary_closed_bucket (c : state) (r : nat)
  (b : dict Path Attrs) : bool :=
  bool_decide (NoDup (keys b)) &&
  forallb (fun p =>
    (length p =? S r)%nat &&
    match r with
    | O => true
    | S r' =>
        forallb (fun i =>
          let f := delete_at i p in
          bool_decide (canonical (_reserve_sequence_order c) f = Some f) &&
          bool_decide (f ∈ _allowed_paths c) &&
          stored_b c r' f) (seq 0 (length p))
    end) (keys b).

Definition boundary_closed (c : state) : bool :=
  let fd := faces_dict (_path_set c) in
  (max_dim (_path_set c) <? Z.of_nat (length fd)) &&
  forallb (fun '(r, b) => boundary_closed_bucket c r b) (enumerate_nat fd).

(** The row that the code gives to a boundary path, the indicator weight of
    a row, and the triples appended for the path [p] at column [idx] when
    every boundary path is kept. *)
Definition path_row (d : dict Path Z) (f : Path) : Z := default 0 (get d f).

Definition path_in_row (d : dict Path Z) (a : Z) (f : Path) : Z :=
  if path_row d f =? a then 1 else 0.

Definition path_column (d : dict Path Z) (p : Path) (idx : Z)
  : list (Z * Z * Z) :=
  map (fun '(c, f) => (path_row d f, idx, c)) (faces p).

(** The closure of the face lattice: every stored cell whose direction is
    not in doubt, because the order is reserved or because its nodes have
    pairwise distinct strings, has each of its contiguous sub-sequences
    stored at its rank in canonical direction. *)
Definition sub_closed (c : state) : Prop :=
  forall r k, stored c r k ->
    _reserve_sequence_order c = true \/ NoDup (map str k) ->
    forall q, q ∈ sub_paths k ->
      stored c (length q - 1)%nat (canon (_reserve_sequence_order c) q).

(** Buckets only gain keys in the loop. *)
Definition extends (fd fd' : list (dict Path Attrs)) (added : gset Path) : Prop :=
  length fd' = length fd /\
  forall r b, fd !! r = Some b ->
    exists b', fd' !! r = Some b' /\
      (forall k v, get b k = Some v -> get b' k = Some v) /\
      (NoDup (keys b) -> NoDup (keys b')) /\
      (forall k, k ∈ keys b' -> k ∈ keys b \/ (length k = S r /\ k ∈ added /\ get b' k = Some ∅)).

(** The graph has no edge from a node to itself. *)
Definition no_self_loop (g : Graph) : Prop :=
  forall u v d, (u, v, d) ∈ edges g -> u <> v.

(** No node and no edge of the graph has an attribute named [path] or
    [self]; some node or edge has one. *)
Definition no_kw_clash (g : Graph) : Prop :=
  Forall (fun x => kw_clash x.2 = false) (nodes g) /\
  Forall (fun x => kw_clash x.2 = false) (edges g).

Definition some_kw_clash (g : Graph) : Prop :=
  Exists (fun x => kw_clash x.2 = true) (nodes g) \/
  Exists (fun x => kw_clash x.2 = true) (edges g).

(** The complexes that a user holds when no set of allowed paths was
    supplied: the constructor returned, from a graph (which replaces the
    set by the computed one) or without the [allowed_paths] argument, and
    the complex was then changed by the mutating methods. *)
Inductive built `{SetIteration} : state -> Prop :=
| built_init (paths : PathsArg) (reserve : bool)
    (allowed : option (list Path)) (max_rank : Z) :
    allowed = None \/ (exists g, paths = FromGraph g) ->
    fst (init paths reserve allowed max_rank) = Ok tt ->
    built (snd (init paths reserve allowed max_rank))
| built_add_path (c : state) (path : PathArg) (attr : Attrs) :
    built c -> built (snd (add_path path attr c))
| built_add_node (c : state) (node : Node) (attr : Attrs) :
    built c -> built (snd (add_node node attr c))
| built_remove_nodes (c : state) (node_set : list Node) :
    built c -> built (snd (remove_nodes node_set c)).

(** The complexes that the constructor leaves and that [add_path] and
    [add_node] then extend: nothing was removed from them. *)
Inductive grown `{SetIteration} : state -> Prop :=
| grown_init (paths : PathsArg) (reserve : bool)
    (allowed : option (list Path)) (max_rank : Z) :
    grown (snd (init paths reserve allowed max_rank))
| grown_add_path (c : state) (path : PathArg) (attr : Attrs) :
    grown c -> grown (snd (add_path path attr c))
| grown_add_node (c : state) (node : Node) (attr : Attrs) :
    grown c -> grown (snd (add_node node attr c)).

End PathSpec.

Module SimplexSpec.
Import PyDict SimplicialComplex.

(** A face is present at rank [r] when it is a key of bucket [r]. *)
Definition face_present (fd : list (dict Simplex Attrs)) (r : nat)
  (s : Simplex) : bool :=
  match fd !! r with
  | Some b => mem b s
  | None => false
  end.

(** A bucket is in order when its keys are distinct simplices of the right
    size whose faces, obtained by deleting one node, are present one rank
    below. *)
Definition closed_bucket (fd : list (dict Simplex Attrs)) (r : nat)
  (b : dict Simplex Attrs) : bool :=
  bool_decide (NoDup (keys b)) &&
  forallb (fun s =>
    (size s =? S r)%nat &&
    match r with
    | O => true
    | S r' => forallb (fun x => face_present fd r' (s ∖ {[x]})) (elements s)
    end) (keys b).

(** The closure invariant of the face lattice, together with the bound on
    [max_dim] that keeps every rank up to the dimension inside the list of
    buckets. *)
Definition closed_lattice (sc : state) : bool :=
  let fd := faces_dict (_simplex_set sc) in
  (max_dim (_simplex_set sc) <? Z.of_nat (length fd)) &&
  forallb (fun '(r, b) => closed_bucket fd r b) (enumerate_nat fd).

(** The sorted tuple of the nodes of a simplex. *)
Definition nodes_of (s : Simplex) : list Z := sorted Z.leb (elements s).

(** The row that the code gives to a face: its index in the dictionary of
    the rank below. *)
Definition row_of `{SetIteration} (d : dict (list Z) Z) (f : list Z) : Z :=
  default 0 (get d (tuple_of (list_to_set f))).

(** The indicator weight of row [a]. *)
Definition in_row `{SetIteration} (d : dict (list Z) Z) (a : Z) (f : list Z)
  : Z :=
  if row_of d f =? a then 1 else 0.

(** The triples that the code appends for the simplex [simplex] at column
    [idx]. *)
Definition column_entries `{SetIteration} (d : dict (list Z) Z)
  (simplex : list Z) (idx : Z) : list (Z * Z * Z) :=
  map (fun '(c, f) => (row_of d f, idx, c)) (faces (sorted Z.leb simplex)).

(** The empty simplicial complex. *)
Definition empty_complex : state :=
  {| _simplex_set := {| faces_dict := []; max_dim := -1 |} |}.

(** The complexes that [add_simplex] builds from the empty one. *)
Inductive inserted : state -> Prop :=
| inserted_empty : inserted empty_complex
| inserted_add_simplex (sc : state) (simplex : list Z) (attr : Attrs) :
    inserted sc -> inserted (snd (add_simplex simplex attr sc)).

(** The closure of the face lattice: every non-empty subset of a simplex
    that is present is present. *)
Definition down_closed (sc : state) : Prop :=
  forall X Y : gset Z,
    present (faces_dict (_simplex_set sc)) X = true ->
    Y ⊆ X -> Y <> ∅ ->
    present (faces_dict (_simplex_set sc)) Y = true.

(** What a dictionary and [SimplexView] keep of every bucket: its keys are
    distinct simplices with one node more than the rank of the bucket. *)
Definition ranked_bucket (r : nat) (b : dict Simplex Attrs) : bool :=
  bool_decide (NoDup (keys b)) &&
  forallb (fun s => (size s =? S r)%nat) (keys b).

Definition ranked_lattice (sc : state) : bool :=
  forallb (fun '(r, b) => ranked_bucket r b)
    (enumerate_nat (faces_dict (_simplex_set sc))).

Definition ranked (fd : list (dict Simplex Attrs)) : Prop :=
  forall r b, fd !! r = Some b ->
    NoDup (keys b) /\ forall s, s ∈ keys b -> size s = S r.

(** Every node of the complex is in the range of [int64], where [np.sort]
    is exact. *)
Definition int64_nodes (sc : state) : bool :=
  forallb (fun b => forallb (fun s => forallb int64 (elements s)) (keys b))
    (faces_dict (_simplex_set sc)).

(** The complex of the simplex (2, 10, 18), three nodes whose hashes collide
    in a table of 8 slots. *)
Definition colliding_complex : state :=
  snd (add_simplex [2; 10; 18] ∅ empty_complex).

End SimplexSpec.

(** * Properties *)

(** ** Sorting *)

Section Sorting.
Context {A : Type} (le : A -> A -> bool).

Lemma sorted_insert_perm (x : A) (l : list A) :
  Permutation (sorted_insert le x l) (x :: l).
Proof.
  induction l as [|y l IH]; simpl; [reflexivity|].
  destruct (le x y); [reflexivity|].
  rewrite IH. apply perm_swap.
Qed.

Lemma sorted_perm (l : list A) : Permutation (sorted le l) l.
Proof.
  induction l as [|x l IH]; simpl; [reflexivity|].
  rewrite sorted_insert_perm. now rewrite IH.
Qed.

Lemma sorted_length (l : list A) : length (sorted le l) = length l.
Proof. apply Permutation_length, sorted_perm. Qed.

Hypothesis le_total : forall x y, le x y = true \/ le y x = true.

Lemma sorted_insert_Sorted (x : A) (l : list A) :
  Sorted (fun a b => le a b = true) l ->
  Sorted (fun a b => le a b = true) (sorted_insert le x l).
Proof.
  induction l as [|y l IH]; simpl; intros Hs.
  - repeat constructor.
  - destruct (le x y) eqn:Hxy.
    + constructor; [assumption|]. constructor. assumption.
    + inversion Hs as [|? ? Hs' Hhd]; subst.
      constructor; [apply IH; assumption|].
      assert (Hyx : le y x = true).
      { destruct (le_total x y) as [H|H]; [congruence|assumption]. }
      destruct l as [|z l]; simpl.
      * constructor. assumption.
      * destruct (le x z); constructor; [assumption|].
        inversion Hhd; assumption.
Qed.

Lemma sorted_Sorted (l : list A) :
  Sorted (fun a b => le a b = true) (sorted le l).
Proof.
  induction l as [|x l IH]; simpl; [constructor|].
  apply sorted_insert_Sorted, IH.
Qed.

End Sorting.

Lemma tuple_compare_antisym {A : Type} (cmp : A -> A -> comparison) :
  (forall a b, cmp b a = CompOpp (cmp a b)) ->
  forall x y, tuple_compare cmp y x = CompOpp (tuple_compare cmp x y).
Proof.
  intros Hc x. induction x as [|a x IH]; intros [|b y]; simpl; try reflexivity.
  rewrite (Hc a b). destruct (cmp a b); simpl; auto.
Qed.

Lemma tuple_le_total {A : Type} (cmp : A -> A -> comparison) :
  (forall a b, cmp b a = CompOpp (cmp a b)) ->
  forall x y, tuple_le cmp x y = true \/ tuple_le cmp y x = true.
Proof.
  intros Hc x y. unfold tuple_le.
  rewrite (tuple_compare_antisym cmp Hc x y).
  destruct (tuple_compare cmp x y); simpl; auto.
Qed.

Lemma string_compare_refl (s : string) : String.compare s s = Eq.
Proof.
  induction s as [|a s IH]; simpl; [reflexivity|].
  unfold Ascii.compare. now rewrite N.compare_refl.
Qed.

Lemma str_gt_irrefl (s : string) : str_gt s s = false.
Proof. unfold str_gt. now rewrite string_compare_refl. Qed.

Lemma str_gt_asym (a b : string) : str_gt a b = true -> str_gt b a = false.
Proof.
  unfold str_gt. rewrite (String.compare_antisym b a).
  destruct (String.compare a b); simpl; congruence.
Qed.

(** ** Dictionaries *)

Section DictFacts.
Import PyDict.
Context {K V : Type} `{EqDecision K}.
Implicit Types (d : dict K V) (k : K) (v : V).

Lemma get_set_eq d k v : get (set d k v) k = Some v.
Proof.
  induction d as [|[k' v'] d IH]; simpl.
  - now rewrite decide_True.
  - destruct (decide (k = k')) as [->|Hne]; simpl.
    + now rewrite decide_True.
    + now rewrite decide_False.
Qed.

Lemma get_set_ne d k k' v : k <> k' -> get (set d k v) k' = get d k'.
Proof.
  intros Hne. induction d as [|[k0 v0] d IH]; simpl.
  - now rewrite decide_False by congruence.
  - destruct (decide (k = k0)) as [->|Hne0]; simpl.
    + now rewrite !decide_False by congruence.
    + destruct (decide (k' = k0)); auto.
Qed.

Lemma get_None_keys d k : get d k = None <-> k ∉ keys d.
Proof.
  unfold keys. induction d as [|[k' v'] d IH]; simpl.
  - split; [intros _; apply not_elem_of_nil | reflexivity].
  - rewrite not_elem_of_cons. destruct (decide (k = k')); split.
    + discriminate.
    + intros []; contradiction.
    + intros; split; [assumption | now apply IH].
    + intros [_ ?]; now apply IH.
Qed.

Lemma get_Some_keys d k : is_Some (get d k) <-> k ∈ keys d.
Proof.
  destruct (get d k) eqn:E.
  - split; [intros _|eauto].
    destruct (decide (k ∈ keys d)) as [|Hn]; [assumption|].
    apply get_None_keys in Hn. congruence.
  - split; [intros [? ?]; discriminate|].
    intros Hin. apply get_None_keys in E. contradiction.
Qed.

Lemma mem_keys d k : mem d k = true <-> k ∈ keys d.
Proof.
  unfold mem. rewrite <- get_Some_keys.
  destruct (get d k); split; eauto; try discriminate.
  intros [? ?]; discriminate.
Qed.

Lemma mem_false_keys d k : mem d k = false <-> k ∉ keys d.
Proof.
  rewrite <- mem_keys. destruct (mem d k); split; congruence.
Qed.

Lemma keys_set_present d k v : k ∈ keys d -> keys (set d k v) = keys d.
Proof.
  unfold keys. induction d as [|[k' v'] d IH]; simpl; intros Hin.
  - now apply elem_of_nil in Hin.
  - destruct (decide (k = k')) as [->|Hne]; simpl; [reflexivity|].
    f_equal. apply IH. apply elem_of_cons in Hin as [|]; [contradiction|assumption].
Qed.

Lemma keys_set_absent d k v : k ∉ keys d -> keys (set d k v) = keys d ++ [k].
Proof.
  unfold keys. induction d as [|[k' v'] d IH]; simpl; intros Hin; [reflexivity|].
  apply not_elem_of_cons in Hin as [Hne Hin].
  rewrite decide_False by assumption. simpl. f_equal. now apply IH.
Qed.

Lemma length_set_present d k v : k ∈ keys d -> length (set d k v) = length d.
Proof.
  intros Hin. pose proof (keys_set_present d k v Hin) as E.
  apply (f_equal (@length _)) in E.
  unfold keys in E. now rewrite !length_map in E.
Qed.

Lemma elem_of_keys_del d k k' :
  NoDup (keys d) -> k' ∈ keys (del d k) <-> k' ∈ keys d /\ k' <> k.
Proof.
  unfold keys. induction d as [|[k0 v0] d IH]; simpl; intros Hnd.
  - split; [intros Hin; now apply elem_of_nil in Hin | intros [Hin _]; assumption].
  - apply NoDup_cons in Hnd as [Hnotin Hnd].
    destruct (decide (k = k0)) as [->|Hne]; simpl.
    + rewrite elem_of_cons. split.
      * intros Hin. split; [now right|]. intros ->. contradiction.
      * intros [[->|Hin] Hne]; [contradiction|assumption].
    + rewrite !elem_of_cons, IH by assumption. split.
      * intros [->|[Hin Hne']]; split; auto.
      * intros [[->|Hin] Hne']; auto.
Qed.

Lemma NoDup_keys_del d k : NoDup (keys d) -> NoDup (keys (del d k)).
Proof.
  unfold keys. induction d as [|[k0 v0] d IH]; simpl; intros Hnd; [assumption|].
  apply NoDup_cons in Hnd as [Hnotin Hnd].
  destruct (decide (k = k0)); simpl; [assumption|].
  apply NoDup_cons. split; [|now apply IH].
  intros Hin. apply (elem_of_keys_del d k k0 Hnd) in Hin as [Hin _]. contradiction.
Qed.

Lemma NoDup_keys_set d k v : NoDup (keys d) -> NoDup (keys (set d k v)).
Proof.
  intros Hnd. destruct (decide (k ∈ keys d)) as [Hin|Hnotin].
  - now rewrite keys_set_present.
  - rewrite keys_set_absent by assumption.
    apply NoDup_app. split; [assumption|]. split.
    + intros x Hx Hx'. apply list_elem_of_singleton in Hx' as ->. contradiction.
    + apply NoDup_singleton.
Qed.

Lemma get_del_ne d k k' : k <> k' -> get (del d k) k' = get d k'.
Proof.
  intros Hne. induction d as [|[k0 v0] d IH]; simpl; [reflexivity|].
  destruct (decide (k = k0)) as [->|Hne0]; simpl.
  - now rewrite decide_False by congruence.
  - destruct (decide (k' = k0)); auto.
Qed.

Lemma length_keys d : length (keys d) = length d.
Proof. unfold keys. apply length_map. Qed.

End DictFacts.

(** ** The face lattice of a path complex *)

Section PathMonad.
Import PyDict PathComplex PathSpec.
Local Open Scope py_scope.

Lemma py_norm_index_nat (len n : nat) :
  (n < len)%nat -> py_norm_index len (Z.of_nat n) = Some n.
Proof.
  intros Hlt. unfold py_norm_index.
  replace (0 <=? Z.of_nat n) with true by (symmetry; apply Z.leb_le; lia).
  replace (Z.of_nat n <? Z.of_nat len) with true by (symmetry; apply Z.ltb_lt; lia).
  simpl. now rewrite Nat2Z.id.
Qed.

Lemma py_norm_index_rank (len : nat) (p : Path) :
  p <> [] -> (length p <= len)%nat ->
  py_norm_index len (rank p) = Some (length p - 1)%nat.
Proof.
  intros Hne Hle. unfold rank.
  destruct p as [|x p]; [contradiction|]. simpl length in *.
  replace (Z.of_nat (S (length p)) - 1) with (Z.of_nat (length p)) by lia.
  rewrite py_norm_index_nat by lia. f_equal. lia.
Qed.

Lemma bucket_ok (c : state) (r : Z) (n : nat) (b : dict Path Attrs) :
  py_norm_index (length (faces_dict (_path_set c))) r = Some n ->
  faces_dict (_path_set c) !! n = Some b ->
  bucket r c = (Ok b, c).
Proof.
  intros Hn Hb. unfold bucket, bind, get_state, or_raise, py_index.
  now rewrite Hn, Hb.
Qed.

Lemma set_bucket_ok (c : state) (r : Z) (n : nat) (b : dict Path Attrs) :
  py_norm_index (length (faces_dict (_path_set c))) r = Some n ->
  set_bucket r b c = (Ok tt, with_faces_dict (<[n := b]> (faces_dict (_path_set c))) c).
Proof.
  intros Hn. unfold set_bucket, bind, get_state, or_raise, modify.
  now rewrite Hn.
Qed.

Lemma canonical_nonempty (reserve : bool) (q : Path) :
  q <> [] -> canonical reserve q = Some (canon reserve q).
Proof.
  intros Hne. unfold canon.
  destruct (canonical reserve q) eqn:E; [reflexivity|exfalso].
  unfold canonical, str_first_gt_last in E.
  destruct reserve; [discriminate|].
  destruct q as [|x q]; [contradiction|].
  destruct (last (x :: q)) eqn:El.
  - simpl in E. destruct (str_gt _ _); discriminate.
  - apply last_None in El. discriminate.
Qed.

Lemma length_canon (reserve : bool) (q : Path) :
  length (canon reserve q) = length q.
Proof.
  unfold canon, canonical. destruct reserve; [reflexivity|].
  destruct (str_first_gt_last q) as [[]|]; simpl; [apply length_rev|reflexivity..].
Qed.

Lemma canon_nonempty (reserve : bool) (q : Path) :
  q <> [] -> canon reserve q <> [].
Proof.
  intros Hne E. apply (f_equal (@length _)) in E.
  rewrite length_canon in E. destruct q; [contradiction|discriminate].
Qed.

Lemma length_insert_step acc k :
  length (fst (insert_step acc k)) = length (fst acc).
Proof.
  unfold insert_step. destruct (fst acc !! _); [|reflexivity].
  destruct (mem _ _); [reflexivity|]. simpl. apply length_insert.
Qed.

Lemma length_fold_insert_step ks acc :
  length (fst (fold_left insert_step ks acc)) = length (fst acc).
Proof.
  revert acc. induction ks as [|k ks IH]; intros acc; simpl; [reflexivity|].
  rewrite IH. apply length_insert_step.
Qed.

Lemma bind_eq {A B : Type} (m : M A) (k : A -> M B) (c : state) :
  bind m k c =
  match m c with
  | (Ok a, c') => k a c'
  | (Raise e, c') => (Raise e, c')
  end.
Proof. reflexivity. Qed.

Lemma with_faces_dict_id (c : state) :
  with_faces_dict (faces_dict (_path_set c)) c = c.
Proof. destruct c as [[fd md] rs al]. reflexivity. Qed.

Lemma _update_faces_dict_entry_eq (k : Path) (c : state) (b : dict Path Attrs) :
  k <> [] ->
  faces_dict (_path_set c) !! (length k - 1)%nat = Some b ->
  _update_faces_dict_entry k c =
  if mem b k then (Ok None, c)
  else (Ok (Some k),
        with_faces_dict (<[(length k - 1)%nat := set b k ∅]> (faces_dict (_path_set c))) c).
Proof.
  intros Hk Hb.
  assert (Hlk : (length k <= length (faces_dict (_path_set c)))%nat).
  { apply lookup_lt_Some in Hb. destruct k; [contradiction|simpl in *; lia]. }
  unfold _update_faces_dict_entry. fold (rank k).
  rewrite bind_eq, (bucket_ok c (rank k) _ b (py_norm_index_rank _ k Hk Hlk) Hb).
  destruct (mem b k); [reflexivity|].
  rewrite bind_eq, (set_bucket_ok c (rank k) _ _ (py_norm_index_rank _ k Hk Hlk)).
  reflexivity.
Qed.

Lemma add_sub_path_eq (np : gset Path) (q : Path) (c : state) :
  q <> [] -> (length q <= length (faces_dict (_path_set c)))%nat ->
  add_sub_path np q c =
  (Ok (snd (insert_step (faces_dict (_path_set c), np)
              (canon (_reserve_sequence_order c) q))),
   with_faces_dict
     (fst (insert_step (faces_dict (_path_set c), np)
             (canon (_reserve_sequence_order c) q))) c).
Proof.
  intros Hne Hle. unfold add_sub_path.
  rewrite bind_eq. unfold get_state at 1.
  rewrite bind_eq, (canonical_nonempty _ q Hne). simpl or_raise. unfold ret at 1.
  set (k := canon (_reserve_sequence_order c) q).
  assert (Hk : k <> []) by (apply canon_nonempty; assumption).
  assert (Hlk : (length k <= length (faces_dict (_path_set c)))%nat)
    by (unfold k; rewrite length_canon; assumption).
  destruct (lookup_lt_is_Some_2 (faces_dict (_path_set c)) (length k - 1)%nat) as [b Hb].
  { destruct k; [contradiction|simpl in *; lia]. }
  rewrite bind_eq, (_update_faces_dict_entry_eq k c b Hk Hb).
  unfold insert_step. simpl fst. simpl snd. rewrite Hb.
  destruct (mem b k); simpl; unfold ret.
  - now rewrite with_faces_dict_id.
  - reflexivity.
Qed.

Lemma fold_m_insert (qs : list Path) (c : state) (np : gset Path) :
  Forall (fun q => q <> [] /\ (length q <= length (faces_dict (_path_set c)))%nat) qs ->
  fold_m qs np add_sub_path c
  = (Ok (snd (fold_left insert_step
               (map (canon (_reserve_sequence_order c)) qs)
               (faces_dict (_path_set c), np))),
     with_faces_dict
       (fst (fold_left insert_step
               (map (canon (_reserve_sequence_order c)) qs)
               (faces_dict (_path_set c), np))) c).
Proof.
  revert c np. induction qs as [|q qs IH]; intros c np Hall.
  - simpl. unfold ret. now rewrite with_faces_dict_id.
  - apply Forall_cons in Hall as [[Hne Hle] Hall].
    simpl fold_m. rewrite bind_eq, (add_sub_path_eq np q c Hne Hle).
    rewrite IH.
    + simpl. destruct (insert_step _ _). reflexivity.
    + simpl. rewrite length_insert_step. exact Hall.
Qed.


Lemma extends_refl fd added : extends fd fd added.
Proof.
  split; [reflexivity|]. intros r b Hb. exists b. repeat split; auto.
Qed.

Lemma extends_insert_step fd np k :
  k <> [] ->
  extends fd (fst (insert_step (fd, np) k)) (snd (insert_step (fd, np) k)) /\
  np ⊆ snd (insert_step (fd, np) k).
Proof.
  intros Hk. unfold insert_step. simpl fst. simpl snd.
  destruct (fd !! (length k - 1)%nat) as [b|] eqn:Hb;
    [|split; [apply extends_refl|reflexivity]].
  destruct (mem b k) eqn:Hm; [split; [apply extends_refl|reflexivity]|].
  simpl. split; [|set_solver].
  split; [apply length_insert|].
  intros r b0 Hb0. destruct (decide (r = (length k - 1)%nat)) as [->|Hne].
  - rewrite Hb in Hb0. injection Hb0 as Eb. subst b0.
    exists (set b k ∅). rewrite list_lookup_insert_eq by (eapply lookup_lt_Some; eauto).
    apply mem_false_keys in Hm.
    repeat split; auto.
    + intros k' v Hg. rewrite get_set_ne; [assumption|].
      intros ->. apply get_None_keys in Hm. congruence.
    + apply NoDup_keys_set.
    + intros k'. rewrite keys_set_absent by assumption.
      rewrite elem_of_app, list_elem_of_singleton. intros [?| ->]; [now left|right].
      repeat split.
      * destruct k; [contradiction|simpl; lia].
      * set_solver.
      * apply get_set_eq.
  - exists b0. rewrite list_lookup_insert_ne by congruence.
    repeat split; auto.
Qed.

Lemma extends_trans fd1 fd2 fd3 a2 a3 :
  extends fd1 fd2 a2 -> extends fd2 fd3 a3 -> a2 ⊆ a3 ->
  extends fd1 fd3 a3.
Proof.
  intros [Hl1 H1] [Hl2 H2] Hsub. split; [congruence|].
  intros r b Hb. destruct (H1 r b Hb) as (b' & Hb' & Hg & Hn & Hk).
  destruct (H2 r b' Hb') as (b'' & Hb'' & Hg' & Hn' & Hk').
  exists b''. repeat split; auto.
  intros k Hin. destruct (Hk' k Hin) as [Hin'|(? & ? & ?)]; [|right; auto].
  destruct (Hk k Hin') as [?|(? & ? & ?)]; [now left|right].
  repeat split; auto.
Qed.

Lemma extends_fold ks fd np :
  Forall (fun k => k <> []) ks ->
  extends fd (fst (fold_left insert_step ks (fd, np)))
    (snd (fold_left insert_step ks (fd, np))) /\
  np ⊆ snd (fold_left insert_step ks (fd, np)) /\
  (forall k, k ∈ snd (fold_left insert_step ks (fd, np)) -> k ∈ np \/ k ∈ ks).
Proof.
  revert fd np. induction ks as [|k ks IH]; intros fd np Hall; simpl.
  - split; [apply extends_refl|]. split; [reflexivity|auto].
  - apply Forall_cons in Hall as [Hk Hall].
    destruct (extends_insert_step fd np k Hk) as [He Hs].
    assert (Ho : forall k', k' ∈ snd (insert_step (fd, np) k) -> k' ∈ np \/ k' = k).
    { unfold insert_step. simpl. destruct (fd !! _); [|auto].
      destruct (mem _ _); simpl; [auto|]. set_solver. }
    destruct (insert_step (fd, np) k) as [fd1 np1] eqn:E. simpl in He, Hs, Ho.
    destruct (IH fd1 np1 Hall) as (He' & Hs' & Ho').
    split; [eapply extends_trans; eauto|].
    split; [set_solver|].
    intros k' Hk'. destruct (Ho' k' Hk') as [H1|H1].
    + destruct (Ho k' H1) as [?| ->]; [now left|right; apply list_elem_of_here].
    + right. now apply list_elem_of_further.
Qed.

Lemma insert_step_stored fd np k :
  k <> [] -> (length k <= length fd)%nat ->
  exists b, fst (insert_step (fd, np) k) !! (length k - 1)%nat = Some b /\ k ∈ keys b.
Proof.
  intros Hk Hl. unfold insert_step. simpl fst.
  destruct (lookup_lt_is_Some_2 fd (length k - 1)%nat) as [b Hb].
  { destruct k; [contradiction|simpl in *; lia]. }
  rewrite Hb. destruct (mem b k) eqn:Hm; simpl.
  - exists b. split; [assumption|]. now apply mem_keys.
  - exists (set b k ∅). rewrite list_lookup_insert_eq by (eapply lookup_lt_Some; eauto).
    split; [reflexivity|]. apply get_Some_keys. rewrite get_set_eq. eauto.
Qed.

Lemma fold_insert_stored ks fd np k :
  Forall (fun k => k <> []) ks ->
  k ∈ ks -> (length k <= length fd)%nat ->
  exists b, fst (fold_left insert_step ks (fd, np)) !! (length k - 1)%nat = Some b
            /\ k ∈ keys b.
Proof.
  revert fd np. induction ks as [|k0 ks IH]; intros fd np Hall Hin Hl.
  - now apply elem_of_nil in Hin.
  - apply Forall_cons in Hall as [Hk0 Hall]. simpl.
    destruct (insert_step (fd, np) k0) as [fd1 np1] eqn:E.
    assert (Hlen : length fd1 = length fd).
    { change fd1 with (fst (fd1, np1)). rewrite <- E. apply length_insert_step. }
    apply elem_of_cons in Hin as [->|Hin].
    + destruct (insert_step_stored fd np k0 Hk0 Hl) as (b & Hb & Hkb).
      rewrite E in Hb. simpl in Hb.
      destruct (extends_fold ks fd1 np1 Hall) as [[_ He] _].
      destruct (He _ b Hb) as (b' & Hb' & Hg & _).
      exists b'. split; [assumption|].
      apply get_Some_keys. apply get_Some_keys in Hkb as [v Hv]. eauto.
    + apply IH; auto. lia.
Qed.


Lemma elem_of_sub_paths (q p : Path) :
  q ∈ sub_paths p <->
  exists i len, (1 <= len)%nat /\ (i + len <= length p)%nat /\
                q = take len (drop i p).
Proof.
  unfold sub_paths. rewrite list_elem_of_In, in_flat_map. split.
  - intros (k & Hk & Hq). apply in_seq in Hk.
    apply in_map_iff in Hq as (i & <- & Hi). apply in_seq in Hi.
    exists i, (length p - k)%nat. repeat split; lia.
  - intros (i & len & H1 & H2 & ->).
    exists (length p - len)%nat. split; [apply in_seq; lia|].
    replace (length p - (length p - len))%nat with len by lia.
    apply in_map_iff. exists i. split; [reflexivity|]. apply in_seq. lia.
Qed.

Lemma sub_paths_nonempty (q p : Path) :
  q ∈ sub_paths p -> q <> [] /\ (length q <= length p)%nat.
Proof.
  intros (i & len & H1 & H2 & ->)%elem_of_sub_paths.
  assert (Hl : length (take len (drop i p)) = len).
  { rewrite length_take, length_drop. lia. }
  split; [|lia]. intros E. rewrite E in Hl. simpl in Hl. lia.
Qed.

Lemma sub_paths_self (p : Path) : p <> [] -> p ∈ sub_paths p.
Proof.
  intros Hne. apply elem_of_sub_paths. exists 0%nat, (length p).
  repeat split.
  - destruct p; [contradiction|simpl; lia].
  - lia.
  - simpl. now rewrite firstn_all.
Qed.

Lemma passes_validation_canon (reserve : bool) (p : Path) :
  passes_validation reserve p = true -> canon reserve p = p.
Proof.
  unfold passes_validation, ambiguous_direction, canon, canonical.
  intros [_ Ha]%andb_prop. destruct reserve; [reflexivity|].
  destruct (str_first_gt_last p) as [[]|] eqn:E; simpl; try reflexivity.
  simpl in Ha. rewrite !andb_true_r in Ha.
  apply negb_true_iff, Nat.ltb_ge in Ha.
  destruct p as [|x [|y p]]; simpl in *; try reflexivity. lia.
Qed.

Lemma length_grow fd n : (n <= length (grow fd n))%nat.
Proof.
  unfold grow. destruct (Nat.ltb_spec (length fd) n); [|assumption].
  rewrite length_app, length_replicate. lia.
Qed.

Lemma _update_faces_dict_length_eq (p : Path) (c : state) :
  _update_faces_dict_length p c =
  (Ok tt, with_faces_dict (grow (faces_dict (_path_set c)) (length p)) c).
Proof.
  unfold _update_faces_dict_length, grow. rewrite bind_eq. unfold get_state at 1.
  destruct (_ <? _)%nat; [reflexivity|].
  unfold ret. now rewrite with_faces_dict_id.
Qed.

Lemma update_attrs_eq (r : Z) (n : nat) (p : Path) (attr : Attrs) (c : state) b d :
  py_norm_index (length (faces_dict (_path_set c))) r = Some n ->
  faces_dict (_path_set c) !! n = Some b ->
  get b p = Some d ->
  update_attrs r p attr c =
  (Ok tt, with_faces_dict (merge_attrs (faces_dict (_path_set c)) n p attr) c).
Proof.
  intros Hn Hb Hd. unfold update_attrs, merge_attrs.
  rewrite bind_eq, (bucket_ok c r n b Hn Hb).
  rewrite bind_eq, Hd. simpl or_raise. unfold ret at 1.
  rewrite (set_bucket_ok c r n _ Hn). now rewrite Hb, Hd.
Qed.

Lemma add_path_invalid (path : PathArg) (attr : Attrs) (c : state) :
  passes_validation (_reserve_sequence_order c) (path_of path) = false ->
  add_path path attr c = (Raise ValueError, c).
Proof.
  unfold passes_validation, has_duplicates, ambiguous_direction, add_path.
  fold (path_of path). set (p := path_of path).
  destruct (negb (length p =? length (remove_dups p))%nat); [reflexivity|].
  simpl. intros Ha. apply negb_false_iff in Ha.
  rewrite bind_eq. unfold get_state at 1.
  apply andb_prop in Ha as [Ha Hr]. apply andb_prop in Ha as [Hl Hg].
  rewrite Hl. destruct (str_first_gt_last p) as [gt|]; [|discriminate].
  simpl in Hg. subst gt. rewrite !bind_eq. simpl. unfold ret at 1.
  rewrite Hr. reflexivity.
Qed.

Lemma add_path_ok (p : Path) (attr : Attrs) (c : state) :
  p <> [] ->
  passes_validation (_reserve_sequence_order c) p = true ->
  add_path (ASeq p) attr c = (Ok tt, add_path_state p attr c).
Proof.
  intros Hne Hv. pose proof (passes_validation_canon _ _ Hv) as Hcanon.
  unfold passes_validation, has_duplicates, ambiguous_direction in Hv.
  apply andb_prop in Hv as [Hd Ha]. apply negb_true_iff in Hd, Ha.
  unfold add_path. rewrite Hd.
  rewrite bind_eq. unfold get_state at 1.
  assert (Hamb : (if (1 <? length p)%nat
       then gt <- or_raise IndexError (str_first_gt_last p) ;;
            ret (gt && negb (_reserve_sequence_order c))
       else ret false)%py c = (Ok false, c)).
  { destruct (1 <? length p)%nat; [|reflexivity].
    rewrite bind_eq. destruct (str_first_gt_last p) as [gt|] eqn:E.
    - simpl in *. unfold ret. now rewrite Ha.
    - unfold str_first_gt_last in E. destruct p as [|x p]; [contradiction|].
      simpl in E. destruct (last (x :: p)) eqn:El; [discriminate|].
      apply last_None in El. discriminate. }
  rewrite bind_eq, Hamb.
  rewrite bind_eq, _update_faces_dict_length_eq.
  set (fd1 := grow (faces_dict (_path_set c)) (length p)).
  set (c1 := with_faces_dict fd1 c).
  rewrite bind_eq. unfold get_state at 1.
  fold (rank p).
  set (md1 := if max_dim (_path_set c) <? rank p then rank p else max_dim (_path_set c)).
  set (c2 := with_max_dim md1 c1).
  assert (Hmd : (if max_dim (_path_set c1) <? rank p then modify (with_max_dim (rank p))
                 else ret tt) c1 = (Ok tt, c2)).
  { unfold c2, md1. simpl. destruct (max_dim (_path_set c) <? rank p); [reflexivity|].
    unfold ret. destruct c as [[fd md] rs al]. reflexivity. }
  rewrite bind_eq, Hmd.
  assert (Hlen : (length p <= length (faces_dict (_path_set c2)))%nat)
    by (simpl; apply length_grow).
  pose proof (py_norm_index_rank _ p Hne Hlen) as Hidx.
  unfold add_path_state. fold fd1 md1.
  destruct (fd1 !! (length p - 1)%nat) as [b|] eqn:Hb.
  2:{ apply lookup_ge_None in Hb.
      pose proof (length_grow (faces_dict (_path_set c)) (length p)) as Hg.
      unfold fd1 in Hb. destruct p; [contradiction|]. simpl in *. lia. }
  rewrite bind_eq, (bucket_ok c2 (rank p) _ b Hidx Hb). simpl default.
  destruct (mem b p) eqn:Hm.
  - destruct (get b p) as [d|] eqn:Hg; [|unfold mem in Hm; now rewrite Hg in Hm].
    rewrite (update_attrs_eq (rank p) _ p attr c2 b d Hidx Hb Hg).
    reflexivity.
  - rewrite bind_eq, fold_m_insert.
    2:{ apply Forall_forall. intros q Hq.
        apply sub_paths_nonempty in Hq as [? ?]. split; [assumption|lia]. }
    change (_reserve_sequence_order c2) with (_reserve_sequence_order c).
    change (faces_dict (_path_set c2)) with fd1.
    fold (sub_faces (_reserve_sequence_order c) p).
    set (res := fold_left insert_step _ _).
    set (c3 := with_faces_dict (fst res) c2).
    rewrite bind_eq.
    set (al := if (0 <? size (snd res))%nat then _allowed_paths c ∪ snd res else _allowed_paths c).
    set (c4 := with_allowed_paths al c3).
    assert (Hal : (if (0 <? size (snd res))%nat
                   then modify (fun c => with_allowed_paths (_allowed_paths c ∪ snd res) c)
                   else ret tt) c3 = (Ok tt, c4)).
    { unfold c4, al. destruct (0 <? size (snd res))%nat; [reflexivity|].
      unfold ret. destruct c as [[fd md] rs al0]. reflexivity. }
    rewrite Hal.
    destruct (fold_insert_stored (sub_faces (_reserve_sequence_order c) p) fd1 ∅ p)
      as (b' & Hb' & Hin).
    { apply Forall_forall. intros k Hk. unfold sub_faces in Hk.
      apply list_elem_of_fmap in Hk as (q & -> & Hq). apply canon_nonempty.
      now apply sub_paths_nonempty in Hq. }
    { unfold sub_faces. rewrite <- Hcanon at 1.
      apply list_elem_of_fmap_2. now apply sub_paths_self. }
    { apply length_grow. }
    fold res in Hb'.
    apply get_Some_keys in Hin as [d Hd'].
    assert (Hidx' : py_norm_index (length (faces_dict (_path_set c4))) (rank p)
                    = Some (length p - 1)%nat).
    { apply py_norm_index_rank; [assumption|]. simpl. unfold res.
      rewrite length_fold_insert_step. apply length_grow. }
    rewrite (update_attrs_eq (rank p) _ p attr c4 b' d Hidx' Hb' Hd').
    reflexivity.
Qed.


Lemma length_remove_dups_le {A : Type} `{EqDecision A} (l : list A) :
  (length (remove_dups l) <= length l)%nat.
Proof.
  induction l as [|x l IH]; simpl; [lia|].
  destruct (decide_rel elem_of x l); simpl; lia.
Qed.

Lemma NoDup_length_remove_dups {A : Type} `{EqDecision A} (l : list A) :
  NoDup l <-> length l = length (remove_dups l).
Proof.
  induction l as [|x l IH]; simpl.
  - split; [reflexivity|intros _; constructor].
  - rewrite NoDup_cons. pose proof (length_remove_dups_le l).
    destruct (decide_rel elem_of x l); simpl.
    + split; [intros [? _]; contradiction|lia].
    + split.
      * intros [_ Hn]. f_equal. now apply IH.
      * intros E. split; [assumption|]. apply IH. lia.
Qed.

Lemma has_duplicates_false (p : Path) : has_duplicates p = false <-> NoDup p.
Proof.
  unfold has_duplicates. rewrite negb_false_iff, Nat.eqb_eq.
  symmetry. apply NoDup_length_remove_dups.
Qed.

Lemma NoDup_sub_path (p : Path) (i len : nat) :
  NoDup p -> NoDup (take len (drop i p)).
Proof.
  intros Hnd. apply (sublist_NoDup _ p); [exact Hnd|].
  etransitivity; [apply sublist_take|apply sublist_drop].
Qed.

Lemma rev_reverse {A : Type} (l : list A) : rev l = reverse l.
Proof. unfold reverse. apply rev_alt. Qed.

Lemma str_first_gt_last_rev (q : Path) (g : bool) :
  str_first_gt_last q = Some true -> str_first_gt_last (rev q) = Some false.
Proof.
  unfold str_first_gt_last.
  destruct (head q) as [a|] eqn:Ha; [|discriminate].
  destruct (last q) as [b|] eqn:Hb; [|discriminate].
  intros E. injection E as E.
  assert (H1 : head (rev q) = Some b).
  { rewrite rev_reverse, head_reverse. assumption. }
  assert (H2 : last (rev q) = Some a).
  { rewrite rev_reverse, last_reverse. assumption. }
  rewrite H1, H2. f_equal. now apply str_gt_asym.
Qed.

Lemma canon_valid (reserve : bool) (q : Path) :
  NoDup q -> passes_validation reserve (canon reserve q) = true.
Proof.
  intros Hnd. unfold passes_validation. apply andb_true_intro. split.
  - apply negb_true_iff, has_duplicates_false.
    unfold canon, canonical. destruct reserve; [assumption|].
    destruct (str_first_gt_last q) as [[]|]; simpl; try assumption.
    now rewrite <- (Permutation_rev q).
  - apply negb_true_iff. unfold ambiguous_direction, canon, canonical.
    destruct reserve; [now rewrite andb_false_r|].
    destruct (str_first_gt_last q) as [[]|] eqn:E; simpl.
    + rewrite (str_first_gt_last_rev q true E). simpl. now rewrite andb_false_r.
    + rewrite E. simpl. now rewrite andb_false_r.
    + rewrite E. simpl. now rewrite andb_false_r.
Qed.

Lemma grow_lookup fd n r b :
  grow fd n !! r = Some b -> fd !! r = Some b \/ b = [].
Proof.
  unfold grow. destruct (_ <? _)%nat; [|auto].
  intros H. apply lookup_app_Some in H as [H|[_ H]]; [now left|right].
  apply lookup_replicate in H as [? _]. assumption.
Qed.

Lemma length_merge_attrs fd r p attr :
  length (merge_attrs fd r p attr) = length fd.
Proof.
  unfold merge_attrs. destruct (fd !! r); [|reflexivity].
  destruct (get _ _); [apply length_insert|reflexivity].
Qed.

Lemma merge_attrs_lookup fd r p attr r' b' :
  merge_attrs fd r p attr !! r' = Some b' ->
  exists b, fd !! r' = Some b /\ keys b' = keys b /\
    (forall k, k <> p \/ r' <> r -> get b' k = get b k) /\
    (r' = r -> forall d, get b p = Some d -> get b' p = Some (attrs_update d attr)).
Proof.
  unfold merge_attrs. destruct (fd !! r) as [b|] eqn:Hb.
  2:{ intros H. exists b'. repeat split; auto. intros ->. congruence. }
  destruct (get b p) as [d|] eqn:Hd.
  2:{ intros H. exists b'. repeat split; auto. intros ->. congruence. }
  destruct (decide (r' = r)) as [->|Hne].
  - rewrite list_lookup_insert_eq by (eapply lookup_lt_Some; eauto).
    intros E. injection E as E. subst b'. exists b. split; [assumption|].
    split; [apply keys_set_present, get_Some_keys; eauto|]. split.
    + intros k [Hk|Hk]; [|contradiction]. now apply get_set_ne.
    + intros _ d' Hd'. rewrite get_set_eq. congruence.
  - rewrite list_lookup_insert_ne by congruence. intros H. exists b'.
    repeat split; auto. contradiction.
Qed.

Lemma elem_of_size_pos (X : gset Path) (k : Path) : k ∈ X -> (0 <? size X)%nat = true.
Proof.
  intros Hin. apply Nat.ltb_lt.
  destruct (size X) eqn:E; [|lia].
  apply size_empty_iff in E. set_solver.
Qed.

Lemma wf_add_path_state (p : Path) (attr : Attrs) (c : state) :
  wf c -> p <> [] -> passes_validation (_reserve_sequence_order c) p = true ->
  wf (add_path_state p attr c).
Proof.
  intros Hwf Hne Hv.
  assert (Hnd : NoDup p).
  { apply has_duplicates_false. unfold passes_validation in Hv.
    apply andb_prop in Hv as [Hv _]. now apply negb_true_iff in Hv. }
  set (fd := faces_dict (_path_set c)).
  set (fd1 := grow fd (length p)).
  set (ks := sub_faces (_reserve_sequence_order c) p).
  assert (Hks : Forall (fun k => k <> []) ks).
  { apply Forall_forall. intros k Hk. unfold ks, sub_faces in Hk.
    apply list_elem_of_fmap in Hk as (q & -> & Hq). apply canon_nonempty.
    now apply sub_paths_nonempty in Hq. }
  assert (Hksv : forall k, k ∈ ks -> (length k <= length p)%nat /\
            passes_validation (_reserve_sequence_order c) k = true).
  { intros k Hk. unfold ks, sub_faces in Hk.
    apply list_elem_of_fmap in Hk as (q & -> & Hq). rewrite length_canon.
    split; [now apply sub_paths_nonempty in Hq|].
    apply canon_valid. apply elem_of_sub_paths in Hq as (i & len & _ & _ & ->).
    now apply NoDup_sub_path. }
  set (res := if mem (default [] (fd1 !! (length p - 1)%nat)) p then (fd1, ∅)
              else fold_left insert_step ks (fd1, ∅)).
  assert (Hext : extends fd1 (fst res) (snd res) /\
                 forall k, k ∈ snd res -> k ∈ ks).
  { unfold res. destruct (mem _ _).
    - split; [apply extends_refl|]. simpl. set_solver.
    - destruct (extends_fold ks fd1 ∅ Hks) as (He & _ & Ho). split; [assumption|].
      intros k Hk. destruct (Ho k Hk) as [?|?]; [set_solver|assumption]. }
  destruct Hext as [[Hlen Hext] Horig].
  assert (Hfd1 : forall r b, fd1 !! r = Some b ->
            NoDup (keys b) /\ forall k, k ∈ keys b -> fd !! r = Some b).
  { intros r b Hb. apply grow_lookup in Hb as [Hb| ->].
    - split; [eapply wf_nodup; eauto|auto].
    - split; [constructor|]. intros k Hk. now apply elem_of_nil in Hk. }
  assert (Hkeys : forall r b' k,
            merge_attrs (fst res) (length p - 1) p attr !! r = Some b' -> k ∈ keys b' ->
            NoDup (keys b') /\
            ((exists b, fd !! r = Some b /\ k ∈ keys b) \/
             (length k = S r /\ k ∈ snd res))).
  { intros r b' k Hb' Hk.
    apply merge_attrs_lookup in Hb' as (b2 & Hb2 & Hk2 & _).
    rewrite Hk2 in *.
    assert (Hr : (r < length fd1)%nat).
    { rewrite <- Hlen. eapply lookup_lt_Some; eauto. }
    destruct (lookup_lt_is_Some_2 fd1 r Hr) as [b1 Hb1].
    destruct (Hext r b1 Hb1) as (b2' & Hb2' & _ & Hn & Ho).
    rewrite Hb2 in Hb2'. injection Hb2' as E. subst b2'.
    destruct (Hfd1 r b1 Hb1) as [Hnd1 Hold].
    split; [auto|].
    destruct (Ho k Hk) as [Hin|(Hl & Hin & _)]; [left|right; auto].
    exists b1. split; [apply (Hold k Hin)|assumption]. }
  unfold add_path_state. fold fd fd1 ks res.
  constructor; simpl.
  - intros r b k Hb Hk. destruct (Hkeys r b k Hb Hk) as [_ [(b0 & Hb0 & Hk0)|[Hl _]]].
    + eapply wf_length; eauto.
    + assumption.
  - intros r b Hb. destruct (keys b) as [|k l] eqn:E; [constructor|].
    rewrite <- E. eapply (Hkeys r b k Hb). rewrite E. apply list_elem_of_here.
  - intros r b k Hb Hk. destruct (Hkeys r b k Hb Hk) as [_ [(b0 & Hb0 & Hk0)|[Hl Hin]]].
    + assert (k ∈ _allowed_paths c) by (eapply wf_allowed; eauto).
      destruct (0 <? size (snd res))%nat; set_solver.
    + rewrite (elem_of_size_pos _ _ Hin). set_solver.
  - rewrite length_merge_attrs, Hlen.
    pose proof (length_grow fd (length p)) as Hg. fold fd1 in Hg.
    pose proof (wf_max_dim c Hwf) as Hm. fold fd in Hm.
    assert (length fd <= length fd1)%nat.
    { unfold fd1, grow. destruct (_ <? _)%nat; [|lia]. rewrite length_app. lia. }
    unfold rank. destruct (_ <? _); lia.
  - intros r b k Hb Hk. destruct (Hkeys r b k Hb Hk) as [_ [(b0 & Hb0 & Hk0)|[Hl Hin]]].
    + pose proof (wf_top c Hwf r b0 k Hb0 Hk0).
      destruct (Z.ltb_spec (max_dim (_path_set c)) (rank p)); lia.
    + destruct (Hksv k (Horig k Hin)) as [Hle _]. unfold rank.
      destruct (Z.ltb_spec (max_dim (_path_set c)) (Z.of_nat (length p) - 1)); lia.
  - pose proof (wf_bottom c Hwf).
    destruct (Z.ltb_spec (max_dim (_path_set c)) (rank p)); lia.
  - intros r b k Hb Hk. destruct (Hkeys r b k Hb Hk) as [_ [(b0 & Hb0 & Hk0)|[Hl Hin]]].
    + eapply wf_valid; eauto.
    + apply Hksv, Horig, Hin.
Qed.


Lemma wf_empty_complex (reserve : bool) (allowed : gset Path) :
  wf (empty_complex reserve allowed).
Proof.
  constructor; simpl; try lia; intros r b; intros; rewrite lookup_nil in *; discriminate.
Qed.

Lemma add_path_empty (attr : Attrs) (c : state) :
  wf c -> exists e, add_path (ASeq []) attr c = (Raise e, c).
Proof.
  intros Hwf. unfold add_path.
  change (negb (length (@nil Node) =? length (remove_dups (@nil Node)))%nat) with false.
  cbv iota.
  rewrite bind_eq. unfold get_state at 1.
  change (1 <? length (@nil Node))%nat with false. cbv iota.
  rewrite bind_eq. unfold ret at 1.
  rewrite bind_eq, _update_faces_dict_length_eq.
  replace (grow (faces_dict (_path_set c)) (length (@nil Node)))
    with (faces_dict (_path_set c)) by reflexivity.
  rewrite with_faces_dict_id. rewrite bind_eq. unfold get_state at 1.
  change (Z.of_nat (length (@nil Node)) - 1) with (-1).
  pose proof (wf_bottom c Hwf) as Hb.
  destruct (Z.ltb_spec (max_dim (_path_set c)) (-1)) as [Hlt|_]; [lia|].
  rewrite bind_eq. unfold ret at 1.
  rewrite bind_eq. unfold bucket at 1. rewrite bind_eq. unfold get_state at 1.
  destruct (py_index (faces_dict (_path_set c)) (-1)) as [b|] eqn:Hi;
    [|exists IndexError; reflexivity].
  simpl or_raise. unfold ret at 1.
  assert (Hm : mem b [] = false).
  { apply mem_false_keys. intros Hin. unfold py_index in Hi.
    destruct (py_norm_index _ _) as [n|]; [|discriminate].
    apply (wf_length c Hwf n b [] Hi) in Hin. discriminate. }
  rewrite Hm. simpl fold_m. rewrite bind_eq. unfold ret at 1.
  rewrite bind_eq. change (0 <? size (∅ : gset Path))%nat with false. unfold ret at 1.
  unfold update_attrs. rewrite bind_eq. unfold bucket. rewrite bind_eq.
  unfold get_state at 1. rewrite Hi. simpl or_raise. unfold ret at 1.
  rewrite bind_eq. unfold mem in Hm. destruct (get b []); [discriminate|].
  exists KeyError. reflexivity.
Qed.

Lemma add_path_cases (path : PathArg) (attr : Attrs) (c : state) :
  wf c ->
  (path_of path <> [] /\
   passes_validation (_reserve_sequence_order c) (path_of path) = true /\
   add_path path attr c = (Ok tt, add_path_state (path_of path) attr c)) \/
  (exists e, add_path path attr c = (Raise e, c)).
Proof.
  intros Hwf.
  assert (E : add_path path attr c = add_path (ASeq (path_of path)) attr c)
    by (destruct path; reflexivity).
  destruct (passes_validation (_reserve_sequence_order c) (path_of path)) eqn:Hv.
  - destruct (path_of path) as [|x p] eqn:Hp.
    + right. rewrite E. now apply add_path_empty.
    + left. split; [discriminate|]. split; [reflexivity|].
      rewrite E. apply add_path_ok; [discriminate|assumption].
  - right. exists ValueError. now apply add_path_invalid.
Qed.

Lemma wf_add_path (path : PathArg) (attr : Attrs) (c : state) :
  wf c -> wf (snd (add_path path attr c)).
Proof.
  intros Hwf. destruct (add_path_cases path attr c Hwf) as [(Hne & Hv & ->)|[e ->]].
  - now apply wf_add_path_state.
  - assumption.
Qed.

Lemma _remove_path_ok (p : Path) (c : state) :
  wf c -> stored c (length p - 1)%nat p ->
  exists c', _remove_path p c = (Ok tt, c') /\ wf c' /\
    (forall r q, q <> p -> stored c r q -> stored c' r q).
Proof.
  intros Hwf (b & Hb & Hin).
  pose proof (wf_length c Hwf _ b p Hb Hin) as Hl.
  assert (Hne : p <> []) by (intros ->; discriminate).
  assert (Hlen : (length p <= length (faces_dict (_path_set c)))%nat).
  { apply lookup_lt_Some in Hb. lia. }
  pose proof (py_norm_index_rank _ p Hne Hlen) as Hidx.
  set (n := (length p - 1)%nat) in *.
  unfold _remove_path. fold (rank p).
  rewrite bind_eq, (bucket_ok c (rank p) n b Hidx Hb).
  apply mem_keys in Hin as Hm. rewrite Hm.
  rewrite bind_eq, (set_bucket_ok c (rank p) n _ Hidx).
  set (fd' := <[n := del b p]> (faces_dict (_path_set c))).
  set (c1 := with_faces_dict fd' c).
  rewrite bind_eq. unfold get_state at 1.
  pose proof (wf_allowed c Hwf n b p Hb Hin) as Hal.
  change (_allowed_paths c1) with (_allowed_paths c).
  rewrite (bool_decide_eq_true_2 _ Hal).
  rewrite bind_eq. unfold modify at 1.
  set (c2 := with_allowed_paths _ c1).
  assert (Hb' : faces_dict (_path_set c2) !! n = Some (del b p)).
  { simpl. unfold fd'. apply list_lookup_insert_eq. eapply lookup_lt_Some; eauto. }
  assert (Hidx' : py_norm_index (length (faces_dict (_path_set c2))) (rank p) = Some n).
  { simpl. unfold fd'. now rewrite length_insert. }
  rewrite bind_eq, (bucket_ok c2 (rank p) n _ Hidx' Hb').
  rewrite bind_eq. unfold get_state at 1.
  change (max_dim (_path_set c2)) with (max_dim (_path_set c)).
  set (cond := (length (del b p) =? 0)%nat && (max_dim (_path_set c) =? rank p)).
  assert (Hkeys : forall r b' k, fd' !! r = Some b' -> k ∈ keys b' ->
            k <> p /\ NoDup (keys b') /\
            exists b0, faces_dict (_path_set c) !! r = Some b0 /\ k ∈ keys b0).
  { intros r b' k Hr Hk. unfold fd' in Hr.
    destruct (decide (r = n)) as [->|Hrn].
    - rewrite list_lookup_insert_eq in Hr by (eapply lookup_lt_Some; eauto).
      injection Hr as E. subst b'.
      pose proof (wf_nodup c Hwf n b Hb) as Hnd.
      apply (elem_of_keys_del b p k Hnd) in Hk as [Hk Hkp].
      split; [assumption|]. split; [now apply NoDup_keys_del|]. eauto.
    - rewrite list_lookup_insert_ne in Hr by congruence.
      split; [|split; [eapply wf_nodup; eauto|eauto]].
      intros ->. apply (wf_length c Hwf r b' p Hr) in Hk. lia. }
  set (c3 := if cond then with_max_dim (max_dim (_path_set c) - 1) c2 else c2).
  exists c3. split; [unfold c3; destruct cond; reflexivity|].
  assert (Hfd3 : faces_dict (_path_set c3) = fd') by (unfold c3; destruct cond; reflexivity).
  assert (Hal3 : _allowed_paths c3 = _allowed_paths c ∖ {[p]})
    by (unfold c3; destruct cond; reflexivity).
  assert (Hrs3 : _reserve_sequence_order c3 = _reserve_sequence_order c)
    by (unfold c3; destruct cond; reflexivity).
  assert (Hmd3 : max_dim (_path_set c3) =
            if cond then max_dim (_path_set c) - 1 else max_dim (_path_set c))
    by (unfold c3; destruct cond; reflexivity).
  split.
  - constructor; rewrite ?Hfd3, ?Hal3, ?Hrs3, ?Hmd3.
    + intros r b' k Hr Hk. destruct (Hkeys r b' k Hr Hk) as (_ & _ & b0 & Hb0 & Hk0).
      eapply wf_length; eauto.
    + intros r b' Hr. destruct (keys b') as [|k l] eqn:E; [constructor|].
      rewrite <- E. eapply (Hkeys r b' k Hr). rewrite E. apply list_elem_of_here.
    + intros r b' k Hr Hk. destruct (Hkeys r b' k Hr Hk) as (Hkp & _ & b0 & Hb0 & Hk0).
      pose proof (wf_allowed c Hwf r b0 k Hb0 Hk0). set_solver.
    + unfold fd'. rewrite length_insert. pose proof (wf_max_dim c Hwf).
      destruct cond; lia.
    + intros r b' k Hr Hk. destruct (Hkeys r b' k Hr Hk) as (Hkp & _ & b0 & Hb0 & Hk0).
      pose proof (wf_top c Hwf r b0 k Hb0 Hk0) as Ht.
      destruct cond eqn:Hc; [|assumption].
      apply andb_prop in Hc as [Hc1 Hc2].
      apply Nat.eqb_eq in Hc1. apply Z.eqb_eq in Hc2.
      assert (r <> n).
      { intros ->. unfold fd' in Hr.
        rewrite list_lookup_insert_eq in Hr by (eapply lookup_lt_Some; eauto).
        injection Hr as E. subst b'. rewrite <- length_keys in Hc1.
        destruct (keys (del b p)); [now apply elem_of_nil in Hk|discriminate]. }
      unfold rank in Hc2. lia.
    + pose proof (wf_bottom c Hwf). destruct cond eqn:Hc; [|assumption].
      apply andb_prop in Hc as [_ Hc2]. apply Z.eqb_eq in Hc2. unfold rank in Hc2. lia.
    + intros r b' k Hr Hk. destruct (Hkeys r b' k Hr Hk) as (_ & _ & b0 & Hb0 & Hk0).
      eapply wf_valid; eauto.
  - intros r q Hq (b0 & Hb0 & Hk0). unfold stored. rewrite Hfd3. unfold fd'.
    destruct (decide (r = n)) as [->|Hrn].
    + exists (del b p). rewrite list_lookup_insert_eq by (eapply lookup_lt_Some; eauto).
      split; [reflexivity|]. rewrite Hb in Hb0. injection Hb0 as E. subst b0.
      apply elem_of_keys_del; [eapply wf_nodup; eauto|auto].
    + exists b0. rewrite list_lookup_insert_ne by congruence. auto.
Qed.

Lemma for_each_remove_path (l : list Path) (c : state) :
  wf c -> NoDup l -> (forall p, p ∈ l -> stored c (length p - 1)%nat p) ->
  exists c', for_each l _remove_path c = (Ok tt, c') /\ wf c'.
Proof.
  revert c. induction l as [|p l IH]; intros c Hwf Hnd Hst.
  - exists c. split; [reflexivity|assumption].
  - apply NoDup_cons in Hnd as [Hnotin Hnd].
    destruct (_remove_path_ok p c Hwf) as (c1 & E1 & Hwf1 & Hkeep).
    { apply Hst, list_elem_of_here. }
    destruct (IH c1 Hwf1 Hnd) as (c' & E' & Hwf').
    { intros q Hq. apply Hkeep.
      - intros ->. contradiction.
      - apply Hst. now apply list_elem_of_further. }
    exists c'. split; [|assumption].
    simpl. now rewrite bind_eq, E1.
Qed.

Lemma elem_of_all_paths (c : state) (p : Path) :
  p ∈ all_paths c <-> exists r, stored c r p.
Proof.
  unfold all_paths, stored. rewrite list_elem_of_In, in_concat. split.
  - intros (ks & Hks & Hp). apply in_map_iff in Hks as (b & <- & Hb).
    apply (proj2 (list_elem_of_In _ _)) in Hb.
    apply list_elem_of_lookup in Hb as [r Hr].
    exists r, b. split; [assumption|]. now apply list_elem_of_In.
  - intros (r & b & Hb & Hp). exists (keys b). split.
    + apply in_map. apply list_elem_of_In. eapply list_elem_of_lookup_2; eauto.
    + now apply list_elem_of_In.
Qed.

Section WithIteration.
Context `{SetIteration}.

Lemma remove_nodes_ok (node_set : list Node) (c : state) :
  wf c -> exists c', remove_nodes node_set c = (Ok tt, c') /\ wf c'.
Proof.
  intros Hwf. unfold remove_nodes. rewrite bind_eq. unfold get_state at 1.
  apply for_each_remove_path; [assumption| |].
  - rewrite (set_order_perm _ _). apply NoDup_remove_dups.
  - intros p Hp. rewrite (set_order_perm _ _) in Hp.
    unfold removed_paths in Hp. rewrite elem_of_remove_dups in Hp.
    rewrite list_elem_of_filter in Hp. destruct Hp as [_ Hp].
    apply elem_of_all_paths in Hp as (r & b & Hb & Hin).
    pose proof (wf_length c Hwf r b p Hb Hin) as Hl.
    exists b. rewrite Hl. replace (S r - 1)%nat with r by lia. auto.
Qed.

Lemma reachable_wf (c : state) : reachable c -> wf c.
Proof.
  induction 1 as [reserve allowed|c path attr _ IH|c node_set _ IH].
  - apply wf_empty_complex.
  - now apply wf_add_path.
  - destruct (remove_nodes_ok node_set c IH) as (c' & -> & Hwf). exact Hwf.
Qed.

End WithIteration.

End PathMonad.

(** ** Insertion and removal in a path complex *)

Section PathClaims.
Import PyDict PathComplex PathSpec.
Local Open Scope py_scope.

Lemma stored_iff (c : state) (r : nat) (p : Path) :
  stored c r p <-> stored_b c r p = true.
Proof.
  unfold stored, stored_b. split.
  - intros (b & -> & Hin). now apply mem_keys.
  - destruct (faces_dict (_path_set c) !! r) as [b|]; [|discriminate].
    intros Hm. exists b. split; [reflexivity|]. now apply mem_keys.
Qed.

(** C7. A call of [add_path] that fails validation, because the cell has
    duplicate nodes or because, outside reserve-order mode, its first node
    string-compares greater than its last, raises [ValueError] and leaves
    the complex exactly as it was. *)
Theorem add_path_invalid_atomic (c : state) (path : PathArg) (attr : Attrs) :
  ~ NoDup (path_of path) \/
  (_reserve_sequence_order c = false /\
   exists a b, head (path_of path) = Some a /\ last (path_of path) = Some b /\
               str_gt (str a) (str b) = true) ->
  add_path path attr c = (Raise ValueError, c).
Proof.
  intros Hbad. apply add_path_invalid. unfold passes_validation.
  destruct (has_duplicates (path_of path)) eqn:Hd; [reflexivity|].
  apply has_duplicates_false in Hd. simpl.
  destruct Hbad as [Hdup|(Hr & a & b & Ha & Hb & Hgt)]; [contradiction|].
  apply negb_false_iff. unfold ambiguous_direction, str_first_gt_last.
  rewrite Ha, Hb, Hr. simpl. rewrite Hgt, andb_true_r, andb_true_r.
  apply Nat.ltb_lt.
  destruct (path_of path) as [|x [|y p]]; simpl in *; [discriminate| |lia].
  injection Ha as <-. injection Hb as <-. rewrite str_gt_irrefl in Hgt. discriminate.
Qed.

Lemma add_path_invalid_atomic_witness :
  add_path (ASeq [NInt 1; NInt 0]) ∅ (empty_complex false ∅)
  = (Raise ValueError, empty_complex false ∅).
Proof.
  apply add_path_invalid_atomic. right. split; [reflexivity|].
  exists (NInt 1), (NInt 0). repeat split; reflexivity.
Defined.

Section WithIteration.
Context `{SetIteration}.

(** C6. In a complex produced by the constructor and the mutating methods,
    inserting a cell that is already present only merges the new attributes
    into the attribute store of the cell: the call is the attribute merge
    [faces_dict[rank][cell].update(attr)], the cells of every rank, the
    dimension and the allowed paths are unchanged, and the attributes of
    the other cells are untouched. Afterwards the store of the cell holds
    every item of [attr], and under every other key what it held before. *)
Theorem add_path_present_merges (c : state) (p : Path) (attr d : Attrs)
  (b : dict Path Attrs) :
  reachable c ->
  faces_dict (_path_set c) !! (length p - 1)%nat = Some b ->
  get b p = Some d ->
  exists c',
    add_path (ASeq p) attr c = (Ok tt, c') /\
    update_attrs (rank p) p attr c = (Ok tt, c') /\
    map keys (faces_dict (_path_set c')) = map keys (faces_dict (_path_set c)) /\
    max_dim (_path_set c') = max_dim (_path_set c) /\
    _allowed_paths c' = _allowed_paths c /\
    _reserve_sequence_order c' = _reserve_sequence_order c /\
    faces_dict (_path_set c')
    = <[(length p - 1)%nat := set b p (attrs_update d attr)]> (faces_dict (_path_set c)) /\
    exists b' d',
      faces_dict (_path_set c') !! (length p - 1)%nat = Some b' /\
      get b' p = Some d' /\
      (forall k v, attr !! k = Some v -> d' !! k = Some v) /\
      (forall k, attr !! k = None -> d' !! k = d !! k) /\
      (forall q, q <> p -> get b' q = get b q).
Proof.
  intros Hreach Hb Hd. apply reachable_wf in Hreach as Hwf.
  assert (Hin : p ∈ keys b) by (apply get_Some_keys; eauto).
  pose proof (wf_length c Hwf _ b p Hb Hin) as Hl.
  assert (Hne : p <> []) by (intros ->; discriminate).
  pose proof (wf_valid c Hwf _ b p Hb Hin) as Hv.
  pose proof (wf_top c Hwf _ b p Hb Hin) as Ht.
  assert (Hlen : (length p <= length (faces_dict (_path_set c)))%nat).
  { apply lookup_lt_Some in Hb. lia. }
  assert (Hg : grow (faces_dict (_path_set c)) (length p) = faces_dict (_path_set c)).
  { unfold grow. destruct (Nat.ltb_spec (length (faces_dict (_path_set c))) (length p)); [lia|reflexivity]. }
  assert (Hs : add_path_state p attr c
    = with_faces_dict (<[(length p - 1)%nat := set b p (attrs_update d attr)]>
                         (faces_dict (_path_set c))) c).
  { unfold add_path_state. rewrite Hg, Hb. simpl default.
    apply mem_keys in Hin as Hm. rewrite Hm. simpl fst. simpl snd.
    unfold merge_attrs. rewrite Hb, Hd.
    change (0 <? size (∅ : gset Path))%nat with false. cbv iota.
    destruct (Z.ltb_spec (max_dim (_path_set c)) (rank p)) as [Hlt|_];
      [unfold rank in Hlt; lia|].
    reflexivity. }
  eexists. split; [rewrite add_path_ok, Hs by assumption; reflexivity|].
  split.
  { rewrite (update_attrs_eq (rank p) _ p attr c b d
               (py_norm_index_rank _ p Hne Hlen) Hb Hd).
    unfold merge_attrs. now rewrite Hb, Hd. }
  simpl. split.
  { apply list_eq. intros i. rewrite !list_lookup_fmap.
    destruct (decide (i = (length p - 1)%nat)) as [->|Hi].
    - rewrite list_lookup_insert_eq by (eapply lookup_lt_Some; eauto).
      rewrite Hb. simpl. f_equal. now apply keys_set_present.
    - now rewrite list_lookup_insert_ne by congruence. }
  do 4 (split; [reflexivity|]).
  exists (set b p (attrs_update d attr)), (attrs_update d attr).
  split; [apply list_lookup_insert_eq; eapply lookup_lt_Some; eauto|].
  split; [apply get_set_eq|].
  split; [|split].
  - intros k v Hk. unfold attrs_update. now apply lookup_union_Some_l.
  - intros k Hk. unfold attrs_update. now apply lookup_union_r.
  - intros q Hq. now apply get_set_ne.
Qed.

(** C10. In a complex produced by the constructor and the mutating methods,
    every path stored in a rank bucket is a member of the allowed-path set,
    and [remove_nodes] completes without raising, whatever the nodes and
    whatever the order in which the set of paths to remove is iterated. *)
Theorem stored_paths_are_allowed (c : state) :
  reachable c ->
  (forall r p, stored c r p -> p ∈ _allowed_paths c) /\
  (forall node_set, exists c', remove_nodes node_set c = (Ok tt, c')).
Proof.
  intros Hreach. apply reachable_wf in Hreach as Hwf. split.
  - intros r p (b & Hb & Hin). eapply wf_allowed; eauto.
  - intros node_set. destruct (remove_nodes_ok node_set c Hwf) as (c' & E & _). eauto.
Qed.

End WithIteration.

Lemma add_path_present_merges_witness :
  exists c' b' d',
    add_path (ASeq [NInt 0; NInt 1]) {["w" := 2]}
      (snd (add_path (ASeq [NInt 0; NInt 1]) {["w" := 1]} (empty_complex false ∅)))
    = (Ok tt, c') /\
    faces_dict (_path_set c') !! 1%nat = Some b' /\
    get b' [NInt 0; NInt 1] = Some d' /\
    d' !! "w"%string = Some 2.
Proof.
  destruct (add_path_present_merges (H := list_order)
              (snd (add_path (ASeq [NInt 0; NInt 1]) {["w" := 1]} (empty_complex false ∅)))
              [NInt 0; NInt 1] {["w" := 2]} {["w" := 1]}
              [([NInt 0; NInt 1], {["w" := 1]})])
    as (c' & E & _ & _ & _ & _ & _ & _ & b' & d' & Hb' & Hd' & Hnew & _).
  - apply reachable_add_path, reachable_empty.
  - vm_compute. reflexivity.
  - vm_compute. reflexivity.
  - exists c', b', d'. split; [exact E|]. split; [exact Hb'|]. split; [exact Hd'|].
    apply Hnew. vm_compute. reflexivity.
Defined.

Lemma stored_paths_are_allowed_witness :
  exists c',
    remove_nodes (H := list_order) [NInt 0]
      (snd (add_path (ASeq [NInt 0; NInt 1]) ∅ (empty_complex false ∅)))
    = (Ok tt, c').
Proof.
  apply (stored_paths_are_allowed (H := list_order)).
  apply reachable_add_path, reachable_empty.
Defined.

End PathClaims.

(** ** Closure of the face lattice under insertion *)

Section PathClosure.
Import PyDict PathComplex PathSpec.

Lemma add_path_Ok_inv (p : Path) (attr : Attrs) (c c' : state) :
  add_path (ASeq p) attr c = (Ok tt, c') -> p <> [] ->
  c' = add_path_state p attr c.
Proof.
  intros E Hne.
  destruct (passes_validation (_reserve_sequence_order c) p) eqn:Hv.
  - rewrite (add_path_ok p attr c Hne Hv) in E. congruence.
  - rewrite (add_path_invalid (ASeq p) attr c Hv) in E. discriminate.
Qed.

Lemma add_path_closure (c c' : state) (p : Path) (attr : Attrs) :
  add_path (ASeq p) attr c = (Ok tt, c') ->
  ~ stored c (length p - 1)%nat p ->
  forall q, q ∈ sub_paths p ->
    stored c' (length q - 1)%nat (canon (_reserve_sequence_order c) q).
Proof.
  intros E Hnew q Hq.
  assert (Hne : p <> []).
  { intros ->. apply elem_of_sub_paths in Hq as (i & len & H1 & H2 & _).
    simpl in H2. lia. }
  rewrite (add_path_Ok_inv p attr c c' E Hne). unfold add_path_state, stored. simpl.
  set (fd1 := grow (faces_dict (_path_set c)) (length p)).
  assert (Hm : mem (default [] (fd1 !! (length p - 1)%nat)) p = false).
  { apply mem_false_keys. intros Hin.
    destruct (fd1 !! (length p - 1)%nat) as [b|] eqn:Hb; simpl in Hin;
      [|now apply elem_of_nil in Hin].
    apply grow_lookup in Hb as [Hb| ->]; [|now apply elem_of_nil in Hin].
    apply Hnew. exists b. auto. }
  rewrite Hm.
  set (k := canon (_reserve_sequence_order c) q).
  destruct (fold_insert_stored (sub_faces (_reserve_sequence_order c) p) fd1 ∅ k)
    as (b & Hb & Hin).
  - apply Forall_forall. intros k' Hk'. unfold sub_faces in Hk'.
    apply list_elem_of_fmap in Hk' as (q' & -> & Hq'). apply canon_nonempty.
    now apply sub_paths_nonempty in Hq'.
  - unfold sub_faces. now apply list_elem_of_fmap_2.
  - unfold k. rewrite length_canon. apply sub_paths_nonempty in Hq as [_ Hq].
    pose proof (length_grow (faces_dict (_path_set c)) (length p)). fold fd1 in H. lia.
  - unfold k in Hb. rewrite length_canon in Hb.
    set (fd2 := fst (fold_left insert_step _ _)) in *.
    destruct (lookup_lt_is_Some_2 (merge_attrs fd2 (length p - 1) p attr) (length q - 1)%nat)
      as [b' Hb'].
    { rewrite length_merge_attrs. eapply lookup_lt_Some; eauto. }
    exists b'. split; [assumption|].
    apply merge_attrs_lookup in Hb' as (b0 & Hb0 & -> & _).
    rewrite Hb in Hb0. injection Hb0 as E0. now subst b0.
Qed.

End PathClosure.

Section SimplexInsertion.
Import PyDict SimplicialComplex.

Lemma combinations_0 {A : Type} (l : list A) : combinations l 0 = [[]].
Proof. now destruct l. Qed.

Lemma combinations_subset (l : list Z) (X : gset Z) :
  NoDup l -> X ⊆ list_to_set l ->
  exists l', l' ∈ combinations l (size X) /\ list_to_set l' = X /\
             length l' = size X.
Proof.
  revert X. induction l as [|x l IH]; intros X Hnd HX.
  - assert (X = ∅) as -> by set_solver.
    exists []. rewrite size_empty. simpl. split; [apply list_elem_of_here|auto].
  - apply NoDup_cons in Hnd as [Hx Hnd]. simpl in HX.
    destruct (decide (x ∈ X)) as [Hin|Hnotin].
    + destruct (IH (X ∖ {[x]}) Hnd) as (l' & Hl' & Hset & Hlen).
      { intros y Hy. apply elem_of_difference in Hy as [Hy Hyx].
        apply HX in Hy. set_solver. }
      assert (Hsz : size X = S (size (X ∖ {[x]}))).
      { rewrite size_difference by set_solver. rewrite size_singleton.
        assert (size X <> 0)%nat; [|lia].
        intros E. apply size_empty_iff in E. set_solver. }
      exists (x :: l'). rewrite Hsz. simpl. split; [|split].
      * apply elem_of_app. left. now apply list_elem_of_fmap_2.
      * rewrite Hset. apply set_eq. intros y.
        rewrite elem_of_union, elem_of_singleton, elem_of_difference, elem_of_singleton.
        destruct (decide (y = x)) as [->|]; intuition.
      * now rewrite Hlen.
    + destruct (IH X Hnd) as (l' & Hl' & Hset & Hlen); [set_solver|].
      exists l'. split; [|auto].
      revert Hl'. destruct (size X) as [|r]; intros Hl'.
      * now rewrite combinations_0 in *.
      * simpl. apply elem_of_app. now right.
Qed.

Lemma length_add_face fd face : length (add_face fd face) = length fd.
Proof.
  unfold add_face. destruct (fd !! _); [|reflexivity].
  destruct (mem _ _); [reflexivity|apply length_insert].
Qed.

Lemma present_add_face_mono fd face X :
  present fd X = true -> present (add_face fd face) X = true.
Proof.
  unfold present, add_face.
  destruct (fd !! (length face - 1)%nat) as [b|] eqn:Hb; [|auto].
  destruct (mem b (list_to_set face)) eqn:Hm; [auto|].
  destruct (decide ((size X - 1)%nat = (length face - 1)%nat)) as [->|Hne].
  - rewrite Hb, list_lookup_insert_eq by (eapply lookup_lt_Some; eauto).
    intros HX. apply mem_keys. apply mem_keys in HX.
    apply mem_false_keys in Hm. rewrite keys_set_absent by assumption.
    apply elem_of_app. now left.
  - now rewrite list_lookup_insert_ne by congruence.
Qed.

Lemma present_add_face fd face :
  (length face - 1 < length fd)%nat -> size (list_to_set face : gset Z) = length face ->
  present (add_face fd face) (list_to_set face) = true.
Proof.
  intros Hlen Hsz. unfold present, add_face. rewrite Hsz.
  destruct (lookup_lt_is_Some_2 fd _ Hlen) as [b Hb]. rewrite Hb.
  destruct (mem b (list_to_set face)) eqn:Hm.
  - now rewrite Hb.
  - rewrite list_lookup_insert_eq by assumption.
    apply mem_keys, get_Some_keys. rewrite get_set_eq. eauto.
Qed.

Lemma present_fold_add_face faces fd face :
  face ∈ faces ->
  (length face - 1 < length fd)%nat -> size (list_to_set face : gset Z) = length face ->
  present (fold_left add_face faces fd) (list_to_set face) = true.
Proof.
  revert fd. induction faces as [|f faces IH]; intros fd Hin Hlen Hsz.
  - now apply elem_of_nil in Hin.
  - simpl. apply elem_of_cons in Hin as [->|Hin].
    + pose proof (present_add_face fd f Hlen Hsz) as Hp.
      clear IH Hlen. revert Hp. generalize (add_face fd f). clear fd.
      induction faces as [|g faces IH]; intros fd Hp; simpl; [assumption|].
      apply IH. now apply present_add_face_mono.
    + apply IH; auto. now rewrite length_add_face.
Qed.

Lemma present_merge_attrs fd r s attr X :
  present fd X = true -> present (merge_attrs fd r s attr) X = true.
Proof.
  unfold present, merge_attrs.
  destruct (fd !! r) as [b|] eqn:Hb; [|auto].
  destruct (get b s) as [d|] eqn:Hd; [|auto].
  destruct (decide ((size X - 1)%nat = r)) as [->|Hne].
  - rewrite Hb, list_lookup_insert_eq by (eapply lookup_lt_Some; eauto).
    intros HX. apply mem_keys. apply mem_keys in HX.
    rewrite keys_set_present; [assumption|]. apply get_Some_keys. eauto.
  - now rewrite list_lookup_insert_ne by congruence.
Qed.

Lemma present_grow fd n X : present (grow n fd) X = present fd X.
Proof.
  unfold present, grow.
  destruct (fd !! (size X - 1)%nat) as [b|] eqn:Hb.
  - now rewrite (lookup_app_l_Some _ _ _ _ Hb).
  - destruct ((fd ++ replicate (n - length fd) []) !! (size X - 1)%nat) as [b|] eqn:Hb';
      [|reflexivity].
    apply lookup_app_Some in Hb' as [Hb'|[_ Hb']]; [congruence|].
    apply lookup_replicate in Hb' as [-> _]. reflexivity.
Qed.

Lemma insert_simplex_closure (sc sc' : state) (simplex : list Z) (attr : Attrs) :
  insert_simplex simplex attr sc = (Ok tt, sc') ->
  present (faces_dict (_simplex_set sc)) (list_to_set simplex) = false ->
  forall X : gset Z, X ⊆ list_to_set simplex -> X <> ∅ ->
    present (faces_dict (_simplex_set sc')) X = true.
Proof.
  unfold insert_simplex. intros E Hnew X HX Hne.
  destruct (negb _ || _) eqn:Hc; [discriminate|].
  apply orb_false_elim in Hc as [Hd Hn].
  apply negb_false_iff, Nat.eqb_eq in Hd. apply NoDup_length_remove_dups in Hd.
  apply Nat.eqb_neq in Hn.
  injection E as <-. simpl.
  rewrite present_grow, Hnew.
  apply present_merge_attrs.
  destruct (combinations_subset simplex X Hd HX) as (face & Hface & Hset & Hlen).
  assert (Hpos : (0 < size X)%nat).
  { destruct (size X) eqn:E; [|lia]. apply size_empty_iff in E. set_solver. }
  assert (Hle : (size X <= length simplex)%nat).
  { etransitivity; [apply (subseteq_size _ _ HX)|].
    rewrite size_list_to_set by assumption. reflexivity. }
  rewrite <- Hset. apply present_fold_add_face.
  - apply list_elem_of_In, in_flat_map. exists (length simplex - size X)%nat.
    split; [apply in_seq; lia|].
    replace (length simplex - (length simplex - size X))%nat with (size X) by lia.
    now apply list_elem_of_In.
  - unfold grow. rewrite length_app, length_replicate. lia.
  - rewrite Hset. auto.
Qed.

End SimplexInsertion.

(** ** Skeletons *)

Section Skeleton.
Import PyDict.
Context `{SetIteration}.

Lemma py_index_in_range {A : Type} (l : list A) (i : Z) :
  0 <= i < Z.of_nat (length l) -> py_index l i = l !! Z.to_nat i.
Proof.
  intros Hi. unfold py_index, py_norm_index.
  replace (0 <=? i) with true by (symmetry; apply Z.leb_le; lia).
  replace (i <? Z.of_nat (length l)) with true by (symmetry; apply Z.ltb_lt; lia).
  reflexivity.
Qed.

Lemma key_le_total (x y : Path) :
  PathComplex.key_le x y = true \/ PathComplex.key_le y x = true.
Proof.
  apply tuple_le_total. intros a b. apply String.compare_antisym.
Qed.

Lemma Z_tuple_le_total (x y : list Z) :
  tuple_le Z.compare x y = true \/ tuple_le Z.compare y x = true.
Proof.
  apply tuple_le_total. intros a b. apply Z.compare_antisym.
Qed.

Lemma path_skeleton_in_range (c : PathComplex.state) (rank : Z) :
  0 <= rank < Z.of_nat (length (PathComplex.faces_dict (PathComplex._path_set c))) ->
  exists b,
    PathComplex.faces_dict (PathComplex._path_set c) !! Z.to_nat rank = Some b /\
    PathComplex.skeleton c rank = Ok (sorted PathComplex.key_le (keys b)).
Proof.
  intros Hr. unfold PathComplex.skeleton.
  replace (rank <? _) with true by (symmetry; apply Z.ltb_lt; lia).
  replace (0 <=? rank) with true by (symmetry; apply Z.leb_le; lia).
  simpl. rewrite py_index_in_range by assumption.
  destruct (lookup_lt_is_Some_2 (PathComplex.faces_dict (PathComplex._path_set c))
              (Z.to_nat rank)) as [b Hb]; [lia|].
  exists b. now rewrite Hb.
Qed.

Lemma path_skeleton_out_of_range (c : PathComplex.state) (rank : Z) :
  rank < 0 \/ Z.of_nat (length (PathComplex.faces_dict (PathComplex._path_set c))) <= rank ->
  PathComplex.skeleton c rank = Raise ValueError.
Proof.
  intros Hr. unfold PathComplex.skeleton.
  destruct (Z.ltb_spec rank (Z.of_nat (length (PathComplex.faces_dict (PathComplex._path_set c)))));
    destruct (Z.leb_spec 0 rank); simpl; try lia;
    now destruct (rank <? 0).
Qed.

Lemma simplex_skeleton_in_range (sc : SimplicialComplex.state) (rank : Z) :
  0 <= rank < Z.of_nat (length (SimplicialComplex.faces_dict (SimplicialComplex._simplex_set sc))) ->
  exists b,
    SimplicialComplex.faces_dict (SimplicialComplex._simplex_set sc) !! Z.to_nat rank = Some b /\
    SimplicialComplex.skeleton sc rank
    = Ok (sorted (tuple_le Z.compare) (map SimplicialComplex.tuple_of (keys b))).
Proof.
  intros Hr. unfold SimplicialComplex.skeleton.
  replace (rank <? _) with true by (symmetry; apply Z.ltb_lt; lia).
  rewrite py_index_in_range by assumption.
  destruct (lookup_lt_is_Some_2 (SimplicialComplex.faces_dict (SimplicialComplex._simplex_set sc))
              (Z.to_nat rank)) as [b Hb]; [lia|].
  exists b. now rewrite Hb.
Qed.

(** C4 (amended). [skeleton(rank)] of a path complex returns the cells of
    the rank bucket, sorted by the lexicographic order of their stringified
    node tuples, when [0 <= rank < len(faces_dict)], and raises [ValueError]
    when [rank < 0] or [rank >= len(faces_dict)]; the number of buckets can
    exceed [max_dim + 1] after removals. [skeleton(rank)] of a simplicial
    complex returns the cells of the bucket as tuples sorted by the order of
    the tuples themselves when [0 <= rank < len(faces_dict)], and raises
    [ValueError] when [rank >= len(faces_dict)]. *)
Theorem skeleton_sorted_or_raises :
  (forall (c : PathComplex.state) (rank : Z),
     let fd := PathComplex.faces_dict (PathComplex._path_set c) in
     (0 <= rank < Z.of_nat (length fd) ->
      exists b l,
        fd !! Z.to_nat rank = Some b /\
        PathComplex.skeleton c rank = Ok l /\
        Permutation l (keys b) /\
        Sorted (fun x y => PathComplex.key_le x y = true) l) /\
     (rank < 0 \/ Z.of_nat (length fd) <= rank ->
      PathComplex.skeleton c rank = Raise ValueError)) /\
  (forall (sc : SimplicialComplex.state) (rank : Z),
     let fd := SimplicialComplex.faces_dict (SimplicialComplex._simplex_set sc) in
     (0 <= rank < Z.of_nat (length fd) ->
      exists b l,
        fd !! Z.to_nat rank = Some b /\
        SimplicialComplex.skeleton sc rank = Ok l /\
        Permutation l (map SimplicialComplex.tuple_of (keys b)) /\
        Sorted (fun x y => tuple_le Z.compare x y = true) l) /\
     (Z.of_nat (length fd) <= rank ->
      SimplicialComplex.skeleton sc rank = Raise ValueError)).
Proof.
  split.
  - intros c rank fd. split.
    + intros Hr. destruct (path_skeleton_in_range c rank Hr) as (b & Hb & E).
      exists b, (sorted PathComplex.key_le (keys b)).
      split; [assumption|]. split; [assumption|].
      split; [apply sorted_perm|apply sorted_Sorted, key_le_total].
    + apply path_skeleton_out_of_range.
  - intros sc rank fd. split.
    + intros Hr. destruct (simplex_skeleton_in_range sc rank Hr) as (b & Hb & E).
      exists b, (sorted (tuple_le Z.compare) (map SimplicialComplex.tuple_of (keys b))).
      split; [assumption|]. split; [assumption|].
      split; [apply sorted_perm|apply sorted_Sorted, Z_tuple_le_total].
    + intros Hr. unfold SimplicialComplex.skeleton. fold fd.
      destruct (Z.ltb_spec rank (Z.of_nat (length fd))); [lia|].
      now destruct (rank <? 0).
Qed.

End Skeleton.

Lemma skeleton_sorted_or_raises_witness :
  PathComplex.skeleton
    (snd (PathComplex.add_path (PathComplex.ASeq [NInt 0; NInt 1]) ∅
            (PathComplex.empty_complex false ∅))) 2
  = Raise ValueError.
Proof.
  apply (proj1 (skeleton_sorted_or_raises (H := list_order))). right.
  vm_compute. discriminate.
Defined.

(** C4, as stated, fails on both kinds of complex. The skeleton of a
    simplicial complex is sorted by the node tuples themselves, not by their
    strings: (9,) comes before (10,) although "9" > "10". And after the only
    edge of a path complex is removed, [skeleton(1)] returns the empty
    sequence although 1 exceeds the dimension 0. *)
Lemma skeleton_order_and_bound_differ :
  let sc := {| SimplicialComplex._simplex_set :=
                 {| SimplicialComplex.faces_dict := [[({[9]}, ∅); ({[10]}, ∅)]];
                    SimplicialComplex.max_dim := 0 |} |} in
  let c := snd (PathComplex.remove_nodes (H := list_order) [NInt 0]
             (snd (PathComplex.add_path (PathComplex.ASeq [NInt 0; NInt 1]) ∅
                     (PathComplex.empty_complex false ∅)))) in
  SimplicialComplex.skeleton (H := list_order) sc 0 = Ok [[9]; [10]] /\
  PathComplex.key_le [NInt 9] [NInt 10] = false /\
  PathComplex.dim c = 0 /\
  PathComplex.skeleton c 1 = Ok [].
Proof. repeat split; vm_compute; reflexivity. Qed.

(** ** Incidence matrices: ranks and errors *)

Section PathIncidence.
Import PyDict PathComplex PathSpec.

Lemma boundary_entries_not_ValueError c d path idx positions :
  boundary_entries c d path idx positions <> Raise ValueError.
Proof.
  induction positions as [|i rest IH]; simpl; [discriminate|].
  destruct (canonical _ _); [|discriminate].
  destruct (bool_decide _); [|assumption].
  destruct (get d _); [|discriminate].
  destruct (boundary_entries c d path idx rest) as [es|e]; [discriminate|].
  intros E. apply IH. congruence.
Qed.

Lemma incidence_entries_not_ValueError c d items :
  incidence_entries c d items <> Raise ValueError.
Proof.
  induction items as [|[path idx] rest IH]; simpl; [discriminate|].
  destruct (boundary_entries c d path idx _) as [es|e] eqn:E.
  - destruct (incidence_entries c d rest) as [es'|e']; [discriminate|].
    intros E'. apply IH. congruence.
  - intros E'. apply (boundary_entries_not_ValueError c d path idx (seq 0 (length path))).
    congruence.
Qed.

Section WithIteration.
Context `{SetIteration}.

Lemma path_incidence_matrix_ValueError (c : state) (rank : Z) (signed : bool) :
  reachable c ->
  incidence_matrix c rank signed = Raise ValueError <-> rank < 0 \/ dim c < rank.
Proof.
  intros Hreach. apply reachable_wf in Hreach as Hwf.
  pose proof (wf_max_dim c Hwf) as Hmd. fold (dim c) in Hmd.
  unfold incidence_matrix.
  destruct (Z.ltb_spec rank 0) as [Hneg|Hpos]; [tauto|].
  destruct (Z.ltb_spec (dim c) rank) as [Hbig|Hsmall]; [tauto|].
  split; [|lia]. intros E. exfalso.
  destruct (Z.eqb_spec rank 0) as [->|Hnz]; [discriminate|].
  unfold incidence_matrix_index in E.
  destruct (path_skeleton_in_range c (rank - 1)) as (b1 & _ & E1); [lia|].
  destruct (path_skeleton_in_range c rank) as (b2 & _ & E2); [lia|].
  rewrite E1, E2 in E.
  destruct (incidence_entries _ _ _) as [es|e] eqn:Ee; [discriminate|].
  injection E as ->. now apply incidence_entries_not_ValueError in Ee.
Qed.

End WithIteration.

End PathIncidence.

(** ** A path complex built from a graph *)

Section GraphScenario.
Import PyDict PathComplex PathSpec.
Local Open Scope py_scope.

(** The complex of the scenario once the nodes and the edges of the graph
    are added, before the allowed paths are. *)
Lemma scenario_every_order :
  let c0 := empty_complex false ∅ in
  let c1 := with_allowed_paths (compute_allowed_paths path_graph_3 false 3) c0 in
  let c2 := snd (for_each (nodes path_graph_3)
                   (fun '(n, data) => add_path (ASeq [n]) data) c1) in
  let c3 := snd (for_each (edges path_graph_3)
                   (fun '(u, v, data) =>
                      if str_gt (str u) (str v) && negb false
                      then add_path (ASeq [v; u]) data
                      else add_path (ASeq [u; v]) data) c2) in
  forallb (fun l => scenario_ok (for_each l (fun p => add_path (ASeq p) ∅) c3))
    (permutations (elements (_allowed_paths c3))) = true.
Proof. vm_compute. reflexivity. Qed.


(** C8. For the path complex built from the undirected graph with edges
    (0, 1) and (1, 2) and [max_rank = 3], in whatever order the set of
    allowed paths is iterated: the computed allowed paths contain (0, 1, 2)
    and no path of more than three nodes, the constructor succeeds, and
    [skeleton(2)] is exactly [[(0, 1, 2)]]. *)
Theorem graph_scenario `{SetIteration} :
  let allowed := compute_allowed_paths path_graph_3 false 3 in
  let r := init (FromGraph path_graph_3) false None 3 in
  [NInt 0; NInt 1; NInt 2] ∈ allowed /\
  (forall p, p ∈ allowed -> (length p <= 3)%nat) /\
  fst r = Ok tt /\
  skeleton (snd r) 2 = Ok [[NInt 0; NInt 1; NInt 2]].
Proof.
  intros allowed r. split; [|split].
  - apply (proj1 (bool_decide_spec ([NInt 0; NInt 1; NInt 2] ∈ allowed))).
    vm_compute. exact I.
  - intros p Hp. apply elem_of_elements in Hp. revert p Hp. apply Forall_forall.
    vm_compute. repeat constructor.
  - enough (Hok : scenario_ok r = true)
      by (unfold scenario_ok in Hok; now apply bool_decide_eq_true in Hok).
    subst r. unfold init.
    rewrite bind_eq. unfold modify at 1.
    set (c1 := with_allowed_paths _ _).
    rewrite bind_eq.
    set (r2 := for_each (nodes path_graph_3) _ c1).
    assert (E2 : r2 = (Ok tt, snd r2)) by (vm_compute; reflexivity).
    rewrite E2. rewrite bind_eq.
    set (r3 := for_each (edges path_graph_3) _ (snd r2)).
    assert (E3 : r3 = (Ok tt, snd r3)) by (vm_compute; reflexivity).
    rewrite E3. rewrite bind_eq. unfold get_state at 1.
    unfold add_paths_from.
    pose proof (set_order_perm _ (elements (_allowed_paths (snd r3)))) as Hperm.
    revert Hperm. generalize (set_order (elements (_allowed_paths (snd r3)))).
    intros l Hperm. symmetry in Hperm. apply permutations_Permutation in Hperm.
    pose proof scenario_every_order as Hall. cbv zeta in Hall.
    rewrite forallb_forall in Hall. apply (Hall l).
    apply list_elem_of_In. exact Hperm.
Qed.

End GraphScenario.

(** ** The boundary as a formal sum *)

Section FormalSums.
Import SimplicialComplex SimplexSpec.

Lemma sum_Z_app (l1 l2 : list Z) : sum_Z (l1 ++ l2) = sum_Z l1 + sum_Z l2.
Proof. induction l1 as [|x l1 IH]; simpl; [reflexivity|]. rewrite IH. lia. Qed.

Lemma sum_Z_zero {A : Type} (f : A -> Z) (l : list A) :
  (forall x, x ∈ l -> f x = 0) -> sum_Z (map f l) = 0.
Proof.
  induction l as [|x l IH]; intros Hz; simpl; [reflexivity|].
  rewrite Hz by apply list_elem_of_here.
  rewrite IH; [reflexivity|]. intros y Hy. apply Hz. now apply list_elem_of_further.
Qed.

Lemma sum_Z_ext {A : Type} (f g : A -> Z) (l : list A) :
  (forall x, x ∈ l -> f x = g x) -> sum_Z (map f l) = sum_Z (map g l).
Proof.
  induction l as [|x l IH]; intros He; simpl; [reflexivity|].
  rewrite He by apply list_elem_of_here.
  rewrite IH; [reflexivity|]. intros y Hy. apply He. now apply list_elem_of_further.
Qed.

Lemma sum_Z_flat_map {A : Type} (f : A -> list Z) (l : list A) :
  sum_Z (flat_map f l) = sum_Z (map (fun x => sum_Z (f x)) l).
Proof.
  induction l as [|x l IH]; simpl; [reflexivity|]. now rewrite sum_Z_app, IH.
Qed.

Lemma sum_Z_scale {A : Type} (k : Z) (f : A -> Z) (l : list A) :
  sum_Z (map (fun x => k * f x) l) = k * sum_Z (map f l).
Proof. induction l as [|x l IH]; simpl; [lia|]. rewrite IH. lia. Qed.

Lemma wsum_cons {A : Type} (c : Z) (f : A) (l : list (Z * A)) (h : A -> Z) :
  wsum ((c, f) :: l) h = c * h f + wsum l h.
Proof. reflexivity. Qed.

Lemma wsum_ext {A : Type} (l : list (Z * A)) (h1 h2 : A -> Z) :
  (forall c f, (c, f) ∈ l -> h1 f = h2 f) -> wsum l h1 = wsum l h2.
Proof.
  intros He. unfold wsum. apply sum_Z_ext. intros [c f] Hin.
  now rewrite (He c f Hin).
Qed.

Lemma wsum_neg_map {A B : Type} (g : A -> B) (l : list (Z * A)) (h : B -> Z) :
  wsum (map (fun '(c, f) => (- c, g f)) l) h = - wsum l (fun f => h (g f)).
Proof.
  unfold wsum. induction l as [|[c f] l IH]; simpl; [reflexivity|].
  rewrite IH. lia.
Qed.

Lemma wsum_sub {A : Type} (l : list (Z * A)) (h1 h2 : A -> Z) :
  wsum l (fun f => h1 f - h2 f) = wsum l h1 - wsum l h2.
Proof.
  unfold wsum. induction l as [|[c f] l IH]; simpl; [reflexivity|].
  rewrite IH. lia.
Qed.

Lemma sign_S (i : nat) : sign (S i) = - sign i.
Proof.
  unfold sign. rewrite Nat.even_succ, <- Nat.negb_even.
  now destruct (Nat.even i).
Qed.

Lemma faces_cons {A : Type} (x : A) (s : list A) :
  faces (x :: s) = (1, s) :: map (fun '(c, f) => (- c, x :: f)) (faces s).
Proof.
  unfold faces. simpl length. simpl seq. simpl map. f_equal.
  rewrite <- seq_shift, !map_map. apply map_ext. intros i.
  now rewrite sign_S.
Qed.

(** The boundary of the boundary vanishes under every weight. *)
Lemma boundary_boundary_zero {A : Type} (s : list A) (h : list A -> Z) :
  wsum (faces s) (fun f => wsum (faces f) h) = 0.
Proof.
  revert h. induction s as [|x s IH]; intros h; [reflexivity|].
  rewrite faces_cons, wsum_cons, wsum_neg_map. cbv beta.
  rewrite (wsum_ext (faces s) (fun f => wsum (faces (x :: f)) h)
             (fun f => h f - wsum (faces f) (fun g => h (x :: g)))).
  2:{ intros c f _. rewrite faces_cons, wsum_cons, wsum_neg_map. lia. }
  rewrite wsum_sub, IH. lia.
Qed.

Lemma length_faces {A : Type} (s : list A) : length (faces s) = length s.
Proof. unfold faces. now rewrite length_map, length_seq. Qed.

End FormalSums.

(** ** Simplices as sorted tuples *)

Section SortedNodes.
Import PyDict SimplicialComplex SimplexSpec.

Lemma Sorted_weaken {A : Type} (R R' : A -> A -> Prop) (l : list A) :
  (forall x y, R x y -> R' x y) -> Sorted R l -> Sorted R' l.
Proof.
  intros HR. induction 1 as [|x l Hs IH Hhd]; constructor; [assumption|].
  destruct Hhd; constructor. now apply HR.
Qed.

Lemma sorted_Z_StronglySorted (l : list Z) : StronglySorted Z.le (sorted Z.leb l).
Proof.
  apply Sorted_StronglySorted; [apply _|].
  apply (Sorted_weaken (fun a b => Z.leb a b = true)).
  - intros x y. apply Z.leb_le.
  - apply sorted_Sorted. intros x y.
    destruct (Z.leb_spec x y); [now left|right]. apply Z.leb_le. lia.
Qed.

Lemma sorted_Z_perm (l1 l2 : list Z) :
  Permutation l1 l2 -> sorted Z.leb l1 = sorted Z.leb l2.
Proof.
  intros Hp. apply (StronglySorted_unique Z.le); try apply sorted_Z_StronglySorted.
  now rewrite !sorted_perm.
Qed.

Lemma sorted_Z_id (l : list Z) : StronglySorted Z.le l -> sorted Z.leb l = l.
Proof.
  intros Hs. apply (StronglySorted_unique Z.le);
    [apply sorted_Z_StronglySorted|assumption|apply sorted_perm].
Qed.

Lemma nodes_of_perm (K : Simplex) : Permutation (nodes_of K) (elements K).
Proof. apply sorted_perm. Qed.

Lemma NoDup_nodes_of (K : Simplex) : NoDup (nodes_of K).
Proof. rewrite nodes_of_perm. apply NoDup_elements. Qed.

Lemma elem_of_nodes_of (K : Simplex) (x : Z) : x ∈ nodes_of K <-> x ∈ K.
Proof. rewrite nodes_of_perm. apply elem_of_elements. Qed.

Lemma list_to_set_nodes_of (K : Simplex) : list_to_set (nodes_of K) = K.
Proof.
  apply set_eq. intros x. rewrite elem_of_list_to_set. apply elem_of_nodes_of.
Qed.

Lemma length_nodes_of (K : Simplex) : length (nodes_of K) = size K.
Proof. unfold nodes_of. now rewrite sorted_length. Qed.

Lemma nodes_of_list_to_set (s : list Z) :
  StronglySorted Z.le s -> NoDup s -> nodes_of (list_to_set s) = s.
Proof.
  intros Hs Hnd. unfold nodes_of.
  rewrite <- (sorted_Z_id s Hs) at 2. apply sorted_Z_perm.
  now apply elements_list_to_set.
Qed.

Lemma delete_at_nil {A : Type} (i : nat) : delete_at i (@nil A) = [].
Proof. unfold delete_at. now rewrite take_nil, drop_nil. Qed.

Lemma delete_at_0 {A : Type} (x : A) (s : list A) : delete_at 0 (x :: s) = s.
Proof. reflexivity. Qed.

Lemma delete_at_S {A : Type} (i : nat) (x : A) (s : list A) :
  delete_at (S i) (x :: s) = x :: delete_at i s.
Proof. reflexivity. Qed.

Lemma elem_of_delete_at {A : Type} (i : nat) (s : list A) (y : A) :
  y ∈ delete_at i s -> y ∈ s.
Proof.
  revert i. induction s as [|x s IH]; intros [|i]; rewrite ?delete_at_nil; auto.
  - rewrite delete_at_0. apply list_elem_of_further.
  - rewrite delete_at_S, !elem_of_cons. intros [->|Hy]; eauto.
Qed.

Lemma delete_at_StronglySorted (s : list Z) (i : nat) :
  StronglySorted Z.le s -> StronglySorted Z.le (delete_at i s).
Proof.
  revert i. induction s as [|x s IH]; intros [|i] Hs; rewrite ?delete_at_nil; auto.
  - rewrite delete_at_0. now inversion Hs.
  - rewrite delete_at_S. inversion Hs as [|? ? Hs' Hall]; subst.
    constructor; [now apply IH|].
    apply Forall_forall. intros y Hy. apply elem_of_delete_at in Hy.
    rewrite Forall_forall in Hall. now apply Hall.
Qed.

Lemma elem_of_delete_at_NoDup (i : nat) (s : list Z) (x y : Z) :
  NoDup s -> s !! i = Some x ->
  y ∈ delete_at i s <-> y ∈ s /\ y <> x.
Proof.
  revert i. induction s as [|z s IH]; intros [|i] Hnd Hi; try discriminate.
  - injection Hi as ->. rewrite delete_at_0, elem_of_cons.
    apply NoDup_cons in Hnd as [Hx _]. split.
    + intros Hy. split; [now right|]. intros ->. contradiction.
    + intros [[->|Hy] Hne]; [contradiction|assumption].
  - simpl in Hi. apply NoDup_cons in Hnd as [Hz Hnd].
    rewrite delete_at_S, !elem_of_cons, (IH i Hnd Hi).
    assert (z <> x).
    { intros ->. apply Hz. eapply list_elem_of_lookup_2; eauto. }
    split.
    + intros [->|[Hy Hne]]; auto.
    + intros [[->|Hy] Hne]; auto.
Qed.

Lemma list_to_set_delete_at (K : Simplex) (i : nat) (x : Z) :
  nodes_of K !! i = Some x ->
  list_to_set (delete_at i (nodes_of K)) = K ∖ {[x]}.
Proof.
  intros Hi. apply set_eq. intros y.
  rewrite elem_of_list_to_set, (elem_of_delete_at_NoDup i _ x y (NoDup_nodes_of K) Hi).
  rewrite elem_of_nodes_of. set_solver.
Qed.

Lemma NoDup_delete_at (i : nat) (s : list Z) : NoDup s -> NoDup (delete_at i s).
Proof.
  intros Hnd. apply (sublist_NoDup _ s); [assumption|].
  unfold delete_at. rewrite <- (take_drop i s) at 3.
  apply sublist_app; [reflexivity|].
  destruct (drop i s) as [|z l] eqn:E.
  - replace (drop (S i) s) with (@nil Z); [constructor|].
    symmetry. apply drop_ge. apply (f_equal (@length _)) in E.
    rewrite length_drop in E. simpl in E. lia.
  - replace (drop (S i) s) with l; [now apply sublist_cons|].
    change (S i) with (1 + i)%nat. rewrite Nat.add_comm, <- drop_drop, E. reflexivity.
Qed.

Lemma nodes_of_remove (K : Simplex) (i : nat) (x : Z) :
  nodes_of K !! i = Some x ->
  nodes_of (K ∖ {[x]}) = delete_at i (nodes_of K).
Proof.
  intros Hi. rewrite <- (list_to_set_delete_at K i x Hi).
  apply nodes_of_list_to_set.
  - apply delete_at_StronglySorted, sorted_Z_StronglySorted.
  - apply NoDup_delete_at, NoDup_nodes_of.
Qed.

Section WithIteration.
Context `{SetIteration}.

Lemma list_to_set_tuple_of (K : Simplex) : list_to_set (tuple_of K) = K.
Proof.
  unfold tuple_of. apply set_eq. intros x.
  rewrite elem_of_list_to_set, (frozenset_order_perm _). apply elem_of_elements.
Qed.

Lemma sorted_tuple_of (K : Simplex) : sorted Z.leb (tuple_of K) = nodes_of K.
Proof. apply sorted_Z_perm, frozenset_order_perm. Qed.

Lemma tuple_of_inj (K K' : Simplex) : tuple_of K = tuple_of K' -> K = K'.
Proof.
  intros E. rewrite <- (list_to_set_tuple_of K), <- (list_to_set_tuple_of K').
  now rewrite E.
Qed.

Lemma length_tuple_of (K : Simplex) : length (tuple_of K) = size K.
Proof. unfold tuple_of. now rewrite (frozenset_order_perm _). Qed.

End WithIteration.

End SortedNodes.

(** ** Index dictionaries and the closure invariant *)

Section IndexDict.
Import PyDict.
Context {K : Type} `{EqDecision K}.

Lemma set_absent {V : Type} (d : dict K V) (k : K) (v : V) :
  k ∉ keys d -> set d k v = d ++ [(k, v)].
Proof.
  unfold keys. induction d as [|[k' v'] d IH]; simpl; intros Hk; [reflexivity|].
  apply not_elem_of_cons in Hk as [Hne Hk].
  rewrite decide_False by assumption. f_equal. now apply IH.
Qed.

Lemma keys_app {V : Type} (d1 d2 : dict K V) : keys (d1 ++ d2) = keys d1 ++ keys d2.
Proof. unfold keys. apply map_app. Qed.

Lemma index_dict_fold (l : list K) (start : nat) (d0 : dict K Z) :
  NoDup (keys d0 ++ l) ->
  fold_left (fun d '(i, x) => set d x i)
    (zip (map Z.of_nat (seq start (length l))) l) d0
  = d0 ++ zip l (map Z.of_nat (seq start (length l))).
Proof.
  revert start d0. induction l as [|x l IH]; intros start d0 Hnd; simpl.
  - now rewrite app_nil_r.
  - rewrite set_absent.
    2:{ apply NoDup_app in Hnd as (_ & Hd & _). intros Hx.
        apply (Hd x Hx). apply list_elem_of_here. }
    rewrite IH.
    + now rewrite <- app_assoc.
    + rewrite keys_app. simpl. rewrite <- app_assoc. exact Hnd.
Qed.

Lemma index_dict_NoDup (l : list K) :
  NoDup l -> index_dict l = zip l (map Z.of_nat (seq 0 (length l))).
Proof.
  intros Hnd. unfold index_dict, enumerate.
  now rewrite (index_dict_fold l 0 []).
Qed.

Lemma keys_zip {V : Type} (l : list K) (vs : list V) :
  length l = length vs -> keys (zip l vs) = l.
Proof.
  intros Hl. unfold keys. apply fst_zip. lia.
Qed.

Lemma get_zip_seq (l : list K) (start i : nat) (t : K) :
  NoDup l -> l !! i = Some t ->
  get (zip l (map Z.of_nat (seq start (length l)))) t = Some (Z.of_nat (start + i)).
Proof.
  revert start i. induction l as [|x l IH]; intros start [|i] Hnd Hi; try discriminate.
  - injection Hi as ->. simpl. rewrite decide_True by reflexivity.
    f_equal. lia.
  - simpl in Hi. apply NoDup_cons in Hnd as [Hx Hnd]. simpl.
    rewrite decide_False.
    + rewrite (IH (S start) i Hnd Hi). f_equal. lia.
    + intros ->. apply Hx. eapply list_elem_of_lookup_2; eauto.
Qed.

Lemma get_index_dict (l : list K) (i : nat) (t : K) :
  NoDup l -> l !! i = Some t -> get (index_dict l) t = Some (Z.of_nat i).
Proof.
  intros Hnd Hi. rewrite index_dict_NoDup by assumption.
  now rewrite (get_zip_seq l 0 i t Hnd Hi).
Qed.

Lemma keys_index_dict (l : list K) : NoDup l -> keys (index_dict l) = l.
Proof.
  intros Hnd. rewrite index_dict_NoDup by assumption.
  apply keys_zip. now rewrite length_map, length_seq.
Qed.

Lemma length_index_dict (l : list K) : NoDup l -> length (index_dict l) = length l.
Proof.
  intros Hnd. rewrite <- (keys_index_dict l Hnd) at 2. now rewrite length_keys.
Qed.

Lemma elem_of_index_dict (l : list K) (t : K) (j : Z) :
  NoDup l -> (t, j) ∈ index_dict l -> t ∈ l.
Proof.
  intros Hnd Hin. rewrite <- (keys_index_dict l Hnd).
  unfold keys. apply list_elem_of_fmap. exists (t, j). auto.
Qed.

End IndexDict.

Section Closure.
Import PyDict SimplicialComplex SimplexSpec.

Lemma elem_of_zip_seq {A : Type} (l : list A) (start i : nat) (x : A) :
  (i, x) ∈ zip (seq start (length l)) l <-> (start <= i)%nat /\ l !! (i - start)%nat = Some x.
Proof.
  revert start. induction l as [|y l IH]; intros start; simpl.
  - split; [intros Hin; now apply elem_of_nil in Hin|intros [_ ?]; discriminate].
  - rewrite elem_of_cons, IH. split.
    + intros [E|[Hle Hl]].
      * injection E as -> ->. split; [lia|]. now rewrite Nat.sub_diag.
      * split; [lia|]. replace (i - start)%nat with (S (i - S start)) by lia. exact Hl.
    + intros [Hle Hl]. destruct (decide (i = start)) as [->|Hne].
      * left. rewrite Nat.sub_diag in Hl. simpl in Hl. congruence.
      * right. split; [lia|].
        replace (i - start)%nat with (S (i - S start)) in Hl by lia. exact Hl.
Qed.

Lemma elem_of_enumerate_nat {A : Type} (l : list A) (i : nat) (x : A) :
  (i, x) ∈ enumerate_nat l <-> l !! i = Some x.
Proof.
  unfold enumerate_nat. rewrite elem_of_zip_seq, Nat.sub_0_r.
  split; [now intros [_ ?]|]. intros ?. split; [lia|assumption].
Qed.

Lemma closed_lattice_max_dim (sc : state) :
  closed_lattice sc = true ->
  dim sc < Z.of_nat (length (faces_dict (_simplex_set sc))).
Proof.
  unfold closed_lattice. intros [Hm _]%andb_prop. now apply Z.ltb_lt in Hm.
Qed.

Lemma closed_lattice_bucket (sc : state) (r : nat) (b : dict Simplex Attrs) :
  closed_lattice sc = true ->
  faces_dict (_simplex_set sc) !! r = Some b ->
  NoDup (keys b) /\
  forall s, s ∈ keys b ->
    size s = S r /\
    forall r' x, r = S r' -> x ∈ s ->
      exists b', faces_dict (_simplex_set sc) !! r' = Some b' /\ s ∖ {[x]} ∈ keys b'.
Proof.
  unfold closed_lattice. intros [_ Hall]%andb_prop Hb.
  rewrite forallb_forall in Hall.
  specialize (Hall (r, b)). simpl in Hall.
  assert (Hcb : closed_bucket (faces_dict (_simplex_set sc)) r b = true).
  { apply Hall. apply list_elem_of_In, elem_of_enumerate_nat, Hb. }
  unfold closed_bucket in Hcb. apply andb_prop in Hcb as [Hnd Hks].
  apply bool_decide_eq_true in Hnd. split; [assumption|].
  intros s Hs. rewrite forallb_forall in Hks.
  specialize (Hks s (proj1 (list_elem_of_In _ _) Hs)).
  apply andb_prop in Hks as [Hsz Hfaces]. apply Nat.eqb_eq in Hsz.
  split; [assumption|]. intros r' x -> Hx.
  rewrite forallb_forall in Hfaces.
  specialize (Hfaces x (proj1 (list_elem_of_In _ _) (proj2 (elem_of_elements _ _) Hx))).
  unfold face_present in Hfaces.
  destruct (faces_dict (_simplex_set sc) !! r') as [b'|]; [|discriminate].
  exists b'. split; [reflexivity|]. now apply mem_keys.
Qed.

End Closure.

(** ** The incidence matrix of a simplicial complex *)

Section SimplicialIncidence.
Import PyDict SimplicialComplex SimplexSpec.
Context `{SetIteration} `{NumPy}.

Lemma ranked_lattice_bucket (sc : state) (r : nat) (b : dict Simplex Attrs) :
  ranked_lattice sc = true ->
  faces_dict (_simplex_set sc) !! r = Some b ->
  NoDup (keys b) /\ forall s, s ∈ keys b -> size s = S r.
Proof.
  unfold ranked_lattice. intros Hall Hb. rewrite forallb_forall in Hall.
  specialize (Hall (r, b) (proj1 (list_elem_of_In _ _)
                             (proj2 (elem_of_enumerate_nat _ r b) Hb))).
  simpl in Hall. unfold ranked_bucket in Hall.
  apply andb_prop in Hall as [Hnd Hks]. apply bool_decide_eq_true in Hnd.
  split; [assumption|]. intros s Hs. rewrite forallb_forall in Hks.
  apply Nat.eqb_eq, Hks, list_elem_of_In, Hs.
Qed.

Lemma closed_lattice_ranked (sc : state) :
  closed_lattice sc = true -> ranked_lattice sc = true.
Proof.
  intros Hcl. unfold ranked_lattice. apply forallb_forall. intros [r b] Hin.
  apply list_elem_of_In, elem_of_enumerate_nat in Hin.
  destruct (closed_lattice_bucket sc r b Hcl Hin) as [Hnd Hks].
  unfold ranked_bucket. apply andb_true_intro. split.
  - now apply bool_decide_eq_true.
  - apply forallb_forall. intros s Hs. apply Nat.eqb_eq.
    now apply Hks, list_elem_of_In.
Qed.

Lemma int64_nodes_bucket (sc : state) (r : nat) (b : dict Simplex Attrs)
  (K : Simplex) :
  int64_nodes sc = true ->
  faces_dict (_simplex_set sc) !! r = Some b -> K ∈ keys b ->
  forallb int64 (elements K) = true.
Proof.
  unfold int64_nodes. intros Hall Hb HK. rewrite forallb_forall in Hall.
  specialize (Hall b (proj1 (list_elem_of_In _ _) (list_elem_of_lookup_2 _ _ _ Hb))).
  rewrite forallb_forall in Hall. apply Hall, list_elem_of_In, HK.
Qed.

Lemma np_sort_tuple_of (K : Simplex) :
  forallb int64 (elements K) = true -> np_sort (tuple_of K) = nodes_of K.
Proof.
  intros Hi. unfold np_sort.
  replace (forallb int64 (tuple_of K)) with true; [apply sorted_tuple_of|].
  symmetry. apply forallb_forall. intros x Hx. rewrite forallb_forall in Hi.
  apply Hi. apply list_elem_of_In. apply list_elem_of_In in Hx.
  unfold tuple_of in Hx. now rewrite (frozenset_order_perm _) in Hx.
Qed.

Lemma NoDup_tuple_of (K : Simplex) : NoDup (tuple_of K).
Proof. unfold tuple_of. rewrite (frozenset_order_perm _). apply NoDup_elements. Qed.

(** The frozenset built by [difference] has the nodes of the face, in an
    order of its own. *)
Lemma list_to_set_face_order (K : Simplex) (x : Z) :
  list_to_set (face_order (tuple_of K) x) = K ∖ {[x]}.
Proof.
  apply set_eq. intros y.
  rewrite elem_of_list_to_set, (face_order_perm _ _ (NoDup_tuple_of K)).
  rewrite list_elem_of_filter, elem_of_difference, elem_of_singleton.
  rewrite <- (list_to_set_tuple_of K) at 2. rewrite elem_of_list_to_set. tauto.
Qed.

(** A lookup that succeeds in a dictionary keyed by stored tuples has found
    the tuple of the face. *)
Lemma face_lookup_inv (d : dict (list Z) Z) (K : Simplex) (x r : Z) :
  (forall key v, get d key = Some v -> exists F, key = tuple_of F) ->
  get d (face_order (tuple_of K) x) = Some r ->
  face_order (tuple_of K) x = tuple_of (K ∖ {[x]}).
Proof.
  intros Hkeys Hget. destruct (Hkeys _ _ Hget) as [F HF].
  rewrite HF. f_equal.
  rewrite <- (list_to_set_tuple_of F), <- HF.
  apply list_to_set_face_order.
Qed.

Lemma boundary_entries_inv (d : dict (list Z) Z) (K : Simplex) (idx : Z)
  (l : list (nat * Z)) (es : list (Z * Z * Z)) :
  (forall i x, (i, x) ∈ l -> nodes_of K !! i = Some x) ->
  (forall key v, get d key = Some v -> exists F, key = tuple_of F) ->
  boundary_entries d (tuple_of K) idx l = Ok es ->
  es = map (fun '(i, x) => (row_of d (delete_at i (nodes_of K)), idx, sign i)) l /\
  forall i x, (i, x) ∈ l -> is_Some (get d (tuple_of (K ∖ {[x]}))).
Proof.
  intros Hl Hkeys. revert es.
  induction l as [|[i x] l IH]; intros es; simpl.
  - intros [= <-]. split; [reflexivity|]. intros i x Hin.
    now apply elem_of_nil in Hin.
  - pose proof (Hl i x (list_elem_of_here _ _)) as Hi.
    destruct (get d (face_order (tuple_of K) x)) as [r|] eqn:Hr; [|discriminate].
    pose proof (face_lookup_inv d K x r Hkeys Hr) as Ef. rewrite Ef in Hr.
    destruct (boundary_entries d (tuple_of K) idx l) as [es'|] eqn:E'; [|discriminate].
    intros [= <-].
    destruct (IH (fun i' x' Hin => Hl i' x' (list_elem_of_further _ _ _ Hin)) es' eq_refl)
      as [-> Hfound].
    split.
    + f_equal. unfold row_of.
      now rewrite (list_to_set_delete_at K i x Hi), Hr.
    + intros i' x' [[= -> ->]|Hin]%elem_of_cons; [eauto|]. eapply Hfound; eauto.
Qed.

Lemma boundary_entries_column (d : dict (list Z) Z) (K : Simplex) (idx : Z)
  (es : list (Z * Z * Z)) :
  forallb int64 (elements K) = true ->
  (forall key v, get d key = Some v -> exists F, key = tuple_of F) ->
  boundary_entries d (tuple_of K) idx (enumerate_nat (np_sort (tuple_of K))) = Ok es ->
  es = column_entries d (tuple_of K) idx /\
  forall x, x ∈ K -> is_Some (get d (tuple_of (K ∖ {[x]}))).
Proof.
  intros Hint Hkeys. rewrite (np_sort_tuple_of K Hint). intros E.
  destruct (boundary_entries_inv d K idx _ es
              (fun i x Hin => proj1 (elem_of_enumerate_nat _ i x) Hin) Hkeys E)
    as [-> Hfound].
  split.
  - unfold column_entries, faces, enumerate_nat.
    rewrite sorted_tuple_of, map_map.
    rewrite <- (fst_zip (seq 0 (length (nodes_of K))) (nodes_of K)) at 2
      by (rewrite length_seq; lia).
    rewrite map_map. apply map_ext. now intros [i x].
  - intros x Hx. apply elem_of_nodes_of, list_elem_of_lookup in Hx as [i Hi].
    apply (Hfound i x). now apply elem_of_enumerate_nat.
Qed.

Lemma incidence_entries_inv (d : dict (list Z) Z) (items : list (list Z * Z))
  (es : list (Z * Z * Z)) :
  (forall t j, (t, j) ∈ items ->
     exists K, t = tuple_of K /\ forallb int64 (elements K) = true) ->
  (forall key v, get d key = Some v -> exists F, key = tuple_of F) ->
  incidence_entries d items = Ok es ->
  es = flat_map (fun '(t, j) => column_entries d t j) items /\
  forall K j, (tuple_of K, j) ∈ items ->
    forall x, x ∈ K -> is_Some (get d (tuple_of (K ∖ {[x]}))).
Proof.
  intros Hitems Hkeys. revert es.
  induction items as [|[t j] items IH]; intros es; simpl.
  - intros [= <-]. split; [reflexivity|]. intros K j Hin.
    now apply elem_of_nil in Hin.
  - destruct (Hitems t j (list_elem_of_here _ _)) as (K & -> & Hint).
    destruct (boundary_entries d (tuple_of K) j _) as [es1|] eqn:E1; [|discriminate].
    destruct (boundary_entries_column d K j es1 Hint Hkeys E1) as [-> Hfound].
    destruct (incidence_entries d items) as [es2|] eqn:E2; [|discriminate].
    intros [= <-].
    destruct (IH (fun t' j' Hin => Hitems t' j' (list_elem_of_further _ _ _ Hin))
                 es2 eq_refl) as [-> Hfound2].
    split; [reflexivity|].
    intros K' j' [[= EK ->]|Hin]%elem_of_cons.
    + apply tuple_of_inj in EK as ->. exact Hfound.
    + now apply (Hfound2 K' j').
Qed.

Lemma length_column_entries (d : dict (list Z) Z) (t : list Z) (j : Z) :
  length (column_entries d t j) = length t.
Proof.
  unfold column_entries. now rewrite length_map, length_faces, sorted_length.
Qed.

Lemma length_flat_map_const {A B : Type} (f : A -> list B) (l : list A) (n : nat) :
  (forall x, x ∈ l -> length (f x) = n) ->
  length (flat_map f l) = (n * length l)%nat.
Proof.
  induction l as [|x l IH]; intros Hf; simpl; [lia|].
  rewrite length_app, (Hf x (list_elem_of_here _ _)), IH; [lia|].
  intros y Hy. apply Hf. now apply list_elem_of_further.
Qed.

Lemma NoDup_skeleton (b : dict Simplex Attrs) :
  NoDup (keys b) ->
  NoDup (sorted (tuple_le Z.compare) (map tuple_of (keys b))).
Proof.
  intros Hnd. rewrite sorted_perm.
  assert (Hinj : Inj eq eq tuple_of) by (intros K K'; apply tuple_of_inj).
  now apply (NoDup_fmap_2 tuple_of).
Qed.

Lemma elem_of_skeleton (b : dict Simplex Attrs) (t : list Z) :
  t ∈ sorted (tuple_le Z.compare) (map tuple_of (keys b)) <->
  exists K, t = tuple_of K /\ K ∈ keys b.
Proof. rewrite sorted_perm. apply list_elem_of_fmap. Qed.

Lemma simplex_skeleton_Ok_inv (sc : state) (rank : Z) (sk : list (list Z)) :
  skeleton sc rank = Ok sk ->
  rank < Z.of_nat (length (faces_dict (_simplex_set sc))).
Proof.
  unfold skeleton.
  destruct (Z.ltb_spec rank (Z.of_nat (length (faces_dict (_simplex_set sc)))));
    [auto|]. destruct (rank <? 0); discriminate.
Qed.

Lemma get_index_dict_inv (l : list (list Z)) (key : list Z) (v : Z) :
  NoDup l -> get (index_dict l) key = Some v -> key ∈ l.
Proof.
  intros Hnd Hget. rewrite <- (keys_index_dict l Hnd).
  apply get_Some_keys. eauto.
Qed.

(** What [incidence_matrix] has computed when it returns: every face of
    every simplex of the rank was found, in the row of the stored tuple of
    the face. The nodes are in the range of [int64], so that [np.sort]
    sorts them exactly. *)
Lemma incidence_matrix_index_inv (sc : state) (rank : Z) (signed : bool)
  (res : list (list Z) * list (list Z) * Matrix) :
  ranked_lattice sc = true -> int64_nodes sc = true ->
  incidence_matrix_index sc rank signed = Ok res ->
  1 <= rank <= dim sc /\
  exists b b1,
    faces_dict (_simplex_set sc) !! Z.to_nat rank = Some b /\
    faces_dict (_simplex_set sc) !! Z.to_nat (rank - 1) = Some b1 /\
    skeleton sc rank = Ok (sorted (tuple_le Z.compare) (map tuple_of (keys b))) /\
    skeleton sc (rank - 1) = Ok (sorted (tuple_le Z.compare) (map tuple_of (keys b1))) /\
    (forall t, t ∈ sorted (tuple_le Z.compare) (map tuple_of (keys b)) ->
       exists K, t = tuple_of K /\ size K = S (Z.to_nat rank) /\
         forall x, x ∈ K ->
           exists i, sorted (tuple_le Z.compare) (map tuple_of (keys b1)) !! i
                     = Some (tuple_of (K ∖ {[x]}))) /\
    let sk := sorted (tuple_le Z.compare) (map tuple_of (keys b)) in
    let sk1 := sorted (tuple_le Z.compare) (map tuple_of (keys b1)) in
    let boundary :=
      {| nrows := Z.of_nat (length sk1);
         ncols := Z.of_nat (length sk);
         entries := flat_map (fun '(t, j) => column_entries (index_dict sk1) t j)
                      (index_dict sk) |} in
    NoDup sk /\ NoDup sk1 /\
    res = (sk1, sk, if signed then boundary else mat_abs boundary).
Proof.
  intros Hrk Hint E. unfold incidence_matrix_index in E.
  destruct (Z.leb_spec rank 0) as [|Hr0]; [discriminate|].
  destruct (Z.ltb_spec (dim sc) rank) as [|Hrd]; [discriminate|].
  split; [lia|].
  destruct (skeleton sc rank) as [sk0|] eqn:Esk0; [|discriminate].
  destruct (skeleton sc (rank - 1)) as [sk10|] eqn:Esk10; [|discriminate].
  pose proof (simplex_skeleton_Ok_inv sc rank sk0 Esk0) as Hlen.
  destruct (simplex_skeleton_in_range sc rank) as (b & Hb & Esk); [lia|].
  destruct (simplex_skeleton_in_range sc (rank - 1)) as (b1 & Hb1 & Esk1); [lia|].
  rewrite Esk in Esk0. injection Esk0 as <-.
  rewrite Esk1 in Esk10. injection Esk10 as <-.
  destruct (ranked_lattice_bucket sc _ b Hrk Hb) as [Hnd Hsize].
  destruct (ranked_lattice_bucket sc _ b1 Hrk Hb1) as [Hnd1 _].
  exists b, b1. split; [assumption|]. split; [assumption|].
  split; [reflexivity|]. split; [reflexivity|].
  set (sk := sorted (tuple_le Z.compare) (map tuple_of (keys b))) in *.
  set (sk1 := sorted (tuple_le Z.compare) (map tuple_of (keys b1))) in *.
  assert (Hsk : NoDup sk) by now apply NoDup_skeleton.
  assert (Hsk1 : NoDup sk1) by now apply NoDup_skeleton.
  destruct (incidence_entries (index_dict sk1) (index_dict sk)) as [es|] eqn:Ees;
    [|discriminate].
  destruct (incidence_entries_inv (index_dict sk1) (index_dict sk) es) as [-> Hfound].
  { intros t j Hin. apply elem_of_index_dict in Hin; [|assumption].
    apply elem_of_skeleton in Hin as (K & -> & HK).
    exists K. split; [reflexivity|].
    exact (int64_nodes_bucket sc _ b K Hint Hb HK). }
  { intros key v Hget. apply get_index_dict_inv in Hget; [|assumption].
    apply elem_of_skeleton in Hget as (F & -> & _). eauto. }
  { exact Ees. }
  assert (Hfaces : forall t, t ∈ sk ->
            exists K, t = tuple_of K /\ size K = S (Z.to_nat rank) /\
              forall x, x ∈ K -> exists i, sk1 !! i = Some (tuple_of (K ∖ {[x]}))).
  { intros t Hin. pose proof Hin as (K & -> & HK)%elem_of_skeleton.
    exists K. split; [reflexivity|]. split; [now apply Hsize|].
    intros x Hx. apply list_elem_of_lookup in Hin as [j Hj].
    destruct (Hfound K (Z.of_nat j)) with (x := x) as [r Hr]; [|assumption|].
    { rewrite (index_dict_NoDup sk Hsk). apply list_elem_of_lookup. exists j.
      apply lookup_zip_with_Some. exists (tuple_of K), (Z.of_nat j).
      split; [reflexivity|]. split; [assumption|].
      rewrite list_lookup_fmap, lookup_seq_lt by (eapply lookup_lt_Some; eauto).
      reflexivity. }
    apply list_elem_of_lookup. eapply get_index_dict_inv; eauto. }
  split; [assumption|]. cbv zeta. split; [assumption|]. split; [assumption|].
  destruct (negb _) eqn:Hassert; [discriminate|].
  injection E as <-.
  rewrite !keys_index_dict, !length_index_dict by assumption.
  reflexivity.
Qed.

Lemma simplex_boundary_entries_not_ValueError (d : dict (list Z) Z)
  (simplex : list Z) (idx : Z) (l : list (nat * Z)) :
  boundary_entries d simplex idx l <> Raise ValueError.
Proof.
  induction l as [|[i x] l IH]; simpl; [discriminate|].
  destruct (get d _); [|discriminate].
  destruct (boundary_entries d simplex idx l) as [es|e]; [discriminate|].
  intros E. apply IH. congruence.
Qed.

Lemma simplex_incidence_entries_not_ValueError (d : dict (list Z) Z)
  (items : list (list Z * Z)) :
  incidence_entries d items <> Raise ValueError.
Proof.
  induction items as [|[t j] items IH]; simpl; [discriminate|].
  destruct (boundary_entries d t j _) as [es|e] eqn:E.
  - destruct (incidence_entries d items) as [es'|e']; [discriminate|].
    intros E'. apply IH. congruence.
  - intros E'. apply (simplex_boundary_entries_not_ValueError d t j
                        (enumerate_nat (np_sort t))). congruence.
Qed.

(** Inside the accepted ranks the only exceptions left are those of the
    face lookups and of the assertion. *)
Lemma simplex_incidence_matrix_not_ValueError (sc : state) (rank : Z)
  (signed : bool) :
  dim sc < Z.of_nat (length (faces_dict (_simplex_set sc))) ->
  1 <= rank <= dim sc ->
  incidence_matrix sc rank signed <> Raise ValueError.
Proof.
  intros Hmd Hr. unfold incidence_matrix, incidence_matrix_index.
  destruct (Z.leb_spec rank 0); [lia|].
  destruct (Z.ltb_spec (dim sc) rank); [lia|].
  destruct (simplex_skeleton_in_range sc rank) as (b & _ & ->); [lia|].
  destruct (simplex_skeleton_in_range sc (rank - 1)) as (b1 & _ & ->); [lia|].
  destruct (incidence_entries _ _) as [es|e] eqn:Ee.
  - destruct (negb _); discriminate.
  - intros E. injection E as ->.
    now apply simplex_incidence_entries_not_ValueError in Ee.
Qed.

End SimplicialIncidence.

(** ** Incidence matrices: the accepted ranks *)

Section IncidenceErrors.
Context `{SetIteration} `{NumPy}.

(** C3 (amended). In a path complex produced by the constructor and the
    mutating methods, [incidence_matrix(rank)] raises [ValueError] exactly
    when [rank < 0] or [rank > dim], and when the complex has a cell,
    [incidence_matrix(0)] is the matrix with 0 rows, one column per node and
    no entry. In a simplicial complex [incidence_matrix(rank)] raises
    [ValueError] whenever [rank <= 0] or [rank > dim]: rank 0 is rejected;
    when the dimension is below the number of rank buckets, it raises no
    [ValueError] at a rank with [1 <= rank <= dim]. *)
Theorem incidence_matrix_rank_errors :
  (forall (c : PathComplex.state) (rank : Z) (signed : bool),
     PathSpec.reachable c ->
     (PathComplex.incidence_matrix c rank signed = Raise ValueError
      <-> rank < 0 \/ PathComplex.dim c < rank) /\
     (0 <= PathComplex.dim c ->
      PathComplex.incidence_matrix c 0 signed
      = Ok {| nrows := 0; ncols := PathComplex.len_nodes c; entries := [] |})) /\
  (forall (sc : SimplicialComplex.state) (rank : Z) (signed : bool),
     (rank <= 0 \/ SimplicialComplex.dim sc < rank ->
      SimplicialComplex.incidence_matrix sc rank signed = Raise ValueError) /\
     (SimplicialComplex.dim sc
      < Z.of_nat (length (SimplicialComplex.faces_dict
                            (SimplicialComplex._simplex_set sc))) ->
      1 <= rank <= SimplicialComplex.dim sc ->
      SimplicialComplex.incidence_matrix sc rank signed <> Raise ValueError)).
Proof.
  split.
  - intros c rank signed Hreach. split.
    + now apply path_incidence_matrix_ValueError.
    + intros Hd. unfold PathComplex.incidence_matrix. simpl.
      destruct (Z.ltb_spec (PathComplex.dim c) 0); [lia|reflexivity].
  - intros sc rank signed. split.
    + intros Hr.
      unfold SimplicialComplex.incidence_matrix, SimplicialComplex.incidence_matrix_index.
      destruct (Z.leb_spec rank 0); [reflexivity|].
      destruct (Z.ltb_spec (SimplicialComplex.dim sc) rank); [reflexivity|lia].
    + apply simplex_incidence_matrix_not_ValueError.
Qed.

End IncidenceErrors.

Lemma incidence_matrix_rank_errors_witness :
  PathComplex.incidence_matrix
    (snd (PathComplex.add_path (PathComplex.ASeq [NInt 0; NInt 1]) ∅
            (PathComplex.empty_complex false ∅))) 0 true
  = Ok {| nrows := 0; ncols := 2; entries := [] |} /\
  SimplicialComplex.incidence_matrix (H := list_order) (H0 := numpy_exact)
    (snd (SimplicialComplex.add_simplex [1; 2; 3] ∅ SimplexSpec.empty_complex))
    2 true <> Raise ValueError.
Proof.
  split.
  - destruct (proj1 (incidence_matrix_rank_errors (H := list_order) (H0 := numpy_exact))
                (snd (PathComplex.add_path (PathComplex.ASeq [NInt 0; NInt 1]) ∅
                        (PathComplex.empty_complex false ∅))) 0 true) as [_ Hz].
    + apply PathSpec.reachable_add_path, PathSpec.reachable_empty.
    + rewrite Hz; [reflexivity|]. vm_compute. discriminate.
  - apply (proj2 (incidence_matrix_rank_errors (H := list_order) (H0 := numpy_exact))
             (snd (SimplicialComplex.add_simplex [1; 2; 3] ∅ SimplexSpec.empty_complex))
             2 true).
    + vm_compute. reflexivity.
    + vm_compute. split; discriminate.
Defined.

(** C3, as stated, fails for simplicial complexes: on the complex of the
    single edge {0, 1}, [incidence_matrix(0)] raises [ValueError] instead of
    returning a matrix with no row and two columns. *)
Lemma simplicial_incidence_matrix_rejects_rank_0 :
  let sc := snd (SimplicialComplex.add_simplex [0; 1] ∅
                   {| SimplicialComplex._simplex_set :=
                        {| SimplicialComplex.faces_dict := [];
                           SimplicialComplex.max_dim := -1 |} |}) in
  SimplicialComplex.dim sc = 1 /\
  SimplicialComplex.incidence_matrix (H := list_order) (H0 := numpy_exact) sc 0 true
  = Raise ValueError.
Proof. split; vm_compute; reflexivity. Qed.

(** ** The chain-complex identity *)

Section MatrixSums.

Lemma sum_Z_add {A : Type} (f g : A -> Z) (l : list A) :
  sum_Z (map (fun x => f x + g x) l) = sum_Z (map f l) + sum_Z (map g l).
Proof. induction l as [|x l IH]; simpl; [reflexivity|]. rewrite IH. lia. Qed.

Lemma sum_Z_map_flat_map {A B : Type} (F : B -> Z) (G : A -> list B) (l : list A) :
  sum_Z (map F (flat_map G l)) = sum_Z (map (fun x => sum_Z (map F (G x))) l).
Proof.
  induction l as [|x l IH]; simpl; [reflexivity|].
  now rewrite map_app, sum_Z_app, IH.
Qed.

Lemma sum_Z_swap {A B : Type} (F : A -> B -> Z) (la : list A) (lb : list B) :
  sum_Z (map (fun x => sum_Z (map (fun y => F x y) lb)) la)
  = sum_Z (map (fun y => sum_Z (map (fun x => F x y) la)) lb).
Proof.
  induction la as [|x la IH]; simpl.
  - symmetry. now apply sum_Z_zero.
  - now rewrite IH, sum_Z_add.
Qed.

Lemma mat_get_mul (a b prod : Matrix) (i j : Z) :
  mat_mul a b = Ok prod ->
  mat_get prod i j
  = sum_Z (map (fun '(k, c, y) => if c =? j then y * mat_get a i k else 0)
             (entries b)).
Proof.
  unfold mat_mul. destruct (ncols a =? nrows b); [|discriminate].
  intros E. injection E as <-. unfold mat_get at 1. simpl entries.
  rewrite sum_Z_map_flat_map.
  erewrite (sum_Z_ext _ (fun e => sum_Z (map (fun e' =>
              let '(r, k, x) := e in let '(k', c, y) := e' in
              if (k =? k') && (r =? i) && (c =? j) then x * y else 0) (entries b)))).
  2:{ intros [[r k] x] _. rewrite sum_Z_map_flat_map.
      apply sum_Z_ext. intros [[k' c] y] _.
      destruct (k =? k'); simpl; [|reflexivity].
      destruct ((r =? i) && (c =? j)); simpl; lia. }
  rewrite (sum_Z_swap (fun e e' =>
              let '(r, k, x) := e in let '(k', c, y) := e' in
              if (k =? k') && (r =? i) && (c =? j) then x * y else 0)).
  apply sum_Z_ext. intros [[k' c] y] _.
  unfold mat_get. destruct (Z.eqb_spec c j) as [->|Hne].
  - rewrite <- sum_Z_scale. apply sum_Z_ext. intros [[r k] x] _.
    rewrite andb_true_r, (Z.eqb_sym k k'), andb_comm.
    destruct ((r =? i) && (k' =? k)); lia.
  - apply sum_Z_zero. intros [[r k] x] _. now rewrite !andb_false_r.
Qed.

End MatrixSums.

Section ChainComplex.
Import PyDict SimplicialComplex SimplexSpec.
Context `{SetIteration} `{NumPy}.

Lemma mat_get_columns (d : dict (list Z) Z) (items : list (list Z * Z))
  (nr nc a c : Z) :
  mat_get {| nrows := nr; ncols := nc;
             entries := flat_map (fun '(t, j) => column_entries d t j) items |} a c
  = sum_Z (map (fun '(t, j) =>
             if j =? c then wsum (faces (sorted Z.leb t)) (in_row d a) else 0)
           items).
Proof.
  unfold mat_get. simpl entries.
  rewrite sum_Z_map_flat_map.
  apply sum_Z_ext. intros [t j] _. unfold column_entries, wsum, in_row.
  rewrite map_map. destruct (Z.eqb_spec j c) as [->|Hne].
  - apply sum_Z_ext. intros [s f] _. simpl. rewrite Z.eqb_refl, andb_true_r.
    destruct (row_of d f =? a); lia.
  - apply sum_Z_zero. intros [s f] _. simpl.
    destruct (Z.eqb_spec j c); [contradiction|]. now rewrite andb_false_r.
Qed.

Lemma sum_Z_zip_seq {A : Type} (F : A -> Z) (l : list A) (start i : nat) (t : A) :
  l !! i = Some t ->
  sum_Z (map (fun '(x, j) => if j =? Z.of_nat (start + i) then F x else 0)
           (zip l (map Z.of_nat (seq start (length l)))))
  = F t.
Proof.
  revert start i. induction l as [|x l IH]; intros start [|i] Hi; try discriminate.
  - injection Hi as ->. simpl. rewrite Nat.add_0_r, Z.eqb_refl.
    rewrite sum_Z_zero; [lia|]. intros [y j] Hin.
    apply elem_of_zip_r in Hin. apply list_elem_of_fmap in Hin as (n & -> & Hn).
    apply list_elem_of_In, in_seq in Hn.
    destruct (Z.eqb_spec (Z.of_nat n) (Z.of_nat start)); [lia|reflexivity].
  - simpl in Hi. simpl.
    destruct (Z.eqb_spec (Z.of_nat start) (Z.of_nat (start + S i))); [lia|].
    replace (start + S i)%nat with (S start + i)%nat by lia.
    rewrite (IH (S start) i Hi). lia.
Qed.

Lemma elem_of_faces (s f : list Z) (c : Z) :
  (c, f) ∈ faces s -> exists i x, s !! i = Some x /\ f = delete_at i s.
Proof.
  unfold faces. intros (i & E & Hi)%list_elem_of_fmap. injection E as -> ->.
  apply list_elem_of_In, in_seq in Hi.
  destruct (lookup_lt_is_Some_2 s i) as [x Hx]; [lia|]. eauto.
Qed.

Lemma incidence_matrix_Ok_inv (sc : state) (rank : Z) (signed : bool)
  (m : Matrix) :
  incidence_matrix sc rank signed = Ok m ->
  exists sk1 sk, incidence_matrix_index sc rank signed = Ok (sk1, sk, m).
Proof.
  unfold incidence_matrix.
  destruct (incidence_matrix_index sc rank signed) as [[[sk1 sk] m']|];
    [|discriminate].
  intros [= ->]. eauto.
Qed.

(** The chain-complex identity for simplicial complexes: whenever the two
    signed incidence matrices of consecutive ranks are returned, their
    product is defined and is the zero matrix. *)
Lemma simplicial_boundary_of_boundary_zero (sc : state) (rank : Z)
  (b1 b2 : Matrix) :
  ranked_lattice sc = true -> int64_nodes sc = true ->
  incidence_matrix sc (rank - 1) true = Ok b1 ->
  incidence_matrix sc rank true = Ok b2 ->
  exists prod, mat_mul b1 b2 = Ok prod /\ mat_is_zero prod.
Proof.
  intros Hrk Hint E1 E.
  apply incidence_matrix_Ok_inv in E as (sk1' & sk' & E).
  apply incidence_matrix_Ok_inv in E1 as (sk2' & sk1'' & E1).
  destruct (incidence_matrix_index_inv sc rank true _ Hrk Hint E)
    as (Hr & b & b1' & Hb & Hb1 & _ & _ & Hfaces & Hsk & Hsk1 & Eres).
  destruct (incidence_matrix_index_inv sc (rank - 1) true _ Hrk Hint E1)
    as (Hr1 & b1'' & b2' & Hb1' & Hb2 & _ & _ & Hfaces1 & _ & Hsk2 & Eres1).
  rewrite Hb1 in Hb1'. injection Hb1' as <-.
  cbv zeta in *.
  set (sk := sorted (tuple_le Z.compare) (map tuple_of (keys b))) in *.
  set (sk1 := sorted (tuple_le Z.compare) (map tuple_of (keys b1'))) in *.
  set (sk2 := sorted (tuple_le Z.compare) (map tuple_of (keys b2'))) in *.
  injection Eres as -> -> ->. injection Eres1 as -> -> ->.
  assert (Hmul : exists prod, mat_mul
            {| nrows := Z.of_nat (length sk2); ncols := Z.of_nat (length sk1);
               entries := flat_map (fun '(t, j) => column_entries (index_dict sk2) t j)
                            (index_dict sk1) |}
            {| nrows := Z.of_nat (length sk1); ncols := Z.of_nat (length sk);
               entries := flat_map (fun '(t, j) => column_entries (index_dict sk1) t j)
                            (index_dict sk) |} = Ok prod).
  { unfold mat_mul. simpl. rewrite Z.eqb_refl. eauto. }
  destruct Hmul as [prod Hmul]. exists prod.
  split; [exact Hmul|].
  intros a c. rewrite (mat_get_mul _ _ _ a c Hmul). simpl entries.
  rewrite sum_Z_map_flat_map.
  apply sum_Z_zero. intros [t j] Hin.
  apply elem_of_index_dict in Hin; [|assumption].
  destruct (Hfaces t Hin) as (K & -> & _ & Hfound).
  unfold column_entries at 2. rewrite map_map, sorted_tuple_of.
  rewrite (sum_Z_ext _ (fun '(s, f) =>
             if j =? c then s * wsum (faces f) (in_row (index_dict sk2) a) else 0)).
  - destruct (j =? c).
    + apply (boundary_boundary_zero (nodes_of K) (in_row (index_dict sk2) a)).
    + apply sum_Z_zero. now intros [s f] _.
  - intros [s f] Hf. simpl. destruct (j =? c); [|reflexivity]. f_equal.
    apply elem_of_faces in Hf as (i & x & Hi & ->).
    assert (Hx : x ∈ K).
    { apply elem_of_nodes_of. eapply list_elem_of_lookup_2; eauto. }
    destruct (Hfound x Hx) as [i' Hi'].
    unfold row_of at 1. rewrite (list_to_set_delete_at K i x Hi).
    rewrite (get_index_dict sk1 i' _ Hsk1 Hi'). simpl default.
    rewrite mat_get_columns, (index_dict_NoDup sk1 Hsk1).
    rewrite (sum_Z_zip_seq _ sk1 0 i' _ Hi').
    now rewrite sorted_tuple_of, (nodes_of_remove K i x Hi).
Qed.

End ChainComplex.

Section PathChainComplex.
Import PyDict PathComplex PathSpec.

Lemma path_boundary_entries_spec (c : state) (d : dict Path Z) (p : Path)
  (idx : Z) (positions : list nat) :
  (forall i, i ∈ positions ->
     canonical (_reserve_sequence_order c) (delete_at i p) = Some (delete_at i p) /\
     delete_at i p ∈ _allowed_paths c /\
     is_Some (get d (delete_at i p))) ->
  boundary_entries c d p idx positions
  = Ok (map (fun i => (path_row d (delete_at i p), idx, sign i)) positions).
Proof.
  induction positions as [|i rest IH]; intros Hpos; simpl; [reflexivity|].
  destruct (Hpos i (list_elem_of_here _ _)) as (Hc & Ha & [r Hr]).
  rewrite Hc, (bool_decide_eq_true_2 _ Ha), Hr.
  rewrite IH by (intros i' Hi'; apply Hpos; now apply list_elem_of_further).
  unfold path_row. now rewrite Hr.
Qed.

Lemma path_incidence_entries_spec (c : state) (d : dict Path Z)
  (items : list (Path * Z)) :
  (forall p j, (p, j) ∈ items -> forall i, (i < length p)%nat ->
     canonical (_reserve_sequence_order c) (delete_at i p) = Some (delete_at i p) /\
     delete_at i p ∈ _allowed_paths c /\
     is_Some (get d (delete_at i p))) ->
  incidence_entries c d items
  = Ok (flat_map (fun '(p, j) => path_column d p j) items).
Proof.
  induction items as [|[p j] items IH]; intros Hitems; simpl; [reflexivity|].
  rewrite path_boundary_entries_spec.
  2:{ intros i Hi. apply (Hitems p j (list_elem_of_here _ _)).
      apply list_elem_of_In, in_seq in Hi. lia. }
  rewrite IH by (intros p' j' Hin; apply (Hitems p' j'); now apply list_elem_of_further).
  unfold path_column, faces. now rewrite map_map.
Qed.

Lemma boundary_closed_max_dim (c : state) :
  boundary_closed c = true ->
  dim c < Z.of_nat (length (faces_dict (_path_set c))).
Proof.
  unfold boundary_closed. intros [Hm _]%andb_prop. now apply Z.ltb_lt in Hm.
Qed.

Lemma boundary_closed_bucket_spec (c : state) (r : nat) (b : dict Path Attrs) :
  boundary_closed c = true ->
  faces_dict (_path_set c) !! r = Some b ->
  NoDup (keys b) /\
  forall p, p ∈ keys b ->
    length p = S r /\
    forall r' i, r = S r' -> (i < length p)%nat ->
      canonical (_reserve_sequence_order c) (delete_at i p) = Some (delete_at i p) /\
      delete_at i p ∈ _allowed_paths c /\
      exists b', faces_dict (_path_set c) !! r' = Some b' /\ delete_at i p ∈ keys b'.
Proof.
  unfold boundary_closed. intros [_ Hall]%andb_prop Hb.
  rewrite forallb_forall in Hall.
  specialize (Hall (r, b)). simpl in Hall.
  assert (Hcb : boundary_closed_bucket c r b = true).
  { apply Hall. apply list_elem_of_In, elem_of_enumerate_nat, Hb. }
  unfold boundary_closed_bucket in Hcb. apply andb_prop in Hcb as [Hnd Hks].
  apply bool_decide_eq_true in Hnd. split; [assumption|].
  intros p Hp. rewrite forallb_forall in Hks.
  specialize (Hks p (proj1 (list_elem_of_In _ _) Hp)).
  apply andb_prop in Hks as [Hsz Hfaces]. apply Nat.eqb_eq in Hsz.
  split; [assumption|]. intros r' i -> Hi.
  rewrite forallb_forall in Hfaces.
  specialize (Hfaces i (proj2 (in_seq _ _ _) (conj (Nat.le_0_l i) Hi))).
  cbv zeta in Hfaces.
  apply andb_prop in Hfaces as [Hf Hst]. apply andb_prop in Hf as [Hc Ha].
  apply bool_decide_eq_true in Hc, Ha.
  split; [assumption|]. split; [assumption|].
  now apply stored_iff in Hst.
Qed.

Lemma NoDup_path_skeleton (b : dict Path Attrs) :
  NoDup (keys b) -> NoDup (sorted key_le (keys b)).
Proof. intros Hnd. now rewrite sorted_perm. Qed.

(** What [incidence_matrix] computes on a boundary-closed path complex. *)
Lemma path_incidence_matrix_index_closed (c : state) (rank : Z) :
  boundary_closed c = true -> 1 <= rank <= dim c ->
  exists b b1,
    faces_dict (_path_set c) !! Z.to_nat rank = Some b /\
    faces_dict (_path_set c) !! Z.to_nat (rank - 1) = Some b1 /\
    let sk := sorted key_le (keys b) in
    let sk1 := sorted key_le (keys b1) in
    NoDup sk /\ NoDup sk1 /\
    (forall p, p ∈ sk -> forall i, (i < length p)%nat ->
       exists i', sk1 !! i' = Some (delete_at i p)) /\
    incidence_matrix_index c rank true
    = Ok (index_dict sk1, index_dict sk,
          {| nrows := Z.of_nat (length sk1);
             ncols := Z.of_nat (length sk);
             entries := flat_map (fun '(p, j) => path_column (index_dict sk1) p j)
                          (index_dict sk) |}).
Proof.
  intros Hcl Hr. pose proof (boundary_closed_max_dim c Hcl) as Hmd.
  destruct (path_skeleton_in_range c rank) as (b & Hb & Esk); [lia|].
  destruct (path_skeleton_in_range c (rank - 1)) as (b1 & Hb1 & Esk1); [lia|].
  destruct (boundary_closed_bucket_spec c _ b Hcl Hb) as [Hnd Hkeys].
  destruct (boundary_closed_bucket_spec c _ b1 Hcl Hb1) as [Hnd1 _].
  exists b, b1. split; [assumption|]. split; [assumption|]. cbv zeta.
  set (sk := sorted key_le (keys b)).
  set (sk1 := sorted key_le (keys b1)).
  assert (Hsk : NoDup sk) by now apply NoDup_path_skeleton.
  assert (Hsk1 : NoDup sk1) by now apply NoDup_path_skeleton.
  assert (Hfaces : forall p, p ∈ sk -> forall i, (i < length p)%nat ->
            canonical (_reserve_sequence_order c) (delete_at i p) = Some (delete_at i p) /\
            delete_at i p ∈ _allowed_paths c /\
            exists i', sk1 !! i' = Some (delete_at i p)).
  { intros p Hp i Hi. unfold sk in Hp. rewrite sorted_perm in Hp.
    destruct (Hkeys p Hp) as [_ Hcl'].
    destruct (Hcl' (Z.to_nat (rank - 1)) i) as (Hc & Ha & b' & Hb' & Hin); [lia|assumption|].
    split; [assumption|]. split; [assumption|].
    rewrite Hb1 in Hb'. injection Hb' as <-.
    apply list_elem_of_lookup. unfold sk1. now rewrite sorted_perm. }
  split; [assumption|]. split; [assumption|].
  split; [intros p Hp i Hi; now apply Hfaces|].
  unfold incidence_matrix_index. rewrite Esk1, Esk. fold sk sk1.
  rewrite path_incidence_entries_spec.
  2:{ intros p j Hin i Hi. apply elem_of_index_dict in Hin; [|assumption].
      destruct (Hfaces p Hin i Hi) as (Hc & Ha & i' & Hi').
      split; [assumption|]. split; [assumption|].
      rewrite (get_index_dict sk1 i' _ Hsk1 Hi'). eauto. }
  now rewrite !length_index_dict by assumption.
Qed.

Lemma mat_get_path_columns (d : dict Path Z) (items : list (Path * Z))
  (nr nc a c : Z) :
  mat_get {| nrows := nr; ncols := nc;
             entries := flat_map (fun '(p, j) => path_column d p j) items |} a c
  = sum_Z (map (fun '(p, j) =>
             if j =? c then wsum (faces p) (path_in_row d a) else 0)
           items).
Proof.
  unfold mat_get. simpl entries. rewrite sum_Z_map_flat_map.
  apply sum_Z_ext. intros [p j] _. unfold path_column, wsum, path_in_row.
  rewrite map_map. destruct (Z.eqb_spec j c) as [->|Hne].
  - apply sum_Z_ext. intros [s f] _. simpl. rewrite Z.eqb_refl, andb_true_r.
    destruct (path_row d f =? a); lia.
  - apply sum_Z_zero. intros [s f] _. simpl.
    destruct (Z.eqb_spec j c); [contradiction|]. now rewrite andb_false_r.
Qed.

Lemma elem_of_path_faces (p f : Path) (s : Z) :
  (s, f) ∈ faces p -> exists i, (i < length p)%nat /\ f = delete_at i p.
Proof.
  unfold faces. intros (i & E & Hi)%list_elem_of_fmap. injection E as -> ->.
  apply list_elem_of_In, in_seq in Hi. exists i. split; [lia|reflexivity].
Qed.

(** The chain-complex identity for path complexes in which every path
    obtained by deleting one node of a stored path is itself stored. *)
Lemma path_boundary_of_boundary_zero (c : state) (rank : Z) :
  boundary_closed c = true -> 1 <= rank <= dim c ->
  exists b1 b2 prod,
    incidence_matrix c (rank - 1) true = Ok b1 /\
    incidence_matrix c rank true = Ok b2 /\
    mat_mul b1 b2 = Ok prod /\
    mat_is_zero prod.
Proof.
  intros Hcl Hr.
  destruct (path_incidence_matrix_index_closed c rank Hcl Hr)
    as (b & b1 & Hb & Hb1 & Hsk & Hsk1 & Hfaces & E).
  cbv zeta in *.
  set (sk := sorted key_le (keys b)) in *.
  set (sk1 := sorted key_le (keys b1)) in *.
  assert (E2 : incidence_matrix c rank true
               = Ok {| nrows := Z.of_nat (length sk1); ncols := Z.of_nat (length sk);
                       entries := flat_map (fun '(p, j) => path_column (index_dict sk1) p j)
                                    (index_dict sk) |}).
  { unfold incidence_matrix.
    destruct (Z.ltb_spec rank 0); [lia|]. destruct (Z.ltb_spec (dim c) rank); [lia|].
    destruct (Z.eqb_spec rank 0); [lia|]. now rewrite E. }
  destruct (Z.eq_dec rank 1) as [->|Hr1].
  - assert (E1 : incidence_matrix c (1 - 1) true
                 = Ok (mat_abs {| nrows := 0; ncols := len_nodes c; entries := [] |})).
    { unfold incidence_matrix. change (1 - 1) with 0. simpl.
      destruct (Z.ltb_spec (dim c) 0); [lia|reflexivity]. }
    assert (Hn : len_nodes c = Z.of_nat (length sk1)).
    { unfold len_nodes, sk1. rewrite sorted_length, length_keys.
      simpl in Hb1. destruct (faces_dict (_path_set c)); [discriminate|].
      simpl in Hb1. now injection Hb1 as ->. }
    eexists _, _, _. split; [exact E1|]. split; [exact E2|].
    unfold mat_mul. simpl. rewrite Hn, Z.eqb_refl. split; [reflexivity|].
    intros a k. reflexivity.
  - destruct (path_incidence_matrix_index_closed c (rank - 1) Hcl)
      as (b1' & b2 & Hb1' & Hb2 & _ & Hsk2 & Hfaces1 & E1); [lia|].
    rewrite Hb1 in Hb1'. injection Hb1' as <-.
    cbv zeta in *. fold sk1 in Hfaces1, E1.
    set (sk2 := sorted key_le (keys b2)) in *.
    assert (E1' : incidence_matrix c (rank - 1) true
               = Ok {| nrows := Z.of_nat (length sk2); ncols := Z.of_nat (length sk1);
                       entries := flat_map (fun '(p, j) => path_column (index_dict sk2) p j)
                                    (index_dict sk1) |}).
    { unfold incidence_matrix.
      destruct (Z.ltb_spec (rank - 1) 0); [lia|].
      destruct (Z.ltb_spec (dim c) (rank - 1)); [lia|].
      destruct (Z.eqb_spec (rank - 1) 0); [lia|]. now rewrite E1. }
    eexists _, _. 
    assert (Hmul : exists prod, mat_mul
              {| nrows := Z.of_nat (length sk2); ncols := Z.of_nat (length sk1);
                 entries := flat_map (fun '(p, j) => path_column (index_dict sk2) p j)
                              (index_dict sk1) |}
              {| nrows := Z.of_nat (length sk1); ncols := Z.of_nat (length sk);
                 entries := flat_map (fun '(p, j) => path_column (index_dict sk1) p j)
                              (index_dict sk) |} = Ok prod).
    { unfold mat_mul. simpl. rewrite Z.eqb_refl. eauto. }
    destruct Hmul as [prod Hmul]. exists prod.
    split; [exact E1'|]. split; [exact E2|]. split; [exact Hmul|].
    intros a k. rewrite (mat_get_mul _ _ _ a k Hmul). simpl entries.
    rewrite sum_Z_map_flat_map.
    apply sum_Z_zero. intros [p j] Hin.
    apply elem_of_index_dict in Hin; [|assumption].
    unfold path_column at 2. rewrite map_map.
    rewrite (sum_Z_ext _ (fun '(s, f) =>
               if j =? k then s * wsum (faces f) (path_in_row (index_dict sk2) a) else 0)).
    + destruct (j =? k).
      * apply (boundary_boundary_zero p (path_in_row (index_dict sk2) a)).
      * apply sum_Z_zero. now intros [s f] _.
    + intros [s f] Hf. simpl. destruct (j =? k); [|reflexivity]. f_equal.
      apply elem_of_path_faces in Hf as (i & Hi & ->).
      destruct (Hfaces p Hin i Hi) as [i' Hi'].
      unfold path_row at 1. rewrite (get_index_dict sk1 i' _ Hsk1 Hi'). simpl default.
      rewrite mat_get_path_columns, (index_dict_NoDup sk1 Hsk1).
      now rewrite (sum_Z_zip_seq _ sk1 0 i' _ Hi').
Qed.

End PathChainComplex.

(** C1 (amended). For the signed incidence matrices,
    - in a simplicial complex whose buckets hold distinct simplices of their
      rank, with nodes in the range of [int64], whenever
      [incidence_matrix(r - 1)] and [incidence_matrix(r)] both return, their
      product is defined and is the zero matrix;
    - in a path complex in which every path obtained by deleting one node
      of a stored path is itself stored, allowed and in canonical direction,
      for every rank [r] with [1 <= r <= dim] both matrices are returned,
      and their product is defined and is the zero matrix. *)
Theorem boundary_of_boundary_zero `{SetIteration} `{NumPy} :
  (forall (sc : SimplicialComplex.state) (rank : Z) (b1 b2 : Matrix),
     SimplexSpec.ranked_lattice sc = true ->
     SimplexSpec.int64_nodes sc = true ->
     SimplicialComplex.incidence_matrix sc (rank - 1) true = Ok b1 ->
     SimplicialComplex.incidence_matrix sc rank true = Ok b2 ->
     exists prod, mat_mul b1 b2 = Ok prod /\ mat_is_zero prod) /\
  (forall (c : PathComplex.state) (rank : Z),
     PathSpec.boundary_closed c = true ->
     1 <= rank <= PathComplex.dim c ->
     exists b1 b2 prod,
       PathComplex.incidence_matrix c (rank - 1) true = Ok b1 /\
       PathComplex.incidence_matrix c rank true = Ok b2 /\
       mat_mul b1 b2 = Ok prod /\
       mat_is_zero prod).
Proof.
  split.
  - apply simplicial_boundary_of_boundary_zero.
  - apply path_boundary_of_boundary_zero.
Qed.

Lemma boundary_of_boundary_zero_witness :
  (exists b1 b2 prod,
     SimplicialComplex.incidence_matrix (H := list_order) (H0 := numpy_exact)
       (snd (SimplicialComplex.add_simplex [1; 2; 3] ∅ SimplexSpec.empty_complex))
       (2 - 1) true = Ok b1 /\
     SimplicialComplex.incidence_matrix (H := list_order) (H0 := numpy_exact)
       (snd (SimplicialComplex.add_simplex [1; 2; 3] ∅ SimplexSpec.empty_complex))
       2 true = Ok b2 /\
     mat_mul b1 b2 = Ok prod /\
     mat_is_zero prod) /\
  (exists b1 b2 prod,
     PathComplex.incidence_matrix
       (snd (PathComplex.init (H := list_order)
               (PathComplex.FromList
                  [[NInt 0; NInt 1; NInt 2]; [NInt 0; NInt 2]]) false None 3))
       1 true = Ok b1 /\
     PathComplex.incidence_matrix
       (snd (PathComplex.init (H := list_order)
               (PathComplex.FromList
                  [[NInt 0; NInt 1; NInt 2]; [NInt 0; NInt 2]]) false None 3))
       2 true = Ok b2 /\
     mat_mul b1 b2 = Ok prod /\
     mat_is_zero prod).
Proof.
  split.
  - eexists _, _.
    assert (E1 : SimplicialComplex.incidence_matrix (H := list_order) (H0 := numpy_exact)
                   (snd (SimplicialComplex.add_simplex [1; 2; 3] ∅
                           SimplexSpec.empty_complex)) (2 - 1) true = Ok _)
      by (vm_compute; reflexivity).
    assert (E2 : SimplicialComplex.incidence_matrix (H := list_order) (H0 := numpy_exact)
                   (snd (SimplicialComplex.add_simplex [1; 2; 3] ∅
                           SimplexSpec.empty_complex)) 2 true = Ok _)
      by (vm_compute; reflexivity).
    destruct (proj1 (boundary_of_boundary_zero (H := list_order) (H0 := numpy_exact))
                (snd (SimplicialComplex.add_simplex [1; 2; 3] ∅ SimplexSpec.empty_complex))
                2 _ _ eq_refl eq_refl E1 E2) as (prod & Hm & Hz).
    exists prod. split; [exact E1|]. split; [exact E2|]. split; assumption.
  - apply (proj2 (boundary_of_boundary_zero (H := list_order) (H0 := numpy_exact))
             (snd (PathComplex.init (H := list_order)
                     (PathComplex.FromList
                        [[NInt 0; NInt 1; NInt 2]; [NInt 0; NInt 2]]) false None 3))
             2).
    + vm_compute. reflexivity.
    + vm_compute. split; discriminate.
Defined.

(** C1, as stated, fails for path complexes. In the complex of the single
    path (0, 1, 2) the boundary path (0, 2) is not allowed and is skipped,
    and the product of the two incidence matrices has the entry -1 in row 0. *)
Lemma path_boundary_of_boundary_nonzero :
  let c := snd (PathComplex.init (H := list_order)
                  (PathComplex.FromList [[NInt 0; NInt 1; NInt 2]]) false None 3) in
  PathComplex.dim c = 2 /\
  exists b1 b2 prod,
    PathComplex.incidence_matrix c 1 true = Ok b1 /\
    PathComplex.incidence_matrix c 2 true = Ok b2 /\
    mat_mul b1 b2 = Ok prod /\
    mat_get prod 0 0 = -1.
Proof.
  split; [vm_compute; reflexivity|].
  eexists _, _, _. repeat split; vm_compute; reflexivity.
Qed.

Section IncidenceLookups.
Import PyDict SimplicialComplex SimplexSpec.
Context `{SetIteration}.

(** C5. [k_hop_incidence_matrix] and [k_hop_coincidence_matrix] raise
    [ValueError] at rank 0, whatever the complex and [k]: the incidence
    matrix of rank 0 is requested first and is rejected, so the branch that
    uses the adjacency matrix only is never reached. *)
Theorem k_hop_rank_0_raises `{NumPy} (sc : state) (k : Z) :
  k_hop_incidence_matrix sc 0 k = Raise ValueError /\
  k_hop_coincidence_matrix sc 0 k = Raise ValueError.
Proof. split; reflexivity. Qed.

End IncidenceLookups.

(** C9 fails. The complex of the simplex (2, 10, 18) has a closed face
    lattice, and its nodes collide in a table of 8 slots. In the order of
    CPython the stored edge {2, 18} iterates as (2, 18), so that
    [skeleton(1)] is [(2, 10), (2, 18), (10, 18)], while the face that
    [incidence_matrix(2)] builds from the stored triangle (18, 2, 10) by
    [frozenset(simplex).difference({10})] iterates as (18, 2): the lookup
    [simplex_dict_d_minus_1[tuple(face)]] raises [KeyError]. *)
Theorem incidence_lookup_fails `{NumPy} :
  SimplexSpec.closed_lattice SimplexSpec.colliding_complex = true /\
  1 <= 2 <= SimplicialComplex.dim SimplexSpec.colliding_complex /\
  SimplicialComplex.skeleton (H := cpython_order) SimplexSpec.colliding_complex 2
  = Ok [[18; 2; 10]] /\
  SimplicialComplex.skeleton (H := cpython_order) SimplexSpec.colliding_complex 1
  = Ok [[2; 10]; [2; 18]; [10; 18]] /\
  face_order (SetIteration := cpython_order) [18; 2; 10] 10 = [18; 2] /\
  SimplicialComplex.incidence_matrix (H := cpython_order)
    SimplexSpec.colliding_complex 2 true = Raise KeyError.
Proof. repeat split; try discriminate; vm_compute; reflexivity. Qed.

(** ** Paths that are stored and paths that are allowed *)

Section PathFacts.
Import PyDict PathComplex PathSpec.
Local Open Scope py_scope.

Lemma grow_lookup_mono fd n r (b : dict Path Attrs) :
  fd !! r = Some b -> grow fd n !! r = Some b.
Proof.
  intros Hb. unfold grow. destruct (_ <? _)%nat; [|assumption].
  now apply lookup_app_l_Some.
Qed.

Lemma length_grow_le fd n : (length fd <= length (grow fd n))%nat.
Proof.
  unfold grow. destruct (_ <? _)%nat; [|lia]. rewrite length_app. lia.
Qed.

Lemma sub_faces_nonempty (reserve : bool) (p k : Path) :
  k ∈ sub_faces reserve p -> k <> [] /\ (length k <= length p)%nat.
Proof.
  unfold sub_faces. intros (q & -> & Hq)%list_elem_of_fmap.
  apply sub_paths_nonempty in Hq as [Hne Hl]. rewrite length_canon.
  split; [now apply canon_nonempty|assumption].
Qed.

Lemma Forall_sub_faces_nonempty (reserve : bool) (p : Path) :
  Forall (fun k => k <> []) (sub_faces reserve p).
Proof.
  apply Forall_forall. intros k Hk. now apply sub_faces_nonempty in Hk.
Qed.

Lemma stored_merge_attrs fd r p attr r' (q : Path) :
  (exists b, fd !! r' = Some b /\ q ∈ keys b) ->
  exists b, merge_attrs fd r p attr !! r' = Some b /\ q ∈ keys b.
Proof.
  intros (b & Hb & Hq).
  destruct (lookup_lt_is_Some_2 (merge_attrs fd r p attr) r') as [b' Hb'].
  { rewrite length_merge_attrs. eapply lookup_lt_Some; eauto. }
  exists b'. split; [assumption|].
  apply merge_attrs_lookup in Hb' as (b0 & Hb0 & -> & _).
  rewrite Hb in Hb0. injection Hb0 as <-. assumption.
Qed.

Lemma stored_add_path_state_mono (p : Path) (attr : Attrs) (c : state) r q :
  stored c r q -> stored (add_path_state p attr c) r q.
Proof.
  intros (b & Hb & Hq). unfold stored, add_path_state. simpl.
  apply stored_merge_attrs.
  apply (grow_lookup_mono _ (length p)) in Hb.
  destruct (mem _ p); simpl; [eauto|].
  destruct (extends_fold (sub_faces (_reserve_sequence_order c) p)
              (grow (faces_dict (_path_set c)) (length p)) ∅
              (Forall_sub_faces_nonempty _ _)) as [[_ He] _].
  destruct (He r b Hb) as (b' & Hb' & Hg & _).
  exists b'. split; [assumption|].
  apply get_Some_keys. apply get_Some_keys in Hq as [v Hv]. eauto.
Qed.

Lemma stored_add_path_state_sub (p : Path) (attr : Attrs) (c : state) (k : Path) :
  k ∈ sub_faces (_reserve_sequence_order c) p ->
  k ∈ _allowed_paths (add_path_state p attr c) ∖ _allowed_paths c ->
  stored (add_path_state p attr c) (length k - 1)%nat k.
Proof.
  intros Hk Hnew. unfold stored, add_path_state in *. simpl in *.
  apply stored_merge_attrs.
  destruct (mem _ p); simpl in *.
  { exfalso. change (0 <? size (∅ : gset Path))%nat with false in Hnew. set_solver. }
  apply fold_insert_stored; [apply Forall_sub_faces_nonempty|assumption|].
  apply sub_faces_nonempty in Hk as [_ Hl].
  pose proof (length_grow (faces_dict (_path_set c)) (length p)). lia.
Qed.

Lemma allowed_add_path_state (p : Path) (attr : Attrs) (c : state) (q : Path) :
  q ∈ _allowed_paths (add_path_state p attr c) ->
  q ∈ _allowed_paths c \/
  (q ∈ sub_faces (_reserve_sequence_order c) p /\
   stored (add_path_state p attr c) (length q - 1)%nat q).
Proof.
  intros Hq. destruct (decide (q ∈ _allowed_paths c)) as [|Hn]; [now left|right].
  assert (Hk : q ∈ sub_faces (_reserve_sequence_order c) p).
  { unfold add_path_state in Hq. simpl in Hq.
    destruct (mem _ p); simpl in Hq.
    { change (0 <? size (∅ : gset Path))%nat with false in Hq. contradiction. }
    destruct (extends_fold (sub_faces (_reserve_sequence_order c) p)
                (grow (faces_dict (_path_set c)) (length p)) ∅
                (Forall_sub_faces_nonempty _ _)) as (_ & _ & Ho).
    destruct (0 <? size _)%nat; [|contradiction].
    apply elem_of_union in Hq as [?|Hq]; [contradiction|].
    destruct (Ho q Hq) as [?|?]; [set_solver|assumption]. }
  split; [assumption|]. apply stored_add_path_state_sub; [assumption|set_solver].
Qed.

Lemma allowed_add_path_state_mono (p : Path) (attr : Attrs) (c : state) :
  _allowed_paths c ⊆ _allowed_paths (add_path_state p attr c).
Proof.
  unfold add_path_state. simpl. destruct (0 <? size _)%nat; set_solver.
Qed.

Lemma stored_add_path_state_self (p : Path) (attr : Attrs) (c : state) :
  p <> [] -> passes_validation (_reserve_sequence_order c) p = true ->
  stored (add_path_state p attr c) (length p - 1)%nat p.
Proof.
  intros Hne Hv. unfold stored, add_path_state. simpl.
  apply stored_merge_attrs.
  pose proof (length_grow (faces_dict (_path_set c)) (length p)) as Hg.
  destruct (lookup_lt_is_Some_2 (grow (faces_dict (_path_set c)) (length p))
              (length p - 1)%nat) as [b Hb].
  { destruct p; [contradiction|simpl in *; lia]. }
  rewrite Hb. simpl default. destruct (mem b p) eqn:Hm; simpl.
  - exists b. split; [assumption|]. now apply mem_keys.
  - apply fold_insert_stored; [apply Forall_sub_faces_nonempty| |lia].
    unfold sub_faces. rewrite <- (passes_validation_canon _ p Hv) at 1.
    apply list_elem_of_fmap_2. now apply sub_paths_self.
Qed.

Lemma reserve_add_path_state (p : Path) (attr : Attrs) (c : state) :
  _reserve_sequence_order (add_path_state p attr c) = _reserve_sequence_order c.
Proof. reflexivity. Qed.

Lemma for_each_ext {X : Type} (l : list X) (f g : X -> M unit) (c : state) :
  (forall x, x ∈ l -> f x = g x) -> for_each l f c = for_each l g c.
Proof.
  revert c. induction l as [|x l IH]; intros c He; [reflexivity|].
  simpl. rewrite !bind_eq, (He x) by apply list_elem_of_here.
  destruct (g x c) as [[[]|e] c1]; [|reflexivity].
  apply IH. intros y Hy. apply He. now apply list_elem_of_further.
Qed.

(** Keyword arguments: a call that passes a dictionary either raises
    [TypeError] at once or is the plain call. *)
Lemma add_path_kw_free (path : PathArg) (data : Attrs) :
  kw_clash data = false -> add_path_kw path data = add_path path data.
Proof. unfold add_path_kw. now intros ->. Qed.


Lemma add_path_kw_cases (path : PathArg) (attr : Attrs) (c : state) :
  wf c ->
  (path_of path <> [] /\
   passes_validation (_reserve_sequence_order c) (path_of path) = true /\
   add_path_kw path attr c = (Ok tt, add_path_state (path_of path) attr c)) \/
  (exists e, add_path_kw path attr c = (Raise e, c)).
Proof.
  intros Hwf. unfold add_path_kw. destruct (kw_clash attr).
  - right. exists TypeError. reflexivity.
  - now apply add_path_cases.
Qed.

Lemma for_each_add_path_kw_Ok {X : Type} (l : list X) (arg : X -> PathArg)
  (att : X -> Attrs) (c c' : state) :
  for_each l (fun x => add_path_kw (arg x) (att x)) c = (Ok tt, c') ->
  Forall (fun x => kw_clash (att x) = false) l /\
  for_each l (fun x => add_path (arg x) (att x)) c = (Ok tt, c').
Proof.
  revert c. induction l as [|x l IH]; intros c E; [split; [constructor|exact E]|].
  simpl in E. rewrite bind_eq in E. unfold add_path_kw at 1 in E.
  destruct (kw_clash (att x)) eqn:Hk; [discriminate|].
  simpl. rewrite bind_eq.
  destruct (add_path (arg x) (att x) c) as [[[]|e] c1]; [|discriminate].
  destruct (IH c1 E) as [Hall E']. split; [now constructor|exact E'].
Qed.

Lemma for_each_add_path_kw_free {X : Type} (l : list X) (arg : X -> PathArg)
  (att : X -> Attrs) (c : state) :
  Forall (fun x => kw_clash (att x) = false) l ->
  for_each l (fun x => add_path_kw (arg x) (att x)) c
  = for_each l (fun x => add_path (arg x) (att x)) c.
Proof.
  intros Hall. apply for_each_ext. intros x Hx.
  rewrite Forall_forall in Hall. now apply add_path_kw_free, Hall.
Qed.

(** A loop of [add_path] calls that ran to its end. *)
Lemma for_each_add_path {X : Type} (l : list X) (arg : X -> PathArg)
  (att : X -> Attrs) (c c' : state) :
  wf c ->
  for_each l (fun x => add_path (arg x) (att x)) c = (Ok tt, c') ->
  wf c' /\
  _reserve_sequence_order c' = _reserve_sequence_order c /\
  (forall r q, stored c r q -> stored c' r q) /\
  (forall x, x ∈ l ->
     stored c' (length (path_of (arg x)) - 1)%nat (path_of (arg x)) /\
     path_of (arg x) <> [] /\
     passes_validation (_reserve_sequence_order c) (path_of (arg x)) = true) /\
  (forall q, q ∈ _allowed_paths c' ->
     q ∈ _allowed_paths c \/ stored c' (length q - 1)%nat q) /\
  _allowed_paths c ⊆ _allowed_paths c'.
Proof.
  revert c. induction l as [|x l IH]; intros c Hwf E.
  - injection E as <-. split; [assumption|]. split; [reflexivity|].
    split; [auto|]. split; [intros y Hy; now apply elem_of_nil in Hy|].
    split; [auto|reflexivity].
  - simpl in E. rewrite bind_eq in E.
    destruct (add_path_cases (arg x) (att x) c Hwf) as [(Hne & Hv & Ex)|[e Ex]];
      rewrite Ex in E; [|discriminate].
    set (c1 := add_path_state (path_of (arg x)) (att x) c) in *.
    assert (Hwf1 : wf c1) by now apply wf_add_path_state.
    destruct (IH c1 Hwf1 E) as (Hwf' & Hr & Hmono & Hall & Hal & Hsub).
    split; [assumption|]. split; [now rewrite Hr|].
    split; [intros r q Hq; apply Hmono; now apply stored_add_path_state_mono|].
    split.
    { intros y Hy. apply elem_of_cons in Hy as [->|Hy].
      - split; [|auto]. apply Hmono. now apply stored_add_path_state_self.
      - apply Hall, Hy. }
    split.
    { intros q Hq. destruct (Hal q Hq) as [Hq1|Hq1]; [|now right].
      destruct (allowed_add_path_state _ _ _ _ Hq1) as [?|[_ Hst]]; [now left|right].
      now apply Hmono. }
    etransitivity; [apply (allowed_add_path_state_mono (path_of (arg x)) (att x) c)|exact Hsub].
Qed.

End PathFacts.

(** ** Removal of paths *)

Section PathRemoval.
Import PyDict PathComplex PathSpec.
Local Open Scope py_scope.

Lemma _remove_path_spec (p : Path) (c : state) :
  wf c -> stored c (length p - 1)%nat p ->
  exists c', _remove_path p c = (Ok tt, c') /\ wf c' /\
    (forall r q, stored c' r q <-> stored c r q /\ q <> p) /\
    _allowed_paths c' = _allowed_paths c ∖ {[p]} /\
    _reserve_sequence_order c' = _reserve_sequence_order c /\
    max_dim (_path_set c') <= max_dim (_path_set c).
Proof.
  intros Hwf Hst.
  destruct (_remove_path_ok p c Hwf Hst) as (c' & E & Hwf' & Hkeep).
  exists c'. split; [assumption|]. split; [assumption|].
  destruct Hst as (b & Hb & Hin).
  pose proof (wf_length c Hwf _ b p Hb Hin) as Hl.
  assert (Hne : p <> []) by (intros ->; discriminate).
  assert (Hlen : (length p <= length (faces_dict (_path_set c)))%nat).
  { apply lookup_lt_Some in Hb. lia. }
  pose proof (py_norm_index_rank _ p Hne Hlen) as Hidx.
  set (n := (length p - 1)%nat) in *.
  unfold _remove_path in E. fold (rank p) in E.
  rewrite bind_eq, (bucket_ok c (rank p) n b Hidx Hb) in E.
  apply mem_keys in Hin as Hm. rewrite Hm in E.
  rewrite bind_eq, (set_bucket_ok c (rank p) n _ Hidx) in E.
  set (fd' := <[n := del b p]> (faces_dict (_path_set c))) in *.
  set (c1 := with_faces_dict fd' c) in *.
  rewrite bind_eq in E. unfold get_state at 1 in E.
  pose proof (wf_allowed c Hwf n b p Hb Hin) as Hal.
  change (_allowed_paths c1) with (_allowed_paths c) in E.
  rewrite (bool_decide_eq_true_2 _ Hal) in E.
  rewrite bind_eq in E. unfold modify at 1 in E.
  set (c2 := with_allowed_paths _ c1) in *.
  assert (Hb' : faces_dict (_path_set c2) !! n = Some (del b p)).
  { simpl. unfold fd'. apply list_lookup_insert_eq. eapply lookup_lt_Some; eauto. }
  assert (Hidx' : py_norm_index (length (faces_dict (_path_set c2))) (rank p) = Some n).
  { simpl. unfold fd'. now rewrite length_insert. }
  rewrite bind_eq, (bucket_ok c2 (rank p) n _ Hidx' Hb') in E.
  rewrite bind_eq in E. unfold get_state at 1 in E.
  change (max_dim (_path_set c2)) with (max_dim (_path_set c)) in E.
  assert (Hc' : faces_dict (_path_set c') = fd' /\
                _allowed_paths c' = _allowed_paths c ∖ {[p]} /\
                _reserve_sequence_order c' = _reserve_sequence_order c /\
                max_dim (_path_set c') <= max_dim (_path_set c)).
  { destruct (_ && _) in E; injection E as <-; simpl; repeat split; lia. }
  destruct Hc' as (Hfd & Hal' & Hrs & Hmd).
  split; [|auto].
  intros r q. split.
  - intros (b' & Hr & Hk). rewrite Hfd in Hr. unfold fd' in Hr.
    destruct (decide (r = n)) as [->|Hrn].
    + rewrite list_lookup_insert_eq in Hr by (eapply lookup_lt_Some; eauto).
      injection Hr as <-.
      apply (elem_of_keys_del b p q (wf_nodup c Hwf n b Hb)) in Hk as [Hk Hkp].
      split; [exists b; auto|assumption].
    + rewrite list_lookup_insert_ne in Hr by congruence.
      split; [exists b'; auto|].
      intros ->. apply (wf_length c Hwf r b' p Hr) in Hk. lia.
  - intros [Hq Hqp]. now apply Hkeep.
Qed.

Lemma for_each_remove_path_spec (l : list Path) (c : state) :
  wf c -> NoDup l -> (forall p, p ∈ l -> stored c (length p - 1)%nat p) ->
  exists c', for_each l _remove_path c = (Ok tt, c') /\ wf c' /\
    (forall r q, stored c' r q <-> stored c r q /\ q ∉ l) /\
    _allowed_paths c' = _allowed_paths c ∖ list_to_set l /\
    _reserve_sequence_order c' = _reserve_sequence_order c /\
    max_dim (_path_set c') <= max_dim (_path_set c).
Proof.
  revert c. induction l as [|p l IH]; intros c Hwf Hnd Hst.
  - exists c. split; [reflexivity|]. split; [assumption|].
    split; [intros r q; rewrite elem_of_nil; tauto|].
    split; [set_solver|]. split; [reflexivity|lia].
  - apply NoDup_cons in Hnd as [Hnotin Hnd].
    destruct (_remove_path_spec p c Hwf) as (c1 & E1 & Hwf1 & Hs1 & Ha1 & Hr1 & Hm1).
    { apply Hst, list_elem_of_here. }
    destruct (IH c1 Hwf1 Hnd) as (c' & E' & Hwf' & Hs' & Ha' & Hr' & Hm').
    { intros q Hq. apply Hs1. split.
      - apply Hst. now apply list_elem_of_further.
      - intros ->. contradiction. }
    exists c'. split; [simpl; now rewrite bind_eq, E1|].
    split; [assumption|]. split.
    { intros r q. rewrite Hs', Hs1, not_elem_of_cons. tauto. }
    split; [rewrite Ha', Ha1; set_solver|].
    split; [congruence|lia].
Qed.

Lemma elem_of_removed_paths (node_set : list Node) (c : state) (q : Path) :
  q ∈ removed_paths node_set c <->
  q ∈ all_paths c /\ Exists (fun node => node ∈ q) node_set.
Proof.
  unfold removed_paths. rewrite elem_of_remove_dups, list_elem_of_filter. tauto.
Qed.

Section WithIteration.
Context `{SetIteration}.

Lemma remove_nodes_spec (node_set : list Node) (c : state) :
  wf c ->
  exists c', remove_nodes node_set c = (Ok tt, c') /\ wf c' /\
    (forall r q, stored c' r q <->
       stored c r q /\ ~ Exists (fun node => node ∈ q) node_set) /\
    (forall q, q ∈ _allowed_paths c' <->
       q ∈ _allowed_paths c /\
       ~ (q ∈ all_paths c /\ Exists (fun node => node ∈ q) node_set)) /\
    _reserve_sequence_order c' = _reserve_sequence_order c /\
    max_dim (_path_set c') <= max_dim (_path_set c).
Proof.
  intros Hwf. unfold remove_nodes. rewrite bind_eq. unfold get_state at 1.
  destruct (for_each_remove_path_spec (set_order (removed_paths node_set c)) c Hwf)
    as (c' & E & Hwf' & Hs & Ha & Hr & Hm).
  - rewrite (set_order_perm _ _). apply NoDup_remove_dups.
  - intros p Hp. rewrite (set_order_perm _ _) in Hp.
    apply elem_of_removed_paths in Hp as [Hp _].
    apply elem_of_all_paths in Hp as (r & b & Hb & Hin).
    pose proof (wf_length c Hwf r b p Hb Hin) as Hl.
    exists b. rewrite Hl. replace (S r - 1)%nat with r by lia. auto.
  - exists c'. split; [assumption|]. split; [assumption|].
    split.
    { intros r q. rewrite Hs, (set_order_perm _ _), elem_of_removed_paths.
      split.
      - intros [Hq Hn]. split; [assumption|]. intros Hex. apply Hn.
        split; [|assumption]. apply elem_of_all_paths. eauto.
      - intros [Hq Hn]. split; [assumption|]. intros [_ Hex]. contradiction. }
    split; [|auto].
    intros q. rewrite Ha, elem_of_difference, elem_of_list_to_set.
    now rewrite (set_order_perm _ _), elem_of_removed_paths.
Qed.

End WithIteration.

End PathRemoval.

(** ** The constructor *)

Section PathConstructor.
Import PyDict PathComplex PathSpec.
Local Open Scope py_scope.
Context `{SetIteration}.

(** The path that the constructor adds for an edge of the graph. *)
Lemma init_edges_body (reserve : bool) (l : list (Node * Node * Attrs)) (c : state) :
  for_each l (fun '(u, v, data) =>
    if str_gt (str u) (str v) && negb reserve
    then add_path_kw (ASeq [v; u]) data
    else add_path_kw (ASeq [u; v]) data) c
  = for_each l (fun x =>
      add_path_kw (ASeq (if str_gt (str x.1.1) (str x.1.2) && negb reserve
                         then [x.1.2; x.1.1] else [x.1.1; x.1.2])) x.2) c.
Proof.
  apply for_each_ext. intros [[u v] d] _. simpl. now destruct (_ && _).
Qed.

Lemma init_nodes_body (l : list (Node * Attrs)) (c : state) :
  for_each l (fun '(n, data) => add_path_kw (ANode n) data) c
  = for_each l (fun x => add_path_kw (ANode x.1) x.2) c.
Proof. apply for_each_ext. now intros [n d] _. Qed.

Lemma init_graph_spec (g : Graph) (reserve : bool) (allowed : option (list Path))
  (max_rank : Z) (c : state) :
  init (FromGraph g) reserve allowed max_rank = (Ok tt, c) ->
  wf c /\ _reserve_sequence_order c = reserve /\
  (forall q, q ∈ _allowed_paths c -> stored c (length q - 1)%nat q) /\
  compute_allowed_paths g reserve max_rank ⊆ _allowed_paths c /\
  (forall n d, (n, d) ∈ nodes g -> stored c 0%nat [n]).
Proof.
  unfold init. rewrite bind_eq. unfold modify at 1.
  set (c1 := with_allowed_paths _ _).
  assert (Hwf1 : wf c1) by apply wf_empty_complex.
  rewrite bind_eq, init_nodes_body.
  destruct (for_each (nodes g) _ c1) as [[[]|e] c2] eqn:E1; [|discriminate].
  apply for_each_add_path_kw_Ok in E1 as [_ E1].
  destruct (for_each_add_path _ _ _ _ _ Hwf1 E1)
    as (Hwf2 & Hr2 & Hm2 & Hall2 & Hal2 & Hsub2).
  rewrite bind_eq, init_edges_body.
  destruct (for_each (edges g) _ c2) as [[[]|e] c3] eqn:E2; [|discriminate].
  apply for_each_add_path_kw_Ok in E2 as [_ E2].
  destruct (for_each_add_path _ _ _ _ _ Hwf2 E2)
    as (Hwf3 & Hr3 & Hm3 & Hall3 & Hal3 & Hsub3).
  rewrite bind_eq. unfold get_state at 1. unfold add_paths_from.
  intros E3.
  destruct (for_each_add_path _ (fun p => ASeq p) (fun _ => ∅) _ _ Hwf3 E3)
    as (Hwf4 & Hr4 & Hm4 & Hall4 & Hal4 & Hsub4).
  split; [assumption|]. split; [rewrite Hr4, Hr3, Hr2; reflexivity|].
  split.
  { intros q Hq. destruct (Hal4 q Hq) as [Hq3|?]; [|assumption].
    apply (Hall4 q). rewrite (set_order_perm _ _). now apply elem_of_elements. }
  split.
  { etransitivity; [|exact Hsub4]. etransitivity; [|exact Hsub3].
    etransitivity; [|exact Hsub2]. reflexivity. }
  intros n d Hn. apply Hm4, Hm3. apply (Hall2 (n, d) Hn).
Qed.

Lemma init_list_spec (l : list Path) (reserve : bool) (allowed : option (list Path))
  (max_rank : Z) (c : state) :
  init (FromList l) reserve allowed max_rank = (Ok tt, c) ->
  wf c /\ _reserve_sequence_order c = reserve /\
  (forall q, q ∈ _allowed_paths c ->
     q ∈ default [] allowed \/ stored c (length q - 1)%nat q) /\
  (forall p, p ∈ l ->
     stored c (length p - 1)%nat p /\ p <> [] /\
     passes_validation reserve p = true).
Proof.
  unfold init.
  set (c0 := empty_complex reserve _).
  assert (Hwf0 : wf c0) by apply wf_empty_complex.
  assert (Ha0 : forall q, q ∈ _allowed_paths c0 -> q ∈ default [] allowed).
  { intros q. simpl. destruct allowed; simpl; set_solver. }
  destruct (0 <? length l)%nat eqn:Hl.
  - unfold add_paths_from. intros E.
    destruct (for_each_add_path _ (fun p => ASeq p) (fun _ => ∅) _ _ Hwf0 E)
      as (Hwf1 & Hr1 & Hm1 & Hall1 & Hal1 & Hsub1).
    split; [assumption|]. split; [assumption|]. split.
    + intros q Hq. destruct (Hal1 q Hq); [left; auto|now right].
    + intros p Hp. apply (Hall1 p). rewrite (set_order_perm _ _).
      now apply elem_of_remove_dups.
  - intros E. injection E as <-. split; [assumption|]. split; [reflexivity|].
    split; [auto|]. apply Nat.ltb_ge in Hl. destruct l; [|simpl in Hl; lia].
    intros p Hp. now apply elem_of_nil in Hp.
Qed.

Lemma built_wf_allowed (c : state) :
  built c ->
  wf c /\ forall q, q ∈ _allowed_paths c -> stored c (length q - 1)%nat q.
Proof.
  induction 1 as [paths reserve allowed max_rank Hor Hok
                 |c path attr _ [Hwf IH]|c node attr _ [Hwf IH]
                 |c node_set _ [Hwf IH]].
  - destruct (init paths reserve allowed max_rank) as [r c] eqn:E.
    simpl in Hok. subst r. simpl. destruct paths as [g|l|].
    + apply init_graph_spec in E as (Hwf & _ & Hal & _). auto.
    + destruct Hor as [->|[g Hg]]; [|discriminate].
      apply init_list_spec in E as (Hwf & _ & Hal & _).
      split; [assumption|]. intros q Hq. destruct (Hal q Hq) as [Hq'|]; [|assumption].
      now apply elem_of_nil in Hq'.
    + destruct Hor as [->|[g Hg]]; [|discriminate].
      injection E as <-. split; [apply wf_empty_complex|]. simpl. set_solver.
  - destruct (add_path_cases path attr c Hwf) as [(Hne & Hv & ->)|[e ->]]; [|auto].
    simpl snd. split; [now apply wf_add_path_state|].
    intros q Hq.
    destruct (allowed_add_path_state (path_of path) attr c q Hq) as [Hq'|[_ Hst]];
      [|assumption].
    now apply stored_add_path_state_mono, IH.
  - unfold add_node.
    destruct (add_path_kw_cases (ASeq [node]) attr c Hwf) as [(Hne & Hv & ->)|[e ->]]; [|auto].
    simpl snd. split; [now apply wf_add_path_state|].
    intros q Hq.
    destruct (allowed_add_path_state (path_of (ASeq [node])) attr c q Hq) as [Hq'|[_ Hst]];
      [|assumption].
    now apply stored_add_path_state_mono, IH.
  - destruct (remove_nodes_spec node_set c Hwf) as (c' & -> & Hwf' & Hs & Ha & _).
    simpl. split; [assumption|]. intros q Hq. apply Ha in Hq as [Hq Hn].
    apply Hs. split; [now apply IH|]. intros Hex. apply Hn. split; [|assumption].
    apply elem_of_all_paths. exists (length q - 1)%nat. now apply IH.
Qed.

End PathConstructor.

(** ** Incidence matrices of built complexes *)

Section BuiltIncidence.
Import PyDict PathComplex PathSpec.

Lemma path_boundary_entries_total (c : state) (d : dict Path Z) (p : Path)
  (idx : Z) (positions : list nat) :
  (forall i, i ∈ positions ->
     exists bp, canonical (_reserve_sequence_order c) (delete_at i p) = Some bp /\
       (bp ∈ _allowed_paths c -> is_Some (get d bp))) ->
  exists es, boundary_entries c d p idx positions = Ok es.
Proof.
  induction positions as [|i rest IH]; intros Hpos; simpl; [eauto|].
  destruct (Hpos i (list_elem_of_here _ _)) as (bp & -> & Hget).
  destruct IH as [es Hes].
  { intros i' Hi'. apply Hpos. now apply list_elem_of_further. }
  rewrite Hes. destruct (bool_decide_reflect (bp ∈ _allowed_paths c)) as [Hin|_]; [|eauto].
  destruct (Hget Hin) as [r ->]. eauto.
Qed.

Lemma path_incidence_entries_total (c : state) (d : dict Path Z)
  (items : list (Path * Z)) :
  (forall p j, (p, j) ∈ items -> forall i, (i < length p)%nat ->
     exists bp, canonical (_reserve_sequence_order c) (delete_at i p) = Some bp /\
       (bp ∈ _allowed_paths c -> is_Some (get d bp))) ->
  exists es, incidence_entries c d items = Ok es.
Proof.
  induction items as [|[p j] items IH]; intros Hitems; simpl; [eauto|].
  destruct (path_boundary_entries_total c d p j (seq 0 (length p))) as [es ->].
  { intros i Hi. apply (Hitems p j (list_elem_of_here _ _)).
    apply list_elem_of_In, in_seq in Hi. lia. }
  destruct IH as [es' ->]; [|eauto].
  intros p' j' Hin. apply (Hitems p' j'). now apply list_elem_of_further.
Qed.

Lemma length_delete_at {A : Type} (i : nat) (l : list A) :
  (i < length l)%nat -> length (delete_at i l) = (length l - 1)%nat.
Proof.
  intros Hi. unfold delete_at. rewrite length_app, length_take, length_drop. lia.
Qed.

Lemma path_incidence_matrix_index_total (c : state) (rank : Z) (signed : bool) :
  wf c ->
  (forall q, q ∈ _allowed_paths c -> stored c (length q - 1)%nat q) ->
  1 <= rank <= dim c ->
  exists sk1 sk m,
    skeleton c (rank - 1) = Ok sk1 /\ skeleton c rank = Ok sk /\
    incidence_matrix_index c rank signed = Ok (index_dict sk1, index_dict sk, m) /\
    nrows m = Z.of_nat (length sk1) /\ ncols m = Z.of_nat (length sk).
Proof.
  intros Hwf Hal Hr. pose proof (wf_max_dim c Hwf) as Hmd. unfold dim in Hr.
  destruct (path_skeleton_in_range c rank) as (b & Hb & Esk); [lia|].
  destruct (path_skeleton_in_range c (rank - 1)) as (b1 & Hb1 & Esk1); [lia|].
  set (sk := sorted key_le (keys b)) in *.
  set (sk1 := sorted key_le (keys b1)) in *.
  assert (Hsk : NoDup sk).
  { unfold sk. rewrite sorted_perm. eapply wf_nodup; eauto. }
  assert (Hsk1 : NoDup sk1).
  { unfold sk1. rewrite sorted_perm. eapply wf_nodup; eauto. }
  exists sk1, sk. unfold incidence_matrix_index. rewrite Esk1, Esk.
  destruct (path_incidence_entries_total c (index_dict sk1) (index_dict sk)) as [es ->].
  { intros p j Hin i Hi. apply elem_of_index_dict in Hin; [|assumption].
    unfold sk in Hin. rewrite sorted_perm in Hin.
    pose proof (wf_length c Hwf _ b p Hb Hin) as Hl.
    assert (Hld : length (delete_at i p) = Z.to_nat rank).
    { rewrite length_delete_at by assumption. lia. }
    assert (Hne : delete_at i p <> []).
    { intros E. rewrite E in Hld. simpl in Hld. lia. }
    exists (canon (_reserve_sequence_order c) (delete_at i p)).
    split; [now apply canonical_nonempty|].
    intros Hin'. apply Hal in Hin' as (b' & Hb' & Hk).
    rewrite length_canon, Hld in Hb'.
    replace (Z.to_nat rank - 1)%nat with (Z.to_nat (rank - 1)) in Hb' by lia.
    rewrite Hb1 in Hb'. injection Hb' as <-.
    assert (Hk1 : canon (_reserve_sequence_order c) (delete_at i p) ∈ sk1).
    { unfold sk1. now rewrite sorted_perm. }
    apply list_elem_of_lookup in Hk1 as [i' Hi'].
    rewrite (get_index_dict sk1 i' _ Hsk1 Hi'). eauto. }
  eexists. split; [reflexivity|]. split; [reflexivity|]. split; [reflexivity|].
  rewrite !length_index_dict by assumption.
  destruct signed; simpl; auto.
Qed.

End BuiltIncidence.

(** ** Matrices *)

Section MatrixFacts.

Lemma mat_get_transpose (m : Matrix) (i j : Z) :
  mat_get (mat_transpose m) i j = mat_get m j i.
Proof.
  unfold mat_get, mat_transpose. simpl. rewrite map_map.
  apply sum_Z_ext. intros [[r c] v] _. now rewrite andb_comm.
Qed.

Lemma mat_mul_shape (a b prod : Matrix) :
  mat_mul a b = Ok prod -> nrows prod = nrows a /\ ncols prod = ncols b.
Proof.
  unfold mat_mul. destruct (_ =? _); [|discriminate].
  intros E. injection E as <-. auto.
Qed.

Lemma mat_mul_transpose_r (b : Matrix) :
  exists l, mat_mul b (mat_transpose b) = Ok l.
Proof. unfold mat_mul. simpl. rewrite Z.eqb_refl. eauto. Qed.

Lemma mat_mul_transpose_l (b : Matrix) :
  exists l, mat_mul (mat_transpose b) b = Ok l.
Proof. unfold mat_mul. simpl. rewrite Z.eqb_refl. eauto. Qed.

(** [B @ B.T] as a double sum over the entries of [B]. *)
Lemma mat_get_mul_transpose_r (b l : Matrix) (i j : Z) :
  mat_mul b (mat_transpose b) = Ok l ->
  mat_get l i j
  = sum_Z (map (fun e => sum_Z (map (fun e' =>
      let '(r, k, y) := e in let '(r', k', y') := e' in
      if (r =? j) && (r' =? i) && (k' =? k) then y * y' else 0)
      (entries b))) (entries b)).
Proof.
  intros E. rewrite (mat_get_mul _ _ _ i j E). simpl entries. rewrite map_map.
  apply sum_Z_ext. intros [[r k] y] _. unfold mat_get.
  destruct (r =? j); simpl.
  - rewrite <- sum_Z_scale. apply sum_Z_ext. intros [[r' k'] y'] _.
    destruct ((r' =? i) && (k' =? k)); lia.
  - symmetry. apply sum_Z_zero. now intros [[r' k'] y'] _.
Qed.

Lemma mat_get_mul_transpose_l (b l : Matrix) (i j : Z) :
  mat_mul (mat_transpose b) b = Ok l ->
  mat_get l i j
  = sum_Z (map (fun e => sum_Z (map (fun e' =>
      let '(k, c, y) := e in let '(k', c', y') := e' in
      if (c =? j) && (c' =? i) && (k' =? k) then y * y' else 0)
      (entries b))) (entries b)).
Proof.
  intros E. rewrite (mat_get_mul _ _ _ i j E).
  apply sum_Z_ext. intros [[k c] y] _. rewrite mat_get_transpose. unfold mat_get.
  destruct (c =? j); simpl.
  - rewrite <- sum_Z_scale. apply sum_Z_ext. intros [[k' c'] y'] _.
    rewrite andb_comm. destruct ((c' =? i) && (k' =? k)); lia.
  - symmetry. apply sum_Z_zero. now intros [[k' c'] y'] _.
Qed.

Lemma mat_symmetric_mul_transpose_r (b l : Matrix) :
  mat_mul b (mat_transpose b) = Ok l -> mat_symmetric l.
Proof.
  intros E. split.
  - apply mat_mul_shape in E as [-> ->]. reflexivity.
  - intros i j.
    rewrite (mat_get_mul_transpose_r b l i j E), (mat_get_mul_transpose_r b l j i E).
    rewrite sum_Z_swap. apply sum_Z_ext. intros [[r k] y] _.
    apply sum_Z_ext. intros [[r' k'] y'] _.
    rewrite (Z.eqb_sym k' k), (andb_comm (r' =? j)).
    destruct ((r =? i) && (r' =? j) && (k =? k')); lia.
Qed.

Lemma mat_symmetric_mul_transpose_l (b l : Matrix) :
  mat_mul (mat_transpose b) b = Ok l -> mat_symmetric l.
Proof.
  intros E. split.
  - apply mat_mul_shape in E as [-> ->]. reflexivity.
  - intros i j.
    rewrite (mat_get_mul_transpose_l b l i j E), (mat_get_mul_transpose_l b l j i E).
    rewrite sum_Z_swap. apply sum_Z_ext. intros [[k c] y] _.
    apply sum_Z_ext. intros [[k' c'] y'] _.
    rewrite (Z.eqb_sym k' k), (andb_comm (c' =? j)).
    destruct ((c =? i) && (c' =? j) && (k =? k')); lia.
Qed.

Lemma sum_Z_pick_seq (f : Z -> Z) (i : Z) (len start : nat) :
  sum_Z (map (fun x => if x =? i then f x else 0)
           (map Z.of_nat (seq start len)))
  = if (Z.of_nat start <=? i) && (i <? Z.of_nat (start + len)) then f i else 0.
Proof.
  revert start. induction len as [|len IH]; intros start; simpl.
  - destruct (Z.leb_spec (Z.of_nat start) i), (Z.ltb_spec i (Z.of_nat (start + 0)));
      simpl; try reflexivity; lia.
  - rewrite IH. clear IH.
    replace (Z.of_nat (S start + len)) with (Z.of_nat (start + S len)) by lia.
    destruct (Z.eqb_spec (Z.of_nat start) i) as [E|Hne].
    + replace (f (Z.of_nat start)) with (f i) by (now rewrite E).
      destruct (Z.leb_spec (Z.of_nat (S start)) i); [lia|]. simpl.
      destruct (Z.leb_spec (Z.of_nat start) i); [|lia].
      destruct (Z.ltb_spec i (Z.of_nat (start + S len))); simpl; lia.
    + destruct (Z.leb_spec (Z.of_nat (S start)) i),
               (Z.leb_spec (Z.of_nat start) i); simpl; try reflexivity; lia.
Qed.

Lemma sum_Z_pick (f : Z -> Z) (n i : Z) :
  sum_Z (map (fun x => if x =? i then f x else 0) (range n))
  = if (0 <=? i) && (i <? n) then f i else 0.
Proof.
  unfold range. rewrite sum_Z_pick_seq. change (Z.of_nat 0) with 0.
  rewrite Nat.add_0_l.
  destruct (Z.leb_spec 0 i); simpl; [|reflexivity].
  destruct (Z.ltb_spec i (Z.of_nat (Z.to_nat n))), (Z.ltb_spec i n); try reflexivity; lia.
Qed.

Lemma mat_get_abs (m : Matrix) (i j : Z) :
  mat_get (mat_abs m) i j
  = if (0 <=? i) && (i <? nrows m) && ((0 <=? j) && (j <? ncols m))
    then Z.abs (mat_get m i j) else 0.
Proof.
  unfold mat_get at 1, mat_abs. simpl entries.
  rewrite sum_Z_map_flat_map.
  rewrite (sum_Z_ext _ (fun i' => if i' =? i
             then (if (0 <=? j) && (j <? ncols m) then Z.abs (mat_get m i' j) else 0)
             else 0)).
  - rewrite sum_Z_pick. destruct ((0 <=? i) && (i <? nrows m)); reflexivity.
  - intros i' _. rewrite map_map. destruct (Z.eqb_spec i' i) as [->|Hne].
    + rewrite <- (sum_Z_pick (fun j' => Z.abs (mat_get m i j')) (ncols m) j).
      apply sum_Z_ext. intros j' _. reflexivity.
    + apply sum_Z_zero. intros j' _. reflexivity.
Qed.

Lemma sum_Z_cons (x : Z) (l : list Z) : sum_Z (x :: l) = x + sum_Z l.
Proof. reflexivity. Qed.

Lemma mat_get_setdiag0 (m : Matrix) (i j : Z) :
  mat_get (mat_setdiag0 m) i j = if i =? j then 0 else mat_get m i j.
Proof.
  unfold mat_get, mat_setdiag0. simpl entries.
  induction (entries m) as [|[[r c] v] es IH].
  - simpl. now destruct (i =? j).
  - rewrite filter_cons. destruct (decide _) as [Hd|Hd];
      rewrite ?map_cons, ?sum_Z_cons, IH.
    + apply Is_true_true, negb_true_iff, Z.eqb_neq in Hd.
      destruct (Z.eqb_spec i j) as [->|Hij]; [|reflexivity].
      destruct (Z.eqb_spec r j), (Z.eqb_spec c j); simpl; try lia.
    + apply Is_true_false, negb_false_iff, Z.eqb_eq in Hd. subst c.
      destruct (Z.eqb_spec i j) as [->|Hij]; [reflexivity|].
      destruct (Z.eqb_spec r i), (Z.eqb_spec r j); simpl; try lia.
Qed.

End MatrixFacts.

(** ** Laplacians and adjacency matrices *)

Section SymmetricMatrices.

Lemma mat_get_add (a b s : Matrix) (i j : Z) :
  mat_add a b = Ok s -> mat_get s i j = mat_get a i j + mat_get b i j.
Proof.
  unfold mat_add. destruct (_ && _); [|discriminate].
  intros E. injection E as <-. unfold mat_get. simpl entries.
  now rewrite map_app, sum_Z_app.
Qed.

Lemma mat_add_shape (a b s : Matrix) :
  mat_add a b = Ok s ->
  nrows s = nrows a /\ ncols s = ncols a /\ nrows a = nrows b /\ ncols a = ncols b.
Proof.
  unfold mat_add. destruct (Z.eqb_spec (nrows a) (nrows b)); [|discriminate].
  destruct (Z.eqb_spec (ncols a) (ncols b)); [|discriminate].
  intros E. injection E as <-. auto.
Qed.

Lemma mat_symmetric_add (a b s : Matrix) :
  mat_add a b = Ok s -> mat_symmetric a -> mat_symmetric b -> mat_symmetric s.
Proof.
  intros E [Ha Hga] [Hb Hgb]. split.
  - apply mat_add_shape in E as (-> & -> & _). assumption.
  - intros i j. rewrite !(mat_get_add a b s _ _ E). now rewrite Hga, Hgb.
Qed.

Lemma mat_symmetric_abs (m : Matrix) : mat_symmetric m -> mat_symmetric (mat_abs m).
Proof.
  intros [Hs Hg]. split; [exact Hs|].
  intros i j. rewrite !mat_get_abs, Hs, (Hg i j).
  now rewrite (andb_comm ((0 <=? i) && (i <? ncols m))).
Qed.

Lemma mat_symmetric_setdiag0 (m : Matrix) :
  mat_symmetric m -> mat_symmetric (mat_setdiag0 m).
Proof.
  intros [Hs Hg]. split; [exact Hs|].
  intros i j. now rewrite !mat_get_setdiag0, (Z.eqb_sym j i), (Hg i j).
Qed.

Lemma mat_abs_nonneg (m : Matrix) (i j : Z) : 0 <= mat_get (mat_abs m) i j.
Proof. rewrite mat_get_abs. destruct (_ && _); lia. Qed.

Lemma mat_abs_diag0 (m : Matrix) (i : Z) :
  mat_get m i i = 0 -> mat_get (mat_abs m) i i = 0.
Proof. intros E. rewrite mat_get_abs, E. now destruct (_ && _). Qed.

(** What [setdiag(0)] followed by the optional [abs] gives. *)
Lemma adjacency_of_symmetric (l : Matrix) (signed : bool) :
  mat_symmetric l ->
  let a := if signed then mat_setdiag0 l else mat_abs (mat_setdiag0 l) in
  mat_symmetric a /\ (forall i, mat_get a i i = 0) /\
  (signed = false -> forall i j, 0 <= mat_get a i j) /\
  nrows a = nrows l /\ ncols a = ncols l.
Proof.
  intros Hl. pose proof (mat_symmetric_setdiag0 l Hl) as Hs.
  assert (Hd : forall i, mat_get (mat_setdiag0 l) i i = 0).
  { intros i. now rewrite mat_get_setdiag0, Z.eqb_refl. }
  destruct signed; simpl.
  - repeat split; auto; try apply Hs. discriminate.
  - split; [now apply mat_symmetric_abs|].
    split; [intros i; now apply mat_abs_diag0|].
    split; [intros _ i j; apply mat_abs_nonneg|auto].
Qed.

End SymmetricMatrices.

Section SimplicialLaplacians.
Import PyDict SimplicialComplex SimplexSpec.
Context `{SetIteration} `{NumPy}.

(** The index lists and the shape of an incidence matrix that is returned. *)
Lemma incidence_matrix_index_shape (sc : state) (rank : Z) (signed : bool)
  (sk1 sk : list (list Z)) (B : Matrix) :
  ranked_lattice sc = true ->
  incidence_matrix_index sc rank signed = Ok (sk1, sk, B) ->
  1 <= rank <= dim sc /\
  skeleton sc (rank - 1) = Ok sk1 /\ skeleton sc rank = Ok sk /\
  nrows B = Z.of_nat (length sk1) /\ ncols B = Z.of_nat (length sk).
Proof.
  intros Hrk E. unfold incidence_matrix_index in E.
  destruct (Z.leb_spec rank 0) as [|Hr0]; [discriminate|].
  destruct (Z.ltb_spec (dim sc) rank) as [|Hrd]; [discriminate|].
  split; [lia|].
  destruct (skeleton sc rank) as [sk0|] eqn:Esk0; [|discriminate].
  destruct (skeleton sc (rank - 1)) as [sk10|] eqn:Esk10; [|discriminate].
  pose proof (simplex_skeleton_Ok_inv sc rank sk0 Esk0) as Hlen.
  destruct (simplex_skeleton_in_range sc rank) as (b & Hb & Esk); [lia|].
  destruct (simplex_skeleton_in_range sc (rank - 1)) as (b1 & Hb1 & Esk1); [lia|].
  rewrite Esk in Esk0. injection Esk0 as <-.
  rewrite Esk1 in Esk10. injection Esk10 as <-.
  destruct (ranked_lattice_bucket sc _ b Hrk Hb) as [Hnd _].
  destruct (ranked_lattice_bucket sc _ b1 Hrk Hb1) as [Hnd1 _].
  apply NoDup_skeleton in Hnd. apply NoDup_skeleton in Hnd1.
  destruct (incidence_entries _ _) as [es|]; [|discriminate].
  destruct (negb _); [discriminate|].
  rewrite !keys_index_dict, !length_index_dict in E by assumption.
  injection E as <- <- <-. destruct signed; simpl; auto.
Qed.

Lemma incidence_matrix_index_errors (sc : state) (rank : Z) (signed : bool) :
  rank <= 0 \/ dim sc < rank ->
  incidence_matrix_index sc rank signed = Raise ValueError.
Proof.
  intros Hr. unfold incidence_matrix_index.
  destruct (Z.leb_spec rank 0); [reflexivity|].
  destruct (Z.ltb_spec (dim sc) rank); [reflexivity|lia].
Qed.

Lemma up_laplacian_matrix_inv (sc : state) (rank : Z) (signed : bool)
  (idx : list (list Z)) (L : Matrix) :
  ranked_lattice sc = true ->
  up_laplacian_matrix sc rank signed = Ok (idx, L) ->
  0 <= rank < dim sc /\
  skeleton sc rank = Ok idx /\
  nrows L = Z.of_nat (length idx) /\ ncols L = Z.of_nat (length idx) /\
  mat_symmetric L.
Proof.
  intros Hrk E. unfold up_laplacian_matrix in E.
  destruct ((rank =? 0) || (rank <? maxdim sc)); [|discriminate].
  destruct (incidence_matrix_index sc (rank + 1) true) as [[[row col] B]|] eqn:EB;
    [|discriminate].
  destruct (mat_mul B (mat_transpose B)) as [L0|] eqn:EL; [|discriminate].
  injection E as <- <-.
  destruct (incidence_matrix_index_shape sc (rank + 1) true row col B Hrk EB)
    as (Hr & Esk1 & _ & Hn & _).
  replace (rank + 1 - 1) with rank in Esk1 by lia.
  pose proof (mat_symmetric_mul_transpose_r B L0 EL) as Hsym.
  apply mat_mul_shape in EL as [HL1 HL2]. simpl in HL2.
  split; [lia|]. split; [assumption|].
  destruct signed; simpl; rewrite ?HL1, ?HL2, Hn;
    (split; [reflexivity|]); (split; [reflexivity|]);
    [assumption|now apply mat_symmetric_abs].
Qed.

Lemma up_laplacian_matrix_errors (sc : state) (rank : Z) (signed : bool) :
  rank < 0 \/ dim sc <= rank ->
  up_laplacian_matrix sc rank signed = Raise ValueError.
Proof.
  intros Hr. unfold up_laplacian_matrix, maxdim. fold (dim sc).
  destruct ((rank =? 0) || (rank <? dim sc)) eqn:Hc; [|reflexivity].
  rewrite incidence_matrix_index_errors; [reflexivity|].
  apply orb_true_iff in Hc as [Hc|Hc]; [apply Z.eqb_eq in Hc|apply Z.ltb_lt in Hc]; lia.
Qed.

Lemma down_laplacian_matrix_inv (sc : state) (rank : Z) (signed : bool)
  (idx : list (list Z)) (L : Matrix) :
  ranked_lattice sc = true ->
  down_laplacian_matrix sc rank signed = Ok (idx, L) ->
  0 < rank <= dim sc /\
  skeleton sc rank = Ok idx /\
  nrows L = Z.of_nat (length idx) /\ ncols L = Z.of_nat (length idx) /\
  mat_symmetric L.
Proof.
  intros Hrk E. unfold down_laplacian_matrix in E.
  destruct ((rank <=? maxdim sc) && (0 <? rank)); [|discriminate].
  destruct (incidence_matrix_index sc rank true) as [[[row col] B]|] eqn:EB;
    [|discriminate].
  destruct (mat_mul (mat_transpose B) B) as [L0|] eqn:EL; [|discriminate].
  injection E as <- <-.
  destruct (incidence_matrix_index_shape sc rank true row col B Hrk EB)
    as (Hr & _ & Esk & _ & Hn).
  pose proof (mat_symmetric_mul_transpose_l B L0 EL) as Hsym.
  apply mat_mul_shape in EL as [HL1 HL2]. simpl in HL1.
  split; [lia|]. split; [assumption|].
  destruct signed; simpl; rewrite ?HL1, ?HL2, Hn;
    (split; [reflexivity|]); (split; [reflexivity|]);
    [assumption|now apply mat_symmetric_abs].
Qed.

Lemma down_laplacian_matrix_errors (sc : state) (rank : Z) (signed : bool) :
  rank <= 0 \/ dim sc < rank ->
  down_laplacian_matrix sc rank signed = Raise ValueError.
Proof.
  intros Hr. unfold down_laplacian_matrix, maxdim. fold (dim sc).
  destruct ((rank <=? dim sc) && (0 <? rank)) eqn:Hc; [|reflexivity].
  apply andb_true_iff in Hc as [Hc1 Hc2].
  apply Z.leb_le in Hc1. apply Z.ltb_lt in Hc2. lia.
Qed.

End SimplicialLaplacians.

Section SimplicialLaplacianProperties.
Import PyDict SimplicialComplex SimplexSpec.
Context `{SetIteration} `{NumPy}.

(** X1. In a simplicial complex whose buckets hold distinct simplices of
    their rank, [up_laplacian_matrix(rank, index=True)] can return only for
    [0 <= rank < dim] and [down_laplacian_matrix(rank, index=True)] only for
    [0 < rank <= dim]; what they return is the index [skeleton(rank)] and a
    square matrix with one row per simplex of that rank, and
    [adjacency_matrix(rank)], [coadjacency_matrix(rank)] then return a
    matrix of the same shape. At every other rank, in any complex, the four
    methods raise [ValueError]. *)
Theorem laplacian_ranks (sc : state) (rank : Z) (signed : bool) :
  (ranked_lattice sc = true ->
   forall idx L, up_laplacian_matrix sc rank signed = Ok (idx, L) ->
     0 <= rank < dim sc /\
     skeleton sc rank = Ok idx /\
     nrows L = Z.of_nat (length idx) /\ ncols L = Z.of_nat (length idx) /\
     exists A,
       adjacency_matrix sc rank signed = Ok A /\
       nrows A = Z.of_nat (length idx) /\ ncols A = Z.of_nat (length idx)) /\
  (rank < 0 \/ dim sc <= rank ->
   up_laplacian_matrix sc rank signed = Raise ValueError /\
   adjacency_matrix sc rank signed = Raise ValueError) /\
  (ranked_lattice sc = true ->
   forall idx L, down_laplacian_matrix sc rank signed = Ok (idx, L) ->
     0 < rank <= dim sc /\
     skeleton sc rank = Ok idx /\
     nrows L = Z.of_nat (length idx) /\ ncols L = Z.of_nat (length idx) /\
     exists A,
       coadjacency_matrix sc rank signed = Ok A /\
       nrows A = Z.of_nat (length idx) /\ ncols A = Z.of_nat (length idx)) /\
  (rank <= 0 \/ dim sc < rank ->
   down_laplacian_matrix sc rank signed = Raise ValueError /\
   coadjacency_matrix sc rank signed = Raise ValueError).
Proof.
  split; [|split; [|split]].
  - intros Hrk idx L E.
    destruct (up_laplacian_matrix_inv sc rank signed idx L Hrk E)
      as (Hr & Esk & Hn & Hc & Hsym).
    destruct (adjacency_of_symmetric L signed Hsym) as (_ & _ & _ & Hn' & Hc').
    split; [assumption|]. split; [assumption|]. split; [assumption|].
    split; [assumption|].
    eexists. split; [unfold adjacency_matrix; rewrite E; reflexivity|].
    cbv zeta in Hn', Hc'. rewrite Hn', Hc', Hn, Hc. auto.
  - intros Hr. pose proof (up_laplacian_matrix_errors sc rank signed Hr) as E.
    split; [assumption|]. unfold adjacency_matrix. now rewrite E.
  - intros Hrk idx L E.
    destruct (down_laplacian_matrix_inv sc rank signed idx L Hrk E)
      as (Hr & Esk & Hn & Hc & Hsym).
    destruct (adjacency_of_symmetric L signed Hsym) as (_ & _ & _ & Hn' & Hc').
    split; [assumption|]. split; [assumption|]. split; [assumption|].
    split; [assumption|].
    eexists. split; [unfold coadjacency_matrix; rewrite E; reflexivity|].
    cbv zeta in Hn', Hc'. rewrite Hn', Hc', Hn, Hc. auto.
  - intros Hr. pose proof (down_laplacian_matrix_errors sc rank signed Hr) as E.
    split; [assumption|]. unfold coadjacency_matrix. now rewrite E.
Qed.

Lemma up_laplacian_matrix_symmetric (sc : state) (rank : Z) (signed : bool) idx L :
  up_laplacian_matrix sc rank signed = Ok (idx, L) -> mat_symmetric L.
Proof.
  unfold up_laplacian_matrix. destruct (_ || _); [|discriminate].
  destruct (incidence_matrix_index _ _ _) as [[[row col] B]|]; [|discriminate].
  destruct (mat_mul _ _) as [L0|] eqn:EL; [|discriminate].
  apply mat_symmetric_mul_transpose_r in EL.
  intros E. injection E as _ <-. destruct signed; [assumption|].
  now apply mat_symmetric_abs.
Qed.

Lemma down_laplacian_matrix_symmetric (sc : state) (rank : Z) (signed : bool) idx L :
  down_laplacian_matrix sc rank signed = Ok (idx, L) -> mat_symmetric L.
Proof.
  unfold down_laplacian_matrix. destruct (_ && _); [|discriminate].
  destruct (incidence_matrix_index _ _ _) as [[[row col] B]|]; [|discriminate].
  destruct (mat_mul _ _) as [L0|] eqn:EL; [|discriminate].
  apply mat_symmetric_mul_transpose_l in EL.
  intros E. injection E as _ <-. destruct signed; [assumption|].
  now apply mat_symmetric_abs.
Qed.

(** X2. Whatever the complex, a Laplacian that [up_laplacian_matrix] or
    [down_laplacian_matrix] returns is a symmetric matrix, and a matrix that
    [adjacency_matrix] or [coadjacency_matrix] returns is symmetric with a
    zero diagonal; with [signed=False] its entries are not negative. *)
Theorem laplacians_symmetric (sc : state) (rank : Z) (signed : bool) :
  (forall idx L, up_laplacian_matrix sc rank signed = Ok (idx, L) ->
     mat_symmetric L) /\
  (forall idx L, down_laplacian_matrix sc rank signed = Ok (idx, L) ->
     mat_symmetric L) /\
  (forall A, adjacency_matrix sc rank signed = Ok A \/
             coadjacency_matrix sc rank signed = Ok A ->
     mat_symmetric A /\ (forall i, mat_get A i i = 0) /\
     (signed = false -> forall i j, 0 <= mat_get A i j)).
Proof.
  split; [|split].
  - intros idx L. apply up_laplacian_matrix_symmetric.
  - intros idx L. apply down_laplacian_matrix_symmetric.
  - intros A [E|E].
    + unfold adjacency_matrix in E.
      destruct (up_laplacian_matrix sc rank signed) as [[idx L]|] eqn:EL; [|discriminate].
      apply up_laplacian_matrix_symmetric in EL.
      injection E as <-.
      destruct (adjacency_of_symmetric L signed EL) as (H1 & H2 & H3 & _). auto.
    + unfold coadjacency_matrix in E.
      destruct (down_laplacian_matrix sc rank signed) as [[idx L]|] eqn:EL; [|discriminate].
      apply down_laplacian_matrix_symmetric in EL.
      injection E as <-.
      destruct (adjacency_of_symmetric L signed EL) as (H1 & H2 & H3 & _). auto.
Qed.

(** X3. In a simplicial complex whose buckets hold distinct simplices of
    their rank, [hodge_laplacian_matrix(rank, index=True)] can return only
    for [0 <= rank <= dim] in a complex of dimension at least 1, and what it
    returns is the index [skeleton(rank)] and a symmetric square matrix with
    one row per simplex of that rank. In any complex it raises [ValueError]
    when [rank < 0], when [rank > dim], and at every rank when the
    dimension is 0 or less. With [signed=True] the matrix is the one of
    [up_laplacian_matrix] at rank 0, the one of [down_laplacian_matrix] at
    rank [dim], and the sum of the two in between. *)
Theorem hodge_laplacian_ranks (sc : state) (rank : Z) (signed : bool) :
  (ranked_lattice sc = true ->
   forall idx L, hodge_laplacian_matrix sc rank signed = Ok (idx, L) ->
     0 <= rank <= dim sc /\ 1 <= dim sc /\
     skeleton sc rank = Ok idx /\
     nrows L = Z.of_nat (length idx) /\ ncols L = Z.of_nat (length idx) /\
     mat_symmetric L) /\
  (rank < 0 \/ dim sc < rank \/ dim sc <= 0 ->
   hodge_laplacian_matrix sc rank signed = Raise ValueError) /\
  (forall idx L, hodge_laplacian_matrix sc rank true = Ok (idx, L) ->
     (rank = 0 -> up_laplacian_matrix sc rank true = Ok (idx, L)) /\
     (rank = dim sc -> rank <> 0 ->
      down_laplacian_matrix sc rank true = Ok (idx, L)) /\
     (0 < rank < dim sc ->
      exists idx' U D,
        up_laplacian_matrix sc rank true = Ok (idx', U) /\
        down_laplacian_matrix sc rank true = Ok (idx, D) /\
        mat_add U D = Ok L)).
Proof.
  split; [|split].
  - intros Hrk idx L E. unfold hodge_laplacian_matrix in E.
    destruct (Z.eqb_spec rank 0) as [->|Hr0].
    + destruct (incidence_matrix_index sc (0 + 1) true) as [[[row col] B]|] eqn:EB;
        [|discriminate].
      simpl in E.
      destruct (mat_mul B (mat_transpose B)) as [L0|] eqn:EL; [|discriminate].
      simpl in E. injection E as <- <-.
      destruct (incidence_matrix_index_shape sc (0 + 1) true row col B Hrk EB)
        as (Hr & Esk1 & _ & Hn & _).
      change (0 + 1 - 1) with 0 in Esk1.
      pose proof (mat_symmetric_mul_transpose_r B L0 EL) as Hsym.
      apply mat_mul_shape in EL as [HL1 HL2]. simpl in HL2.
      split; [lia|]. split; [lia|]. split; [assumption|].
      destruct signed; simpl; rewrite ?HL1, ?HL2, Hn;
        (split; [reflexivity|]); (split; [reflexivity|]);
        [assumption|now apply mat_symmetric_abs].
    + destruct (Z.ltb_spec rank (dim sc)) as [Hlt|Hge].
      * destruct (incidence_matrix_index sc (rank + 1) true) as [[[row2 col2] B2]|] eqn:EB2;
          [|discriminate].
        simpl in E.
        destruct (incidence_matrix_index sc rank true) as [[[row col] B]|] eqn:EB;
          [|discriminate].
        simpl in E.
        destruct (mat_mul B2 (mat_transpose B2)) as [U|] eqn:EU; [|discriminate].
        simpl in E.
        destruct (mat_mul (mat_transpose B) B) as [D|] eqn:ED; [|discriminate].
        simpl in E.
        destruct (mat_add U D) as [S|] eqn:ES; [|discriminate]. simpl in E.
        injection E as <- <-.
        destruct (incidence_matrix_index_shape sc rank true row col B Hrk EB)
          as (Hr & _ & Esk & _ & Hn).
        pose proof (mat_symmetric_mul_transpose_r B2 U EU) as HsymU.
        pose proof (mat_symmetric_mul_transpose_l B D ED) as HsymD.
        pose proof (mat_symmetric_add U D S ES HsymU HsymD) as HsymS.
        apply mat_mul_shape in ED as [HD1 HD2]. simpl in HD1.
        apply mat_add_shape in ES as (HS1 & HS2 & HS3).
        assert (HnS : nrows S = Z.of_nat (length col)).
        { destruct HsymS as [Hsq _]. rewrite Hsq, HS2.
          destruct HsymU as [HsqU _]. unfold mat_add in *.
          destruct HsymD as [HsqD _]. lia. }
        assert (HcS : ncols S = Z.of_nat (length col)).
        { destruct HsymS as [Hsq _]. now rewrite <- Hsq. }
        split; [lia|]. split; [lia|]. split; [assumption|].
        destruct signed; simpl; rewrite ?HnS, ?HcS;
          (split; [reflexivity|]); (split; [reflexivity|]);
          [assumption|now apply mat_symmetric_abs].
      * destruct (Z.eqb_spec rank (dim sc)) as [Heq|]; [|discriminate].
        destruct (incidence_matrix_index sc rank true) as [[[row col] B]|] eqn:EB;
          [|discriminate].
        simpl in E.
        destruct (mat_mul (mat_transpose B) B) as [D|] eqn:ED; [|discriminate].
        simpl in E. injection E as <- <-.
        destruct (incidence_matrix_index_shape sc rank true row col B Hrk EB)
          as (Hr & _ & Esk & _ & Hn).
        pose proof (mat_symmetric_mul_transpose_l B D ED) as HsymD.
        apply mat_mul_shape in ED as [HD1 HD2]. simpl in HD1.
        split; [lia|]. split; [lia|]. split; [assumption|].
        destruct signed; simpl; rewrite ?HD1, ?HD2, Hn;
          (split; [reflexivity|]); (split; [reflexivity|]);
          [assumption|now apply mat_symmetric_abs].
  - intros Hr. unfold hodge_laplacian_matrix.
    destruct (Z.eqb_spec rank 0) as [->|Hr0].
    { rewrite incidence_matrix_index_errors; [reflexivity|lia]. }
    destruct (Z.ltb_spec rank (dim sc)) as [Hlt|Hge].
    { rewrite incidence_matrix_index_errors; [reflexivity|lia]. }
    destruct (Z.eqb_spec rank (dim sc)) as [Heq|]; [|reflexivity].
    rewrite incidence_matrix_index_errors; [reflexivity|lia].
  - intros idx L E. unfold hodge_laplacian_matrix in E.
    unfold up_laplacian_matrix, down_laplacian_matrix, maxdim. fold (dim sc).
    destruct (Z.eqb_spec rank 0) as [->|Hr0].
    { split; [|split]; [intros _|congruence|lia].
      simpl orb.
      destruct (incidence_matrix_index sc (0 + 1) true) as [[[row col] B]|]; [|discriminate].
      simpl in E. destruct (mat_mul B (mat_transpose B)); [|discriminate].
      exact E. }
    destruct (Z.ltb_spec rank (dim sc)) as [Hlt|Hge].
    { split; [congruence|]. split; [lia|]. intros Hr. simpl orb.
      destruct (incidence_matrix_index sc (rank + 1) true) as [[[row2 col2] B2]|];
        [|discriminate].
      simpl in E.
      destruct (incidence_matrix_index sc rank true) as [[[row col] B]|]; [|discriminate].
      simpl in E.
      destruct (mat_mul B2 (mat_transpose B2)) as [U|]; [|discriminate]. simpl in E.
      destruct (mat_mul (mat_transpose B) B) as [D|]; [|discriminate]. simpl in E.
      destruct (mat_add U D) as [S|] eqn:ES; [|discriminate]. simpl in E.
      injection E as <- <-.
      replace ((rank <=? dim sc) && (0 <? rank)) with true.
      - eexists _, _, _. split; [reflexivity|]. split; [reflexivity|]. exact ES.
      - symmetry. apply andb_true_iff. split; [apply Z.leb_le|apply Z.ltb_lt]; lia. }
    destruct (Z.eqb_spec rank (dim sc)) as [Heq|]; [|discriminate].
    split; [congruence|]. split; [|lia]. intros _ _.
    destruct (incidence_matrix_index sc rank true) as [[[row col] B]|] eqn:EB;
      [|discriminate].
    simpl in E. destruct (mat_mul (mat_transpose B) B) as [D|]; [|discriminate].
    simpl in E. injection E as <- <-.
    assert (Hpos : 0 < rank).
    { unfold incidence_matrix_index in EB.
      destruct (Z.leb_spec rank 0); [discriminate|lia]. }
    replace ((rank <=? dim sc) && (0 <? rank)) with true; [reflexivity|].
    symmetry. apply andb_true_iff. split; [apply Z.leb_le|apply Z.ltb_lt]; lia.
Qed.

End SimplicialLaplacianProperties.

Lemma laplacian_ranks_witness :
  exists idx L A,
    SimplicialComplex.up_laplacian_matrix (H := list_order) (H0 := numpy_exact)
      (snd (SimplicialComplex.add_simplex [1; 2; 3] ∅ SimplexSpec.empty_complex)) 1 true
    = Ok (idx, L) /\
    SimplicialComplex.skeleton (H := list_order)
      (snd (SimplicialComplex.add_simplex [1; 2; 3] ∅ SimplexSpec.empty_complex)) 1
    = Ok idx /\
    SimplicialComplex.adjacency_matrix (H := list_order) (H0 := numpy_exact)
      (snd (SimplicialComplex.add_simplex [1; 2; 3] ∅ SimplexSpec.empty_complex)) 1 true
    = Ok A /\
    nrows L = Z.of_nat (length idx) /\ ncols L = Z.of_nat (length idx) /\
    nrows A = Z.of_nat (length idx) /\ ncols A = Z.of_nat (length idx).
Proof.
  eexists _, _.
  assert (E : SimplicialComplex.up_laplacian_matrix (H := list_order) (H0 := numpy_exact)
                (snd (SimplicialComplex.add_simplex [1; 2; 3] ∅ SimplexSpec.empty_complex))
                1 true = Ok (_, _)) by (vm_compute; reflexivity).
  destruct (proj1 (laplacian_ranks (H := list_order) (H0 := numpy_exact)
                     (snd (SimplicialComplex.add_simplex [1; 2; 3] ∅
                             SimplexSpec.empty_complex)) 1 true) eq_refl _ _ E)
    as (_ & Esk & Hn & Hc & A & EA & HnA & HcA).
  exists A. split; [exact E|]. repeat split; assumption.
Defined.

Lemma laplacians_symmetric_witness :
  exists idx L,
    SimplicialComplex.up_laplacian_matrix (H := list_order) (H0 := numpy_exact)
      (snd (SimplicialComplex.add_simplex [1; 2; 3] ∅ SimplexSpec.empty_complex)) 1 true
    = Ok (idx, L) /\ mat_symmetric L.
Proof.
  eexists _, _. split; [vm_compute; reflexivity|].
  eapply (proj1 (laplacians_symmetric (H := list_order) (H0 := numpy_exact)
                   (snd (SimplicialComplex.add_simplex [1; 2; 3] ∅ SimplexSpec.empty_complex))
                   1 true)).
  vm_compute. reflexivity.
Defined.

Lemma hodge_laplacian_ranks_witness :
  exists idx L,
    SimplicialComplex.hodge_laplacian_matrix (H := list_order) (H0 := numpy_exact)
      (snd (SimplicialComplex.add_simplex [1; 2; 3] ∅ SimplexSpec.empty_complex)) 1 true
    = Ok (idx, L) /\
    SimplicialComplex.skeleton (H := list_order)
      (snd (SimplicialComplex.add_simplex [1; 2; 3] ∅ SimplexSpec.empty_complex)) 1
    = Ok idx /\
    nrows L = Z.of_nat (length idx) /\ ncols L = Z.of_nat (length idx) /\
    mat_symmetric L.
Proof.
  eexists _, _.
  assert (E : SimplicialComplex.hodge_laplacian_matrix (H := list_order) (H0 := numpy_exact)
                (snd (SimplicialComplex.add_simplex [1; 2; 3] ∅ SimplexSpec.empty_complex))
                1 true = Ok (_, _)) by (vm_compute; reflexivity).
  destruct (proj1 (hodge_laplacian_ranks (H := list_order) (H0 := numpy_exact)
                     (snd (SimplicialComplex.add_simplex [1; 2; 3] ∅
                             SimplexSpec.empty_complex)) 1 true) eq_refl _ _ E)
    as (_ & _ & Esk & Hn & Hc & Hsym).
  split; [exact E|]. repeat split; try assumption; apply Hsym.
Defined.

(** ** Operators of a path complex *)

Section PathOperators.
Import PyDict PathComplex PathSpec.
Context `{SetIteration}.

Lemma incidence_matrix_rows_built (c : state) (rank : Z) :
  built c -> 1 <= rank <= dim c ->
  exists sk1 sk B,
    skeleton c (rank - 1) = Ok sk1 /\ skeleton c rank = Ok sk /\
    incidence_matrix_rows c rank true = Ok (index_dict sk1, B) /\
    incidence_matrix c rank true = Ok B /\
    nrows B = Z.of_nat (length sk1) /\ ncols B = Z.of_nat (length sk).
Proof.
  intros Hb Hr. destruct (built_wf_allowed c Hb) as [Hwf Hal].
  destruct (path_incidence_matrix_index_total c rank true Hwf Hal Hr)
    as (sk1 & sk & B & Esk1 & Esk & E & Hn & Hc).
  exists sk1, sk, B. split; [assumption|]. split; [assumption|].
  unfold incidence_matrix_rows, incidence_matrix.
  destruct (Z.ltb_spec rank 0); [lia|]. destruct (Z.ltb_spec (dim c) rank); [lia|].
  destruct (Z.eqb_spec rank 0); [lia|]. rewrite E. auto.
Qed.

Lemma incidence_matrix_rows_errors (c : state) (rank : Z) (signed : bool) :
  rank < 0 \/ dim c < rank -> incidence_matrix_rows c rank signed = Raise ValueError.
Proof.
  intros Hr. unfold incidence_matrix_rows.
  destruct (Z.ltb_spec rank 0); [reflexivity|].
  destruct (Z.ltb_spec (dim c) rank); [reflexivity|lia].
Qed.

(** X4. In a path complex that was built without an explicit set of
    allowed paths, [incidence_matrix(rank)] and [coincidence_matrix(rank)]
    return for every rank with [0 <= rank <= dim]: no lookup of a boundary
    path fails. For [rank >= 1] the incidence matrix has one row per path of
    [skeleton(rank - 1)] and one column per path of [skeleton(rank)], and the
    coincidence matrix is its transpose. *)
Theorem incidence_matrix_returns (c : state) (rank : Z) (signed : bool) :
  built c -> 0 <= rank <= dim c ->
  exists m t,
    incidence_matrix c rank signed = Ok m /\
    coincidence_matrix c rank signed = Ok t /\
    nrows t = ncols m /\ ncols t = nrows m /\
    (forall i j, mat_get t i j = mat_get m j i) /\
    (1 <= rank ->
     exists sk1 sk,
       skeleton c (rank - 1) = Ok sk1 /\ skeleton c rank = Ok sk /\
       nrows m = Z.of_nat (length sk1) /\ ncols m = Z.of_nat (length sk)).
Proof.
  intros Hb Hr. destruct (built_wf_allowed c Hb) as [Hwf Hal].
  assert (Hm : exists m, incidence_matrix c rank signed = Ok m /\
            (1 <= rank ->
             exists sk1 sk,
               skeleton c (rank - 1) = Ok sk1 /\ skeleton c rank = Ok sk /\
               nrows m = Z.of_nat (length sk1) /\ ncols m = Z.of_nat (length sk))).
  { unfold incidence_matrix.
    destruct (Z.ltb_spec rank 0); [lia|]. destruct (Z.ltb_spec (dim c) rank); [lia|].
    destruct (Z.eqb_spec rank 0) as [->|Hr0]; [eexists; split; [reflexivity|lia]|].
    destruct (path_incidence_matrix_index_total c rank signed Hwf Hal)
      as (sk1 & sk & B & Esk1 & Esk & E & Hn & Hc); [lia|].
    rewrite E. exists B. split; [reflexivity|]. intros _. exists sk1, sk. auto. }
  destruct Hm as (m & E & Hshape).
  exists m, (mat_transpose m). split; [assumption|].
  split; [unfold coincidence_matrix; now rewrite E|].
  split; [reflexivity|]. split; [reflexivity|].
  split; [intros i j; apply mat_get_transpose|assumption].
Qed.

Lemma path_up_laplacian_matrix_symmetric (c : state) (rank : Z) (signed : bool) idx L :
  up_laplacian_matrix c rank signed = Ok (idx, L) -> mat_symmetric L.
Proof.
  unfold up_laplacian_matrix. destruct (_ || _); [|discriminate].
  destruct (incidence_matrix_rows _ _ _) as [[row B]|]; [|discriminate].
  destruct (mat_mul _ _) as [L0|] eqn:EL; [|discriminate].
  apply mat_symmetric_mul_transpose_r in EL.
  intros E. injection E as _ <-. destruct signed; [assumption|].
  now apply mat_symmetric_abs.
Qed.

Lemma path_down_laplacian_matrix_symmetric (c : state) (rank : Z) (signed : bool) idx L :
  down_laplacian_matrix c rank signed = Ok (idx, L) -> mat_symmetric L.
Proof.
  unfold down_laplacian_matrix. destruct (_ && _); [|discriminate].
  destruct (incidence_matrix_rows _ _ _) as [[row B]|]; [|discriminate].
  destruct (mat_mul _ _) as [L0|] eqn:EL; [|discriminate].
  apply mat_symmetric_mul_transpose_l in EL.
  intros E. injection E as _ <-. destruct signed; [assumption|].
  now apply mat_symmetric_abs.
Qed.

(** X5. In a path complex that was built without an explicit set of
    allowed paths, [up_laplacian_matrix(rank, index=True)] and
    [adjacency_matrix(rank)] return for [0 <= rank < dim] and
    [down_laplacian_matrix(rank, index=True)] and [coadjacency_matrix(rank)]
    for [0 < rank <= dim]; the matrices are square with one row per path of
    [skeleton(rank)]. The index that comes with the up Laplacian is the one
    of [skeleton(rank)]; the index that comes with the down Laplacian is the
    one of the rows of the incidence matrix, [skeleton(rank - 1)]. In any
    complex the first two raise [ValueError] when [rank < -1] or
    [rank >= dim], the last two when [rank <= 0] or [rank > dim]. *)
Theorem path_laplacian_ranks (c : state) (rank : Z) (signed : bool) :
  (built c -> 0 <= rank < dim c ->
   exists sk L A,
     skeleton c rank = Ok sk /\
     up_laplacian_matrix c rank signed = Ok (index_dict sk, L) /\
     adjacency_matrix c rank signed = Ok A /\
     nrows L = Z.of_nat (length sk) /\ ncols L = Z.of_nat (length sk) /\
     nrows A = Z.of_nat (length sk) /\ ncols A = Z.of_nat (length sk)) /\
  (rank < -1 \/ dim c <= rank ->
   up_laplacian_matrix c rank signed = Raise ValueError /\
   adjacency_matrix c rank signed = Raise ValueError) /\
  (built c -> 0 < rank <= dim c ->
   exists sk1 sk L A,
     skeleton c (rank - 1) = Ok sk1 /\ skeleton c rank = Ok sk /\
     down_laplacian_matrix c rank signed = Ok (index_dict sk1, L) /\
     coadjacency_matrix c rank signed = Ok A /\
     nrows L = Z.of_nat (length sk) /\ ncols L = Z.of_nat (length sk) /\
     nrows A = Z.of_nat (length sk) /\ ncols A = Z.of_nat (length sk)) /\
  (rank <= 0 \/ dim c < rank ->
   down_laplacian_matrix c rank signed = Raise ValueError /\
   coadjacency_matrix c rank signed = Raise ValueError).
Proof.
  split; [|split; [|split]].
  - intros Hb Hr.
    destruct (incidence_matrix_rows_built c (rank + 1) Hb) as
      (sk1 & sk & B & Esk1 & _ & E & _ & Hn & _); [lia|].
    replace (rank + 1 - 1) with rank in Esk1 by lia.
    destruct (mat_mul_transpose_r B) as [L EL].
    pose proof (mat_symmetric_mul_transpose_r B L EL) as Hsym.
    apply mat_mul_shape in EL as HL. destruct HL as [HL1 HL2]. simpl in HL2.
    assert (Hsym' : mat_symmetric (if signed then L else mat_abs L)).
    { destruct signed; [assumption|now apply mat_symmetric_abs]. }
    assert (EU : up_laplacian_matrix c rank signed
                 = Ok (index_dict sk1, if signed then L else mat_abs L)).
    { unfold up_laplacian_matrix.
      replace ((rank =? 0) || (rank <? dim c)) with true.
      - now rewrite E, EL.
      - symmetry. apply orb_true_iff. right. apply Z.ltb_lt. lia. }
    destruct (adjacency_of_symmetric _ signed Hsym') as (_ & _ & _ & Hn' & Hc').
    eexists sk1, _, _. split; [assumption|]. split; [exact EU|].
    split; [unfold adjacency_matrix; rewrite EU; reflexivity|].
    cbv zeta in Hn', Hc'. rewrite Hn', Hc'.
    destruct signed; simpl; rewrite ?HL1, ?HL2, Hn; auto.
  - intros Hr.
    assert (E : up_laplacian_matrix c rank signed = Raise ValueError).
    { unfold up_laplacian_matrix.
      destruct ((rank =? 0) || (rank <? dim c)) eqn:Hc; [|reflexivity].
      rewrite incidence_matrix_rows_errors; [reflexivity|].
      apply orb_true_iff in Hc as [Hc|Hc];
        [apply Z.eqb_eq in Hc|apply Z.ltb_lt in Hc]; lia. }
    split; [assumption|]. unfold adjacency_matrix. now rewrite E.
  - intros Hb Hr.
    destruct (incidence_matrix_rows_built c rank Hb) as
      (sk1 & sk & B & Esk1 & Esk & E & _ & _ & Hn); [lia|].
    destruct (mat_mul_transpose_l B) as [L EL].
    pose proof (mat_symmetric_mul_transpose_l B L EL) as Hsym.
    apply mat_mul_shape in EL as HL. destruct HL as [HL1 HL2]. simpl in HL1.
    assert (Hsym' : mat_symmetric (if signed then L else mat_abs L)).
    { destruct signed; [assumption|now apply mat_symmetric_abs]. }
    assert (ED : down_laplacian_matrix c rank signed
                 = Ok (index_dict sk1, if signed then L else mat_abs L)).
    { unfold down_laplacian_matrix.
      replace ((rank <=? dim c) && (0 <? rank)) with true.
      - now rewrite E, EL.
      - symmetry. apply andb_true_iff. split; [apply Z.leb_le|apply Z.ltb_lt]; lia. }
    destruct (adjacency_of_symmetric _ signed Hsym') as (_ & _ & _ & Hn' & Hc').
    eexists sk1, sk, _, _. split; [assumption|]. split; [assumption|].
    split; [exact ED|].
    split; [unfold coadjacency_matrix; rewrite ED; reflexivity|].
    cbv zeta in Hn', Hc'. rewrite Hn', Hc'.
    destruct signed; simpl; rewrite ?HL1, ?HL2, Hn; auto.
  - intros Hr.
    assert (E : down_laplacian_matrix c rank signed = Raise ValueError).
    { unfold down_laplacian_matrix.
      destruct ((rank <=? dim c) && (0 <? rank)) eqn:Hc; [|reflexivity].
      apply andb_true_iff in Hc as [Hc1 Hc2].
      apply Z.leb_le in Hc1. apply Z.ltb_lt in Hc2. lia. }
    split; [assumption|]. unfold coadjacency_matrix. now rewrite E.
Qed.

End PathOperators.

Section PathOperatorsSymmetric.
Import PyDict PathComplex PathSpec.

(** X6. Whatever the path complex, a Laplacian that [up_laplacian_matrix]
    or [down_laplacian_matrix] returns is a symmetric matrix, and a matrix
    that [adjacency_matrix] or [coadjacency_matrix] returns is symmetric
    with a zero diagonal; with [signed=False] its entries are not
    negative. *)
Theorem path_laplacians_symmetric (c : state) (rank : Z) (signed : bool) :
  (forall idx L, up_laplacian_matrix c rank signed = Ok (idx, L) ->
     mat_symmetric L) /\
  (forall idx L, down_laplacian_matrix c rank signed = Ok (idx, L) ->
     mat_symmetric L) /\
  (forall A, adjacency_matrix c rank signed = Ok A \/
             coadjacency_matrix c rank signed = Ok A ->
     mat_symmetric A /\ (forall i, mat_get A i i = 0) /\
     (signed = false -> forall i j, 0 <= mat_get A i j)).
Proof.
  split; [|split].
  - intros idx L. apply path_up_laplacian_matrix_symmetric.
  - intros idx L. apply path_down_laplacian_matrix_symmetric.
  - intros A [E|E].
    + unfold adjacency_matrix in E.
      destruct (up_laplacian_matrix c rank signed) as [[idx L]|] eqn:EL; [|discriminate].
      apply path_up_laplacian_matrix_symmetric in EL.
      injection E as <-.
      destruct (adjacency_of_symmetric L signed EL) as (H1 & H2 & H3 & _). auto.
    + unfold coadjacency_matrix in E.
      destruct (down_laplacian_matrix c rank signed) as [[idx L]|] eqn:EL; [|discriminate].
      apply path_down_laplacian_matrix_symmetric in EL.
      injection E as <-.
      destruct (adjacency_of_symmetric L signed EL) as (H1 & H2 & H3 & _). auto.
Qed.

End PathOperatorsSymmetric.

Lemma incidence_matrix_returns_witness :
  exists m t,
    PathComplex.incidence_matrix
      (snd (PathComplex.init (H := list_order)
              (PathComplex.FromList [[NInt 0; NInt 1; NInt 2]]) false None 3)) 1 true
    = Ok m /\
    PathComplex.coincidence_matrix
      (snd (PathComplex.init (H := list_order)
              (PathComplex.FromList [[NInt 0; NInt 1; NInt 2]]) false None 3)) 1 true
    = Ok t /\
    nrows t = ncols m /\ ncols t = nrows m.
Proof.
  destruct (incidence_matrix_returns (H := list_order)
              (snd (PathComplex.init (H := list_order)
                      (PathComplex.FromList [[NInt 0; NInt 1; NInt 2]]) false None 3))
              1 true) as (m & t & E1 & E2 & H1 & H2 & _).
  - apply PathSpec.built_init; [left; reflexivity|vm_compute; reflexivity].
  - vm_compute. split; discriminate.
  - exists m, t. auto.
Defined.

Lemma path_laplacian_ranks_witness :
  exists sk L A,
    PathComplex.skeleton
      (snd (PathComplex.init (H := list_order)
              (PathComplex.FromList [[NInt 0; NInt 1; NInt 2]]) false None 3)) 1
    = Ok sk /\
    PathComplex.up_laplacian_matrix
      (snd (PathComplex.init (H := list_order)
              (PathComplex.FromList [[NInt 0; NInt 1; NInt 2]]) false None 3)) 1 true
    = Ok (PyDict.index_dict sk, L) /\
    PathComplex.adjacency_matrix
      (snd (PathComplex.init (H := list_order)
              (PathComplex.FromList [[NInt 0; NInt 1; NInt 2]]) false None 3)) 1 true
    = Ok A /\
    nrows L = Z.of_nat (length sk) /\ ncols L = Z.of_nat (length sk) /\
    nrows A = Z.of_nat (length sk) /\ ncols A = Z.of_nat (length sk).
Proof.
  apply (proj1 (path_laplacian_ranks (H := list_order)
                  (snd (PathComplex.init (H := list_order)
                          (PathComplex.FromList [[NInt 0; NInt 1; NInt 2]]) false None 3))
                  1 true)).
  - apply PathSpec.built_init; [left; reflexivity|vm_compute; reflexivity].
  - vm_compute. split; [discriminate|reflexivity].
Defined.

Lemma path_laplacians_symmetric_witness :
  exists idx L,
    PathComplex.down_laplacian_matrix
      (snd (PathComplex.init (H := list_order)
              (PathComplex.FromList [[NInt 0; NInt 1; NInt 2]]) false None 3)) 2 true
    = Ok (idx, L) /\ mat_symmetric L.
Proof.
  eexists _, _. split; [vm_compute; reflexivity|].
  eapply (proj1 (proj2 (path_laplacians_symmetric
                   (snd (PathComplex.init (H := list_order)
                           (PathComplex.FromList [[NInt 0; NInt 1; NInt 2]]) false None 3))
                   2 true))).
  vm_compute. reflexivity.
Defined.

(** ** Stored paths, allowed paths and nodes *)

Section PathStateProperties.
Import PyDict PathComplex PathSpec.
Local Open Scope py_scope.

Section WithIteration.
Context `{SetIteration}.

(** X7. In a path complex that was built without an explicit set of
    allowed paths, the allowed paths are exactly the paths that the complex
    stores, the items of [iter(self)]. *)
Theorem allowed_paths_are_stored (c : state) :
  built c -> forall p, p ∈ _allowed_paths c <-> p ∈ all_paths c.
Proof.
  intros Hb p. destruct (built_wf_allowed c Hb) as [Hwf Hal]. split.
  - intros Hp. apply elem_of_all_paths. eexists. apply Hal, Hp.
  - intros (r & b & Hr & Hin)%elem_of_all_paths. eapply wf_allowed; eauto.
Qed.

(** X8. On a complex produced by the constructor and the mutating methods,
    [remove_nodes(node_set)] returns and afterwards the complex stores, at
    each rank, exactly the paths it stored before that contain no node of
    [node_set]; the paths removed leave the allowed-path set, which
    otherwise stays as it was, and the dimension does not grow. *)
Theorem remove_nodes_removes (c : state) (node_set : list Node) :
  reachable c ->
  exists c',
    remove_nodes node_set c = (Ok tt, c') /\
    (forall r q, stored c' r q <->
       stored c r q /\ ~ Exists (fun node => node ∈ q) node_set) /\
    (forall q, q ∈ _allowed_paths c' <->
       q ∈ _allowed_paths c /\
       ~ (q ∈ all_paths c /\ Exists (fun node => node ∈ q) node_set)) /\
    dim c' <= dim c.
Proof.
  intros Hreach. apply reachable_wf in Hreach as Hwf.
  destruct (remove_nodes_spec node_set c Hwf) as (c' & E & _ & Hs & Ha & _ & Hm).
  exists c'. auto.
Qed.

End WithIteration.



End PathStateProperties.

Lemma allowed_paths_are_stored_witness :
  [NInt 0; NInt 1] ∈
    PathComplex._allowed_paths
      (snd (PathComplex.init (H := list_order)
              (PathComplex.FromList [[NInt 0; NInt 1; NInt 2]]) false None 3)).
Proof.
  apply (allowed_paths_are_stored (H := list_order)).
  - apply PathSpec.built_init; [left; reflexivity|vm_compute; reflexivity].
  - vm_compute. repeat constructor.
Defined.


Lemma remove_nodes_removes_witness :
  exists c',
    PathComplex.remove_nodes (H := list_order) [NInt 0]
      (snd (PathComplex.add_path (PathComplex.ASeq [NInt 0; NInt 1]) ∅
              (PathComplex.empty_complex false ∅)))
    = (Ok tt, c') /\
    PathComplex.dim c' <=
    PathComplex.dim
      (snd (PathComplex.add_path (PathComplex.ASeq [NInt 0; NInt 1]) ∅
              (PathComplex.empty_complex false ∅))).
Proof.
  destruct (remove_nodes_removes (H := list_order)
              (snd (PathComplex.add_path (PathComplex.ASeq [NInt 0; NInt 1]) ∅
                      (PathComplex.empty_complex false ∅)))
              [NInt 0]) as (c' & E & _ & _ & Hd).
  - apply PathSpec.reachable_add_path, PathSpec.reachable_empty.
  - exists c'. auto.
Defined.

(** ** When the constructor returns *)

Section ConstructorOutcome.
Import PyDict PathComplex PathSpec.
Local Open Scope py_scope.

Lemma add_path_path_of (path : PathArg) (attr : Attrs) (c : state) :
  add_path path attr c = add_path (ASeq (path_of path)) attr c.
Proof. now destruct path. Qed.

Lemma for_each_add_path_ok {X : Type} (l : list X) (arg : X -> PathArg)
  (att : X -> Attrs) (c : state) :
  Forall (fun x => path_of (arg x) <> [] /\
            passes_validation (_reserve_sequence_order c) (path_of (arg x)) = true) l ->
  exists c', for_each l (fun x => add_path (arg x) (att x)) c = (Ok tt, c').
Proof.
  revert c. induction l as [|x l IH]; intros c Hall; [simpl; eauto|].
  apply Forall_cons in Hall as [[Hne Hv] Hall].
  simpl. rewrite bind_eq, add_path_path_of, (add_path_ok _ (att x) c Hne Hv).
  apply IH. exact Hall.
Qed.

(** A loop of keyword calls on valid paths stops only at a clash. *)
Lemma for_each_add_path_kw_valid {X : Type} (l : list X) (arg : X -> PathArg)
  (att : X -> Attrs) (c : state) :
  Forall (fun x => path_of (arg x) <> [] /\
            passes_validation (_reserve_sequence_order c) (path_of (arg x)) = true) l ->
  (Forall (fun x => kw_clash (att x) = false) l /\
   exists c', for_each l (fun x => add_path_kw (arg x) (att x)) c = (Ok tt, c')) \/
  (Exists (fun x => kw_clash (att x) = true) l /\
   fst (for_each l (fun x => add_path_kw (arg x) (att x)) c) = Raise TypeError).
Proof.
  revert c. induction l as [|x l IH]; intros c Hall.
  - left. split; [constructor|]. simpl. eauto.
  - apply Forall_cons in Hall as [[Hne Hv] Hall]. simpl. rewrite bind_eq.
    unfold add_path_kw at 1 3. destruct (kw_clash (att x)) eqn:Hk.
    + right. split; [now apply Exists_cons_hd|reflexivity].
    + rewrite add_path_path_of, (add_path_ok _ (att x) c Hne Hv).
      destruct (IH (add_path_state (path_of (arg x)) (att x) c) Hall)
        as [[Hf Hok]|[Hex Hr]].
      * left. split; [now constructor|exact Hok].
      * right. split; [now apply Exists_cons_tl|exact Hr].
Qed.

Lemma for_each_add_path_invalid {X : Type} (l : list X) (arg : X -> PathArg)
  (att : X -> Attrs) (c : state) :
  Forall (fun x => path_of (arg x) <> []) l ->
  Exists (fun x =>
    passes_validation (_reserve_sequence_order c) (path_of (arg x)) = false) l ->
  fst (for_each l (fun x => add_path (arg x) (att x)) c) = Raise ValueError.
Proof.
  revert c. induction l as [|x l IH]; intros c Hne Hex.
  - now apply Exists_nil in Hex.
  - apply Forall_cons in Hne as [Hx Hne]. simpl. rewrite bind_eq.
    destruct (passes_validation (_reserve_sequence_order c) (path_of (arg x))) eqn:Hv.
    + rewrite add_path_path_of, (add_path_ok _ (att x) c Hx Hv).
      apply IH; [assumption|].
      apply Exists_cons in Hex as [Hex|Hex]; [congruence|exact Hex].
    + now rewrite (add_path_invalid (arg x) (att x) c Hv).
Qed.

Lemma for_each_add_path_max_dim {X : Type} (l : list X) (arg : X -> PathArg)
  (att : X -> Attrs) (c c' : state) (K : Z) :
  for_each l (fun x => add_path (arg x) (att x)) c = (Ok tt, c') ->
  Forall (fun x => path_of (arg x) <> [] /\
                   Z.of_nat (length (path_of (arg x))) <= K + 1) l ->
  max_dim (_path_set c) <= K -> max_dim (_path_set c') <= K.
Proof.
  revert c. induction l as [|x l IH]; intros c E Hall Hm.
  - injection E as <-. assumption.
  - apply Forall_cons in Hall as [[Hne Hl] Hall].
    simpl in E. rewrite bind_eq, add_path_path_of in E.
    destruct (passes_validation (_reserve_sequence_order c) (path_of (arg x))) eqn:Hv.
    + rewrite (add_path_ok _ (att x) c Hne Hv) in E.
      apply (IH _ E Hall). unfold add_path_state, rank. simpl.
      destruct (_ <? _); lia.
    + rewrite (add_path_invalid (ASeq _) (att x) c Hv) in E. discriminate.
Qed.

Section WithIteration.
Context `{SetIteration}.

Lemma Forall_set_order {A : Type} (P : A -> Prop) (l : list A) :
  Forall P (set_order l) <-> Forall P l.
Proof. now rewrite (set_order_perm _ _). Qed.

Lemma Exists_set_order {A : Type} (P : A -> Prop) (l : list A) :
  Exists P (set_order l) <-> Exists P l.
Proof. now rewrite (set_order_perm _ _). Qed.

Lemma Forall_remove_dups {A : Type} `{EqDecision A} (P : A -> Prop) (l : list A) :
  Forall P (remove_dups l) <-> Forall P l.
Proof.
  rewrite !Forall_forall. split; intros Hl x Hx; apply Hl.
  - now rewrite elem_of_remove_dups.
  - now rewrite elem_of_remove_dups in Hx.
Qed.

Lemma Exists_remove_dups {A : Type} `{EqDecision A} (P : A -> Prop) (l : list A) :
  Exists P (remove_dups l) <-> Exists P l.
Proof.
  rewrite !Exists_exists. split; intros (x & Hx & HP); exists x; split; auto.
  - now rewrite elem_of_remove_dups in Hx.
  - now rewrite elem_of_remove_dups.
Qed.

(** X10. For a list of non-empty paths, the constructor returns exactly
    when every path of the list passes the validation of [add_path]: it has
    no duplicate node and, outside reserve-order mode, its first node does
    not string-compare greater than its last. Each path of the list is then
    stored at its rank. When some path fails the validation the constructor
    raises [ValueError]. *)
Theorem init_from_list (l : list Path) (reserve : bool)
  (allowed : option (list Path)) (max_rank : Z) :
  Forall (fun p => p <> []) l ->
  (Forall (fun p => passes_validation reserve p = true) l ->
   exists c,
     init (FromList l) reserve allowed max_rank = (Ok tt, c) /\
     forall p, p ∈ l -> stored c (length p - 1)%nat p) /\
  (Exists (fun p => passes_validation reserve p = false) l ->
   fst (init (FromList l) reserve allowed max_rank) = Raise ValueError).
Proof.
  intros Hne. split.
  - intros Hv.
    assert (HOk : exists c, init (FromList l) reserve allowed max_rank = (Ok tt, c)).
    { unfold init. destruct (0 <? length l)%nat; [|eauto].
      unfold add_paths_from.
      apply (for_each_add_path_ok _ (fun p => ASeq p) (fun _ => ∅)).
      apply Forall_set_order, Forall_remove_dups. simpl.
      apply Forall_forall. intros p Hp. split.
      - now apply (proj1 (Forall_forall _ _) Hne).
      - now apply (proj1 (Forall_forall _ _) Hv). }
    destruct HOk as [c E]. exists c. split; [assumption|].
    intros p Hp. now apply (init_list_spec l reserve allowed max_rank c E).
  - intros Hex. unfold init.
    destruct (0 <? length l)%nat eqn:Hl.
    + unfold add_paths_from.
      apply (for_each_add_path_invalid _ (fun p => ASeq p) (fun _ => ∅)).
      * now apply Forall_set_order, Forall_remove_dups.
      * now apply Exists_set_order, Exists_remove_dups.
    + apply Nat.ltb_ge in Hl. destruct l; [|simpl in Hl; lia].
      now apply Exists_nil in Hex.
Qed.

End WithIteration.

End ConstructorOutcome.

Lemma init_from_list_witness :
  exists c,
    PathComplex.init (H := list_order)
      (PathComplex.FromList [[NInt 0; NInt 1; NInt 2]]) false None 3 = (Ok tt, c) /\
    forall p, p ∈ [[NInt 0; NInt 1; NInt 2]] ->
      PathSpec.stored c (length p - 1)%nat p.
Proof.
  apply (proj1 (init_from_list (H := list_order)
                  [[NInt 0; NInt 1; NInt 2]] false None 3
                  ltac:(repeat constructor; discriminate))).
  repeat constructor.
Defined.

(** ** Complexes built from a graph *)

Section GraphConstructor.
Import PyDict PathComplex PathSpec.
Local Open Scope py_scope.

Lemma orient_canon (reserve : bool) (p : Path) : orient reserve p = canon reserve p.
Proof.
  unfold orient, canon, canonical. destruct reserve; simpl; [reflexivity|].
  now destruct (str_first_gt_last p) as [[]|].
Qed.

Lemma simple_paths_from_spec (g : Graph) (cutoff : nat) (visited : list Node)
  (cur target : Node) (p : Path) :
  NoDup visited ->
  p ∈ simple_paths_from g cutoff visited cur target ->
  NoDup p /\ (length visited < length p <= length visited + cutoff)%nat.
Proof.
  revert visited cur. induction cutoff as [|cutoff IH]; intros visited cur Hnd Hp.
  - now apply elem_of_nil in Hp.
  - simpl in Hp. apply list_elem_of_In, in_flat_map in Hp as (n & _ & Hp).
    apply list_elem_of_In in Hp.
    destruct (bool_decide_reflect (n ∈ visited)) as [|Hn];
      [now apply elem_of_nil in Hp|].
    assert (Hnd' : NoDup (n :: visited)) by (apply NoDup_cons; auto).
    destruct (decide (n = target)) as [->|Hnt].
    + apply list_elem_of_singleton in Hp as ->.
      change (rev visited ++ [target]) with (rev (target :: visited)).
      split; [now rewrite <- (Permutation_rev (target :: visited))|].
      rewrite length_rev. simpl. lia.
    + apply IH in Hp as [Hp1 Hp2]; [|assumption]. simpl in Hp2.
      split; [assumption|lia].
Qed.

Lemma all_simple_paths_spec (g : Graph) (s t : Node) (cutoff : Z) (p : Path) :
  p ∈ all_simple_paths g s t cutoff ->
  NoDup p /\ p <> [] /\ Z.of_nat (length p) <= Z.max cutoff 0 + 1.
Proof.
  unfold all_simple_paths. destruct (decide (s = t)); [intros Hp; now apply elem_of_nil in Hp|].
  intros Hp. apply simple_paths_from_spec in Hp as [Hnd Hl].
  - split; [assumption|]. simpl in Hl. split; [intros ->; simpl in Hl; lia|lia].
  - apply NoDup_singleton.
Qed.

Lemma edge_canon (reserve : bool) (u v : Node) :
  (if negb reserve && str_gt (str u) (str v) then [v; u] else [u; v])
  = canon reserve [u; v].
Proof.
  unfold canon, canonical, str_first_gt_last. destruct reserve; simpl; [reflexivity|].
  now destruct (str_gt (str u) (str v)).
Qed.

Lemma NoDup_edge (u v : Node) : u <> v -> NoDup [u; v].
Proof.
  intros Hne. apply NoDup_cons. split; [|apply NoDup_singleton].
  now rewrite list_elem_of_singleton.
Qed.

Lemma singleton_valid (reserve : bool) (n : Node) :
  passes_validation reserve [n] = true.
Proof.
  unfold passes_validation, has_duplicates, ambiguous_direction.
  destruct reserve; reflexivity.
Qed.

(** The paths that [compute_allowed_paths] returns for a graph without
    self-loop pass the validation of [add_path]. *)
Lemma compute_allowed_paths_valid (g : Graph) (reserve : bool) (max_rank : Z)
  (q : Path) :
  no_self_loop g ->
  q ∈ compute_allowed_paths g reserve max_rank ->
  q <> [] /\ passes_validation reserve q = true /\
  Z.of_nat (length q) <= Z.max max_rank 1 + 1.
Proof.
  intros Hg Hq. unfold compute_allowed_paths in Hq.
  rewrite elem_of_list_to_set, !elem_of_app in Hq.
  destruct Hq as [Hq|[Hq|Hq]].
  - apply list_elem_of_fmap in Hq as (n & -> & _).
    split; [discriminate|]. split; [apply singleton_valid|simpl; lia].
  - apply list_elem_of_fmap in Hq as ([[u v] d] & -> & Hin).
    rewrite edge_canon. split; [now apply canon_nonempty|].
    split; [apply canon_valid, NoDup_edge; eauto|].
    rewrite length_canon. simpl. lia.
  - apply list_elem_of_In, in_flat_map in Hq as ([s t] & _ & Hq).
    apply in_map_iff in Hq as (p & <- & Hp). apply list_elem_of_In in Hp.
    apply all_simple_paths_spec in Hp as (Hnd & Hne & Hl).
    rewrite orient_canon. split; [now apply canon_nonempty|].
    split; [now apply canon_valid|]. rewrite length_canon. lia.
Qed.

Section WithIteration.
Context `{SetIteration}.

(** The constructor on a graph, as three loops. *)
Lemma init_graph_eq (g : Graph) (reserve : bool) (allowed : option (list Path))
  (max_rank : Z) :
  no_kw_clash g ->
  init (FromGraph g) reserve allowed max_rank =
  let c1 := empty_complex reserve (compute_allowed_paths g reserve max_rank) in
  match for_each (nodes g) (fun x => add_path (ANode x.1) x.2) c1 with
  | (Raise e, c2) => (Raise e, c2)
  | (Ok _, c2) =>
      match for_each (edges g) (fun x =>
              add_path (ASeq (canon reserve [x.1.1; x.1.2])) x.2) c2 with
      | (Raise e, c3) => (Raise e, c3)
      | (Ok _, c3) =>
          for_each (set_order (elements (_allowed_paths c3)))
            (fun p => add_path (ASeq p) ∅) c3
      end
  end.
Proof.
  intros [Hkn Hke]. unfold init. rewrite bind_eq. unfold modify at 1.
  change (with_allowed_paths _ _) with
    (empty_complex reserve (compute_allowed_paths g reserve max_rank)).
  cbv zeta. rewrite bind_eq, init_nodes_body.
  rewrite (for_each_add_path_kw_free (nodes g) (fun x => ANode x.1) (fun x => x.2))
    by exact Hkn.
  destruct (for_each (nodes g) _ _) as [[[]|e] c2]; [|reflexivity].
  rewrite bind_eq, init_edges_body.
  rewrite (for_each_add_path_kw_free (edges g) _ (fun x => x.2)) by exact Hke.
  rewrite (for_each_ext (edges g) _
             (fun x => add_path (ASeq (canon reserve [x.1.1; x.1.2])) x.2)).
  2:{ intros [[u v] d] _. simpl. rewrite <- edge_canon.
      now rewrite (andb_comm (negb reserve)). }
  destruct (for_each (edges g) _ c2) as [[[]|e] c3]; [|reflexivity].
  rewrite bind_eq. reflexivity.
Qed.

Lemma init_from_graph_free (g : Graph) (reserve : bool)
  (allowed : option (list Path)) (max_rank : Z) :
  no_kw_clash g ->
  (no_self_loop g ->
   exists c,
     init (FromGraph g) reserve allowed max_rank = (Ok tt, c) /\
     (forall n d, (n, d) ∈ nodes g -> stored c 0%nat [n]) /\
     (forall u v d, (u, v, d) ∈ edges g -> stored c 1%nat (canon reserve [u; v])) /\
     (forall p, p ∈ compute_allowed_paths g reserve max_rank ->
        stored c (length p - 1)%nat p) /\
     (1 <= max_rank -> dim c <= max_rank)) /\
  ((exists u d, (u, u, d) ∈ edges g) ->
   fst (init (FromGraph g) reserve allowed max_rank) = Raise ValueError).
Proof.
  intros Hkw. rewrite (init_graph_eq g reserve allowed max_rank Hkw). cbv zeta.
  set (A := compute_allowed_paths g reserve max_rank).
  set (c1 := empty_complex reserve A).
  assert (Hwf1 : wf c1) by apply wf_empty_complex.
  assert (Hnodes : Forall (fun x : Node * Attrs =>
            path_of (ANode x.1) <> [] /\
            passes_validation (_reserve_sequence_order c1) (path_of (ANode x.1)) = true)
            (nodes g)).
  { apply Forall_forall. intros [n d] _. simpl.
    split; [discriminate|apply singleton_valid]. }
  destruct (for_each_add_path_ok (nodes g) (fun x => ANode x.1) (fun x => x.2) c1 Hnodes)
    as [c2 E2].
  rewrite E2.
  destruct (for_each_add_path _ _ _ _ _ Hwf1 E2)
    as (Hwf2 & Hr2 & Hm2 & Hall2 & Hal2 & Hsub2).
  assert (Hres2 : _reserve_sequence_order c2 = reserve) by (rewrite Hr2; reflexivity).
  assert (Hmd2 : max_dim (_path_set c2) <= Z.max max_rank 1).
  { apply (for_each_add_path_max_dim _ _ _ _ _ _ E2); [|simpl; lia].
    apply Forall_forall. intros [n d] _. simpl. split; [discriminate|lia]. }
  split.
  - intros Hg.
    destruct (for_each_add_path_ok (edges g)
                (fun x => ASeq (canon reserve [x.1.1; x.1.2])) (fun x => x.2) c2)
      as [c3 E3].
    { apply Forall_forall. intros [[u v] d] Hin. simpl path_of. rewrite Hres2.
      split; [now apply canon_nonempty|].
      apply canon_valid, NoDup_edge. eauto. }
    rewrite E3.
    destruct (for_each_add_path _ _ _ _ _ Hwf2 E3)
      as (Hwf3 & Hr3 & Hm3 & Hall3 & Hal3 & Hsub3).
    assert (Hres3 : _reserve_sequence_order c3 = reserve) by congruence.
    assert (Hmd3 : max_dim (_path_set c3) <= Z.max max_rank 1).
    { apply (for_each_add_path_max_dim _ _ _ _ _ _ E3); [|assumption].
      apply Forall_forall. intros [[u v] d] _. simpl path_of.
      split; [now apply canon_nonempty|]. rewrite length_canon. simpl. lia. }
    assert (Hallowed3 : forall q, q ∈ _allowed_paths c3 ->
              q <> [] /\ passes_validation reserve q = true /\
              Z.of_nat (length q) <= Z.max max_rank 1 + 1).
    { assert (Hst3 : forall q, stored c3 (length q - 1)%nat q ->
                q <> [] /\ passes_validation reserve q = true /\
                Z.of_nat (length q) <= Z.max max_rank 1 + 1).
      { intros q (b & Hb & Hin).
        pose proof (wf_length c3 Hwf3 _ b q Hb Hin) as Hl.
        pose proof (wf_valid c3 Hwf3 _ b q Hb Hin) as Hv.
        pose proof (wf_top c3 Hwf3 _ b q Hb Hin) as Ht.
        rewrite Hres3 in Hv.
        split; [intros ->; discriminate|]. split; [assumption|lia]. }
      intros q Hq. destruct (Hal3 q Hq) as [Hq2|Hst]; [|now apply Hst3].
      destruct (Hal2 q Hq2) as [Hq1|Hst]; [|now apply Hst3, Hm3].
      exact (compute_allowed_paths_valid g reserve max_rank q Hg Hq1). }
    destruct (for_each_add_path_ok (set_order (elements (_allowed_paths c3)))
                (fun p => ASeq p) (fun _ => ∅) c3) as [c4 E4].
    { apply Forall_set_order, Forall_forall. intros q Hq. simpl path_of.
      apply elem_of_elements, Hallowed3 in Hq as (Hne & Hv & _).
      rewrite Hres3. auto. }
    rewrite E4.
    destruct (for_each_add_path _ _ _ _ _ Hwf3 E4)
      as (Hwf4 & Hr4 & Hm4 & Hall4 & Hal4 & Hsub4).
    exists c4. split; [reflexivity|].
    split; [intros n d Hn; apply Hm4, Hm3, (Hall2 (n, d) Hn)|].
    split.
    { intros u v d Hin. apply Hm4.
      destruct (Hall3 (u, v, d) Hin) as [Hst _]. simpl path_of in Hst.
      now rewrite length_canon in Hst. }
    split.
    { intros p Hp. apply (Hall4 p). rewrite (set_order_perm _ _).
      apply elem_of_elements. apply Hsub3, Hsub2. exact Hp. }
    intros Hmr. unfold dim.
    assert (Hm : max_dim (_path_set c4) <= Z.max max_rank 1); [|lia].
    apply (for_each_add_path_max_dim _ _ _ _ _ _ E4); [|assumption].
    apply Forall_set_order, Forall_forall. intros q Hq. simpl path_of.
    apply elem_of_elements, Hallowed3 in Hq as (Hne & _ & Hl). auto.
  - intros (u & d & Hin).
    assert (E : fst (for_each (edges g)
                  (fun x => add_path (ASeq (canon reserve [x.1.1; x.1.2])) x.2) c2)
                = Raise ValueError).
    { apply for_each_add_path_invalid.
      - apply Forall_forall. intros [[a b] d'] _. simpl path_of.
        now apply canon_nonempty.
      - apply Exists_exists. exists (u, u, d). split; [assumption|].
        simpl path_of. rewrite Hres2.
        destruct (passes_validation reserve (canon reserve [u; u])) eqn:Hv;
          [exfalso|reflexivity].
        unfold passes_validation in Hv. apply andb_prop in Hv as [Hv _].
        apply negb_true_iff, has_duplicates_false in Hv.
        assert (Hnd : NoDup [u; u]).
        { revert Hv. unfold canon, canonical. destruct reserve; [auto|].
          destruct (str_first_gt_last [u; u]) as [[]|]; simpl; auto. }
        apply NoDup_cons in Hnd as [Hnd _]. apply Hnd, list_elem_of_here. }
    destruct (for_each (edges g) _ c2) as [[[]|e] c3]; simpl in E;
      [discriminate|]. simpl. exact E.
Qed.


(** X11. On a graph no node or edge of which has an attribute named [path]
    or [self], the constructor returns when the graph has no self-loop,
    whatever the orientation mode and [max_rank], and raises [ValueError]
    when the graph has an edge from a node to itself. When it returns, every
    node of the graph is stored at rank 0, every edge at rank 1 in canonical
    direction, every path of [compute_allowed_paths] is stored, and for
    [max_rank >= 1] the dimension of the complex is at most [max_rank]. On a
    graph without self-loop that has such an attribute, the constructor
    raises [TypeError]. *)
Theorem init_from_graph (g : Graph) (reserve : bool)
  (allowed : option (list Path)) (max_rank : Z) :
  (no_kw_clash g -> no_self_loop g ->
   exists c,
     init (FromGraph g) reserve allowed max_rank = (Ok tt, c) /\
     (forall n d, (n, d) ∈ nodes g -> stored c 0%nat [n]) /\
     (forall u v d, (u, v, d) ∈ edges g -> stored c 1%nat (canon reserve [u; v])) /\
     (forall p, p ∈ compute_allowed_paths g reserve max_rank ->
        stored c (length p - 1)%nat p) /\
     (1 <= max_rank -> dim c <= max_rank)) /\
  (no_kw_clash g -> (exists u d, (u, u, d) ∈ edges g) ->
   fst (init (FromGraph g) reserve allowed max_rank) = Raise ValueError) /\
  (some_kw_clash g -> no_self_loop g ->
   fst (init (FromGraph g) reserve allowed max_rank) = Raise TypeError).
Proof.
  split; [|split].
  - intros Hkw. apply (init_from_graph_free g reserve allowed max_rank Hkw).
  - intros Hkw. apply (init_from_graph_free g reserve allowed max_rank Hkw).
  - intros Hclash Hg. unfold init. rewrite bind_eq. unfold modify at 1.
    set (c1 := with_allowed_paths _ _).
    assert (Hwf1 : wf c1) by apply wf_empty_complex.
    rewrite bind_eq, init_nodes_body.
    destruct (for_each_add_path_kw_valid (nodes g) (fun x => ANode x.1)
                (fun x => x.2) c1) as [[Hfn [c2 E2]]|[_ Hr]].
    { apply Forall_forall. intros [n d] _. simpl.
      split; [discriminate|apply singleton_valid]. }
    2:{ destruct (for_each (nodes g) _ c1) as [[[]|e] c2]; simpl in Hr;
          [discriminate|]. simpl. exact Hr. }
    rewrite E2.
    apply for_each_add_path_kw_Ok in E2 as [_ E2].
    destruct (for_each_add_path _ _ _ _ _ Hwf1 E2) as (Hwf2 & Hr2 & _).
    rewrite bind_eq, init_edges_body.
    destruct (for_each_add_path_kw_valid (edges g)
                (fun x => ASeq (if str_gt (str x.1.1) (str x.1.2) && negb reserve
                                then [x.1.2; x.1.1] else [x.1.1; x.1.2]))
                (fun x => x.2) c2) as [[Hfe _]|[_ Hr]].
    { apply Forall_forall. intros [[u v] d] Hin. simpl.
      rewrite (andb_comm _ (negb reserve)), edge_canon, Hr2.
      split; [now apply canon_nonempty|].
      apply canon_valid, NoDup_edge. eauto. }
    + exfalso. destruct Hclash as [Hex|Hex]; apply Exists_exists in Hex as (x & Hx & Hk).
      * rewrite Forall_forall in Hfn. rewrite (Hfn x Hx) in Hk. discriminate.
      * rewrite Forall_forall in Hfe. rewrite (Hfe x Hx) in Hk. discriminate.
    + destruct (for_each (edges g) _ c2) as [[[]|e] c3]; simpl in Hr;
        [discriminate|]. simpl. exact Hr.
Qed.

End WithIteration.
End GraphConstructor.

Lemma init_from_graph_witness :
  exists c,
    PathComplex.init (H := list_order) (PathComplex.FromGraph PathSpec.path_graph_3)
      false None 3 = (Ok tt, c) /\
    PathComplex.dim c <= 3.
Proof.
  destruct (proj1 (init_from_graph (H := list_order) PathSpec.path_graph_3 false None 3))
    as (c & E & _ & _ & _ & Hd).
  - split; repeat constructor.
  - intros u v d Hin. vm_compute in Hin.
    repeat (apply elem_of_cons in Hin as [Hin|Hin];
            [injection Hin as -> -> _; discriminate|]).
    now apply elem_of_nil in Hin.
  - exists c. split; [exact E|]. apply Hd. lia.
Defined.

(** ** Faces of a list of simplices *)

Section Boundaries.
Import PyDict SimplicialComplex SimplexSpec.

Lemma combinations_sublist {A : Type} (l f : list A) (r : nat) :
  f ∈ combinations l r -> length f = r /\ sublist f l.
Proof.
  revert f r. induction l as [|x l IH]; intros f [|r] Hf; simpl in Hf.
  - apply list_elem_of_singleton in Hf as ->. split; [reflexivity|constructor].
  - now apply elem_of_nil in Hf.
  - apply list_elem_of_singleton in Hf as ->. split; [reflexivity|apply sublist_nil_l].
  - apply elem_of_app in Hf as [Hf|Hf].
    + apply list_elem_of_fmap in Hf as (f' & -> & Hf').
      apply IH in Hf' as [<- Hs]. split; [reflexivity|now constructor].
    + apply IH in Hf as [<- Hs]. split; [reflexivity|now constructor].
Qed.

Lemma combinations_cover (l : list Z) (X : gset Z) :
  X ⊆ list_to_set l ->
  exists f, f ∈ combinations l (length f) /\ list_to_set f = X.
Proof.
  revert X. induction l as [|x l IH]; intros X HX.
  - assert (X = ∅) as -> by set_solver.
    exists []. split; [apply list_elem_of_here|reflexivity].
  - simpl in HX. destruct (decide (x ∈ X)) as [Hin|Hnotin].
    + destruct (IH (X ∖ {[x]})) as (f & Hf & Hset).
      { intros y Hy. apply elem_of_difference in Hy as [Hy Hyx].
        apply HX in Hy. set_solver. }
      exists (x :: f). simpl. split.
      * apply elem_of_app. left. now apply list_elem_of_fmap_2.
      * rewrite Hset. apply set_eq. intros y.
        rewrite elem_of_union, elem_of_singleton, elem_of_difference, elem_of_singleton.
        destruct (decide (y = x)) as [->|]; intuition.
    + destruct (IH X) as (f & Hf & Hset); [set_solver|].
      exists f. split; [|assumption].
      revert Hf. destruct (length f) as [|r]; intros Hf.
      * now rewrite combinations_0 in *.
      * simpl. apply elem_of_app. now right.
Qed.

Lemma list_to_set_sorted (f : list Z) :
  (list_to_set (sorted Z.leb f) : gset Z) = list_to_set f.
Proof. apply list_to_set_perm_L, sorted_perm. Qed.

Lemma elem_of_get_boundaries (simplices : list (list Z)) (min_dim max_dim : option Z)
  (X : Simplex) :
  X ∈ get_boundaries simplices min_dim max_dim <->
  exists s f, s ∈ simplices /\ f <> [] /\ f ∈ combinations s (length f) /\
              in_bounds min_dim max_dim f = true /\ list_to_set f = X.
Proof.
  unfold get_boundaries. rewrite elem_of_list_to_set, list_elem_of_In, in_flat_map.
  split.
  - intros (s & Hs & HX). apply in_flat_map in HX as (k & Hk & HX).
    apply in_seq in Hk. apply in_flat_map in HX as (f & Hf & HX).
    apply list_elem_of_In in Hf.
    destruct (in_bounds min_dim max_dim f) eqn:Hb; [|contradiction].
    destruct HX as [<-|[]].
    pose proof (combinations_sublist _ _ _ Hf) as [Hl _].
    exists s, f. split; [now apply list_elem_of_In|].
    split; [intros ->; simpl in Hl; lia|].
    split; [now rewrite Hl|]. split; [exact Hb|].
    symmetry. apply list_to_set_sorted.
  - intros (s & f & Hs & Hne & Hf & Hb & <-).
    exists s. split; [now apply list_elem_of_In|].
    pose proof (combinations_sublist _ _ _ Hf) as [_ Hsub].
    apply sublist_length in Hsub.
    apply in_flat_map. exists (length s - length f)%nat. split.
    + apply in_seq. destruct f; [contradiction|simpl in *; lia].
    + replace (length s - (length s - length f))%nat with (length f) by lia.
      apply in_flat_map. exists f. split; [now apply list_elem_of_In|].
      rewrite Hb. left. apply list_to_set_sorted.
Qed.

Lemma sublist_list_to_set (f s : list Z) :
  sublist f s -> (list_to_set f : gset Z) ⊆ list_to_set s.
Proof.
  intros Hsub x. rewrite !elem_of_list_to_set. intros Hx.
  eapply elem_of_sublist; eauto.
Qed.

(** X12. Without bounds, [get_boundaries(simplices)] is the set of the
    non-empty subsets of the node sets of the given simplices. When the
    simplices have no repeated node, [get_boundaries(simplices, min_dim,
    max_dim)] is the set of those subsets whose number of nodes is at least
    [min_dim + 1], if [min_dim] is given, and at most [max_dim + 1], if
    [max_dim] is given. *)
Theorem get_boundaries_subsets (simplices : list (list Z)) :
  (forall X : Simplex,
     X ∈ get_boundaries simplices None None <->
     X <> ∅ /\ exists s, s ∈ simplices /\ X ⊆ list_to_set s) /\
  (Forall NoDup simplices ->
   forall (min_dim max_dim : option Z) (X : Simplex),
     X ∈ get_boundaries simplices min_dim max_dim <->
     X <> ∅ /\ (exists s, s ∈ simplices /\ X ⊆ list_to_set s) /\
     (forall lo, min_dim = Some lo -> lo + 1 <= Z.of_nat (size X)) /\
     (forall hi, max_dim = Some hi -> Z.of_nat (size X) <= hi + 1)).
Proof.
  split.
  - intros X. rewrite elem_of_get_boundaries. split.
    + intros (s & f & Hs & Hne & Hf & _ & <-).
      apply combinations_sublist in Hf as [_ Hsub]. split.
      * destruct f as [|x f]; [contradiction|]. simpl. set_solver.
      * exists s. split; [assumption|]. now apply sublist_list_to_set.
    + intros (Hne & s & Hs & HX).
      destruct (combinations_cover s X HX) as (f & Hf & Hset).
      exists s, f. split; [assumption|].
      split; [intros ->; simpl in Hset; congruence|]. auto.
  - intros Hnd min_dim max_dim X. rewrite elem_of_get_boundaries. split.
    + intros (s & f & Hs & Hne & Hf & Hb & <-).
      apply combinations_sublist in Hf as [_ Hsub].
      assert (Hsz : size (list_to_set f : gset Z) = length f).
      { apply size_list_to_set. eapply sublist_NoDup; [|exact Hsub].
        now apply (proj1 (Forall_forall _ _) Hnd). }
      split; [destruct f as [|x f]; [contradiction|]; simpl; set_solver|].
      split; [exists s; split; [assumption|]; now apply sublist_list_to_set|].
      rewrite Hsz. unfold in_bounds in Hb.
      destruct max_dim as [hi|], min_dim as [lo|];
        try (apply andb_prop in Hb as [Hb1 Hb2]);
        split; intros z Hz; try discriminate; injection Hz as <-; lia.
    + intros (Hne & (s & Hs & HX) & Hlo & Hhi).
      pose proof (proj1 (Forall_forall _ _) Hnd s Hs) as Hs_nd.
      destruct (combinations_subset s X Hs_nd HX) as (f & Hf & Hset & Hlen).
      exists s, f. split; [assumption|].
      split; [intros ->; simpl in Hset; congruence|].
      split; [now rewrite Hlen|]. split; [|assumption].
      unfold in_bounds. rewrite Hlen.
      destruct max_dim as [hi|], min_dim as [lo|]; try reflexivity.
      * specialize (Hlo lo eq_refl). specialize (Hhi hi eq_refl).
        apply andb_true_intro. split; [apply Z.leb_le|apply Z.leb_le]; lia.
      * specialize (Hhi hi eq_refl). apply Z.leb_le. lia.
      * specialize (Hlo lo eq_refl). apply Z.leb_le. lia.
Qed.

End Boundaries.

Lemma get_boundaries_subsets_witness :
  ({[1; 2]} : gset Z) ∈ SimplicialComplex.get_boundaries [[1; 2; 3]] (Some 1) (Some 1).
Proof.
  apply (proj2 (get_boundaries_subsets [[1; 2; 3]])).
  - repeat constructor; set_solver.
  - split; [set_solver|]. split.
    + exists [1; 2; 3]. split; [apply list_elem_of_here|set_solver].
    + split; intros ? [= <-]; vm_compute; discriminate.
Defined.

(** ** Coboundaries and unsigned matrices *)

Section Coboundary.

(** [(a @ b).T] is [b.T @ a.T]. *)
Lemma mat_mul_transpose (a b p : Matrix) :
  mat_mul a b = Ok p ->
  exists q, mat_mul (mat_transpose b) (mat_transpose a) = Ok q /\
    nrows q = ncols p /\ ncols q = nrows p /\
    forall i j, mat_get q i j = mat_get p j i.
Proof.
  intros E. assert (Hd : ncols a = nrows b).
  { unfold mat_mul in E. destruct (Z.eqb_spec (ncols a) (nrows b)); [assumption|discriminate]. }
  assert (Eq : exists q, mat_mul (mat_transpose b) (mat_transpose a) = Ok q).
  { unfold mat_mul. simpl. rewrite Hd, Z.eqb_refl. eauto. }
  destruct Eq as [q Eq]. exists q. split; [assumption|].
  pose proof (mat_mul_shape _ _ _ E) as [Hp1 Hp2].
  pose proof (mat_mul_shape _ _ _ Eq) as [Hq1 Hq2]. simpl in Hq1, Hq2.
  split; [congruence|]. split; [congruence|].
  intros i j. rewrite (mat_get_mul _ _ _ i j Eq), (mat_get_mul _ _ _ j i E).
  simpl entries. rewrite map_map.
  unfold mat_get. 
  rewrite (sum_Z_ext _ (fun e => sum_Z (map (fun e' =>
             let '(r, k, x) := e in let '(k', c, y) := e' in
             if (k =? k') && (r =? j) && (c =? i) then x * y else 0) (entries b)))).
  2:{ intros [[r k] x] _. simpl entries. rewrite map_map.
      destruct (Z.eqb_spec r j) as [->|Hne].
      - rewrite <- sum_Z_scale. apply sum_Z_ext. intros [[k' c] y] _.
        rewrite andb_true_r, (Z.eqb_sym k k').
        destruct ((c =? i) && (k' =? k)) eqn:Hc.
        + apply andb_prop in Hc as [-> ->]. simpl. lia.
        + apply andb_false_iff in Hc as [->| ->]; rewrite ?andb_false_r; simpl; lia.
      - symmetry. apply sum_Z_zero. intros [[k' c] y] _.
        now rewrite andb_false_r. }
  rewrite sum_Z_swap. apply sum_Z_ext. intros [[k' c] y] _.
  destruct (Z.eqb_spec c i) as [->|Hne].
  - rewrite <- sum_Z_scale. apply sum_Z_ext. intros [[r k] x] _.
    rewrite andb_true_r, (Z.eqb_sym k k'), (andb_comm (k' =? k)).
    destruct ((r =? j) && (k' =? k)); lia.
  - apply sum_Z_zero. intros [[r k] x] _. now rewrite andb_false_r.
Qed.

End Coboundary.

Section CoboundaryIdentity.
Context `{SetIteration} `{NumPy}.

(** X13. The coboundary of a coboundary vanishes. In a simplicial complex
    whose buckets hold distinct simplices of their rank, with nodes in the
    range of [int64], whenever the signed [coincidence_matrix(r)] and
    [coincidence_matrix(r - 1)] both return, their product is defined and is
    the zero matrix. In a path complex in which every path obtained by
    deleting one node of a stored path is itself stored, allowed and in
    canonical direction, both matrices are returned for [1 <= r <= dim], and
    their product is defined and is the zero matrix. *)
Theorem coboundary_of_coboundary_zero :
  (forall (sc : SimplicialComplex.state) (rank : Z) (d2 d1 : Matrix),
     SimplexSpec.ranked_lattice sc = true ->
     SimplexSpec.int64_nodes sc = true ->
     SimplicialComplex.coincidence_matrix sc rank true = Ok d2 ->
     SimplicialComplex.coincidence_matrix sc (rank - 1) true = Ok d1 ->
     exists prod, mat_mul d2 d1 = Ok prod /\ mat_is_zero prod) /\
  (forall (c : PathComplex.state) (rank : Z),
     PathSpec.boundary_closed c = true ->
     1 <= rank <= PathComplex.dim c ->
     exists d2 d1 prod,
       PathComplex.coincidence_matrix c rank true = Ok d2 /\
       PathComplex.coincidence_matrix c (rank - 1) true = Ok d1 /\
       mat_mul d2 d1 = Ok prod /\
       mat_is_zero prod).
Proof.
  split.
  - intros sc rank d2 d1 Hrk Hint E2 E1.
    unfold SimplicialComplex.coincidence_matrix in E2, E1.
    destruct (SimplicialComplex.incidence_matrix sc rank true) as [b2|] eqn:Eb2;
      [|discriminate].
    destruct (SimplicialComplex.incidence_matrix sc (rank - 1) true) as [b1|] eqn:Eb1;
      [|discriminate].
    injection E2 as <-. injection E1 as <-.
    destruct (simplicial_boundary_of_boundary_zero sc rank b1 b2 Hrk Hint Eb1 Eb2)
      as (prod & Em & Hz).
    destruct (mat_mul_transpose b1 b2 prod Em) as (q & Eq & _ & _ & Hq).
    exists q. split; [assumption|].
    intros i j. rewrite Hq. apply Hz.
  - intros c rank Hcl Hr.
    destruct (path_boundary_of_boundary_zero c rank Hcl Hr)
      as (b1 & b2 & prod & E1 & E2 & Em & Hz).
    destruct (mat_mul_transpose b1 b2 prod Em) as (q & Eq & _ & _ & Hq).
    exists (mat_transpose b2), (mat_transpose b1), q.
    unfold PathComplex.coincidence_matrix. rewrite E1, E2.
    split; [reflexivity|]. split; [reflexivity|]. split; [assumption|].
    intros i j. rewrite Hq. apply Hz.
Qed.

(** X14. [incidence_matrix(rank, signed=False)] returns whenever
    [incidence_matrix(rank, signed=True)] does, with the same shape, and
    each of its entries is the absolute value of the signed entry; this
    holds for simplicial complexes and for path complexes. *)
Theorem unsigned_incidence_is_absolute_value :
  (forall (sc : SimplicialComplex.state) (rank : Z) (m : Matrix),
     SimplicialComplex.incidence_matrix sc rank true = Ok m ->
     exists u,
       SimplicialComplex.incidence_matrix sc rank false = Ok u /\
       nrows u = nrows m /\ ncols u = ncols m /\
       forall i j, 0 <= i < nrows m -> 0 <= j < ncols m ->
         mat_get u i j = Z.abs (mat_get m i j)) /\
  (forall (c : PathComplex.state) (rank : Z) (m : Matrix),
     PathComplex.incidence_matrix c rank true = Ok m ->
     exists u,
       PathComplex.incidence_matrix c rank false = Ok u /\
       nrows u = nrows m /\ ncols u = ncols m /\
       forall i j, 0 <= i < nrows m -> 0 <= j < ncols m ->
         mat_get u i j = Z.abs (mat_get m i j)).
Proof.
  assert (Habs : forall m i j, 0 <= i < nrows m -> 0 <= j < ncols m ->
            mat_get (mat_abs m) i j = Z.abs (mat_get m i j)).
  { intros m i j Hi Hj. rewrite mat_get_abs.
    destruct (Z.leb_spec 0 i), (Z.ltb_spec i (nrows m)),
             (Z.leb_spec 0 j), (Z.ltb_spec j (ncols m)); simpl; try lia. }
  split.
  - intros sc rank m.
    unfold SimplicialComplex.incidence_matrix, SimplicialComplex.incidence_matrix_index.
    destruct (rank <=? 0); [discriminate|].
    destruct (_ <? rank); [discriminate|].
    destruct (SimplicialComplex.skeleton sc rank); [|discriminate].
    destruct (SimplicialComplex.skeleton sc (rank - 1)); [|discriminate].
    destruct (SimplicialComplex.incidence_entries _ _); [|discriminate].
    destruct (negb _); [discriminate|].
    intros E. injection E as <-. eexists. split; [reflexivity|].
    split; [reflexivity|]. split; [reflexivity|]. apply Habs.
  - intros c rank m.
    unfold PathComplex.incidence_matrix, PathComplex.incidence_matrix_index.
    destruct (rank <? 0); [discriminate|].
    destruct (_ <? rank); [discriminate|].
    destruct (rank =? 0).
    + intros E. injection E as <-. eexists. split; [reflexivity|].
      split; [reflexivity|]. split; [reflexivity|]. simpl. lia.
    + destruct (PathComplex.skeleton c (rank - 1)); [|discriminate].
      destruct (PathComplex.skeleton c rank); [|discriminate].
      destruct (PathComplex.incidence_entries _ _ _); [|discriminate].
      intros E. injection E as <-. eexists. split; [reflexivity|].
      split; [reflexivity|]. split; [reflexivity|]. apply Habs.
Qed.

End CoboundaryIdentity.

Section Shape.
Import PyDict SimplicialComplex SimplexSpec.
Context `{SetIteration}.

Lemma length_concat_sum {A : Type} (ls : list (list A)) :
  Z.of_nat (length (concat ls)) = sum_Z (map (fun l => Z.of_nat (length l)) ls).
Proof.
  induction ls as [|l ls IH]; simpl; [reflexivity|].
  rewrite length_app, Nat2Z.inj_add, IH. reflexivity.
Qed.

(** X15. When [shape] returns a list, it has one entry per rank bucket,
    the entry of rank [r] is the number of simplices that [skeleton(r)]
    returns, and the entries add up to the number of simplices that
    [iter(self)] yields. [shape] returns nothing exactly when the complex has
    no bucket, and then [iter(self)] yields nothing. *)
Theorem shape_counts_simplices (sc : state) :
  (forall sh, shape sc = Some sh ->
     length sh = length (faces_dict (_simplex_set sc)) /\
     (forall r, 0 <= r < Z.of_nat (length sh) ->
        exists sk, skeleton sc r = Ok sk /\
                   sh !! Z.to_nat r = Some (Z.of_nat (length sk))) /\
     sum_Z sh = Z.of_nat (length (all_simplices sc))) /\
  (shape sc = None <-> faces_dict (_simplex_set sc) = []) /\
  (shape sc = None -> all_simplices sc = []).
Proof.
  assert (Hsh : shape sc = match faces_dict (_simplex_set sc) with
                           | [] => None
                           | _ => Some (map (fun b => Z.of_nat (length b))
                                          (faces_dict (_simplex_set sc)))
                           end).
  { unfold shape. now destruct (faces_dict (_simplex_set sc)). }
  split; [|split].
  - intros sh E. rewrite Hsh in E.
    assert (E' : sh = map (fun b => Z.of_nat (length b)) (faces_dict (_simplex_set sc))).
    { destruct (faces_dict (_simplex_set sc)); [discriminate|congruence]. }
    clear E. subst sh. rewrite length_map. split; [reflexivity|]. split.
    + intros r Hr. destruct (simplex_skeleton_in_range sc r Hr) as (b & Hb & ->).
      eexists. split; [reflexivity|].
      rewrite list_lookup_fmap, Hb. simpl.
      now rewrite sorted_length, length_map, length_keys.
    + unfold all_simplices. rewrite length_concat_sum, map_map.
      apply sum_Z_ext. intros b _. now rewrite length_keys.
  - rewrite Hsh. destruct (faces_dict (_simplex_set sc)); split; congruence.
  - rewrite Hsh. unfold all_simplices.
    destruct (faces_dict (_simplex_set sc)); [reflexivity|discriminate].
Qed.

End Shape.

Lemma coboundary_of_coboundary_zero_witness :
  exists d2 d1 prod,
    SimplicialComplex.coincidence_matrix (H := list_order) (H0 := numpy_exact)
      (snd (SimplicialComplex.add_simplex [1; 2; 3] ∅ SimplexSpec.empty_complex))
      2 true = Ok d2 /\
    SimplicialComplex.coincidence_matrix (H := list_order) (H0 := numpy_exact)
      (snd (SimplicialComplex.add_simplex [1; 2; 3] ∅ SimplexSpec.empty_complex))
      (2 - 1) true = Ok d1 /\
    mat_mul d2 d1 = Ok prod /\
    mat_is_zero prod.
Proof.
  eexists _, _.
  assert (E2 : SimplicialComplex.coincidence_matrix (H := list_order) (H0 := numpy_exact)
                 (snd (SimplicialComplex.add_simplex [1; 2; 3] ∅
                         SimplexSpec.empty_complex)) 2 true = Ok _)
    by (vm_compute; reflexivity).
  assert (E1 : SimplicialComplex.coincidence_matrix (H := list_order) (H0 := numpy_exact)
                 (snd (SimplicialComplex.add_simplex [1; 2; 3] ∅
                         SimplexSpec.empty_complex)) (2 - 1) true = Ok _)
    by (vm_compute; reflexivity).
  destruct (proj1 (coboundary_of_coboundary_zero (H := list_order) (H0 := numpy_exact))
              (snd (SimplicialComplex.add_simplex [1; 2; 3] ∅ SimplexSpec.empty_complex))
              2 _ _ eq_refl eq_refl E2 E1) as (prod & Hm & Hz).
  exists prod. split; [exact E2|]. split; [exact E1|]. split; assumption.
Defined.

Lemma unsigned_incidence_is_absolute_value_witness :
  exists m u,
    SimplicialComplex.incidence_matrix (H := list_order) (H0 := numpy_exact)
      (snd (SimplicialComplex.add_simplex [1; 2; 3] ∅ SimplexSpec.empty_complex))
      1 true = Ok m /\
    SimplicialComplex.incidence_matrix (H := list_order) (H0 := numpy_exact)
      (snd (SimplicialComplex.add_simplex [1; 2; 3] ∅ SimplexSpec.empty_complex))
      1 false = Ok u /\
    nrows u = nrows m.
Proof.
  eexists _. 
  destruct (proj1 (unsigned_incidence_is_absolute_value (H := list_order) (H0 := numpy_exact))
              (snd (SimplicialComplex.add_simplex [1; 2; 3] ∅ SimplexSpec.empty_complex))
              1 _ ltac:(vm_compute; reflexivity)) as (u & E & Hn & _).
  exists u. split; [vm_compute; reflexivity|]. split; [exact E|exact Hn].
Defined.

Lemma shape_counts_simplices_witness :
  sum_Z [3; 3; 1]
  = Z.of_nat (length (SimplicialComplex.all_simplices
       (snd (SimplicialComplex.add_simplex [1; 2; 3] ∅ SimplexSpec.empty_complex)))).
Proof.
  apply (proj1 (shape_counts_simplices (H := list_order)
                  (snd (SimplicialComplex.add_simplex [1; 2; 3] ∅ SimplexSpec.empty_complex)))
           [3; 3; 1]).
  vm_compute. reflexivity.
Defined.

(** ** Outcomes of [add_path] and the allowed paths of a graph *)

Section AddPathOutcome.
Import PyDict PathComplex PathSpec.
Local Open Scope py_scope.

Lemma py_index_last {A : Type} (l : list A) :
  py_index l (-1) = None <-> l = [].
Proof.
  unfold py_index, py_norm_index. simpl.
  destruct l as [|x l]; [simpl; tauto|].
  replace (- Z.of_nat (length (x :: l)) <=? -1) with true
    by (symmetry; apply Z.leb_le; simpl length; lia).
  simpl andb. cbv iota. split; [|discriminate].
  intros E. exfalso.
  destruct (lookup_lt_is_Some_2 (x :: l)
              (Z.to_nat (Z.of_nat (length (x :: l)) + -1))) as [y Hy].
  { simpl length. lia. }
  congruence.
Qed.

(** [add_path(())]: the bucket [faces_dict[-1]] is missing in an empty
    complex; otherwise the empty tuple is not one of its keys. *)
Lemma add_path_empty_exception (attr : Attrs) (c : state) :
  wf c ->
  add_path (ASeq []) attr c
  = (Raise (if bool_decide (faces_dict (_path_set c) = []) then IndexError
            else KeyError), c).
Proof.
  intros Hwf. unfold add_path.
  change (negb (length (@nil Node) =? length (remove_dups (@nil Node)))%nat) with false.
  cbv iota.
  rewrite bind_eq. unfold get_state at 1.
  change (1 <? length (@nil Node))%nat with false. cbv iota.
  rewrite bind_eq. unfold ret at 1.
  rewrite bind_eq, _update_faces_dict_length_eq.
  replace (grow (faces_dict (_path_set c)) (length (@nil Node)))
    with (faces_dict (_path_set c)) by reflexivity.
  rewrite with_faces_dict_id. rewrite bind_eq. unfold get_state at 1.
  change (Z.of_nat (length (@nil Node)) - 1) with (-1).
  pose proof (wf_bottom c Hwf) as Hb.
  destruct (Z.ltb_spec (max_dim (_path_set c)) (-1)) as [Hlt|_]; [lia|].
  rewrite bind_eq. unfold ret at 1.
  rewrite bind_eq. unfold bucket at 1. rewrite bind_eq. unfold get_state at 1.
  destruct (py_index (faces_dict (_path_set c)) (-1)) as [b|] eqn:Hi.
  - assert (Hfd : faces_dict (_path_set c) <> []).
    { intros E. apply py_index_last in E. congruence. }
    rewrite (bool_decide_eq_false_2 _ Hfd).
    simpl or_raise. unfold ret at 1.
    assert (Hm : mem b [] = false).
    { apply mem_false_keys. intros Hin. unfold py_index in Hi.
      destruct (py_norm_index _ _) as [n|]; [|discriminate].
      apply (wf_length c Hwf n b [] Hi) in Hin. discriminate. }
    rewrite Hm. simpl fold_m. rewrite bind_eq. unfold ret at 1.
    rewrite bind_eq. change (0 <? size (∅ : gset Path))%nat with false. unfold ret at 1.
    unfold update_attrs. rewrite bind_eq. unfold bucket. rewrite bind_eq.
    unfold get_state at 1. rewrite Hi. simpl or_raise. unfold ret at 1.
    rewrite bind_eq. unfold mem in Hm. destruct (get b []); [discriminate|].
    reflexivity.
  - apply py_index_last in Hi. rewrite (bool_decide_eq_true_2 _ Hi). reflexivity.
Qed.

Section WithIteration.
Context `{SetIteration}.

(** X16. On a complex produced by the constructor and the mutating
    methods, a call of [add_path] that returns has stored the path at its
    rank, has kept every stored path and every allowed path, and has not
    lowered the dimension; a call that raises, whatever the exception,
    leaves the complex exactly as it was. The empty tuple is never accepted:
    [add_path(())] raises [IndexError] on a complex without bucket and
    [KeyError] otherwise. *)
Theorem add_path_outcome (c : state) (path : PathArg) (attr : Attrs) :
  reachable c ->
  (forall c', add_path path attr c = (Ok tt, c') ->
     stored c' (length (path_of path) - 1)%nat (path_of path) /\
     (forall r q, stored c r q -> stored c' r q) /\
     _allowed_paths c ⊆ _allowed_paths c' /\
     dim c <= dim c') /\
  (forall e c', add_path path attr c = (Raise e, c') -> c' = c) /\
  (path_of path = [] ->
   add_path path attr c
   = (Raise (if bool_decide (faces_dict (_path_set c) = []) then IndexError
             else KeyError), c)).
Proof.
  intros Hreach. apply reachable_wf in Hreach as Hwf.
  split; [|split].
  - intros c' E.
    destruct (add_path_cases path attr c Hwf) as [(Hne & Hv & E')|[e E']];
      rewrite E' in E; [|discriminate].
    injection E as <-.
    split; [now apply stored_add_path_state_self|].
    split; [intros r q; apply stored_add_path_state_mono|].
    split; [apply allowed_add_path_state_mono|].
    unfold dim, add_path_state. simpl. destruct (Z.ltb_spec (max_dim (_path_set c))
      (rank (path_of path))); lia.
  - intros e c' E.
    destruct (add_path_cases path attr c Hwf) as [(Hne & Hv & E')|[e' E']];
      rewrite E' in E; [discriminate|congruence].
  - intros Hp. rewrite add_path_path_of, Hp. now apply add_path_empty_exception.
Qed.

End WithIteration.

(** X17. [compute_allowed_paths] returns the tuple [(n,)] of every node and
    the canonical direction of every edge of the graph. On a graph without
    self-loop every path it returns is non-empty, has no repeated node, is
    in canonical direction (outside reserve-order mode its first node does
    not string-compare greater than its last) and has at most
    [max(max_rank, 1) + 1] nodes. *)
Theorem compute_allowed_paths_paths (g : Graph) (reserve : bool) (max_rank : Z) :
  (forall n d, (n, d) ∈ nodes g ->
     [n] ∈ compute_allowed_paths g reserve max_rank) /\
  (forall u v d, (u, v, d) ∈ edges g ->
     canon reserve [u; v] ∈ compute_allowed_paths g reserve max_rank) /\
  (no_self_loop g ->
   forall q, q ∈ compute_allowed_paths g reserve max_rank ->
     q <> [] /\ NoDup q /\ canonical reserve q = Some q /\
     Z.of_nat (length q) <= Z.max max_rank 1 + 1).
Proof.
  split; [|split].
  - intros n d Hn. unfold compute_allowed_paths.
    rewrite elem_of_list_to_set, !elem_of_app. left.
    apply list_elem_of_fmap. exists n. split; [reflexivity|].
    rewrite sorted_perm. apply list_elem_of_fmap. exists (n, d). auto.
  - intros u v d Hin. unfold compute_allowed_paths.
    rewrite elem_of_list_to_set, !elem_of_app. right. left.
    apply list_elem_of_fmap. exists (u, v, d). split; [|assumption].
    symmetry. apply edge_canon.
  - intros Hg q Hq.
    destruct (compute_allowed_paths_valid g reserve max_rank q Hg Hq)
      as (Hne & Hv & Hl).
    split; [assumption|].
    split.
    { apply has_duplicates_false. unfold passes_validation in Hv.
      apply andb_prop in Hv as [Hv _]. now apply negb_true_iff in Hv. }
    split; [|assumption].
    rewrite (canonical_nonempty reserve q Hne). f_equal.
    now apply passes_validation_canon.
Qed.

End AddPathOutcome.

Lemma add_path_outcome_witness :
  PathComplex.add_path (PathComplex.ASeq []) ∅ (PathComplex.empty_complex false ∅)
  = (Raise IndexError, PathComplex.empty_complex false ∅).
Proof.
  apply (proj2 (proj2 (add_path_outcome (H := list_order)
                         (PathComplex.empty_complex false ∅) (PathComplex.ASeq []) ∅
                         (PathSpec.reachable_empty false ∅)))).
  reflexivity.
Defined.

Lemma compute_allowed_paths_paths_witness :
  [NInt 0; NInt 1; NInt 2]
    ∈ PathComplex.compute_allowed_paths PathSpec.path_graph_3 false 3 /\
  NoDup [NInt 0; NInt 1; NInt 2].
Proof.
  assert (Hin : [NInt 0; NInt 1; NInt 2]
                  ∈ PathComplex.compute_allowed_paths PathSpec.path_graph_3 false 3).
  { apply elem_of_list_to_set. vm_compute. repeat constructor. }
  split; [exact Hin|].
  apply (proj2 (proj2 (compute_allowed_paths_paths PathSpec.path_graph_3 false 3))
           ltac:(intros u v d Hv; vm_compute in Hv;
                 repeat (apply elem_of_cons in Hv as [Hv|Hv];
                         [injection Hv as -> -> _; discriminate|]);
                 now apply elem_of_nil in Hv)
           _ Hin).
Defined.

(** ** The diagonal of the down Laplacian *)

Section DownLaplacianDiagonal.
Import PyDict SimplicialComplex SimplexSpec.
Context `{SetIteration} `{NumPy}.

Lemma sum_Z_pick_nat (f : nat -> Z) (i : nat) (len start : nat) :
  (start <= i < start + len)%nat ->
  sum_Z (map (fun i' => if (i' =? i)%nat then f i' else 0) (seq start len)) = f i.
Proof.
  revert start. induction len as [|len IH]; intros start Hi; [lia|].
  simpl. destruct (Nat.eqb_spec start i) as [->|Hne].
  - rewrite sum_Z_zero; [lia|]. intros i' Hi'.
    apply list_elem_of_In, in_seq in Hi'.
    destruct (Nat.eqb_spec i' i); [lia|reflexivity].
  - rewrite IH by lia. lia.
Qed.

Lemma sum_Z_const {A : Type} (l : list A) (k : Z) :
  sum_Z (map (fun _ => k) l) = k * Z.of_nat (length l).
Proof. induction l as [|x l IH]; simpl length; simpl; [lia|]. rewrite IH. lia. Qed.

Lemma sign_square (i : nat) : sign i * sign i = 1.
Proof. unfold sign. now destruct (Nat.even i). Qed.

(** The entries of column [j] are those appended for the simplex of index
    [j]. *)
Lemma sum_Z_column (d : dict (list Z) Z) (sk : list (list Z)) (jn : nat)
  (t : list Z) (G : Z * Z * Z -> Z) :
  NoDup sk -> sk !! jn = Some t ->
  sum_Z (map (fun e => let '(k, c, y) := e in
                       if c =? Z.of_nat jn then G e else 0)
           (flat_map (fun '(t, idx) => column_entries d t idx) (index_dict sk)))
  = sum_Z (map G (column_entries d t (Z.of_nat jn))).
Proof.
  intros Hnd Hj. rewrite sum_Z_map_flat_map, (index_dict_NoDup sk Hnd).
  rewrite <- (sum_Z_zip_seq
                (fun t => sum_Z (map G (column_entries d t (Z.of_nat jn))))
                sk 0 jn t Hj).
  apply sum_Z_ext. intros [t' idx] _. simpl Nat.add.
  unfold column_entries. rewrite !map_map.
  destruct (Z.eqb_spec idx (Z.of_nat jn)) as [->|Hne].
  - apply sum_Z_ext. intros [s f] _. now rewrite Z.eqb_refl.
  - apply sum_Z_zero. intros [s f] _.
    destruct (Z.eqb_spec idx (Z.of_nat jn)); [contradiction|reflexivity].
Qed.

Lemma down_laplacian_diagonal_signed (sc : state) (rank : Z)
  (idx : list (list Z)) (L : Matrix) :
  ranked_lattice sc = true -> int64_nodes sc = true ->
  down_laplacian_matrix sc rank true = Ok (idx, L) ->
  nrows L = Z.of_nat (length idx) /\ ncols L = Z.of_nat (length idx) /\
  forall j, 0 <= j < Z.of_nat (length idx) -> mat_get L j j = rank + 1.
Proof.
  intros Hrk Hint E0. unfold down_laplacian_matrix in E0.
  destruct ((rank <=? maxdim sc) && (0 <? rank)); [|discriminate].
  destruct (incidence_matrix_index sc rank true) as [[[row col] B0]|] eqn:E;
    [|discriminate].
  destruct (mat_mul (mat_transpose B0) B0) as [L0|] eqn:EL; [|discriminate].
  injection E0 as <- <-.
  destruct (incidence_matrix_index_inv sc rank true _ Hrk Hint E)
    as (Hr & b & b1 & Hb & Hb1 & Esk & Esk1 & Hfaces & Hsk & Hsk1 & Eres).
  cbv zeta in *. injection Eres as -> -> ->.
  set (sk := sorted (tuple_le Z.compare) (map tuple_of (keys b))) in *.
  set (sk1 := sorted (tuple_le Z.compare) (map tuple_of (keys b1))) in *.
  set (d := index_dict sk1) in *.
  set (B := {| nrows := Z.of_nat (length sk1); ncols := Z.of_nat (length sk);
               entries := flat_map (fun '(t, j) => column_entries d t j)
                            (index_dict sk) |}) in *.
  rename L0 into L.
  pose proof (mat_mul_shape _ _ _ EL) as [HL1 HL2]. simpl in HL1, HL2.
  split; [assumption|]. split; [assumption|].
  intros j Hj.
  destruct (lookup_lt_is_Some_2 sk (Z.to_nat j)) as [t Ht]; [lia|].
  replace j with (Z.of_nat (Z.to_nat j)) by lia.
  set (jn := Z.to_nat j) in *.
  rewrite (mat_get_mul_transpose_l B L _ _ EL). simpl entries.
  (* restrict both sums to the column *)
  rewrite (sum_Z_ext _ (fun e => let '(k, c, y) := e in
             if c =? Z.of_nat jn
             then (fun e0 => sum_Z (map (fun e' =>
                     let '(k', c', y') := e' in
                     if c' =? Z.of_nat jn
                     then (fun e1 => if e1.1.1 =? e0.1.1 then e0.2 * e1.2 else 0) e'
                     else 0)
                     (flat_map (fun '(t, j) => column_entries d t j) (index_dict sk)))) e
             else 0)).
  2:{ intros [[k c] y] _. destruct (c =? Z.of_nat jn); simpl.
      - apply sum_Z_ext. intros [[k' c'] y'] _. simpl.
        now destruct (c' =? Z.of_nat jn).
      - apply sum_Z_zero. now intros [[k' c'] y'] _. }
  rewrite (sum_Z_column d sk jn t _ Hsk Ht).
  rewrite (sum_Z_ext _ (fun e0 => sum_Z (map
             (fun e1 => if e1.1.1 =? e0.1.1 then e0.2 * e1.2 else 0)
             (column_entries d t (Z.of_nat jn))))).
  2:{ intros e0 _. apply (sum_Z_column d sk jn t _ Hsk Ht). }
  (* the column of a simplex *)
  destruct (Hfaces t) as (K & -> & Hsz & Hfound).
  { eapply list_elem_of_lookup_2; eauto. }
  unfold column_entries. rewrite sorted_tuple_of, !map_map. unfold faces.
  rewrite !map_map.
  set (T := nodes_of K).
  assert (HlT : length T = S (Z.to_nat rank)).
  { unfold T. now rewrite length_nodes_of. }
  assert (Hrow : forall i, (i < length T)%nat ->
            exists x a, T !! i = Some x /\ x ∈ K /\
              sk1 !! a = Some (tuple_of (K ∖ {[x]})) /\
              row_of d (delete_at i T) = Z.of_nat a).
  { intros i Hi. destruct (lookup_lt_is_Some_2 T i Hi) as [x Hx].
    assert (HxK : x ∈ K).
    { apply elem_of_nodes_of. eapply list_elem_of_lookup_2; eauto. }
    destruct (Hfound x HxK) as [a Ha]. exists x, a.
    split; [assumption|]. split; [assumption|]. split; [assumption|].
    unfold row_of, T. rewrite (list_to_set_delete_at K i x Hx).
    unfold d. now rewrite (get_index_dict sk1 a _ Hsk1 Ha). }
  rewrite (sum_Z_ext _ (fun i => 1)).
  { rewrite sum_Z_const, length_seq, HlT. lia. }
  intros i Hi. apply list_elem_of_In, in_seq in Hi.
  rewrite map_map.
  rewrite (sum_Z_ext _ (fun i' => if (i' =? i)%nat then sign i * sign i' else 0)).
  { rewrite (sum_Z_pick_nat (fun i' => sign i * sign i') i) by lia.
    apply sign_square. }
  intros i' Hi'. apply list_elem_of_In, in_seq in Hi'. simpl.
  destruct (Hrow i) as (x & a & Hx & HxK & Ha & ->); [lia|].
  destruct (Hrow i') as (x' & a' & Hx' & HxK' & Ha' & ->); [lia|].
  destruct (Nat.eqb_spec i' i) as [->|Hne].
  - rewrite Hx in Hx'. injection Hx' as <-.
    assert (a' = a) as -> by (eapply NoDup_lookup; eauto).
    now rewrite Z.eqb_refl.
  - destruct (Z.eqb_spec (Z.of_nat a') (Z.of_nat a)) as [Ea|]; [exfalso|reflexivity].
    apply Nat2Z.inj in Ea. subst a'. rewrite Ha in Ha'. injection Ha' as Et.
    apply tuple_of_inj in Et.
    assert (Hxx : x <> x').
    { intros ->. apply Hne.
      eapply NoDup_lookup; [apply NoDup_nodes_of|exact Hx'|exact Hx]. }
    assert (x' ∈ K ∖ {[x]}) by set_solver. rewrite Et in *. set_solver.
Qed.

(** X18. Whenever the down Laplacian of rank [r] of a simplicial complex is
    returned, [0 < r <= dim] and every diagonal entry is [r + 1], the number
    of faces of a simplex of rank [r]; this holds for the signed and for the
    unsigned matrix. The rank buckets hold distinct simplices of their rank
    and the nodes are in the range of [int64]. *)
Theorem down_laplacian_diagonal (sc : state) (rank : Z) (signed : bool)
  (idx : list (list Z)) (L : Matrix) :
  ranked_lattice sc = true -> int64_nodes sc = true ->
  down_laplacian_matrix sc rank signed = Ok (idx, L) ->
  0 < rank <= dim sc /\
  forall j, 0 <= j < Z.of_nat (length idx) -> mat_get L j j = rank + 1.
Proof.
  intros Hrk Hint E.
  pose proof (proj1 (down_laplacian_matrix_inv sc rank signed idx L Hrk E)) as Hr.
  split; [exact Hr|].
  destruct signed.
  { exact (proj2 (proj2 (down_laplacian_diagonal_signed sc rank idx L Hrk Hint E))). }
  assert (E' : exists L0, down_laplacian_matrix sc rank true = Ok (idx, L0) /\
                          L = mat_abs L0).
  { unfold down_laplacian_matrix in *.
    destruct ((rank <=? maxdim sc) && (0 <? rank)); [|discriminate].
    destruct (incidence_matrix_index sc rank true) as [[[row col] B]|]; [|discriminate].
    destruct (mat_mul (mat_transpose B) B) as [L0|]; [|discriminate].
    injection E as <- <-. eauto. }
  destruct E' as (L0 & E0 & ->).
  destruct (down_laplacian_diagonal_signed sc rank idx L0 Hrk Hint E0)
    as (Hn & Hc & Hd).
  intros j Hj. rewrite mat_get_abs, Hn, Hc, (Hd j Hj).
  destruct (Z.leb_spec 0 j), (Z.ltb_spec j (Z.of_nat (length idx))); simpl; lia.
Qed.

End DownLaplacianDiagonal.

Lemma down_laplacian_diagonal_witness :
  exists idx L,
    SimplicialComplex.down_laplacian_matrix (H := list_order) (H0 := numpy_exact)
      (snd (SimplicialComplex.add_simplex [1; 2; 3] ∅ SimplexSpec.empty_complex))
      2 true = Ok (idx, L) /\
    forall j, 0 <= j < Z.of_nat (length idx) -> mat_get L j j = 2 + 1.
Proof.
  eexists _, _.
  assert (E : SimplicialComplex.down_laplacian_matrix (H := list_order) (H0 := numpy_exact)
                (snd (SimplicialComplex.add_simplex [1; 2; 3] ∅ SimplexSpec.empty_complex))
                2 true = Ok (_, _)) by (vm_compute; reflexivity).
  split; [exact E|].
  exact (proj2 (down_laplacian_diagonal (H := list_order) (H0 := numpy_exact)
                  (snd (SimplicialComplex.add_simplex [1; 2; 3] ∅
                          SimplexSpec.empty_complex)) 2 true _ _ eq_refl eq_refl E)).
Defined.

(** ** The entries of the incidence matrix *)

Section IncidenceEntries.
Import PyDict SimplicialComplex SimplexSpec.
Context `{SetIteration} `{NumPy}.

(** X19. Whenever the signed incidence matrix of rank [r] of a simplicial
    complex is returned, [1 <= r <= dim], its rows are indexed by the
    skeleton of rank [r - 1], its columns by the skeleton of rank [r], and it
    is the boundary operator: for the tuple [k] of column [j] and the tuple
    [f] of row [i], the entry is [(-1) ** pos] when the nodes of [f] are
    those of [k] without its node of position [pos] in increasing order, and
    0 when [f] is not a face of [k]. The rank buckets hold distinct
    simplices of their rank and the nodes are in the range of [int64]. *)
Theorem incidence_matrix_entries (sc : state) (rank : Z)
  (sk1 sk : list (list Z)) (B : Matrix) :
  ranked_lattice sc = true -> int64_nodes sc = true ->
  incidence_matrix_index sc rank true = Ok (sk1, sk, B) ->
  1 <= rank <= dim sc /\
  skeleton sc (rank - 1) = Ok sk1 /\ skeleton sc rank = Ok sk /\
  forall (i j : nat) (f k : list Z),
    sk1 !! i = Some f -> sk !! j = Some k ->
    (forall pos x, sorted Z.leb k !! pos = Some x ->
       (list_to_set f : Simplex) = list_to_set k ∖ {[x]} ->
       mat_get B (Z.of_nat i) (Z.of_nat j) = sign pos) /\
    ((forall x, x ∈ k -> (list_to_set f : Simplex) <> list_to_set k ∖ {[x]}) ->
       mat_get B (Z.of_nat i) (Z.of_nat j) = 0).
Proof.
  intros Hrk Hint E.
  destruct (incidence_matrix_index_inv sc rank true _ Hrk Hint E)
    as (Hr & b & b1 & Hb & Hb1 & Esk & Esk1 & Hfaces & Hsk & Hsk1 & Eres).
  cbv zeta in *. injection Eres as -> -> ->.
  split; [exact Hr|]. split; [exact Esk1|]. split; [exact Esk|].
  set (sk := sorted (tuple_le Z.compare) (map tuple_of (keys b))) in *.
  set (sk1 := sorted (tuple_le Z.compare) (map tuple_of (keys b1))) in *.
  set (d := index_dict sk1) in *.
  intros i j f k Hi Hj.
  assert (Hf : exists F, f = tuple_of F).
  { apply list_elem_of_lookup_2 in Hi. apply elem_of_skeleton in Hi as (F & -> & _).
    eauto. }
  destruct Hf as [F ->].
  destruct (Hfaces k) as (K & -> & Hsz & Hfound).
  { eapply list_elem_of_lookup_2; eauto. }
  rewrite mat_get_columns, (index_dict_NoDup sk Hsk).
  rewrite (sum_Z_zip_seq _ sk 0 j _ Hj). rewrite sorted_tuple_of.
  set (T := nodes_of K).
  assert (Hrow : forall k x, T !! k = Some x ->
            in_row d (Z.of_nat i) (delete_at k T)
            = if bool_decide (F = K ∖ {[x]}) then 1 else 0).
  { intros k x Hx.
    assert (HxK : x ∈ K).
    { apply elem_of_nodes_of. eapply list_elem_of_lookup_2; eauto. }
    destruct (Hfound x HxK) as [a Ha].
    unfold in_row, row_of, T. rewrite (list_to_set_delete_at K k x Hx).
    unfold d. rewrite (get_index_dict sk1 a _ Hsk1 Ha). simpl default.
    destruct (bool_decide_reflect (F = K ∖ {[x]})) as [->|Hne].
    - assert (a = i) as -> by (eapply NoDup_lookup; eauto).
      now rewrite Z.eqb_refl.
    - destruct (Z.eqb_spec (Z.of_nat a) (Z.of_nat i)) as [Ea|]; [exfalso|reflexivity].
      apply Nat2Z.inj in Ea. subst a. rewrite Hi in Ha. injection Ha as Et.
      now apply tuple_of_inj in Et. }
  unfold wsum, faces. rewrite map_map.
  split.
  - intros k x Hx EF.
    rewrite !list_to_set_tuple_of in EF. subst F.
    rewrite (sum_Z_ext _ (fun k' => if (k' =? k)%nat then sign k' else 0)).
    { apply (sum_Z_pick_nat sign k). apply lookup_lt_Some in Hx. lia. }
    intros k' Hk'. apply list_elem_of_In, in_seq in Hk'.
    destruct (lookup_lt_is_Some_2 T k') as [x' Hx']; [lia|].
    rewrite (Hrow k' x' Hx').
    destruct (Nat.eqb_spec k' k) as [->|Hne].
    + rewrite Hx in Hx'. injection Hx' as <-.
      rewrite bool_decide_eq_true_2 by reflexivity. lia.
    + rewrite bool_decide_eq_false_2; [lia|]. intros Eset.
      assert (Hxx : x' <> x).
      { intros ->. apply Hne.
        eapply NoDup_lookup; [apply NoDup_nodes_of|exact Hx'|exact Hx]. }
      assert (x' ∈ K).
      { apply elem_of_nodes_of. eapply list_elem_of_lookup_2; eauto. }
      assert (x' ∈ K ∖ {[x]}) by set_solver. rewrite Eset in *. set_solver.
  - intros Hnot. apply sum_Z_zero. intros k Hk.
    apply list_elem_of_In, in_seq in Hk.
    destruct (lookup_lt_is_Some_2 T k) as [x Hx]; [lia|].
    rewrite (Hrow k x Hx).
    rewrite bool_decide_eq_false_2; [lia|].
    assert (HxK : x ∈ K).
    { apply elem_of_nodes_of. eapply list_elem_of_lookup_2; eauto. }
    intros EF. apply (Hnot x).
    + assert (Hx' : x ∈ (list_to_set (tuple_of K) : Simplex))
        by now rewrite list_to_set_tuple_of.
      apply elem_of_list_to_set in Hx'. exact Hx'.
    + rewrite !list_to_set_tuple_of. exact EF.
Qed.

End IncidenceEntries.

Lemma incidence_matrix_entries_witness :
  exists sk1 sk B,
    SimplicialComplex.incidence_matrix_index (H := list_order) (H0 := numpy_exact)
      (snd (SimplicialComplex.add_simplex [1; 2; 3] ∅ SimplexSpec.empty_complex))
      2 true = Ok (sk1, sk, B) /\
    sk1 !! 0%nat = Some [2; 1] /\ sk !! 0%nat = Some [3; 2; 1] /\
    mat_get B 0 0 = 1.
Proof.
  eexists _, _, _.
  assert (E : SimplicialComplex.incidence_matrix_index (H := list_order)
                (H0 := numpy_exact)
                (snd (SimplicialComplex.add_simplex [1; 2; 3] ∅ SimplexSpec.empty_complex))
                2 true = Ok (_, _, _)) by (vm_compute; reflexivity).
  split; [exact E|]. split; [reflexivity|]. split; [reflexivity|].
  change 1 with (sign 2).
  apply (proj1 (proj2 (proj2 (proj2
           (incidence_matrix_entries (H := list_order) (H0 := numpy_exact)
              (snd (SimplicialComplex.add_simplex [1; 2; 3] ∅ SimplexSpec.empty_complex))
              2 _ _ _ eq_refl eq_refl E)))
           0%nat 0%nat [2; 1] [3; 2; 1] eq_refl eq_refl) 2%nat 3).
  - vm_compute. reflexivity.
  - apply set_eq. intros x. set_solver.
Defined.

(** ** The entries of the incidence matrix of a path complex *)

Section PathIncidenceEntries.
Import PyDict PathComplex PathSpec.

Lemma boundary_entries_sum (c : state) (d : dict Path Z) (p : Path) (idx : Z)
  (G : Z * Z * Z -> Z) (positions : list nat) (es : list (Z * Z * Z)) :
  boundary_entries c d p idx positions = Ok es ->
  sum_Z (map G es)
  = sum_Z (map (fun k =>
      match canonical (_reserve_sequence_order c) (delete_at k p) with
      | Some bp =>
          if bool_decide (bp ∈ _allowed_paths c)
          then match get d bp with
               | Some r => G (r, idx, sign k)
               | None => 0
               end
          else 0
      | None => 0
      end) positions).
Proof.
  revert es. induction positions as [|k rest IH]; intros es; simpl.
  - now intros [= <-].
  - destruct (canonical _ _) as [bp|]; [|discriminate].
    destruct (bool_decide_reflect (bp ∈ _allowed_paths c)) as [Hin|Hin].
    + destruct (get d bp) as [r|]; [|discriminate].
      destruct (boundary_entries c d p idx rest) as [es'|]; [|discriminate].
      intros [= <-]. simpl. now rewrite (IH es').
    + intros Hes. rewrite (IH es Hes). lia.
Qed.

Lemma incidence_entries_sum (c : state) (d : dict Path Z)
  (G : Z * Z * Z -> Z) (items : list (Path * Z)) (es : list (Z * Z * Z)) :
  incidence_entries c d items = Ok es ->
  sum_Z (map G es)
  = sum_Z (map (fun '(p, idx) =>
      sum_Z (map (fun k =>
        match canonical (_reserve_sequence_order c) (delete_at k p) with
        | Some bp =>
            if bool_decide (bp ∈ _allowed_paths c)
            then match get d bp with
                 | Some r => G (r, idx, sign k)
                 | None => 0
                 end
            else 0
        | None => 0
        end) (seq 0 (length p)))) items).
Proof.
  revert es. induction items as [|[p idx] items IH]; intros es; simpl.
  - now intros [= <-].
  - destruct (boundary_entries c d p idx (seq 0 (length p))) as [es1|] eqn:E1;
      [|discriminate].
    destruct (incidence_entries c d items) as [es2|]; [|discriminate].
    intros [= <-]. rewrite map_app, sum_Z_app, (IH es2 eq_refl).
    now rewrite (boundary_entries_sum c d p idx G _ es1 E1).
Qed.

Lemma elem_of_canon (reserve : bool) (q : Path) (x : Node) :
  x ∈ canon reserve q <-> x ∈ q.
Proof.
  unfold canon, canonical. destruct reserve; [reflexivity|].
  destruct (str_first_gt_last q) as [[]|]; simpl; [|reflexivity..].
  rewrite !list_elem_of_In. symmetry. apply in_rev.
Qed.

Lemma not_elem_of_delete_at {A : Type} (i : nat) (s : list A) (x : A) :
  NoDup s -> s !! i = Some x -> x ∉ delete_at i s.
Proof.
  revert i. induction s as [|z s IH]; intros [|i] Hnd Hi; try discriminate.
  - injection Hi as ->. rewrite delete_at_0. now apply NoDup_cons in Hnd as [Hx _].
  - simpl in Hi. apply NoDup_cons in Hnd as [Hz Hnd].
    rewrite delete_at_S, elem_of_cons. intros [->|Hx].
    + apply Hz. eapply list_elem_of_lookup_2; eauto.
    + now apply (IH i Hnd Hi).
Qed.

Lemma elem_of_delete_at_other {A : Type} (i j : nat) (s : list A) (x : A) :
  i <> j -> s !! j = Some x -> x ∈ delete_at i s.
Proof.
  revert i j. induction s as [|z s IH]; intros [|i] [|j] Hne Hj; try discriminate;
    try lia.
  - rewrite delete_at_0. simpl in Hj. eapply list_elem_of_lookup_2; eauto.
  - injection Hj as ->. rewrite delete_at_S. apply list_elem_of_here.
  - simpl in Hj. rewrite delete_at_S. apply list_elem_of_further.
    apply (IH i j); [lia|assumption].
Qed.

Lemma canon_delete_at_inj (reserve : bool) (p : Path) (k k' : nat) :
  NoDup p -> (k < length p)%nat -> (k' < length p)%nat ->
  canon reserve (delete_at k p) = canon reserve (delete_at k' p) -> k = k'.
Proof.
  intros Hnd Hk Hk' E.
  destruct (lookup_lt_is_Some_2 p k Hk) as [x Hx].
  destruct (decide (k = k')) as [|Hne]; [assumption|exfalso].
  apply (not_elem_of_delete_at k p x Hnd Hx).
  apply (elem_of_canon reserve). rewrite E. apply elem_of_canon.
  apply (elem_of_delete_at_other k' k); [congruence|assumption].
Qed.

Context `{SetIteration}.

(** X20. In a path complex that was built without an explicit set of
    allowed paths, the signed incidence matrix of rank [r],
    [1 <= r <= dim], has at the row of the path [f] of [skeleton(r - 1)] and
    the column of the path [p] of [skeleton(r)] the entry [(-1) ** k] when
    [f] is [p] without its [k]-th node, in canonical direction, and 0 when
    deleting a node of [p] never gives [f]. *)
Theorem path_incidence_matrix_entries (c : state) (rank : Z) :
  built c -> 1 <= rank <= dim c ->
  exists sk1 sk B,
    skeleton c (rank - 1) = Ok sk1 /\ skeleton c rank = Ok sk /\
    incidence_matrix c rank true = Ok B /\
    forall (i j : nat) (f p : Path),
      sk1 !! i = Some f -> sk !! j = Some p ->
      (forall k, (k < length p)%nat ->
         f = canon (_reserve_sequence_order c) (delete_at k p) ->
         mat_get B (Z.of_nat i) (Z.of_nat j) = sign k) /\
      ((forall k, (k < length p)%nat ->
          f <> canon (_reserve_sequence_order c) (delete_at k p)) ->
       mat_get B (Z.of_nat i) (Z.of_nat j) = 0).
Proof.
  intros Hb Hr. destruct (built_wf_allowed c Hb) as [Hwf Hal].
  pose proof (wf_max_dim c Hwf) as Hmd.
  assert (Hr' : 1 <= rank <= max_dim (_path_set c)) by exact Hr.
  destruct (path_skeleton_in_range c rank) as (b & Hbk & Esk); [lia|].
  destruct (path_skeleton_in_range c (rank - 1)) as (b1 & Hbk1 & Esk1); [lia|].
  set (sk := sorted key_le (keys b)) in *.
  set (sk1 := sorted key_le (keys b1)) in *.
  assert (Hsk : NoDup sk).
  { unfold sk. rewrite sorted_perm. eapply wf_nodup; eauto. }
  assert (Hsk1 : NoDup sk1).
  { unfold sk1. rewrite sorted_perm. eapply wf_nodup; eauto. }
  destruct (path_incidence_matrix_index_total c rank true Hwf Hal Hr)
    as (sk1' & sk' & B & Esk1' & Esk' & E & _ & _).
  rewrite Esk1 in Esk1'. injection Esk1' as <-.
  rewrite Esk in Esk'. injection Esk' as <-.
  exists sk1, sk, B. split; [exact Esk1|]. split; [exact Esk|].
  split.
  { unfold incidence_matrix.
    destruct (Z.ltb_spec rank 0); [lia|]. destruct (Z.ltb_spec (dim c) rank); [lia|].
    destruct (Z.eqb_spec rank 0); [lia|]. now rewrite E. }
  unfold incidence_matrix_index in E. rewrite Esk1, Esk in E.
  destruct (incidence_entries c (index_dict sk1) (index_dict sk)) as [es|] eqn:Ees;
    [|discriminate].
  injection E as <-.
  intros i j f p Hi Hj.
  assert (Hp : p ∈ keys b).
  { rewrite <- (sorted_perm key_le (keys b)). eapply list_elem_of_lookup_2; eauto. }
  assert (Hf : f ∈ keys b1).
  { rewrite <- (sorted_perm key_le (keys b1)). eapply list_elem_of_lookup_2; eauto. }
  pose proof (wf_length c Hwf _ b p Hbk Hp) as Hlp.
  assert (Hndp : NoDup p).
  { pose proof (wf_valid c Hwf _ b p Hbk Hp) as Hv.
    unfold passes_validation in Hv. apply andb_prop in Hv as [Hv _].
    apply negb_true_iff in Hv. now apply has_duplicates_false. }
  assert (Hfa : f ∈ _allowed_paths c) by (eapply wf_allowed; eauto).
  assert (Hterm : forall k, (k < length p)%nat ->
    match canonical (_reserve_sequence_order c) (delete_at k p) with
    | Some bp =>
        if bool_decide (bp ∈ _allowed_paths c)
        then match get (index_dict sk1) bp with
             | Some r => if r =? Z.of_nat i then sign k else 0
             | None => 0
             end
        else 0
    | None => 0
    end
    = if bool_decide (canon (_reserve_sequence_order c) (delete_at k p) = f)
      then sign k else 0).
  { intros k Hk.
    assert (Hld : length (delete_at k p) = Z.to_nat rank).
    { rewrite length_delete_at by assumption. lia. }
    assert (Hne : delete_at k p <> []).
    { intros E. rewrite E in Hld. simpl in Hld. lia. }
    rewrite (canonical_nonempty _ _ Hne).
    set (bp := canon (_reserve_sequence_order c) (delete_at k p)).
    destruct (bool_decide_reflect (bp ∈ _allowed_paths c)) as [Hin|Hin].
    - apply Hal in Hin as (b' & Hb' & Hk').
      unfold bp in Hb'. rewrite length_canon, Hld in Hb'.
      replace (Z.to_nat rank - 1)%nat with (Z.to_nat (rank - 1)) in Hb' by lia.
      rewrite Hbk1 in Hb'. injection Hb' as <-.
      assert (Hk1 : bp ∈ sk1) by (unfold sk1; now rewrite sorted_perm).
      apply list_elem_of_lookup in Hk1 as [a Ha].
      rewrite (get_index_dict sk1 a _ Hsk1 Ha).
      destruct (Z.eqb_spec (Z.of_nat a) (Z.of_nat i)) as [Eai|Eai].
      + assert (a = i) as -> by lia.
        rewrite Hi in Ha. injection Ha as ->.
        now rewrite bool_decide_eq_true_2.
      + rewrite bool_decide_eq_false_2; [reflexivity|].
        intros Ebp. apply Eai. f_equal.
        apply (NoDup_lookup sk1 a i f Hsk1); [now rewrite <- Ebp|assumption].
    - rewrite bool_decide_eq_false_2; [reflexivity|]. now intros ->. }
  (* the entry as a sum over the positions of [p] *)
  set (F := fun p' : Path =>
        sum_Z (map (fun k =>
          match canonical (_reserve_sequence_order c) (delete_at k p') with
          | Some bp =>
              if bool_decide (bp ∈ _allowed_paths c)
              then match get (index_dict sk1) bp with
                   | Some r => if r =? Z.of_nat i then sign k else 0
                   | None => 0
                   end
              else 0
          | None => 0
          end) (seq 0 (length p')))).
  assert (Hsum : mat_get
            {| nrows := Z.of_nat (length (index_dict sk1));
               ncols := Z.of_nat (length (index_dict sk)); entries := es |}
            (Z.of_nat i) (Z.of_nat j)
          = sum_Z (map (fun k =>
              if bool_decide (canon (_reserve_sequence_order c) (delete_at k p) = f)
              then sign k else 0) (seq 0 (length p)))).
  { unfold mat_get. simpl entries.
    rewrite (incidence_entries_sum c _ _ _ es Ees).
    rewrite (index_dict_NoDup sk Hsk).
    transitivity (sum_Z (map (fun '(x, j0) =>
                    if j0 =? Z.of_nat (0 + j) then F x else 0)
                  (zip sk (map Z.of_nat (seq 0 (length sk)))))).
    - apply sum_Z_ext. intros [p' idx] _. simpl. unfold F.
      destruct (Z.eqb_spec idx (Z.of_nat j)) as [->|Hne].
      + apply sum_Z_ext. intros k _.
        destruct (canonical _ _); [|reflexivity].
        destruct (bool_decide _); [|reflexivity].
        destruct (get _ _); [|reflexivity]. now rewrite andb_true_r.
      + apply sum_Z_zero. intros k _.
        destruct (canonical _ _); [|reflexivity].
        destruct (bool_decide _); [|reflexivity].
        destruct (get _ _); [|reflexivity]. now rewrite andb_false_r.
    - rewrite (sum_Z_zip_seq F sk 0 j p Hj). unfold F.
      apply sum_Z_ext. intros k Hk. apply Hterm.
      apply list_elem_of_In, in_seq in Hk. lia. }
  split.
  - intros k Hk ->. rewrite Hsum.
    rewrite <- (sum_Z_pick_nat sign k (length p) 0) by lia.
    apply sum_Z_ext. intros k' Hk'.
    apply list_elem_of_In, in_seq in Hk'.
    destruct (Nat.eqb_spec k' k) as [->|Hne].
    + now rewrite bool_decide_eq_true_2.
    + rewrite bool_decide_eq_false_2; [reflexivity|].
      intros E. apply Hne.
      apply (canon_delete_at_inj (_reserve_sequence_order c) p); [assumption|lia..|exact E].
  - intros Hno. rewrite Hsum. apply sum_Z_zero. intros k Hk.
    apply list_elem_of_In, in_seq in Hk.
    rewrite bool_decide_eq_false_2; [reflexivity|].
    intros E. apply (Hno k); [lia|now symmetry].
Qed.

End PathIncidenceEntries.

Lemma path_incidence_matrix_entries_witness :
  exists B,
    PathComplex.incidence_matrix
      (snd (PathComplex.init (H := list_order)
              (PathComplex.FromList [[NInt 0; NInt 1; NInt 2]]) false None 3)) 1 true
    = Ok B /\
    mat_get B 0 0 = -1.
Proof.
  destruct (path_incidence_matrix_entries (H := list_order)
              (snd (PathComplex.init (H := list_order)
                      (PathComplex.FromList [[NInt 0; NInt 1; NInt 2]]) false None 3))
              1) as (sk1 & sk & B & E1 & E2 & E & Hent).
  - apply PathSpec.built_init; [left; reflexivity|vm_compute; reflexivity].
  - vm_compute. split; discriminate.
  - exists B. split; [exact E|].
    change (-1) with (sign 1).
    apply (proj1 (Hent 0%nat 0%nat [NInt 0] [NInt 0; NInt 1]
                    ltac:(vm_compute in E1; injection E1 as <-; reflexivity)
                    ltac:(vm_compute in E2; injection E2 as <-; reflexivity))
             1%nat).
    + simpl. lia.
    + vm_compute. reflexivity.
Defined.

(** ** What a path complex stores *)

Section StoredPaths.
Import PyDict PathComplex PathSpec.

Lemma NoDup_concat_disjoint {A : Type} (l : list (list A)) :
  (forall i x, l !! i = Some x -> NoDup x) ->
  (forall i j x y a, i <> j -> l !! i = Some x -> l !! j = Some y ->
     a ∈ x -> a ∉ y) ->
  NoDup (concat l).
Proof.
  induction l as [|x l IH]; intros Hnd Hdis; simpl; [constructor|].
  apply NoDup_app. split; [apply (Hnd 0%nat), eq_refl|]. split.
  - intros a Ha Hin. apply list_elem_of_In, in_concat in Hin as (y & Hy & Hay).
    apply list_elem_of_In in Hay.
    apply (proj2 (list_elem_of_In _ _)), list_elem_of_lookup in Hy as [j Hj].
    apply (Hdis 0%nat (S j) x y a); [lia|reflexivity|exact Hj|exact Ha|exact Hay].
  - apply IH.
    + intros i y Hi. apply (Hnd (S i)). exact Hi.
    + intros i j y z a Hne Hi Hj. apply (Hdis (S i) (S j)); [lia|exact Hi|exact Hj].
Qed.

Lemma skeleton_returns_range (c : state) (r : Z) (sk : list Path) :
  skeleton c r = Ok sk ->
  0 <= r < Z.of_nat (length (faces_dict (_path_set c))).
Proof.
  unfold skeleton.
  destruct (Z.ltb_spec r (Z.of_nat (length (faces_dict (_path_set c)))));
    destruct (Z.leb_spec 0 r); simpl; try lia;
    destruct (r <? 0); discriminate.
Qed.

Context `{SetIteration}.

(** X21. On a complex produced by the constructor and the mutating methods,
    [iter(self)] yields no path twice, and every path it yields is
    non-empty, has no repeated node, is in canonical direction and has rank
    at most [dim]. When [skeleton(r)] returns, it lists without repetition
    exactly the paths of [iter(self)] that have [r + 1] nodes. *)
Theorem stored_paths_invariant (c : state) :
  reachable c ->
  NoDup (all_paths c) /\
  (forall p, p ∈ all_paths c ->
     p <> [] /\ NoDup p /\
     canonical (_reserve_sequence_order c) p = Some p /\
     Z.of_nat (length p) - 1 <= dim c) /\
  (forall r sk, skeleton c r = Ok sk ->
     NoDup sk /\
     forall p, p ∈ sk <-> p ∈ all_paths c /\ Z.of_nat (length p) = r + 1).
Proof.
  intros Hc. pose proof (reachable_wf c Hc) as Hwf. split; [|split].
  - unfold all_paths. apply NoDup_concat_disjoint.
    + intros i x Hi. apply list_lookup_fmap_Some in Hi as (b & -> & Hb).
      eapply wf_nodup; eauto.
    + intros i j x y a Hne Hi Hj Hx Hy.
      apply list_lookup_fmap_Some in Hi as (b & -> & Hb).
      apply list_lookup_fmap_Some in Hj as (b' & -> & Hb').
      pose proof (wf_length c Hwf i b a Hb Hx).
      pose proof (wf_length c Hwf j b' a Hb' Hy). lia.
  - intros p (r & b & Hb & Hin)%elem_of_all_paths.
    pose proof (wf_length c Hwf r b p Hb Hin) as Hl.
    pose proof (wf_valid c Hwf r b p Hb Hin) as Hv.
    pose proof (wf_top c Hwf r b p Hb Hin) as Ht.
    assert (Hne : p <> []) by (intros ->; discriminate).
    split; [assumption|]. split; [|split].
    + unfold passes_validation in Hv. apply andb_prop in Hv as [Hv _].
      apply negb_true_iff in Hv. now apply has_duplicates_false.
    + rewrite (canonical_nonempty _ _ Hne). f_equal.
      now apply passes_validation_canon.
    + unfold dim. lia.
  - intros r sk Esk. pose proof (skeleton_returns_range c r sk Esk) as Hr.
    destruct (path_skeleton_in_range c r Hr) as (b & Hb & Esk').
    rewrite Esk in Esk'. injection Esk' as ->. split.
    + rewrite sorted_perm. eapply wf_nodup; eauto.
    + intros p. rewrite sorted_perm, elem_of_all_paths. split.
      * intros Hin. split; [exists (Z.to_nat r), b; auto|].
        rewrite (wf_length c Hwf _ b p Hb Hin). lia.
      * intros [(r' & b' & Hb' & Hin) Hl].
        pose proof (wf_length c Hwf r' b' p Hb' Hin) as Hl'.
        assert (r' = Z.to_nat r) as -> by lia.
        rewrite Hb in Hb'. now injection Hb' as ->.
Qed.

End StoredPaths.

Lemma stored_paths_invariant_witness :
  NoDup (PathComplex.all_paths
           (snd (PathComplex.add_path (PathComplex.ASeq [NInt 0; NInt 1; NInt 2]) ∅
                   (PathComplex.empty_complex false ∅)))).
Proof.
  apply (proj1 (stored_paths_invariant (H := list_order) _
                  (PathSpec.reachable_add_path _ _ _
                     (PathSpec.reachable_empty false ∅)))).
Defined.

(** ** The dimension of a complex from which nothing was removed *)

Section Dimension.
Import PyDict PathComplex PathSpec.
Local Open Scope py_scope.

Lemma top_stored_add_path_state (p : Path) (attr : Attrs) (c : state) :
  wf c -> p <> [] -> passes_validation (_reserve_sequence_order c) p = true ->
  (dim c = -1 \/ exists q, stored c (Z.to_nat (dim c)) q) ->
  exists q, stored (add_path_state p attr c)
              (Z.to_nat (dim (add_path_state p attr c))) q.
Proof.
  intros Hwf Hne Hv Htop.
  assert (Hl : (0 < length p)%nat) by (destruct p; [contradiction|simpl; lia]).
  pose proof (wf_bottom c Hwf) as Hbot.
  assert (Hd : dim (add_path_state p attr c)
               = if max_dim (_path_set c) <? rank p then rank p
                 else max_dim (_path_set c)) by reflexivity.
  rewrite Hd. unfold rank.
  destruct (Z.ltb_spec (max_dim (_path_set c)) (Z.of_nat (length p) - 1)) as [Hlt|Hge].
  - exists p. replace (Z.to_nat (Z.of_nat (length p) - 1)) with (length p - 1)%nat by lia.
    now apply stored_add_path_state_self.
  - destruct Htop as [Hd'|[q Hq]]; [unfold dim in Hd'; lia|].
    exists q. now apply stored_add_path_state_mono.
Qed.

Lemma for_each_add_path_top {X : Type} (l : list X) (arg : X -> PathArg)
  (att : X -> Attrs) (c : state) :
  wf c -> (dim c = -1 \/ exists q, stored c (Z.to_nat (dim c)) q) ->
  wf (snd (for_each l (fun x => add_path (arg x) (att x)) c)) /\
  (dim (snd (for_each l (fun x => add_path (arg x) (att x)) c)) = -1 \/
   exists q, stored (snd (for_each l (fun x => add_path (arg x) (att x)) c))
               (Z.to_nat (dim (snd (for_each l (fun x => add_path (arg x) (att x)) c)))) q).
Proof.
  revert c. induction l as [|x l IH]; intros c Hwf Htop; [simpl; auto|].
  simpl. rewrite bind_eq.
  destruct (add_path_cases (arg x) (att x) c Hwf) as [(Hne & Hv & ->)|[e ->]].
  - apply IH; [now apply wf_add_path_state|].
    right. now apply top_stored_add_path_state.
  - simpl. auto.
Qed.

Lemma for_each_add_path_kw_top {X : Type} (l : list X) (arg : X -> PathArg)
  (att : X -> Attrs) (c : state) :
  wf c -> (dim c = -1 \/ exists q, stored c (Z.to_nat (dim c)) q) ->
  wf (snd (for_each l (fun x => add_path_kw (arg x) (att x)) c)) /\
  (dim (snd (for_each l (fun x => add_path_kw (arg x) (att x)) c)) = -1 \/
   exists q, stored (snd (for_each l (fun x => add_path_kw (arg x) (att x)) c))
               (Z.to_nat (dim (snd (for_each l (fun x => add_path_kw (arg x) (att x)) c)))) q).
Proof.
  revert c. induction l as [|x l IH]; intros c Hwf Htop; [simpl; auto|].
  simpl. rewrite bind_eq.
  destruct (add_path_kw_cases (arg x) (att x) c Hwf) as [(Hne & Hv & ->)|[e ->]].
  - apply IH; [now apply wf_add_path_state|].
    right. now apply top_stored_add_path_state.
  - simpl. auto.
Qed.

Context `{SetIteration}.

Lemma init_top (paths : PathsArg) (reserve : bool) (allowed : option (list Path))
  (max_rank : Z) (r : Result unit) (c : state) :
  init paths reserve allowed max_rank = (r, c) ->
  wf c /\ (dim c = -1 \/ exists q, stored c (Z.to_nat (dim c)) q).
Proof.
  unfold init. set (c0 := empty_complex reserve _).
  assert (Hwf0 : wf c0) by apply wf_empty_complex.
  destruct paths as [g|l|].
  - rewrite bind_eq. unfold modify at 1.
    set (c1 := with_allowed_paths _ _).
    assert (Hwf1 : wf c1) by apply wf_empty_complex.
    rewrite bind_eq, init_nodes_body.
    destruct (for_each_add_path_kw_top (nodes g) (fun x => ANode x.1) (fun x => x.2)
                c1 Hwf1 (or_introl eq_refl)) as [Hwf2 Ht2].
    destruct (for_each (nodes g) _ c1) as [[[]|e] c2];
      [|intros [= <- <-]; split; assumption].
    simpl in Hwf2, Ht2.
    rewrite bind_eq, init_edges_body.
    destruct (for_each_add_path_kw_top (edges g)
                (fun x => ASeq (if str_gt (str x.1.1) (str x.1.2) && negb reserve
                                then [x.1.2; x.1.1] else [x.1.1; x.1.2]))
                (fun x => x.2) c2 Hwf2 Ht2) as [Hwf3 Ht3].
    destruct (for_each (edges g) _ c2) as [[[]|e] c3];
      [|intros [= <- <-]; split; assumption].
    simpl in Hwf3, Ht3.
    rewrite bind_eq. unfold get_state at 1. unfold add_paths_from.
    intros E.
    pose proof (for_each_add_path_top (set_order (elements (_allowed_paths c3)))
                  (fun p => ASeq p) (fun _ => ∅) c3 Hwf3 Ht3) as Hlast.
    cbv beta in Hlast. rewrite E in Hlast. exact Hlast.
  - destruct (0 <? length l)%nat.
    + unfold add_paths_from. intros E.
      pose proof (for_each_add_path_top (set_order (remove_dups l))
                    (fun p => ASeq p) (fun _ => ∅) c0 Hwf0 (or_introl eq_refl)) as Hlast.
      cbv beta in Hlast. rewrite E in Hlast. exact Hlast.
    + intros [= <- <-]. split; [assumption|now left].
  - intros [= <- <-]. split; [assumption|now left].
Qed.

Lemma grown_wf_top (c : state) :
  grown c ->
  wf c /\ (dim c = -1 \/ exists q, stored c (Z.to_nat (dim c)) q).
Proof.
  induction 1 as [paths reserve allowed max_rank
                 |c path attr _ [Hwf IH]|c node attr _ [Hwf IH]].
  - eapply init_top. apply surjective_pairing.
  - destruct (add_path_cases path attr c Hwf) as [(Hne & Hv & ->)|[e ->]]; [|auto].
    simpl snd. split; [now apply wf_add_path_state|].
    right. now apply top_stored_add_path_state.
  - unfold add_node.
    destruct (add_path_kw_cases (ASeq [node]) attr c Hwf) as [(Hne & Hv & ->)|[e ->]]; [|auto].
    simpl snd. split; [now apply wf_add_path_state|].
    right. now apply top_stored_add_path_state.
Qed.

(** X22. In a complex that the constructor left and that [add_path] and
    [add_node] extended, [dim] is the highest rank of a stored path: no path
    of [iter(self)] has more than [dim + 1] nodes, and either the complex
    stores no path and [dim] is -1, or some stored path has exactly
    [dim + 1] nodes. *)
Theorem dim_is_highest_rank (c : state) :
  grown c ->
  (forall p, p ∈ all_paths c -> Z.of_nat (length p) - 1 <= dim c) /\
  ((all_paths c = [] /\ dim c = -1) \/
   (exists p, p ∈ all_paths c /\ Z.of_nat (length p) - 1 = dim c)).
Proof.
  intros Hg. destruct (grown_wf_top c Hg) as [Hwf Htop].
  assert (Hle : forall p, p ∈ all_paths c -> Z.of_nat (length p) - 1 <= dim c).
  { intros p (r & b & Hb & Hin)%elem_of_all_paths.
    pose proof (wf_length c Hwf r b p Hb Hin).
    pose proof (wf_top c Hwf r b p Hb Hin). unfold dim. lia. }
  split; [exact Hle|].
  destruct Htop as [Hd|[q Hq]].
  - left. split; [|assumption].
    destruct (all_paths c) as [|p ps] eqn:E; [reflexivity|exfalso].
    assert (Hp : p ∈ all_paths c) by (rewrite E; apply list_elem_of_here).
    apply elem_of_all_paths in Hp as (r & b & Hb & Hin).
    pose proof (wf_top c Hwf r b p Hb Hin). unfold dim in Hd. lia.
  - right. exists q. split; [apply elem_of_all_paths; eauto|].
    destruct Hq as (b & Hb & Hin).
    pose proof (wf_length c Hwf _ b q Hb Hin) as Hl.
    pose proof (wf_bottom c Hwf) as Hbot.
    assert (Hlt : (Z.to_nat (dim c) < length (faces_dict (_path_set c)))%nat).
    { eapply lookup_lt_Some; eauto. }
    pose proof (wf_top c Hwf _ b q Hb Hin) as Ht. unfold dim in *.
    destruct (Z.eq_dec (max_dim (_path_set c)) (-1)) as [E|E]; [|lia].
    exfalso. rewrite E in Ht. simpl in Ht. lia.
Qed.

End Dimension.

Lemma dim_is_highest_rank_witness :
  exists p,
    p ∈ PathComplex.all_paths
          (snd (PathComplex.init (H := list_order)
                  (PathComplex.FromList [[NInt 0; NInt 1; NInt 2]]) false None 3)) /\
    Z.of_nat (length p) - 1
    = PathComplex.dim
        (snd (PathComplex.init (H := list_order)
                (PathComplex.FromList [[NInt 0; NInt 1; NInt 2]]) false None 3)).
Proof.
  destruct (proj2 (dim_is_highest_rank (H := list_order) _
                     (PathSpec.grown_init (H := list_order)
                        (PathComplex.FromList [[NInt 0; NInt 1; NInt 2]]) false None 3)))
    as [[E _]|Hp].
  - vm_compute in E. discriminate.
  - exact Hp.
Defined.

(** ** Closure of the face lattice of the complexes that the methods build *)

Section PathLattice.
Import PyDict PathComplex PathSpec.
Local Open Scope py_scope.

Lemma str_gt_total (a b : string) :
  a <> b -> str_gt a b = true \/ str_gt b a = true.
Proof.
  intros Hne. unfold str_gt. rewrite (String.compare_antisym b a).
  destruct (String.compare a b) eqn:E; simpl; auto.
  apply String.compare_eq_iff in E. contradiction.
Qed.

Lemma sub_paths_trans (q' q p : Path) :
  q' ∈ sub_paths q -> q ∈ sub_paths p -> q' ∈ sub_paths p.
Proof.
  intros (i' & len' & H1' & H2' & ->)%elem_of_sub_paths
         (i & len & H1 & H2 & ->)%elem_of_sub_paths.
  rewrite length_take, length_drop in H2'.
  apply elem_of_sub_paths. exists (i + i')%nat, len'.
  split; [assumption|]. split; [lia|].
  rewrite (take_drop_commute p len i), drop_drop.
  rewrite (take_drop_commute _ len' (i + i')), take_take.
  replace ((i + i' + len') `min` (i + len))%nat with (i + i' + len')%nat by lia.
  now rewrite <- take_drop_commute.
Qed.

Lemma sub_paths_rev (q' q : Path) :
  q' ∈ sub_paths (rev q) -> rev q' ∈ sub_paths q.
Proof.
  intros (i & len & H1 & H2 & ->)%elem_of_sub_paths.
  rewrite length_rev in H2.
  apply elem_of_sub_paths. exists (length q - i - len)%nat, len.
  split; [assumption|]. split; [lia|].
  rewrite !rev_reverse, drop_reverse, take_reverse, reverse_involutive.
  rewrite length_take_le by lia.
  rewrite skipn_firstn_comm. f_equal. lia.
Qed.

Lemma NoDup_str_sub_path (q p : Path) :
  q ∈ sub_paths p -> NoDup (map str p) -> NoDup (map str q).
Proof.
  intros (i & len & _ & _ & ->)%elem_of_sub_paths Hnd.
  assert (Hs : map str (take len (drop i p)) `sublist_of` map str p).
  { change (map str) with (fmap (M := list) str).
    rewrite fmap_take, fmap_drop.
    etransitivity; [apply sublist_take|apply sublist_drop]. }
  eauto using sublist_NoDup.
Qed.

Lemma str_head_last_distinct (a b : Node) (q : Path) :
  (1 < length q)%nat -> NoDup (map str q) ->
  head q = Some a -> last q = Some b -> str a <> str b.
Proof.
  intros Hl Hnd Ha Hb.
  destruct q as [|x q]; [discriminate|]. injection Ha as ->.
  destruct (exists_last (l := q)) as (q' & y & ->).
  { intros ->. simpl in Hl. lia. }
  rewrite last_cons, last_snoc in Hb. injection Hb as ->.
  simpl in Hnd. apply NoDup_cons in Hnd as [Hnotin _].
  intros E. apply Hnotin. rewrite map_app, E. apply elem_of_app. right.
  apply list_elem_of_here.
Qed.

(** With pairwise distinct node strings the canonical direction of a
    sub-path does not depend on the direction in which it is read. *)
Lemma canon_rev (q : Path) :
  NoDup (map str q) -> canon false (rev q) = canon false q.
Proof.
  intros Hnd. unfold canon, canonical, str_first_gt_last.
  rewrite (rev_reverse q), head_reverse, last_reverse, <- (rev_reverse q).
  destruct (head q) as [a|] eqn:Ha.
  2:{ destruct q; [reflexivity|discriminate]. }
  destruct (last q) as [b|] eqn:Hb.
  2:{ apply last_None in Hb. subst q. discriminate. }
  destruct (decide (1 < length q)%nat) as [Hl|Hl].
  - pose proof (str_head_last_distinct a b q Hl Hnd Ha Hb) as Hne.
    destruct (str_gt (str a) (str b)) eqn:Hab.
    + now rewrite (str_gt_asym _ _ Hab).
    + destruct (str_gt_total _ _ Hne) as [E|E]; [congruence|].
      rewrite E. simpl. apply rev_involutive.
  - destruct q as [|x [|y q]]; simpl in *; try lia; try discriminate.
    injection Ha as <-. injection Hb as <-. now rewrite str_gt_irrefl.
Qed.


Lemma canon_cases (reserve : bool) (q : Path) :
  canon reserve q = q \/ (reserve = false /\ canon reserve q = rev q).
Proof.
  unfold canon, canonical. destruct reserve; [now left|].
  destruct (str_first_gt_last q) as [[]|]; simpl; auto.
Qed.

Lemma stored_add_path_state_inv (p : Path) (attr : Attrs) (c : state)
  (r : nat) (k : Path) :
  stored (add_path_state p attr c) r k ->
  stored c r k \/
  (~ stored c (length p - 1)%nat p /\
   k ∈ sub_faces (_reserve_sequence_order c) p).
Proof.
  intros (b' & Hb' & Hk). unfold add_path_state in Hb'. simpl in Hb'.
  apply merge_attrs_lookup in Hb' as (b2 & Hb2 & Hk2 & _). rewrite Hk2 in Hk.
  set (fd1 := grow (faces_dict (_path_set c)) (length p)) in *.
  destruct (mem (default [] (fd1 !! (length p - 1)%nat)) p) eqn:Hm.
  - simpl in Hb2. left. apply grow_lookup in Hb2 as [Hb2| ->].
    + exists b2. auto.
    + now apply elem_of_nil in Hk.
  - destruct (extends_fold (sub_faces (_reserve_sequence_order c) p) fd1 ∅
                (Forall_sub_faces_nonempty _ _)) as ([Hlen Hext] & _ & Ho).
    assert (Hr : (r < length fd1)%nat).
    { rewrite <- Hlen. eapply lookup_lt_Some; eauto. }
    destruct (lookup_lt_is_Some_2 fd1 r Hr) as [b1 Hb1].
    destruct (Hext r b1 Hb1) as (b2' & Hb2' & _ & _ & Hor).
    rewrite Hb2 in Hb2'. injection Hb2' as <-.
    destruct (Hor k Hk) as [Hin|(_ & Hin & _)].
    + left. apply grow_lookup in Hb1 as [Hb1| ->].
      * exists b1. auto.
      * now apply elem_of_nil in Hin.
    + right. split.
      * intros (b & Hb & Hpin). apply mem_false_keys in Hm. apply Hm.
        unfold fd1. now rewrite (grow_lookup_mono _ (length p) _ b Hb).
      * destruct (Ho k Hin) as [?|?]; [set_solver|assumption].
Qed.

Lemma sub_closed_add_path_state (p : Path) (attr : Attrs) (c : state) :
  p <> [] -> passes_validation (_reserve_sequence_order c) p = true ->
  sub_closed c -> sub_closed (add_path_state p attr c).
Proof.
  intros Hne Hv Hcl r k Hst Hcond q Hq.
  change (_reserve_sequence_order (add_path_state p attr c))
    with (_reserve_sequence_order c) in *.
  destruct (stored_add_path_state_inv p attr c r k Hst) as [Hold|[Hnew Hk]].
  - apply stored_add_path_state_mono. now apply (Hcl r k).
  - pose proof (add_path_closure c _ p attr (add_path_ok p attr c Hne Hv) Hnew)
      as Hsub.
    apply list_elem_of_fmap in Hk as (q0 & -> & Hq0).
    destruct (canon_cases (_reserve_sequence_order c) q0) as [E|[Hres E]];
      rewrite E in *.
    + apply Hsub. eapply sub_paths_trans; eauto.
    + destruct Hcond as [Ht|Hnd]; [congruence|].
      assert (Hndq : NoDup (map str q)) by (eapply NoDup_str_sub_path; eauto).
      apply sub_paths_rev in Hq.
      pose proof (Hsub (rev q) (sub_paths_trans _ _ _ Hq Hq0)) as Hs.
      rewrite length_rev, Hres in *. now rewrite (canon_rev q Hndq) in Hs.
Qed.

Lemma sub_closed_empty_complex (reserve : bool) (allowed : gset Path) :
  sub_closed (empty_complex reserve allowed).
Proof. intros r k (b & Hb & _). simpl in Hb. now rewrite lookup_nil in Hb. Qed.

Section WithIteration.
Context `{SetIteration}.

Lemma sub_closed_remove_nodes (node_set : list Node) (c : state) :
  wf c -> sub_closed c -> sub_closed (snd (remove_nodes node_set c)).
Proof.
  intros Hwf Hcl.
  destruct (remove_nodes_spec node_set c Hwf) as (c' & -> & _ & Hs & _ & Hres & _).
  simpl snd. intros r k Hst Hcond q Hq. rewrite Hres in *.
  apply Hs in Hst as [Hst Hn]. apply Hs. split; [now apply (Hcl r k)|].
  intros Hex. apply Hn. apply Exists_exists in Hex as (node & Hnode & Hin).
  apply Exists_exists. exists node. split; [assumption|].
  apply elem_of_canon in Hin.
  apply elem_of_sub_paths in Hq as (i & len & _ & _ & ->).
  now apply subseteq_take, subseteq_drop in Hin.
Qed.

Lemma reachable_sub_closed (c : state) : reachable c -> sub_closed c.
Proof.
  induction 1 as [reserve allowed|c path attr Hr IH|c node_set Hr IH].
  - apply sub_closed_empty_complex.
  - destruct (add_path_cases path attr c (reachable_wf c Hr))
      as [(Hne & Hv & ->)|[e ->]]; [|assumption].
    now apply sub_closed_add_path_state.
  - apply sub_closed_remove_nodes; [now apply reachable_wf|assumption].
Qed.

Lemma add_path_sub_closed (c c' : state) (p : Path) (attr : Attrs) :
  reachable c -> add_path (ASeq p) attr c = (Ok tt, c') ->
  _reserve_sequence_order c = true \/ NoDup (map str p) ->
  forall q, q ∈ sub_paths p ->
    stored c' (length q - 1)%nat (canon (_reserve_sequence_order c) q).
Proof.
  intros Hr E Hcond q Hq.
  pose proof (reachable_sub_closed _ (reachable_add_path c (ASeq p) attr Hr)) as Hcl.
  destruct (add_path_cases (ASeq p) attr c (reachable_wf c Hr))
    as [(Hne & Hv & E')|[e E']]; rewrite E' in E; [|discriminate].
  injection E as <-. rewrite E' in Hcl. simpl in Hne, Hv, Hcl.
  apply (Hcl (length p - 1)%nat p); [|exact Hcond|exact Hq].
  now apply stored_add_path_state_self.
Qed.

End WithIteration.

End PathLattice.

Section SimplexLattice.
Import PyDict SimplicialComplex SimplexSpec.

Lemma present_add_face_inv fd face X :
  present (add_face fd face) X = true ->
  present fd X = true \/ X = list_to_set face.
Proof.
  unfold present, add_face.
  destruct (fd !! (length face - 1)%nat) as [b|] eqn:Hb; [|auto].
  destruct (mem b (list_to_set face)) eqn:Hm; [auto|].
  destruct (decide ((size X - 1)%nat = (length face - 1)%nat)) as [E|Hne].
  - rewrite E, Hb, list_lookup_insert_eq by (eapply lookup_lt_Some; eauto).
    intros HX. apply mem_keys in HX. apply mem_false_keys in Hm.
    rewrite keys_set_absent in HX by assumption.
    apply elem_of_app in HX as [HX|HX].
    + left. now apply mem_keys.
    + right. now apply list_elem_of_singleton in HX.
  - rewrite list_lookup_insert_ne by congruence. auto.
Qed.

Lemma present_fold_add_face_mono faces fd X :
  present fd X = true -> present (fold_left add_face faces fd) X = true.
Proof.
  revert fd. induction faces as [|f faces IH]; intros fd Hp; simpl; [assumption|].
  apply IH. now apply present_add_face_mono.
Qed.

Lemma present_fold_add_face_inv faces fd X :
  present (fold_left add_face faces fd) X = true ->
  present fd X = true \/ exists face, face ∈ faces /\ X = list_to_set face.
Proof.
  revert fd. induction faces as [|f faces IH]; intros fd; simpl; [auto|].
  intros Hp. destruct (IH _ Hp) as [Hp'|(face & Hin & ->)].
  - destruct (present_add_face_inv fd f X Hp') as [?| ->]; [now left|right].
    exists f. split; [apply list_elem_of_here|reflexivity].
  - right. exists face. split; [now apply list_elem_of_further|reflexivity].
Qed.

Lemma present_merge_attrs_inv fd r s attr X :
  present (merge_attrs fd r s attr) X = true -> present fd X = true.
Proof.
  unfold present, merge_attrs.
  destruct (fd !! r) as [b|] eqn:Hb; [|auto].
  destruct (get b s) as [d|] eqn:Hd; [|auto].
  destruct (decide ((size X - 1)%nat = r)) as [<-|Hne].
  - rewrite Hb, list_lookup_insert_eq by (eapply lookup_lt_Some; eauto).
    intros HX. apply mem_keys. apply mem_keys in HX.
    rewrite keys_set_present in HX; [assumption|]. apply get_Some_keys. eauto.
  - now rewrite list_lookup_insert_ne by congruence.
Qed.

Lemma insert_simplex_mono (sc sc' : state) (simplex : list Z) (attr : Attrs)
  (e : Result unit) (X : gset Z) :
  insert_simplex simplex attr sc = (e, sc') ->
  present (faces_dict (_simplex_set sc)) X = true ->
  present (faces_dict (_simplex_set sc')) X = true.
Proof.
  unfold insert_simplex. destruct (negb _ || _); intros [= <- <-]; [auto|].
  intros HX. simpl. apply present_merge_attrs.
  destruct (present _ (list_to_set simplex)).
  - now rewrite present_grow.
  - apply present_fold_add_face_mono. now rewrite present_grow.
Qed.

Lemma down_closed_insert_simplex (sc : state) (simplex : list Z) (attr : Attrs) :
  down_closed sc -> down_closed (snd (insert_simplex simplex attr sc)).
Proof.
  intros Hcl. destruct (insert_simplex simplex attr sc) as [e sc'] eqn:E.
  simpl snd. intros X Y HX HY Hne.
  pose proof E as E0. unfold insert_simplex in E0.
  destruct (negb _ || _) eqn:Hc; injection E0 as <- <-; [now apply (Hcl X Y)|].
  simpl in HX. apply present_merge_attrs_inv in HX.
  destruct (present (grow (length simplex) (faces_dict (_simplex_set sc)))
              (list_to_set simplex)) eqn:Hp.
  - rewrite present_grow in HX.
    apply (insert_simplex_mono sc _ simplex attr _ Y E). now apply (Hcl X Y).
  - apply present_fold_add_face_inv in HX as [HX|(face & Hin & ->)].
    + rewrite present_grow in HX.
      apply (insert_simplex_mono sc _ simplex attr _ Y E). now apply (Hcl X Y).
    + rewrite present_grow in Hp.
      apply (insert_simplex_closure sc _ simplex attr E Hp Y); [|assumption].
      etransitivity; [exact HY|].
      apply list_elem_of_In, in_flat_map in Hin as (k & _ & Hin).
      apply list_elem_of_In, combinations_sublist in Hin as [_ Hsub].
      intros x Hx. apply elem_of_list_to_set. apply elem_of_list_to_set in Hx.
      eapply sublist_subseteq; eauto.
Qed.

Lemma inserted_down_closed (sc : state) : inserted sc -> down_closed sc.
Proof.
  induction 1 as [|sc simplex attr _ IH].
  - intros X Y HX. discriminate.
  - now apply down_closed_insert_simplex.
Qed.

Lemma inserted_insert_closure (sc sc' : state) (simplex : list Z) (attr : Attrs) :
  inserted sc -> insert_simplex simplex attr sc = (Ok tt, sc') ->
  forall X : gset Z, X ⊆ list_to_set simplex -> X <> ∅ ->
    present (faces_dict (_simplex_set sc')) X = true.
Proof.
  intros Hins E X HX Hne.
  destruct (present (faces_dict (_simplex_set sc)) (list_to_set simplex)) eqn:Hp.
  - apply (insert_simplex_mono sc sc' simplex attr _ X E).
    now apply (inserted_down_closed sc Hins (list_to_set simplex) X).
  - now apply (insert_simplex_closure sc sc' simplex attr E Hp).
Qed.

End SimplexLattice.

Section ReachableConstructor.
Import PyDict PathComplex PathSpec.
Local Open Scope py_scope.
Context `{SetIteration}.

Lemma reachable_bind {A B : Type} (m : M A) (k : A -> M B) (c : state) :
  reachable (snd (m c)) ->
  (forall a c', reachable c' -> reachable (snd (k a c'))) ->
  reachable (snd (bind m k c)).
Proof.
  intros Hm Hk. rewrite bind_eq. destruct (m c) as [[a|e] c1]; simpl in *; auto.
Qed.

Lemma reachable_add_path_kw (path : PathArg) (data : Attrs) (c : state) :
  reachable c -> reachable (snd (add_path_kw path data c)).
Proof.
  intros Hr. unfold add_path_kw. destruct (kw_clash data); [exact Hr|].
  now apply reachable_add_path.
Qed.

Lemma reachable_for_each {X : Type} (l : list X) (f : X -> M unit) (c : state) :
  (forall x c', reachable c' -> reachable (snd (f x c'))) ->
  reachable c -> reachable (snd (for_each l f c)).
Proof.
  intros Hf. revert c. induction l as [|x l IH]; intros c Hr; [exact Hr|].
  simpl. apply reachable_bind; [now apply Hf|]. intros _ c'. apply IH.
Qed.

Lemma reachable_add_paths_from (paths : list Path) (c : state) :
  reachable c -> reachable (snd (add_paths_from paths c)).
Proof.
  apply reachable_for_each. intros p c'. apply reachable_add_path.
Qed.

(** The constructor leaves a complex that [add_path] builds from an empty
    one, whatever its outcome. *)
Lemma reachable_init (paths : PathsArg) (reserve : bool)
  (allowed : option (list Path)) (max_rank : Z) :
  reachable (snd (init paths reserve allowed max_rank)).
Proof.
  unfold init. destruct paths as [g|l|].
  - apply reachable_bind; [apply (reachable_empty reserve)|]. intros _ c1 Hr1.
    apply reachable_bind.
    { apply reachable_for_each; [|exact Hr1].
      intros [n data] c'. apply reachable_add_path_kw. }
    intros _ c2 Hr2. apply reachable_bind.
    { apply reachable_for_each; [|exact Hr2].
      intros [[u v] data] c'. destruct (_ && _); apply reachable_add_path_kw. }
    intros _ c3 Hr3. apply reachable_bind; [exact Hr3|].
    intros c4 c5. apply reachable_add_paths_from.
  - destruct (0 <? length l)%nat.
    + apply reachable_add_paths_from, reachable_empty.
    + apply reachable_empty.
  - apply reachable_empty.
Qed.

Lemma reachable_add_node (node : Node) (attr : Attrs) (c : state) :
  reachable c -> reachable (snd (add_node node attr c)).
Proof. apply reachable_add_path_kw. Qed.

End ReachableConstructor.

Section ClosureClaim.
Import PyDict.
Context `{SetIteration}.

(** C2 (amended). When [add_path] succeeds on a cell, every contiguous
    sub-sequence of the cell is stored afterwards at its rank, in canonical
    direction (reversed when its first node string-compares greater than its
    last, outside reserve-order mode), provided that the cell was not
    already present, or that the complex was produced by the constructor and
    the mutating methods and either is in reserve-order mode or the nodes of
    the cell have pairwise distinct strings. When the insertion of a simplex
    succeeds, every non-empty subset of its nodes is present afterwards at
    its rank, provided that the complex was built by [add_simplex] from the
    empty one or that the simplex was not already present. *)
Theorem insert_registers_sub_faces :
  (forall (c c' : PathComplex.state) (p : Path) (attr : Attrs),
     PathComplex.add_path (PathComplex.ASeq p) attr c = (Ok tt, c') ->
     ~ PathSpec.stored c (length p - 1)%nat p \/
     (PathSpec.reachable c /\
      (PathComplex._reserve_sequence_order c = true \/ NoDup (map str p))) ->
     forall i len : nat, (1 <= len)%nat -> (i + len <= length p)%nat ->
       PathSpec.stored c' (len - 1)%nat
         (PathSpec.canon (PathComplex._reserve_sequence_order c)
            (take len (drop i p)))) /\
  (forall (sc sc' : SimplicialComplex.state) (simplex : list Z) (attr : Attrs),
     SimplicialComplex.add_simplex simplex attr sc = (Ok tt, sc') ->
     SimplexSpec.inserted sc \/
     SimplicialComplex.present
       (SimplicialComplex.faces_dict (SimplicialComplex._simplex_set sc))
       (list_to_set simplex) = false ->
     forall X : gset Z, X ⊆ list_to_set simplex -> X <> ∅ ->
       SimplicialComplex.present
         (SimplicialComplex.faces_dict (SimplicialComplex._simplex_set sc'))
         X = true).
Proof.
  split.
  - intros c c' p attr E Hcond i len H1 H2.
    assert (Hq : take len (drop i p) ∈ PathComplex.sub_paths p).
    { apply elem_of_sub_paths. eauto. }
    assert (Hs : PathSpec.stored c' (length (take len (drop i p)) - 1)%nat
                   (PathSpec.canon (PathComplex._reserve_sequence_order c)
                      (take len (drop i p)))).
    { destruct Hcond as [Hnew|[Hr Hdir]].
      - exact (add_path_closure c c' p attr E Hnew _ Hq).
      - exact (add_path_sub_closed c c' p attr Hr E Hdir _ Hq). }
    rewrite length_take, length_drop in Hs.
    now replace (len `min` (length p - i))%nat with len in Hs by lia.
  - intros sc sc' simplex attr E [Hins|Hnew] X HX Hne.
    + eapply inserted_insert_closure; eauto.
    + eapply insert_simplex_closure; eauto.
Qed.

End ClosureClaim.

Lemma insert_registers_sub_faces_witness :
  PathSpec.stored
    (snd (PathComplex.add_path (PathComplex.ASeq [NInt 1; NInt 0; NInt 2]) ∅
            (snd (PathComplex.add_path (PathComplex.ASeq [NInt 1; NInt 0; NInt 2]) ∅
                    (PathComplex.empty_complex false ∅)))))
    1 [NInt 0; NInt 1] /\
  SimplicialComplex.present
    (SimplicialComplex.faces_dict (SimplicialComplex._simplex_set
       (snd (SimplicialComplex.add_simplex [1; 2; 3] ∅
          (snd (SimplicialComplex.add_simplex [1; 2; 3] ∅
                  SimplexSpec.empty_complex))))))
    {[1; 3]} = true.
Proof.
  split.
  - apply (proj1 (insert_registers_sub_faces (H := list_order))
             (snd (PathComplex.add_path (PathComplex.ASeq [NInt 1; NInt 0; NInt 2]) ∅
                     (PathComplex.empty_complex false ∅))) _
             [NInt 1; NInt 0; NInt 2] ∅ eq_refl) with (i := 0%nat) (len := 2%nat).
    + right. split.
      * apply PathSpec.reachable_add_path, PathSpec.reachable_empty.
      * right. apply (bool_decide_unpack (NoDup (map str [NInt 1; NInt 0; NInt 2]))).
        vm_compute. reflexivity.
    + lia.
    + simpl. lia.
  - apply (proj2 (insert_registers_sub_faces (H := list_order))
             (snd (SimplicialComplex.add_simplex [1; 2; 3] ∅ SimplexSpec.empty_complex))
             _ [1; 2; 3] ∅ eq_refl).
    + left. apply SimplexSpec.inserted_add_simplex, SimplexSpec.inserted_empty.
    + set_solver.
    + set_solver.
Defined.

(** C2, as stated, fails for a cell that is already present and has two
    nodes with the same string. Here the cell ("1", 1, 2) was stored as the
    reversal of a slice of (2, 1, "1", 3); after node 3 is removed it is
    maximal, and inserting it again leaves its sub-path ("1", 1) out of the
    lattice. *)
Lemma duplicate_insert_skips_sub_path :
  let c0 := PathComplex.empty_complex false ∅ in
  let c1 := snd (PathComplex.add_path
                   (PathComplex.ASeq [NInt 2; NInt 1; NStr "1"; NInt 3]) ∅ c0) in
  let c2 := snd (PathComplex.remove_nodes (H := list_order) [NInt 3] c1) in
  let cell := [NStr "1"; NInt 1; NInt 2] in
  let r := PathComplex.add_path (PathComplex.ASeq cell) ∅ c2 in
  map PyDict.keys (PathComplex.faces_dict (PathComplex._path_set c2))
  = [ [[NInt 2]; [NInt 1]; [NStr "1"]];
      [[NInt 1; NInt 2]; [NInt 1; NStr "1"]];
      [cell];
      [] ] /\
  fst r = Ok tt /\
  PathSpec.canon false (take 2 (drop 0 cell)) = [NStr "1"; NInt 1] /\
  ~ PathSpec.stored (snd r) 1 [NStr "1"; NInt 1].
Proof.
  repeat split; try (vm_compute; reflexivity).
  intros Hs. apply stored_iff in Hs. vm_compute in Hs. discriminate.
Qed.

(** ** The buckets of the complexes that [add_simplex] builds *)

Section RankedLattice.
Import PyDict SimplicialComplex SimplexSpec.

Lemma ranked_lattice_iff (sc : state) :
  ranked_lattice sc = true <-> ranked (faces_dict (_simplex_set sc)).
Proof.
  unfold ranked_lattice, ranked. rewrite forallb_forall. split.
  - intros Hall r b Hb.
    specialize (Hall (r, b) (proj1 (list_elem_of_In _ _)
                               (proj2 (elem_of_enumerate_nat _ r b) Hb))).
    simpl in Hall. unfold ranked_bucket in Hall.
    apply andb_prop in Hall as [Hnd Hks]. apply bool_decide_eq_true in Hnd.
    split; [assumption|]. intros s Hs. rewrite forallb_forall in Hks.
    apply Nat.eqb_eq, Hks, list_elem_of_In, Hs.
  - intros Hr [r b] Hin. apply list_elem_of_In, elem_of_enumerate_nat in Hin.
    destruct (Hr r b Hin) as [Hnd Hks]. unfold ranked_bucket.
    apply andb_true_intro. split; [now apply bool_decide_eq_true|].
    apply forallb_forall. intros s Hs. apply Nat.eqb_eq, Hks, list_elem_of_In, Hs.
Qed.

Lemma ranked_grow (n : nat) fd : ranked fd -> ranked (grow n fd).
Proof.
  intros Hr r b Hb. unfold grow in Hb.
  apply lookup_app_Some in Hb as [Hb|[_ Hb]]; [now apply Hr|].
  apply lookup_replicate in Hb as [-> _]. split; [constructor|].
  intros s Hs. now apply elem_of_nil in Hs.
Qed.

Lemma ranked_add_face fd (face : list Z) :
  NoDup face -> face <> [] -> ranked fd -> ranked (add_face fd face).
Proof.
  intros Hnd Hne Hr. unfold add_face.
  destruct (fd !! (length face - 1)%nat) as [b|] eqn:Hb; [|assumption].
  destruct (mem b (list_to_set face)) eqn:Hm; [assumption|].
  apply mem_false_keys in Hm.
  intros r b' Hb'. destruct (decide (r = (length face - 1)%nat)) as [->|Hrn].
  - rewrite list_lookup_insert_eq in Hb' by (eapply lookup_lt_Some; eauto).
    injection Hb' as <-. destruct (Hr _ b Hb) as [Hndb Hsz].
    rewrite keys_set_absent by assumption. split.
    + apply NoDup_app. split; [assumption|]. split; [|apply NoDup_singleton].
      intros s Hs Hs'. apply list_elem_of_singleton in Hs'. now subst s.
    + intros s [Hs|Hs]%elem_of_app; [now apply Hsz|].
      apply list_elem_of_singleton in Hs as ->.
      rewrite size_list_to_set by assumption.
      destruct face; [contradiction|simpl; lia].
  - rewrite list_lookup_insert_ne in Hb' by congruence. now apply Hr.
Qed.

Lemma ranked_fold_add_face faces fd :
  Forall (fun face => NoDup face /\ face <> []) faces ->
  ranked fd -> ranked (fold_left add_face faces fd).
Proof.
  revert fd. induction faces as [|f faces IH]; intros fd Hall Hr; [assumption|].
  apply Forall_cons in Hall as [[Hnd Hne] Hall]. simpl.
  apply IH; [assumption|]. now apply ranked_add_face.
Qed.

Lemma ranked_merge_attrs fd r s attr : ranked fd -> ranked (merge_attrs fd r s attr).
Proof.
  intros Hr. unfold merge_attrs.
  destruct (fd !! r) as [b|] eqn:Hb; [|assumption].
  destruct (get b s) as [d|] eqn:Hd; [|assumption].
  intros r' b' Hb'. destruct (decide (r' = r)) as [->|Hrn].
  - rewrite list_lookup_insert_eq in Hb' by (eapply lookup_lt_Some; eauto).
    injection Hb' as <-. rewrite keys_set_present; [now apply Hr|].
    apply get_Some_keys. eauto.
  - rewrite list_lookup_insert_ne in Hb' by congruence. now apply Hr.
Qed.

Lemma ranked_insert_simplex (simplex : list Z) (attr : Attrs) (sc : state) :
  ranked (faces_dict (_simplex_set sc)) ->
  ranked (faces_dict (_simplex_set (snd (insert_simplex simplex attr sc)))).
Proof.
  intros Hr. unfold insert_simplex.
  destruct (negb _ || _) eqn:Hc; [assumption|].
  apply orb_false_elim in Hc as [Hd _].
  apply negb_false_iff, Nat.eqb_eq in Hd. apply NoDup_length_remove_dups in Hd.
  simpl. apply ranked_merge_attrs.
  destruct (present _ _); [now apply ranked_grow|].
  apply ranked_fold_add_face; [|now apply ranked_grow].
  apply Forall_forall. intros face Hin.
  apply list_elem_of_In, in_flat_map in Hin as (k & Hk & Hin).
  apply in_seq in Hk.
  apply list_elem_of_In, combinations_sublist in Hin as [Hlen Hsub].
  split; [eauto using sublist_NoDup|].
  intros ->. simpl in Hlen. lia.
Qed.

(** The hypothesis of the theorems on the simplicial operators holds of
    every complex that [add_simplex] builds. *)
Lemma inserted_ranked_lattice (sc : state) :
  inserted sc -> ranked_lattice sc = true.
Proof.
  intros Hins. apply ranked_lattice_iff.
  induction Hins as [|sc simplex attr _ IH].
  - intros r b Hb. simpl in Hb. now rewrite lookup_nil in Hb.
  - now apply ranked_insert_simplex.
Qed.

End RankedLattice.
